(** * Real-time ANPR pipeline: a shallow embedding of the processing core

    The development follows the Python sources module by module:
    [tracking/engine.py] (IoU, Kalman filter, tracker), [core/events.py]
    (tracks and their plate store), [ocr/engine.py] (admission, Levenshtein
    distance, reading fusion), [events/engine.py] (entry/exit state machine
    with plate deduplication), [database/manager.py] (bounded write queue)
    and [main.py] (the per-frame processing step).

    Modelling conventions.
    - Python [float] values are exact rationals ([Q]); rounding is not
      modelled.  Python [int] values are [Z].
    - A [datetime] is its number of microseconds ([Z]); a [timedelta] is a
      difference of two such numbers and [total_seconds()] divides by 10^6.
    - [datetime.now()] reads a wall clock: the [n]-th call of a run returns
      [wall n].  Code that reads the clock lives in the state monad [Clk].
    - A Python [dict] whose iteration order is observable is an
      insertion-ordered association list; other dicts are [gmap]s. *)

From Stdlib Require Import ZArith QArith Lia Lqa Sorting.Sorted Permutation.
From Stdlib Require Import Ascii String.
From stdpp Require Import gmap strings list.

Open Scope Z_scope.

(** ** Rational helpers mirroring Python's comparison operators *)

Definition Qltb (a b : Q) : bool := negb (Qle_bool b a).
Definition Qleb (a b : Q) : bool := Qle_bool a b.

(** [max(a, b)] and [min(a, b)] of Python: the first argument wins ties. *)
Definition py_max (a b : Q) : Q := if Qltb a b then b else a.
Definition py_min (a b : Q) : Q := if Qltb b a then b else a.

(** ** The wall clock *)

Record Clock := mkClock { wall : nat -> Z; tick : nat }.

Definition Clk (A : Type) : Type := Clock -> A * Clock.

Definition ret {A} (x : A) : Clk A := fun c => (x, c).
Definition bind {A B} (m : Clk A) (k : A -> Clk B) : Clk B :=
  fun c => let '(a, c') := m c in k a c'.

Notation "'do' x <- m ; k" := (bind m (fun x => k))
  (at level 10, x pattern, m at level 100, k at level 200).

(** [datetime.now()] *)
Definition now : Clk Z :=
  fun c => (wall c (tick c), mkClock (wall c) (S (tick c))).

(** [(a - b).total_seconds()] *)
Definition total_seconds (a b : Z) : Q := (inject_Z (a - b) / 1000000)%Q.

(** A clock that never runs backwards. *)
Definition monotone (w : nat -> Z) : Prop :=
  forall i j : nat, (i <= j)%nat -> w i <= w j.

(** ** Geometry ([tracking/engine.py]) *)

(** A box [[x1, y1, x2, y2]]. *)
Record BBox := mkBBox { bx1 : Q; by1 : Q; bx2 : Q; by2 : Q }.

Definition inter_x1 (a b : BBox) : Q := py_max (bx1 a) (bx1 b).
Definition inter_y1 (a b : BBox) : Q := py_max (by1 a) (by1 b).
Definition inter_x2 (a b : BBox) : Q := py_min (bx2 a) (bx2 b).
Definition inter_y2 (a b : BBox) : Q := py_min (by2 a) (by2 b).

Definition intersection_area (a b : BBox) : Q :=
  ((inter_x2 a b - inter_x1 a b) * (inter_y2 a b - inter_y1 a b))%Q.

Definition box_area (a : BBox) : Q := ((bx2 a - bx1 a) * (by2 a - by1 a))%Q.

Definition union_area (a b : BBox) : Q :=
  (box_area a + box_area b - intersection_area a b)%Q.

(** The test of the early [return 0.0]. *)
Definition empty_overlapb (a b : BBox) : bool :=
  Qltb (inter_x2 a b) (inter_x1 a b) || Qltb (inter_y2 a b) (inter_y1 a b).

Definition iou (bbox1 bbox2 : BBox) : Q :=
  let x1_i := py_max (bx1 bbox1) (bx1 bbox2) in
  let y1_i := py_max (by1 bbox1) (by1 bbox2) in
  let x2_i := py_min (bx2 bbox1) (bx2 bbox2) in
  let y2_i := py_min (by2 bbox1) (by2 bbox2) in
  if Qltb x2_i x1_i || Qltb y2_i y1_i then 0%Q
  else
    let intersection := ((x2_i - x1_i) * (y2_i - y1_i))%Q in
    let area1 := ((bx2 bbox1 - bx1 bbox1) * (by2 bbox1 - by1 bbox1))%Q in
    let area2 := ((bx2 bbox2 - bx1 bbox2) * (by2 bbox2 - by1 bbox2))%Q in
    let union := (area1 + area2 - intersection)%Q in
    if Qltb 0 union then (intersection / union)%Q else 0%Q.

(** The boxes overlap in no point: the intersection rectangle is inverted. *)
Definition empty_overlap (a b : BBox) : Prop :=
  (inter_x2 a b < inter_x1 a b)%Q \/ (inter_y2 a b < inter_y1 a b)%Q.

(** Well-formed boxes of the data model: [x2 > x1] and [y2 > y1]. *)
Definition well_formed (a : BBox) : Prop := (bx1 a < bx2 a)%Q /\ (by1 a < by2 a)%Q.

Definition unit_box : BBox := mkBBox 0 0 2 2.
Definition shifted_box : BBox := mkBBox 1 1 3 3.

(** ** Event types and tracks ([core/events.py]) *)

Inductive TrackState := TENTATIVE | CONFIRMED | LOST | DELETED.
Inductive VehicleState := OUTSIDE | APPROACHING | INSIDE | EXITING | LOGGED.
Inductive VehicleType := CAR | MOTORCYCLE | BUS | TRUCK | UNKNOWN.

Global Instance TrackState_eq_dec : EqDecision TrackState.
Proof. solve_decision. Defined.
Global Instance VehicleState_eq_dec : EqDecision VehicleState.
Proof. solve_decision. Defined.
Global Instance VehicleType_eq_dec : EqDecision VehicleType.
Proof. solve_decision. Defined.

(** Modelled from the spec: the detector adapter ([perception/detector.py])
    is not among the sources; it "normalizes class IDs to vehicle types", so
    a detection's [class_name] is one of the five [VehicleType] values and
    [VehicleType(detection.class_name)] is the identity. *)
Record Detection := mkDetection {
  det_bbox : BBox;
  det_confidence : Q;
  class_id : Z;
  class_name : VehicleType
}.

(** One entry of [Track.plate_readings]:
    [{'text': ..., 'confidence': ..., 'timestamp': ...}]. *)
Record Reading := mkReading {
  r_text : string;
  r_confidence : Q;
  r_timestamp : Z
}.

Record Track := mkTrack {
  track_id : Z;
  camera_id : Z;
  state : TrackState;
  vehicle_type : VehicleType;
  first_seen : Z;
  last_seen : Z;
  bbox : BBox;
  confidence : Q;
  color : option string;
  velocity : option (Q * Q);
  hits : Z;
  age : Z;
  time_since_update : Z;
  plate_readings : list Reading;
  plate_text : option string;
  plate_confidence : option Q;
  plate_locked : bool;
  vehicle_state : VehicleState;
  entry_time : option Z;
  exit_time : option Z
}.

(** Field assignments [t.f = v]. *)
Definition set_state (v : TrackState) (t : Track) : Track :=
  mkTrack (track_id t) (camera_id t) v (vehicle_type t) (first_seen t)
    (last_seen t) (bbox t) (confidence t) (color t) (velocity t) (hits t)
    (age t) (time_since_update t) (plate_readings t) (plate_text t)
    (plate_confidence t) (plate_locked t) (vehicle_state t) (entry_time t)
    (exit_time t).

Definition set_vehicle_type (v : VehicleType) (t : Track) : Track :=
  mkTrack (track_id t) (camera_id t) (state t) v (first_seen t)
    (last_seen t) (bbox t) (confidence t) (color t) (velocity t) (hits t)
    (age t) (time_since_update t) (plate_readings t) (plate_text t)
    (plate_confidence t) (plate_locked t) (vehicle_state t) (entry_time t)
    (exit_time t).

Definition set_velocity (v : option (Q * Q)) (t : Track) : Track :=
  mkTrack (track_id t) (camera_id t) (state t) (vehicle_type t) (first_seen t)
    (last_seen t) (bbox t) (confidence t) (color t) v (hits t)
    (age t) (time_since_update t) (plate_readings t) (plate_text t)
    (plate_confidence t) (plate_locked t) (vehicle_state t) (entry_time t)
    (exit_time t).

Definition set_vehicle_state (v : VehicleState) (t : Track) : Track :=
  mkTrack (track_id t) (camera_id t) (state t) (vehicle_type t) (first_seen t)
    (last_seen t) (bbox t) (confidence t) (color t) (velocity t) (hits t)
    (age t) (time_since_update t) (plate_readings t) (plate_text t)
    (plate_confidence t) (plate_locked t) v (entry_time t) (exit_time t).

Definition set_plate_readings (v : list Reading) (t : Track) : Track :=
  mkTrack (track_id t) (camera_id t) (state t) (vehicle_type t) (first_seen t)
    (last_seen t) (bbox t) (confidence t) (color t) (velocity t) (hits t)
    (age t) (time_since_update t) v (plate_text t)
    (plate_confidence t) (plate_locked t) (vehicle_state t) (entry_time t)
    (exit_time t).

(** The three assignments of the prediction loop of [TrackingEngine.update]:
    [bbox = predicted_bbox; age += 1; time_since_update += 1]. *)
Definition apply_prediction (predicted_bbox : BBox) (t : Track) : Track :=
  mkTrack (track_id t) (camera_id t) (state t) (vehicle_type t) (first_seen t)
    (last_seen t) predicted_bbox (confidence t) (color t) (velocity t) (hits t)
    (age t + 1) (time_since_update t + 1) (plate_readings t) (plate_text t)
    (plate_confidence t) (plate_locked t) (vehicle_state t) (entry_time t)
    (exit_time t).

(** [Track.update_bbox] *)
Definition update_bbox (t : Track) (b : BBox) (conf : Q) : Clk Track :=
  do t_now <- now;
  ret (mkTrack (track_id t) (camera_id t) (state t) (vehicle_type t)
         (first_seen t) t_now b conf (color t) (velocity t) (hits t + 1)
         (age t) 0 (plate_readings t) (plate_text t)
         (plate_confidence t) (plate_locked t) (vehicle_state t)
         (entry_time t) (exit_time t)).

(** [Track.add_plate_reading]: the clock is read only when the reading is
    stored. *)
Definition add_plate_reading (t : Track) (text : string) (conf : Q) : Clk Track :=
  if negb (plate_locked t) then
    do t_now <- now;
    ret (set_plate_readings (plate_readings t ++ [mkReading text conf t_now]) t)
  else ret t.

(** [Track.finalize_plate] *)
Definition finalize_plate (t : Track) (text : string) (conf : Q) : Track :=
  mkTrack (track_id t) (camera_id t) (state t) (vehicle_type t) (first_seen t)
    (last_seen t) (bbox t) (confidence t) (color t) (velocity t) (hits t)
    (age t) (time_since_update t) (plate_readings t) (Some text)
    (Some conf) true (vehicle_state t) (entry_time t) (exit_time t).

(** ** Insertion-ordered dictionaries

    [TrackingEngine.tracks] and [TrackingEngine.kalman_filters] are Python
    dicts whose iteration order (insertion order) fixes the row order of the
    IoU matrix, so they are association lists.  [d[k] = v] replaces in place
    or appends; [del d[k]] removes.  Python raises [KeyError] on [d[k]] and
    [del d[k]] for a missing key; here [dict_get] returns [None] and
    [dict_alter]/[dict_del] leave the dict unchanged. *)

Section Dict.
Context {V : Type}.

Fixpoint dict_get (k : Z) (d : list (Z * V)) : option V :=
  match d with
  | [] => None
  | (k', v) :: d' => if Z.eqb k k' then Some v else dict_get k d'
  end.

Fixpoint dict_set (k : Z) (v : V) (d : list (Z * V)) : list (Z * V) :=
  match d with
  | [] => [(k, v)]
  | (k', v') :: d' =>
      if Z.eqb k k' then (k, v) :: d' else (k', v') :: dict_set k v d'
  end.

Fixpoint dict_alter (f : V -> V) (k : Z) (d : list (Z * V)) : list (Z * V) :=
  match d with
  | [] => []
  | (k', v) :: d' =>
      if Z.eqb k k' then (k', f v) :: d' else (k', v) :: dict_alter f k d'
  end.

Fixpoint dict_del (k : Z) (d : list (Z * V)) : list (Z * V) :=
  match d with
  | [] => []
  | (k', v) :: d' => if Z.eqb k k' then d' else (k', v) :: dict_del k d'
  end.

Definition dict_keys (d : list (Z * V)) : list Z := map fst d.
Definition dict_values (d : list (Z * V)) : list V := map snd d.
Definition dict_mem (k : Z) (d : list (Z * V)) : bool :=
  match dict_get k d with Some _ => true | None => false end.
End Dict.

(** ** Dense linear algebra over [Q] (the numpy operations the filter uses)

    Every entry an operation produces is stored in lowest terms ([Qred]),
    which does not change its value. *)

Definition QVec := list Q.
Definition QMat := list (list Q).

Definition qadd (a b : Q) : Q := Qred (a + b).
Definition qsub (a b : Q) : Q := Qred (a - b).
Definition qmul (a b : Q) : Q := Qred (a * b).

Definition dot (u v : QVec) : Q := foldr qadd 0%Q (zip_with qmul u v).
Definition column (j : nat) (A : QMat) : QVec := map (fun row => nth j row 0%Q) A.
Definition ncols (A : QMat) : nat :=
  match A with [] => 0%nat | row :: _ => length row end.
Definition transpose (A : QMat) : QMat :=
  map (fun j => column j A) (seq 0 (ncols A)).
Definition mat_vec (A : QMat) (v : QVec) : QVec := map (fun row => dot row v) A.
Definition mat_mul (A B : QMat) : QMat :=
  map (fun row => map (fun j => dot row (column j B)) (seq 0 (ncols B))) A.
Definition vec_add (u v : QVec) : QVec := zip_with qadd u v.
Definition vec_sub (u v : QVec) : QVec := zip_with qsub u v.
Definition mat_add (A B : QMat) : QMat := zip_with vec_add A B.
Definition mat_sub (A B : QMat) : QMat := zip_with vec_sub A B.
Definition mat_scale (c : Q) (A : QMat) : QMat := map (map (qmul c)) A.

(** [np.eye(n, m)] *)
Definition eye (n m : nat) : QMat :=
  map (fun i => map (fun j => if Nat.eqb i j then 1%Q else 0%Q) (seq 0 m)) (seq 0 n).

(** [A[i, j] = v] *)
Definition mat_set (i j : nat) (v : Q) (A : QMat) : QMat :=
  alter (fun row => <[j := v]> row) i A.

(** [np.linalg.inv] by Gauss-Jordan elimination on [A | I]; [None] stands
    for numpy's [LinAlgError] on a singular matrix. *)
Fixpoint take_pivot (j : nat) (rows : QMat) : option (QVec * QMat) :=
  match rows with
  | [] => None
  | r :: rest =>
      if Qeq_bool (nth j r 0%Q) 0 then
        match take_pivot j rest with
        | Some (p, rest') => Some (p, r :: rest')
        | None => None
        end
      else Some (r, rest)
  end.

Fixpoint gauss_jordan (cols : list nat) (done todo : QMat) : option QMat :=
  match cols with
  | [] => Some done
  | j :: cols' =>
      match take_pivot j todo with
      | None => None
      | Some (p, rest) =>
          let p' := map (fun x => Qred (x / nth j p 0)%Q) p in
          let elim := fun r : QVec =>
            zip_with (fun x y => Qred (x - nth j r 0 * y)%Q) r p' in
          gauss_jordan cols' (map elim done ++ [p']) (map elim rest)
      end
  end.

Definition linalg_inv (A : QMat) : option QMat :=
  let n := length A in
  match gauss_jordan (seq 0 n) [] (zip_with app A (eye n n)) with
  | Some rows => Some (map (drop n) rows)
  | None => None
  end.

(** ** Kalman filter ([tracking/engine.py], class [KalmanFilter]) *)

Record KalmanFilter := mkKalman {
  kf_state : QVec;   (* [x, y, w, h, vx, vy, vw, vh] *)
  kf_P : QMat;
  kf_F : QMat;
  kf_H : QMat;
  kf_Q : QMat;
  kf_R : QMat
}.

Definition KalmanFilter_init (b : BBox) : KalmanFilter :=
  mkKalman
    [ ((bx1 b + bx2 b) / 2)%Q; ((by1 b + by2 b) / 2)%Q;
      (bx2 b - bx1 b)%Q; (by2 b - by1 b)%Q; 0%Q; 0%Q; 0%Q; 0%Q ]
    (mat_scale 10 (eye 8 8))
    (mat_set 3 7 1 (mat_set 2 6 1 (mat_set 1 5 1 (mat_set 0 4 1 (eye 8 8)))))
    (eye 4 8)
    (mat_scale (1 / 10) (eye 8 8))
    (mat_scale 1 (eye 4 4)).

Definition get_bbox (kf : KalmanFilter) : BBox :=
  let cx := nth 0 (kf_state kf) 0%Q in
  let cy := nth 1 (kf_state kf) 0%Q in
  let w := nth 2 (kf_state kf) 0%Q in
  let h := nth 3 (kf_state kf) 0%Q in
  mkBBox (cx - w / 2) (cy - h / 2) (cx + w / 2) (cy + h / 2).

Definition get_velocity (kf : KalmanFilter) : Q * Q :=
  (nth 4 (kf_state kf) 0%Q, nth 5 (kf_state kf) 0%Q).

Definition kf_predict (kf : KalmanFilter) : KalmanFilter * BBox :=
  let kf' :=
    mkKalman (mat_vec (kf_F kf) (kf_state kf))
      (mat_add (mat_mul (mat_mul (kf_F kf) (kf_P kf)) (transpose (kf_F kf)))
         (kf_Q kf))
      (kf_F kf) (kf_H kf) (kf_Q kf) (kf_R kf) in
  (kf', get_bbox kf').

(** [KalmanFilter.update].  A singular innovation covariance makes
    [np.linalg.inv] raise; [S = H P H^T + R] with [R] the identity and [P] a
    covariance is positive definite, so that branch is not taken by the
    filters the tracker builds, and the model leaves the filter as it is
    there. *)
Definition kf_update (kf : KalmanFilter) (b : BBox) : KalmanFilter :=
  let measurement : QVec :=
    [ ((bx1 b + bx2 b) / 2)%Q; ((by1 b + by2 b) / 2)%Q;
      (bx2 b - bx1 b)%Q; (by2 b - by1 b)%Q ] in
  let y := vec_sub measurement (mat_vec (kf_H kf) (kf_state kf)) in
  let S := mat_add (mat_mul (mat_mul (kf_H kf) (kf_P kf)) (transpose (kf_H kf)))
             (kf_R kf) in
  match linalg_inv S with
  | Some S_inv =>
      let K := mat_mul (mat_mul (kf_P kf) (transpose (kf_H kf))) S_inv in
      mkKalman (vec_add (kf_state kf) (mat_vec K y))
        (mat_mul (mat_sub (eye 8 8) (mat_mul K (kf_H kf))) (kf_P kf))
        (kf_F kf) (kf_H kf) (kf_Q kf) (kf_R kf)
  | None => kf
  end.

(** ** Tracker ([tracking/engine.py], class [TrackingEngine]) *)

Record TrackingConfig := mkTrackingConfig {
  max_lost_frames : Z;
  min_hits : Z;
  iou_threshold : Q;
  max_age : Z
}.

Record TrackingEngine := mkTracker {
  tr_config : TrackingConfig;
  tr_camera_id : Z;
  tracks : list (Z * Track);
  next_track_id : Z;
  kalman_filters : list (Z * KalmanFilter);
  total_tracks : Z;
  active_tracks : Z
}.

Definition TrackingEngine_init (config : TrackingConfig) (cam : Z) : TrackingEngine :=
  mkTracker config cam [] 1 [] 0 0.

(** A candidate of the association step: [(i, j, iou_matrix[i, j])]. *)
Definition Cell : Type := nat * nat * Q.
Definition cell_iou (c : Cell) : Q := snd c.

(** [iou_matrix]: one row per key of [self.tracks], one column per detection;
    a row whose key had no track would keep the zeros of [np.zeros]. *)
Definition build_iou_matrix (trks : list (Z * Track)) (track_ids : list Z)
    (detections : list Detection) : QMat :=
  map (fun track_id =>
         match dict_get track_id trks with
         | Some track => map (fun d => iou (bbox track) (det_bbox d)) detections
         | None => map (fun _ => 0%Q) detections
         end) track_ids.

Definition matrix_at (M : QMat) (i j : nat) : Q := nth j (nth i M []) 0%Q.

(** The two nested [for] loops that collect the cells above the threshold. *)
Definition collect_matches (M : QMat) (n_tracks n_dets : nat) (threshold : Q)
    : list Cell :=
  flat_map (fun i =>
    flat_map (fun j =>
      if Qltb threshold (matrix_at M i j) then [(i, j, matrix_at M i j)] else [])
      (seq 0 n_dets))
    (seq 0 n_tracks).

(** [matches.sort(key=lambda x: x[2], reverse=True)].  Python's sort is
    stable, also under [reverse=True]: cells with equal keys keep their
    relative order.  A stable sort has one possible result
    ([stable_sort_unique] below), produced here by insertion. *)
Fixpoint insert_desc (c : Cell) (l : list Cell) : list Cell :=
  match l with
  | [] => [c]
  | c' :: l' =>
      if Qltb (cell_iou c) (cell_iou c') then c' :: insert_desc c l' else c :: l
  end.

Definition sort_desc (l : list Cell) : list Cell := foldr insert_desc [] l.

(** One iteration of the greedy loop over the sorted cells. *)
Definition greedy_step (track_ids : list Z)
    (acc : list (Z * nat) * gset nat * gset Z) (c : Cell)
    : list (Z * nat) * gset nat * gset Z :=
  let '(matched, unmatched_dets, unmatched_tracks) := acc in
  let '(i, j, _) := c in
  let track_id := nth i track_ids 0 in
  if bool_decide (track_id ∈ unmatched_tracks) && bool_decide (j ∈ unmatched_dets)
  then (matched ++ [(track_id, j)], unmatched_dets ∖ {[j]},
        unmatched_tracks ∖ {[track_id]})
  else acc.

(** [TrackingEngine._match].  [list(s)] of a set is modelled as the
    enumeration the set was built from, filtered by membership. *)
Definition _match (eng : TrackingEngine) (detections : list Detection)
    : list (Z * nat) * list nat * list Z :=
  match tracks eng, detections with
  | [], _ | _, [] =>
      ([], seq 0 (length detections), dict_keys (tracks eng))
  | _, _ =>
      let track_ids := dict_keys (tracks eng) in
      let iou_matrix := build_iou_matrix (tracks eng) track_ids detections in
      let matches :=
        collect_matches iou_matrix (length track_ids) (length detections)
          (iou_threshold (tr_config eng)) in
      let matches := sort_desc matches in
      let '(matched, unmatched_dets, unmatched_tracks) :=
        fold_left (greedy_step track_ids) matches
          ([], list_to_set (seq 0 (length detections)), list_to_set track_ids) in
      (matched,
       filter (fun j => j ∈ unmatched_dets) (seq 0 (length detections)),
       filter (fun tid => tid ∈ unmatched_tracks) track_ids)
  end.

(** Iteration in the clock monad. *)
Fixpoint fold_clk {A S : Type} (f : S -> A -> Clk S) (l : list A) (s : S) : Clk S :=
  match l with
  | [] => ret s
  | x :: l' => do s' <- f s x; fold_clk f l' s'
  end.

(** The prediction loop at the head of [update]. *)
Definition predict_all (eng : TrackingEngine) : TrackingEngine :=
  mkTracker (tr_config eng) (tr_camera_id eng)
    (fold_left (fun trks '(track_id, kf) =>
                  dict_alter (apply_prediction (snd (kf_predict kf))) track_id trks)
       (kalman_filters eng) (tracks eng))
    (next_track_id eng)
    (map (fun '(track_id, kf) => (track_id, fst (kf_predict kf))) (kalman_filters eng))
    (total_tracks eng) (active_tracks eng).

(** The two state transitions applied to a matched track. *)
Definition confirm_matched (config : TrackingConfig) (track : Track) : Track :=
  let track :=
    if bool_decide (state track = TENTATIVE) && (min_hits config <=? hits track)
    then set_state CONFIRMED track else track in
  if bool_decide (state track = LOST) then set_state CONFIRMED track else track.

(** Body of [for track_id, det_idx in matched].  The three lookups succeed
    for the pairs [_match] returns (Python would raise otherwise). *)
Definition update_matched (detections : list Detection) (eng : TrackingEngine)
    (m : Z * nat) : Clk TrackingEngine :=
  let '(track_id, det_idx) := m in
  match detections !! det_idx, dict_get track_id (tracks eng),
        dict_get track_id (kalman_filters eng) with
  | Some detection, Some track, Some kf =>
      let kf := kf_update kf (det_bbox detection) in
      do track <- update_bbox track (get_bbox kf) (det_confidence detection);
      let track := set_vehicle_type (class_name detection) track in
      let track := set_velocity (Some (get_velocity kf)) track in
      let track := confirm_matched (tr_config eng) track in
      ret (mkTracker (tr_config eng) (tr_camera_id eng)
             (dict_set track_id track (tracks eng)) (next_track_id eng)
             (dict_set track_id kf (kalman_filters eng))
             (total_tracks eng) (active_tracks eng))
  | _, _, _ => ret eng
  end.

(** [TrackingEngine._create_track] *)
Definition _create_track (eng : TrackingEngine) (detection : Detection)
    (frame_height : Z) : Clk TrackingEngine :=
  let track_id := next_track_id eng in
  do t_now <- now;
  let track :=
    mkTrack track_id (tr_camera_id eng) TENTATIVE (class_name detection)
      t_now t_now (det_bbox detection) (det_confidence detection)
      None None 1 0 0 [] None None false OUTSIDE None None in
  ret (mkTracker (tr_config eng) (tr_camera_id eng)
         (dict_set track_id track (tracks eng)) (next_track_id eng + 1)
         (dict_set track_id (KalmanFilter_init (det_bbox detection))
            (kalman_filters eng))
         (total_tracks eng + 1) (active_tracks eng)).

Definition create_unmatched (detections : list Detection) (frame_height : Z)
    (eng : TrackingEngine) (det_idx : nat) : Clk TrackingEngine :=
  match detections !! det_idx with
  | Some detection => _create_track eng detection frame_height
  | None => ret eng
  end.

(** Body of [for track_id in unmatched_tracks]. *)
Definition mark_lost (config : TrackingConfig) (track : Track) : Track :=
  let track :=
    if bool_decide (state track = CONFIRMED) then set_state LOST track else track in
  if max_lost_frames config <? time_since_update track
  then set_state DELETED track else track.

Definition handle_unmatched (eng : TrackingEngine) (track_id : Z) : TrackingEngine :=
  mkTracker (tr_config eng) (tr_camera_id eng)
    (dict_alter (mark_lost (tr_config eng)) track_id (tracks eng))
    (next_track_id eng) (kalman_filters eng)
    (total_tracks eng) (active_tracks eng).

(** Removal of the tracks marked [DELETED], with their filters. *)
Definition deleted_ids (trks : list (Z * Track)) : list Z :=
  map fst (filter (fun p => bool_decide (state (snd p) = DELETED)) trks).

(** The body of the removal loop: [del self.tracks[tid]] and
    [del self.kalman_filters[tid]]. *)
Definition del_track (e : TrackingEngine) (tid : Z) : TrackingEngine :=
  mkTracker (tr_config e) (tr_camera_id e) (dict_del tid (tracks e))
    (next_track_id e) (dict_del tid (kalman_filters e))
    (total_tracks e) (active_tracks e).

Definition remove_deleted (eng : TrackingEngine) : TrackingEngine :=
  fold_left del_track (deleted_ids (tracks eng)) eng.

Definition is_active (track : Track) : bool :=
  bool_decide (state track = CONFIRMED) || bool_decide (state track = LOST).

(** [TrackingEngine.update].  The returned list holds references to the
    [Track] objects stored in [self.tracks]; the model returns their ids and
    callers read and write the tracks through the tracker's store. *)
Definition update (eng : TrackingEngine) (detections : list Detection)
    (frame_height : Z) : Clk (TrackingEngine * list Z) :=
  let eng := predict_all eng in
  let '(matched, unmatched_dets, unmatched_tracks) := _match eng detections in
  do eng <- fold_clk (update_matched detections) matched eng;
  do eng <- fold_clk (create_unmatched detections frame_height) unmatched_dets eng;
  let eng := fold_left handle_unmatched unmatched_tracks eng in
  let eng := remove_deleted eng in
  let active :=
    map fst (filter (fun p => is_active (snd p)) (tracks eng)) in
  ret (mkTracker (tr_config eng) (tr_camera_id eng) (tracks eng)
         (next_track_id eng) (kalman_filters eng) (total_tracks eng)
         (Z.of_nat (length active)),
       active).

(** ** OCR engine ([ocr/engine.py]) *)

(** [enumerate(l)] *)
Definition enumerate {A} (l : list A) : list (nat * A) := zip (seq 0 (length l)) l.

Definition chars (s : string) : list ascii := list_ascii_of_string s.

(** One pass of the inner loop: the row of the dynamic programme for the
    character [c1] of [s1] at index [i]. *)
Definition lev_row (i : nat) (c1 : ascii) (s2 : list ascii)
    (previous_row : list nat) : list nat :=
  fold_left
    (fun current_row '(j, c2) =>
       let insertions := (nth (j + 1) previous_row 0 + 1)%nat in
       let deletions := (nth j current_row 0 + 1)%nat in
       let substitutions :=
         (nth j previous_row 0 + (if Ascii.eqb c1 c2 then 0 else 1))%nat in
       current_row ++ [Nat.min insertions (Nat.min deletions substitutions)])
    (enumerate s2) [(i + 1)%nat].

(** The body of [levenshtein_distance] once [len(s1) >= len(s2)]. *)
Definition lev_rows (s1 s2 : list ascii) : nat :=
  if Nat.eqb (length s2) 0 then length s1
  else
    let previous_row :=
      fold_left (fun previous_row '(i, c1) => lev_row i c1 s2 previous_row)
        (enumerate s1) (seq 0 (length s2 + 1)) in
    List.last previous_row 0%nat.

(** [levenshtein_distance]: the recursive call only swaps the arguments, and
    the swapped call does not recurse again. *)
Definition levenshtein_distance (s1 s2 : string) : nat :=
  if (String.length s1 <? String.length s2)%nat
  then lev_rows (chars s2) (chars s1)
  else lev_rows (chars s1) (chars s2).

Record OCRConfig := mkOCRConfig {
  ocr_enabled : bool;
  throttle_frames : Z;
  min_plate_confidence : Q;
  max_concurrent : Z;
  fusion_min_samples : Z;
  max_samples : Z
}.

Record OCREngine := mkOCR {
  ocr_config : OCRConfig;
  is_loaded : bool;
  last_ocr_time : gmap Z Z;
  active_ocr_count : Z;
  total_ocr_calls : Z;
  successful_reads : Z;
  failed_reads : Z
}.

(** [OCREngine.can_process].  The clock is read only when the track has a
    recorded last-OCR time. *)
Definition can_process (eng : OCREngine) (tid : Z) : Clk bool :=
  if negb (ocr_enabled (ocr_config eng)) || negb (is_loaded eng) then ret false
  else if max_concurrent (ocr_config eng) <=? active_ocr_count eng then ret false
  else
    match last_ocr_time eng !! tid with
    | Some last =>
        do t_now <- now;
        let elapsed := total_seconds t_now last in
        let min_interval := (inject_Z (throttle_frames (ocr_config eng)) / 20)%Q in
        if Qltb elapsed min_interval then ret false else ret true
    | None => ret true
    end.

(** What the image side of [recognize_plate] yields for one call: an empty
    region of interest, an exception inside the [try], or the
    [(text, confidence)] lines the OCR oracle recognised (none for an empty
    answer). *)
Inductive OcrOutcome :=
  | RoiEmpty
  | OcrRaised
  | OcrLines (lines : list (string * Q)).

Record OcrResult := mkOcrResult {
  res_text : string;
  res_confidence : Q;
  res_raw : string
}.

Definition is_upper_or_digit (c : ascii) : bool :=
  let n := nat_of_ascii c in
  ((65 <=? n) && (n <=? 90) || (48 <=? n) && (n <=? 57))%nat.

Definition upper (c : ascii) : ascii :=
  let n := nat_of_ascii c in
  if ((97 <=? n) && (n <=? 122))%nat then ascii_of_nat (n - 32) else c.

(** [OCREngine._clean_plate_text] on ASCII text: the three [replace] calls,
    [upper()], and the removal of everything outside [A-Z0-9]. *)
Definition _clean_plate_text (text : string) : string :=
  let text :=
    filter (fun c => negb (Ascii.eqb c " " || Ascii.eqb c "-" || Ascii.eqb c "."))
      (chars text) in
  string_of_list_ascii (filter (fun c => is_upper_or_digit c) (map upper text)).

(** [' '.join(texts)] *)
Fixpoint join_space (texts : list string) : string :=
  match texts with
  | [] => ""
  | [t] => t
  | t :: rest => String.append t (String.append " " (join_space rest))
  end.

(** [np.mean] of a list of floats. *)
Definition mean (l : list Q) : Q :=
  (foldr Qplus 0 l / inject_Z (Z.of_nat (length l)))%Q.

Definition with_counts (eng : OCREngine) (active total ok failed : Z)
    (last : gmap Z Z) : OCREngine :=
  mkOCR (ocr_config eng) (is_loaded eng) last active total ok failed.

(** [OCREngine.recognize_plate].  [active_ocr_count] is incremented on
    admission and decremented by the [finally] clause on every path. *)
Definition recognize_plate (eng : OCREngine) (outcome : OcrOutcome) (tid : Z)
    : Clk (OCREngine * option OcrResult) :=
  do ok <- can_process eng tid;
  if negb ok then ret (eng, None)
  else
    do t_now <- now;
    let last := <[tid := t_now]> (last_ocr_time eng) in
    let total := total_ocr_calls eng + 1 in
    let failed := with_counts eng (active_ocr_count eng + 1 - 1) total
                    (successful_reads eng) (failed_reads eng + 1) last in
    match outcome with
    | RoiEmpty =>
        ret (with_counts eng (active_ocr_count eng + 1 - 1) total
               (successful_reads eng) (failed_reads eng) last, None)
    | OcrRaised => ret (failed, None)
    | OcrLines [] => ret (failed, None)
    | OcrLines lines =>
        let full_text := join_space (map fst lines) in
        let avg_confidence := mean (map snd lines) in
        let plate := _clean_plate_text full_text in
        if (String.length plate <? 3)%nat then ret (failed, None)
        else
          ret (with_counts eng (active_ocr_count eng + 1 - 1) total
                 (successful_reads eng + 1) (failed_reads eng) last,
               Some (mkOcrResult plate avg_confidence full_text))
    end.

(** [max(iterable, key=...)]: the first element whose key is maximal. *)
Definition py_max_on {A K : Type} (ltb : K -> K -> bool) (key : A -> K)
    (l : list A) : option A :=
  match l with
  | [] => None
  | x :: l' =>
      Some (fold_left (fun best y => if ltb (key best) (key y) then y else best) l' x)
  end.

(** The grouping loop: a reading joins the first group whose first member is
    within distance 2, else it opens a new group at the end.  ([group[0]] of
    an empty group would raise; groups are created non-empty.) *)
Fixpoint place (reading : Reading) (groups : list (list Reading))
    : list (list Reading) :=
  match groups with
  | [] => [[reading]]
  | group :: rest =>
      match group with
      | first :: _ =>
          if (levenshtein_distance (r_text reading) (r_text first) <=? 2)%nat
          then (group ++ [reading]) :: rest
          else group :: place reading rest
      | [] => group :: place reading rest
      end
  end.

Definition group_readings (readings : list Reading) : list (list Reading) :=
  fold_left (fun groups reading => place reading groups) readings [].

(** [collections.Counter]: counts in first-appearance order. *)
Fixpoint counter_add (s : string) (c : list (string * nat)) : list (string * nat) :=
  match c with
  | [] => [(s, 1%nat)]
  | (s', n) :: c' =>
      if String.eqb s s' then (s', S n) :: c' else (s', n) :: counter_add s c'
  end.

Definition Counter (texts : list string) : list (string * nat) :=
  fold_left (fun c s => counter_add s c) texts [].

(** [Counter.most_common(1)] is [max] over the items by count. *)
Definition most_common_1 (c : list (string * nat)) : option (string * nat) :=
  py_max_on Nat.ltb snd c.

(** The value [fuse_readings] returns: one of the stored readings, or a new
    dict [{'text', 'confidence', 'num_samples'}]. *)
Inductive Fused :=
  | BestReading (r : Reading)
  | Consensus (text : string) (conf : Q) (num_samples : nat).

Definition fused_text (f : Fused) : string :=
  match f with BestReading r => r_text r | Consensus t _ _ => t end.
Definition fused_confidence (f : Fused) : Q :=
  match f with BestReading r => r_confidence r | Consensus _ c _ => c end.

Definition highest_confidence (readings : list Reading) : option Fused :=
  option_map BestReading (py_max_on Qltb r_confidence readings).

Definition largest_group (readings : list Reading) : option (list Reading) :=
  py_max_on Nat.ltb (@length Reading) (group_readings readings).

(** [OCREngine.fuse_readings] *)
Definition fuse_readings (config : OCRConfig) (readings : list Reading)
    : option Fused :=
  match readings with
  | [] => None
  | _ =>
      if Z.of_nat (length readings) <? fusion_min_samples config
      then highest_confidence readings
      else
        match largest_group readings with
        | None => None
        | Some group =>
            if Z.of_nat (length group) <? fusion_min_samples config
            then highest_confidence readings
            else
              match most_common_1 (Counter (map r_text group)) with
              | None => None
              | Some (most_common, _) =>
                  let avg_conf :=
                    mean (map r_confidence
                            (filter (fun r => String.eqb (r_text r) most_common) group)) in
                  Some (Consensus most_common avg_conf (length group))
              end
        end
  end.

(** ** Entry/exit state machine ([events/engine.py]) *)

Record EventConfig := mkEventConfig {
  entry_y_threshold : Q;
  exit_y_threshold : Q;
  min_dwell_time : Q;
  dedup_window : Z;
  require_plate_for_entry : bool;
  require_plate_for_exit : bool
}.

Inductive EventKind := Entry | Exit.

Global Instance EventKind_eq_dec : EqDecision EventKind.
Proof. solve_decision. Defined.

(** The event dict built by [_create_entry_event] / [_create_exit_event];
    keys an entry event does not have are [None]. *)
Record Event := mkEvent {
  ev_type : EventKind;
  ev_camera_id : Z;
  ev_track_id : Z;
  ev_vehicle_type : VehicleType;
  ev_plate_text : option string;
  ev_plate_confidence : option Q;
  ev_timestamp : Z;
  ev_entry_time : option Z;
  ev_exit_time : option Z;
  ev_duration : option Q;
  ev_confidence : Q;
  ev_color : option string;
  ev_bbox : BBox
}.

Record EventEngine := mkEventEngine {
  ev_config : EventConfig;
  ee_camera_id : Z;
  track_states : gmap Z VehicleState;
  recent_plates : gmap string Z;
  total_entries : Z;
  total_exits : Z
}.

Definition EventEngine_init (config : EventConfig) (cam : Z) : EventEngine :=
  mkEventEngine config cam ∅ ∅ 0 0.

(** Python truthiness of [track.plate_text]: [None] and [""] are false. *)
Definition plate_present (p : option string) : option string :=
  match p with
  | Some s => if String.eqb s "" then None else Some s
  | None => None
  end.

(** [EventEngine._is_duplicate_entry] *)
Definition _is_duplicate_entry (eng : EventEngine) (track : Track) : Clk bool :=
  match plate_present (plate_text track) with
  | None => ret false
  | Some plate =>
      match recent_plates eng !! plate with
      | Some last_time =>
          do t_now <- now;
          let elapsed := total_seconds t_now last_time in
          if Qltb elapsed (inject_Z (dedup_window (ev_config eng)))
          then ret true else ret false
      | None => ret false
      end
  end.

(** [EventEngine._is_duplicate_exit] *)
Definition _is_duplicate_exit (eng : EventEngine) (track : Track) : Clk bool :=
  _is_duplicate_entry eng track.

(** The update of the deduplication cache that ends both event builders. *)
Definition refresh_cache (eng : EventEngine) (track : Track) : Clk EventEngine :=
  match plate_present (plate_text track) with
  | Some plate =>
      do t_now <- now;
      ret (mkEventEngine (ev_config eng) (ee_camera_id eng) (track_states eng)
             (<[plate := t_now]> (recent_plates eng))
             (total_entries eng) (total_exits eng))
  | None => ret eng
  end.

(** [EventEngine._create_entry_event] *)
Definition _create_entry_event (eng : EventEngine) (track : Track)
    : Clk (EventEngine * Event) :=
  do timestamp <- now;
  let event :=
    mkEvent Entry (ee_camera_id eng) (track_id track) (vehicle_type track)
      (plate_text track) (plate_confidence track) timestamp None None None
      (confidence track) (color track) (bbox track) in
  do eng <- refresh_cache eng track;
  ret (eng, event).

(** [EventEngine._create_exit_event] *)
Definition _create_exit_event (eng : EventEngine) (track : Track)
    : Clk (EventEngine * Event) :=
  let entry_time := first_seen track in
  do exit_time <- now;
  let duration := total_seconds exit_time entry_time in
  let event :=
    mkEvent Exit (ee_camera_id eng) (track_id track) (vehicle_type track)
      (plate_text track) (plate_confidence track) exit_time (Some entry_time)
      (Some exit_time) (Some duration) (confidence track) (color track)
      (bbox track) in
  do eng <- refresh_cache eng track;
  ret (eng, event).

Definition count_entry (eng : EventEngine) : EventEngine :=
  mkEventEngine (ev_config eng) (ee_camera_id eng) (track_states eng)
    (recent_plates eng) (total_entries eng + 1) (total_exits eng).

Definition count_exit (eng : EventEngine) : EventEngine :=
  mkEventEngine (ev_config eng) (ee_camera_id eng) (track_states eng)
    (recent_plates eng) (total_entries eng) (total_exits eng + 1).

(** The "Check deduplication" block of the entry branch. *)
Definition confirm_entry (eng : EventEngine) (track : Track)
    (current_state : VehicleState)
    : Clk (EventEngine * VehicleState * option Event) :=
  do dup <- _is_duplicate_entry eng track;
  if negb dup then
    do (eng, event) <- _create_entry_event eng track;
    ret (count_entry eng, INSIDE, Some event)
  else ret (eng, current_state, None).

(** The "Check deduplication" block of the exit branch. *)
Definition confirm_exit (eng : EventEngine) (track : Track)
    (current_state : VehicleState)
    : Clk (EventEngine * VehicleState * option Event) :=
  do dup <- _is_duplicate_exit eng track;
  if negb dup then
    do (eng, event) <- _create_exit_event eng track;
    ret (count_exit eng, LOGGED, Some event)
  else ret (eng, current_state, None).

(** The transition part of [process_track]: the new state, the event if one
    is emitted, and the engine after the cache and counter updates. *)
Definition transition (eng : EventEngine) (track : Track) (normalized_y : Q)
    (current_state : VehicleState)
    : Clk (EventEngine * VehicleState * option Event) :=
  match current_state with
  | OUTSIDE =>
      if Qltb (entry_y_threshold (ev_config eng)) normalized_y
      then ret (eng, APPROACHING, None) else ret (eng, current_state, None)
  | APPROACHING =>
      do t_now <- now;
      let dwell_time := total_seconds t_now (first_seen track) in
      if Qleb (min_dwell_time (ev_config eng)) dwell_time then
        if require_plate_for_entry (ev_config eng) && negb (plate_locked track)
        then ret (eng, current_state, None)
        else confirm_entry eng track current_state
      else ret (eng, current_state, None)
  | INSIDE =>
      if Qltb (exit_y_threshold (ev_config eng)) normalized_y
      then ret (eng, EXITING, None) else ret (eng, current_state, None)
  | EXITING =>
      if 5 <? time_since_update track then
        if require_plate_for_exit (ev_config eng) && negb (plate_locked track)
        then ret (eng, current_state, None)
        else confirm_exit eng track current_state
      else ret (eng, current_state, None)
  | LOGGED => ret (eng, current_state, None)
  end.

(** [EventEngine.process_track] *)
Definition process_track (eng : EventEngine) (track : Track) (frame_height : Z)
    : Clk (EventEngine * Track * option Event) :=
  let center_y := ((by1 (bbox track) + by2 (bbox track)) / 2)%Q in
  let normalized_y :=
    if 0 <? frame_height then (center_y / inject_Z frame_height)%Q else 0%Q in
  let current_state :=
    default OUTSIDE (track_states eng !! track_id track) in
  do (eng, new_state, event) <- transition eng track normalized_y current_state;
  if bool_decide (new_state <> current_state) then
    ret (mkEventEngine (ev_config eng) (ee_camera_id eng)
           (<[track_id track := new_state]> (track_states eng))
           (recent_plates eng) (total_entries eng) (total_exits eng),
         set_vehicle_state new_state track, event)
  else ret (eng, track, event).

(** [EventEngine.cleanup_old_entries]; [timedelta(seconds=dedup_window * 2)]
    is [2 * dedup_window * 10^6] microseconds. *)
Definition cleanup_old_entries (eng : EventEngine) : Clk EventEngine :=
  do t_now <- now;
  let cutoff := t_now - dedup_window (ev_config eng) * 2 * 1000000 in
  ret (mkEventEngine (ev_config eng) (ee_camera_id eng) (track_states eng)
         (filter (fun kv => ~ (snd kv < cutoff)) (recent_plates eng))
         (total_entries eng) (total_exits eng)).

(** ** Durable writer, producer side ([database/manager.py]) *)

Record CameraRow := mkCameraRow {
  cam_id : Z; cam_name : string; cam_source : string; cam_status : string
}.

Record TrackRow := mkTrackRow {
  row_camera_id : Z; row_track_id : Z; row_vehicle_type : VehicleType;
  row_first_seen : Z; row_last_seen : Z
}.

(** A record of the write queue: [{'type': ..., 'data': ...}]. *)
Inductive WriteOp :=
  | insert_event_op (event : Event)
  | insert_track_op (track : TrackRow)
  | insert_camera_op (camera : CameraRow).

Record DatabaseManager := mkDatabase {
  write_queue : list WriteOp;
  db_running : bool;
  total_writes : Z;
  failed_writes : Z;
  events_table : list Event;
  tracks_table : list TrackRow;
  cameras_table : list CameraRow
}.

(** [Queue(maxsize=1000)] *)
Definition write_queue_maxsize : nat := 1000.

Definition DatabaseManager_init : DatabaseManager :=
  mkDatabase [] true 0 0 [] [] [].

(** [Queue.put_nowait]: [None] stands for the [queue.Full] exception. *)
Definition put_nowait (q : list WriteOp) (item : WriteOp) : option (list WriteOp) :=
  if (write_queue_maxsize <=? length q)%nat then None else Some (q ++ [item]).

(** The three producers share one shape: [try: put_nowait(...)] and, in the
    bare [except], a logged warning and nothing else. *)
Definition enqueue (db : DatabaseManager) (op : WriteOp) : DatabaseManager :=
  match put_nowait (write_queue db) op with
  | Some q =>
      mkDatabase q (db_running db) (total_writes db) (failed_writes db)
        (events_table db) (tracks_table db) (cameras_table db)
  | None => db
  end.

Definition insert_event (db : DatabaseManager) (event : Event) : DatabaseManager :=
  enqueue db (insert_event_op event).
Definition insert_track (db : DatabaseManager) (track : TrackRow) : DatabaseManager :=
  enqueue db (insert_track_op track).
Definition insert_camera (db : DatabaseManager) (camera : CameraRow) : DatabaseManager :=
  enqueue db (insert_camera_op camera).

(** The counters [get_stats] exposes. *)
Record DbStats := mkDbStats {
  st_total_events : Z;
  st_total_entries : Z;
  st_total_exits : Z;
  st_total_writes : Z;
  st_failed_writes : Z;
  st_queue_size : Z
}.

Definition count_kind (k : EventKind) (l : list Event) : Z :=
  Z.of_nat (length (filter (fun e => ev_type e = k) l)).

Definition get_stats (db : DatabaseManager) : DbStats :=
  mkDbStats (Z.of_nat (length (events_table db)))
    (count_kind Entry (events_table db)) (count_kind Exit (events_table db))
    (total_writes db) (failed_writes db) (Z.of_nat (length (write_queue db))).

(** ** The per-frame pipeline ([main.py], class [ANPRPipeline]) *)

Record Pipeline := mkPipeline {
  pl_ocr_config : OCRConfig;          (* [self.config.ocr] *)
  trackers : gmap Z TrackingEngine;
  event_engines : gmap Z EventEngine;
  ocr_engines : gmap Z OCREngine;
  database : DatabaseManager;
  total_frames : Z;
  processed_frames : Z
}.

Definition with_tracks (eng : TrackingEngine) (trks : list (Z * Track))
    : TrackingEngine :=
  mkTracker (tr_config eng) (tr_camera_id eng) trks (next_track_id eng)
    (kalman_filters eng) (total_tracks eng) (active_tracks eng).

(** The block under "Try to finalize": fusion runs once the track holds
    [fusion_min_samples] readings, and whatever it returns is finalized. *)
Definition try_finalize (config : OCRConfig) (track : Track) : Track :=
  if fusion_min_samples config <=? Z.of_nat (length (plate_readings track)) then
    match fuse_readings config (plate_readings track) with
    | Some fused =>
        finalize_plate track (fused_text fused) (fused_confidence fused)
    | None => track
    end
  else track.

(** Step 3 of [_process_frame] for one track: the guarded OCR attempt, the
    stored reading and the attempt to finalize.  [outcome] is what the image
    side of [recognize_plate] yields for this track on this frame. *)
Definition ocr_track (config : OCRConfig) (ocr_engine : OCREngine)
    (track : Track) (outcome : OcrOutcome) : Clk (OCREngine * Track) :=
  if bool_decide (state track = CONFIRMED) && negb (plate_locked track) then
    do ok <- can_process ocr_engine (track_id track);
    if ok then
      do (ocr_engine, result) <- recognize_plate ocr_engine outcome (track_id track);
      match result with
      | Some result =>
          do track <- add_plate_reading track (res_text result) (res_confidence result);
          ret (ocr_engine, try_finalize config track)
      | None => ret (ocr_engine, track)
      end
    else ret (ocr_engine, track)
  else ret (ocr_engine, track).

(** The loops of steps 3 and 4 run over references into the tracker's
    store: each iteration reads the track by id and writes it back. *)
Definition ocr_loop_body (config : OCRConfig) (ocr_of : Z -> OcrOutcome)
    (st : TrackingEngine * OCREngine) (tid : Z)
    : Clk (TrackingEngine * OCREngine) :=
  match dict_get tid (tracks (fst st)) with
  | Some track =>
      do (ocr_engine, track) <- ocr_track config (snd st) track (ocr_of tid);
      ret (with_tracks (fst st) (dict_set tid track (tracks (fst st))), ocr_engine)
  | None => ret st
  end.

Definition event_loop_body (frame_height : Z)
    (st : TrackingEngine * EventEngine * DatabaseManager) (tid : Z)
    : Clk (TrackingEngine * EventEngine * DatabaseManager) :=
  let '(tracker, event_engine, db) := st in
  match dict_get tid (tracks tracker) with
  | Some track =>
      do (event_engine, track, event) <- process_track event_engine track frame_height;
      let tracker := with_tracks tracker (dict_set tid track (tracks tracker)) in
      match event with
      | Some event => ret (tracker, event_engine, insert_event db event)
      | None => ret (tracker, event_engine, db)
      end
  | None => ret st
  end.

(** Step 3 of [_process_frame], "OCR on confirmed tracks". *)
Definition ocr_stage (p : Pipeline) (cam : Z) (ocr_of : Z -> OcrOutcome)
    (tracker : TrackingEngine) (active : list Z)
    : Clk (TrackingEngine * gmap Z OCREngine) :=
  match ocr_engines p !! cam with
  | Some ocr_engine =>
      do (tracker, ocr_engine) <-
        fold_clk (ocr_loop_body (pl_ocr_config p) ocr_of) active
          (tracker, ocr_engine);
      ret (tracker, <[cam := ocr_engine]> (ocr_engines p))
  | None => ret (tracker, ocr_engines p)
  end.

(** Step 4 of [_process_frame], "Event Detection". *)
Definition event_stage (p : Pipeline) (cam : Z) (frame_height : Z)
    (tracker : TrackingEngine) (active : list Z)
    : Clk (TrackingEngine * gmap Z EventEngine * DatabaseManager) :=
  match event_engines p !! cam with
  | Some event_engine =>
      do (tracker, event_engine, db) <-
        fold_clk (event_loop_body frame_height) active
          (tracker, event_engine, database p);
      ret (tracker, <[cam := event_engine]> (event_engines p), db)
  | None => ret (tracker, event_engines p, database p)
  end.

(** [ANPRPipeline._process_frame].  [detections] is the detector's answer for
    the frame, [frame_height] is [frame.shape[0]]. *)
Definition _process_frame (p : Pipeline) (cam : Z) (detections : list Detection)
    (frame_height : Z) (ocr_of : Z -> OcrOutcome) : Clk Pipeline :=
  match detections with
  | [] => ret p
  | _ =>
      match trackers p !! cam with
      | None => ret p
      | Some tracker =>
          do (tracker, active) <- update tracker detections frame_height;
          do (tracker, ocr_engines') <- ocr_stage p cam ocr_of tracker active;
          do (tracker, event_engines', db) <-
            event_stage p cam frame_height tracker active;
          ret (mkPipeline (pl_ocr_config p) (<[cam := tracker]> (trackers p))
                 event_engines' ocr_engines' db
                 (total_frames p) (processed_frames p))
      end
  end.

(** [ANPRPipeline._periodic_cleanup] *)
Definition _periodic_cleanup (p : Pipeline) : Clk Pipeline :=
  do engines <-
    fold_clk (fun (acc : gmap Z EventEngine) (kv : Z * EventEngine) =>
                do eng <- cleanup_old_entries (snd kv);
                ret (<[fst kv := eng]> acc))
      (map_to_list (event_engines p)) (event_engines p);
  ret (mkPipeline (pl_ocr_config p) (trackers p) engines (ocr_engines p)
         (database p) (total_frames p) (processed_frames p)).

(** One iteration of [_processing_loop] on a frame taken from the frame bus. *)
Definition processing_step (p : Pipeline) (cam : Z) (detections : list Detection)
    (frame_height : Z) (ocr_of : Z -> OcrOutcome) : Clk Pipeline :=
  let p := mkPipeline (pl_ocr_config p) (trackers p) (event_engines p)
             (ocr_engines p) (database p) (total_frames p + 1)
             (processed_frames p) in
  do p <- _process_frame p cam detections frame_height ocr_of;
  let p := mkPipeline (pl_ocr_config p) (trackers p) (event_engines p)
             (ocr_engines p) (database p) (total_frames p)
             (processed_frames p + 1) in
  if (processed_frames p mod 1000 =? 0) then _periodic_cleanup p else ret p.


(** ** Concrete states used by the examples *)

Definition sample_camera : CameraRow := mkCameraRow 1 "gate" "0" "active".

(** A writer whose queue holds [maxsize] records. *)
Definition full_db : DatabaseManager :=
  mkDatabase (repeat (insert_camera_op sample_camera) write_queue_maxsize)
    true 0 0 [] [] [].

Definition sample_event : Event :=
  mkEvent Entry 1 7 CAR (Some "ABC1234") (Some (9 / 10)%Q) 5000000 None None
    None (8 / 10)%Q None (mkBBox 0 0 2 2).

Definition sample_ocr_config : OCRConfig :=
  mkOCRConfig true 10 (6 / 10) 2 3 5.

(** An OCR engine at its concurrency cap. *)
Definition busy_ocr : OCREngine :=
  mkOCR sample_ocr_config true ∅ 2 4 1 1.

(** An idle OCR engine that read track 7 at time 1 s. *)
Definition idle_ocr : OCREngine :=
  mkOCR sample_ocr_config true {[ 7 := 1000000 ]} 0 4 1 1.

(** A clock that advances one second per reading. *)
Definition second_clock : Clock := mkClock (fun n => Z.of_nat n * 1000000) 0.

(** ** Predicates of the specification *)

(** The three admission conditions of the OCR throttle at time [t_now]. *)
Definition admissible (eng : OCREngine) (tid : Z) (t_now : Z) : Prop :=
  ocr_enabled (ocr_config eng) = true /\ is_loaded eng = true /\
  active_ocr_count eng < max_concurrent (ocr_config eng) /\
  (last_ocr_time eng !! tid = None \/
   exists last, last_ocr_time eng !! tid = Some last /\
     (inject_Z (throttle_frames (ocr_config eng)) / 20
        <= total_seconds t_now last)%Q).

(** [x] is the first element of [l] whose key is maximal: everything before
    it is strictly smaller, nothing after it is larger. *)
Definition first_max {A K : Type} (ltb : K -> K -> bool) (key : A -> K)
    (l : list A) (x : A) : Prop :=
  exists pre post, l = pre ++ x :: post /\
    (forall y, In y pre -> ltb (key y) (key x) = true) /\
    (forall y, In y post -> ltb (key x) (key y) = false).

(** A confirmed, unlocked track holding two readings that are far apart. *)
Definition two_readings : list Reading :=
  [mkReading "ABC1234" (9 / 10) 1000000; mkReading "XYZ0000" (5 / 10) 2000000].

Definition undecided_track : Track :=
  mkTrack 7 1 CONFIRMED CAR 0 0 (mkBBox 0 0 2 2) (8 / 10) None None 3 5 0
    two_readings None None false OUTSIDE None None.

(** An OCR engine with no call in flight and no history. *)
Definition fresh_ocr : OCREngine := mkOCR sample_ocr_config true ∅ 0 0 0 0.

(** The same track once its plate is locked. *)
Definition locked_track : Track := finalize_plate undecided_track "ABC1234" (9 / 10).

(** *** The association step as the specification words it

    Rows are the tracks in the order of [self.tracks], columns the
    detections.  [spec_cells] enumerates the cells whose IoU is strictly
    above the threshold, row by row and, within a row, column by column. *)
Definition spec_cells (rows cols : list BBox) (threshold : Q) : list Cell :=
  flat_map (fun '(i, a) =>
    flat_map (fun '(j, b) =>
      if Qltb threshold (iou a b) then [(i, j, iou a b)] else [])
      (enumerate cols))
    (enumerate rows).

Definition same_iou (q : Q) (c : Cell) : bool := Qeq_bool (cell_iou c) q.

(** [sorted] is [cells] ordered by IoU, highest first, and cells of equal IoU
    stand in [sorted] in the order they have in [cells]. *)
Definition stable_desc_sort (cells sorted : list Cell) : Prop :=
  StronglySorted (fun a b => (cell_iou b <= cell_iou a)%Q) sorted /\
  forall q, List.filter (same_iou q) sorted = List.filter (same_iou q) cells.

(** Greedy acceptance: a cell is accepted if and only if neither its row nor
    its column has been consumed by a cell accepted before it. *)
Fixpoint spec_greedy (cells : list Cell) (used_rows used_cols : list nat)
    : list (nat * nat) :=
  match cells with
  | [] => []
  | (i, j, _) :: rest =>
      if negb (existsb (Nat.eqb i) used_rows) && negb (existsb (Nat.eqb j) used_cols)
      then (i, j) :: spec_greedy rest (i :: used_rows) (j :: used_cols)
      else spec_greedy rest used_rows used_cols
  end.

(** The result the specification describes for a tracker and a detection
    list: the accepted cells as (track id, detection index) pairs, then the
    detection indices and the track ids no accepted cell mentions. *)
Definition association_spec (eng : TrackingEngine) (detections : list Detection)
    (result : list (Z * nat) * list nat * list Z) : Prop :=
  let track_ids := dict_keys (tracks eng) in
  exists sorted,
    stable_desc_sort
      (spec_cells (map (fun p => bbox (snd p)) (tracks eng))
         (map det_bbox detections) (iou_threshold (tr_config eng))) sorted /\
    let accepted := spec_greedy sorted [] [] in
    result =
      (map (fun '(i, j) => (nth i track_ids 0, j)) accepted,
       List.filter (fun j => negb (existsb (Nat.eqb j) (map snd accepted)))
         (seq 0 (length detections)),
       map snd
         (List.filter (fun '(i, _) => negb (existsb (Nat.eqb i) (map fst accepted)))
            (enumerate track_ids))).

(** The undecided track after a third, again different, reading. *)
Definition three_readings_track : Track :=
  set_plate_readings (two_readings ++ [mkReading "QRS5555" (7 / 10) 3000000])
    undecided_track.


(** ** Invariants and relations between tracker states *)

(** The dict invariants of a tracker: no repeated key, one Kalman filter per
    track, and every id in use below [next_track_id]. *)
Definition tracker_wf (eng : TrackingEngine) : Prop :=
  NoDup (dict_keys (tracks eng)) /\
  dict_keys (kalman_filters eng) = dict_keys (tracks eng) /\
  forall k, In k (dict_keys (tracks eng)) -> k < next_track_id eng.

(** The plate store of a track. *)
Definition same_plate (t t' : Track) : Prop :=
  plate_locked t' = plate_locked t /\ plate_text t' = plate_text t /\
  plate_confidence t' = plate_confidence t /\
  plate_readings t' = plate_readings t.

(** The counters and the plate store of a track as [_create_track] builds
    it. *)
Definition fresh_track (t : Track) : Prop :=
  hits t = 1 /\ age t = 0 /\ time_since_update t = 0 /\
  plate_locked t = false /\ plate_text t = None /\ plate_confidence t = None /\
  plate_readings t = [].

(** What one call of [update] does to a track it keeps: the prediction step
    counts the frame ([age], [time_since_update]); a match resets
    [time_since_update], and an unmatched track is kept only within the
    limit; the plate store is not touched. *)
Definition tracked_on (max_lost : Z) (t t' : Track) : Prop :=
  same_plate t t' /\ age t' = age t + 1 /\
  (time_since_update t' = 0 \/
   time_since_update t' = time_since_update t + 1 /\
   time_since_update t' <= max_lost) /\
  state t' <> DELETED.

(** A step that keeps a track's identity, age and plate store, and either
    keeps [time_since_update] or resets it. *)
Definition kept (t t' : Track) : Prop :=
  same_plate t t' /\ age t' = age t /\ track_id t' = track_id t /\
  (time_since_update t' = time_since_update t \/ time_since_update t' = 0).

(** Two track dicts with the same keys whose tracks are related one by one. *)
Definition pointwise (R : Track -> Track -> Prop) (d d' : list (Z * Track)) : Prop :=
  forall k, match dict_get k d, dict_get k d' with
            | Some t, Some t' => R t t'
            | None, None => True
            | _, _ => False
            end.

(** A step that changes at most the lifecycle state of a track. *)
Definition relabelled (t t' : Track) : Prop :=
  same_plate t t' /\ age t' = age t /\ track_id t' = track_id t /\
  hits t' = hits t /\ time_since_update t' = time_since_update t.

(** A track the removal step may keep only if it is within the limit. *)
Definition within_or_deleted (max_lost : Z) (t : Track) : Prop :=
  time_since_update t <= max_lost \/ state t = DELETED.

(** A tracker that has seen one frame with two vehicles. *)
Definition demo_tracking_config : TrackingConfig := mkTrackingConfig 2 2 (3 / 10) 60.
Definition car_left : Detection := mkDetection (mkBBox 0 0 2 2) (9 / 10) 2 CAR.
Definition bus_right : Detection := mkDetection (mkBBox 10 10 12 12) (8 / 10) 5 BUS.

Definition two_track_engine : TrackingEngine :=
  fst (fst (update (TrackingEngine_init demo_tracking_config 1)
              [car_left; bus_right] 100 second_clock)).

(** A tracker holding two tracks on the same box: both rows of the IoU
    matrix tie on any detection. *)
Definition twin_engine : TrackingEngine :=
  fst (fst (update (TrackingEngine_init demo_tracking_config 1)
              [car_left; car_left] 100 second_clock)).

(** ** The plate store across pipeline steps *)

(** [plate_locked = true] implies [plate_text] is not [None]. *)
Definition plate_ok (t : Track) : Prop :=
  plate_locked t = true -> plate_text t <> None.

(** A locked plate store stays as it is; a consistent one stays consistent. *)
Definition plate_frozen (t t' : Track) : Prop :=
  (plate_locked t = true -> same_plate t t') /\ (plate_ok t -> plate_ok t').

(** What the OCR step may change in a track: its plate store only, and that
    only while the plate is not locked. *)
Definition ocr_rel (t t' : Track) : Prop :=
  track_id t' = track_id t /\ age t' = age t /\
  time_since_update t' = time_since_update t /\ hits t' = hits t /\
  state t' = state t /\ plate_frozen t t'.

(** One frame taken from the frame bus, with the answers of the two
    oracles for it. *)
Record Frame := mkFrame {
  f_camera : Z;
  f_detections : list Detection;
  f_height : Z;
  f_ocr : Z -> OcrOutcome
}.

(** The processing loop over a sequence of frames. *)
Definition run_frames (p : Pipeline) (frames : list Frame) : Clk Pipeline :=
  fold_clk (fun p f =>
              processing_step p (f_camera f) (f_detections f) (f_height f) (f_ocr f))
    frames p.

(** Every tracker of the pipeline has consistent dicts. *)
Definition pipeline_wf (p : Pipeline) : Prop :=
  forall cam eng, trackers p !! cam = Some eng -> tracker_wf eng.

(** Every track of every tracker has a consistent plate store. *)
Definition plates_ok (p : Pipeline) : Prop :=
  forall cam eng k t,
    trackers p !! cam = Some eng -> dict_get k (tracks eng) = Some t -> plate_ok t.

(** A tracker before and after one frame: ids are never reused, a track that
    is still there has its plate store frozen once locked, and a track that
    is new has a consistent plate store. *)
Definition frame_rel (eng eng' : TrackingEngine) : Prop :=
  tracker_wf eng' /\ next_track_id eng <= next_track_id eng' /\
  tr_config eng' = tr_config eng /\
  forall k t', dict_get k (tracks eng') = Some t' ->
    match dict_get k (tracks eng) with
    | Some t => plate_frozen t t'
    | None => plate_ok t' /\ next_track_id eng <= k
    end.

(** What the OCR and event loops of a frame may change in a track. *)
Definition loop_rel (t t' : Track) : Prop :=
  track_id t' = track_id t /\ age t' = age t /\
  time_since_update t' = time_since_update t /\ hits t' = hits t /\
  plate_frozen t t'.

(** Two trackers that differ at most in what the loops changed. *)
Definition stage_rel (eng eng' : TrackingEngine) : Prop :=
  dict_keys (tracks eng') = dict_keys (tracks eng) /\
  kalman_filters eng' = kalman_filters eng /\
  next_track_id eng' = next_track_id eng /\
  tr_config eng' = tr_config eng /\
  pointwise loop_rel (tracks eng) (tracks eng').

(** [CameraConfig], as far as [ANPRPipeline.__init__] reads it. *)
Record CameraConfig := mkCameraConfig {
  cc_id : Z; cc_name : string; cc_source : string; cc_enabled : bool
}.

Definition OCREngine_init (config : OCRConfig) (loaded : bool) : OCREngine :=
  mkOCR config loaded ∅ 0 0 0 0.

(** [ANPRPipeline.__init__]: one tracker, event engine and OCR engine per
    enabled camera, and the camera registered with the writer.  [loaded]
    tells whether the OCR model could be loaded. *)
Definition ANPRPipeline_init (tracking : TrackingConfig) (events : EventConfig)
    (ocr : OCRConfig) (loaded : bool) (cameras : list CameraConfig) : Pipeline :=
  fold_left
    (fun p camera =>
       if cc_enabled camera then
         mkPipeline (pl_ocr_config p)
           (<[cc_id camera := TrackingEngine_init tracking (cc_id camera)]> (trackers p))
           (<[cc_id camera := EventEngine_init events (cc_id camera)]> (event_engines p))
           (<[cc_id camera := OCREngine_init ocr loaded]> (ocr_engines p))
           (insert_camera (database p)
              (mkCameraRow (cc_id camera) (cc_name camera) (cc_source camera) "active"))
           (total_frames p) (processed_frames p)
       else p)
    cameras
    (mkPipeline ocr ∅ ∅ ∅ DatabaseManager_init 0 0).

(** The trackers of two pipeline states, camera by camera. *)
Definition trackers_rel (p p' : Pipeline) : Prop :=
  forall cam, match trackers p !! cam with
              | Some eng => exists eng', trackers p' !! cam = Some eng' /\
                                         frame_rel eng eng'
              | None => trackers p' !! cam = None
              end.

(** A pipeline with one enabled camera, and a frame showing one car whose
    plate the OCR oracle reads. *)
Definition demo_event_config : EventConfig :=
  mkEventConfig (6 / 10) (9 / 10) 1 60 false true.

Definition demo_pipeline : Pipeline :=
  ANPRPipeline_init demo_tracking_config demo_event_config sample_ocr_config true
    [mkCameraConfig 1 "gate" "0" true].

Definition car_frame : Frame :=
  mkFrame 1 [car_left] 100 (fun _ => OcrLines [("abc-1234"%string, (9 / 10)%Q)]).

(** The same scene with the car gone: the detector returns nothing. *)
Definition empty_frame : Frame := mkFrame 1 [] 100 (fun _ => RoiEmpty).

(** The counters of the tracks of camera 1:
    [(track_id, age, time_since_update)]. *)
Definition counters (p : Pipeline) : list (Z * Z * Z) :=
  match trackers p !! 1 with
  | Some eng => map (fun kt => (fst kt, age (snd kt), time_since_update (snd kt)))
                  (tracks eng)
  | None => []
  end.

(** The plate stores of the tracks of camera 1. *)
Definition plates (p : Pipeline) : list (Z * bool * option string * nat) :=
  match trackers p !! 1 with
  | Some eng => map (fun kt => (fst kt, plate_locked (snd kt), plate_text (snd kt),
                                length (plate_readings (snd kt))))
                  (tracks eng)
  | None => []
  end.

(** ** Runs of one event engine *)

(** What the processor does with the event engine of a camera: it feeds it
    a track, or runs the periodic cleanup. *)
Inductive EngineOp :=
  | OpTrack (track : Track) (frame_height : Z)
  | OpCleanup.

(** One operation, with the log of the events emitted so far. *)
Definition run_op (st : EventEngine * list Event) (op : EngineOp)
    : Clk (EventEngine * list Event) :=
  match op with
  | OpTrack track frame_height =>
      do (eng, _, event) <- process_track (fst st) track frame_height;
      ret (eng, match event with Some e => snd st ++ [e] | None => snd st end)
  | OpCleanup =>
      do eng <- cleanup_old_entries (fst st);
      ret (eng, snd st)
  end.

Definition run_ops (ops : list EngineOp) (st : EventEngine * list Event)
    : Clk (EventEngine * list Event) :=
  fold_clk run_op ops st.

(** [dedup_window] in microseconds. *)
Definition window_us (config : EventConfig) : Z := dedup_window config * 1000000.

(** What a call of [process_track] does to the deduplication cache.  With
    no event the cache is as before.  An event carries the track's plate
    text and the clock reading [n] as timestamp; if a plate is present the
    cache entry of that plate is set to the next reading [n + 1], and an
    older entry was found at least a window old when the duplicate check
    read the clock (reading [m]). *)
Definition emission (eng : EventEngine) (track : Track) (c : Clock)
    (eng' : EventEngine) (event : option Event) (c' : Clock) : Prop :=
  wall c' = wall c /\ (tick c <= tick c')%nat /\ ev_config eng' = ev_config eng /\
  match event with
  | None => recent_plates eng' = recent_plates eng
  | Some e =>
      ev_plate_text e = plate_text track /\
      exists n : nat, (tick c <= n)%nat /\ ev_timestamp e = wall c n /\
        match plate_present (plate_text track) with
        | Some plate =>
            recent_plates eng' = <[plate := wall c (S n)]> (recent_plates eng) /\
            tick c' = S (S n) /\
            match recent_plates eng !! plate with
            | Some last =>
                exists m : nat, (tick c <= m <= n)%nat /\
                  window_us (ev_config eng) <= wall c m - last
            | None => True
            end
        | None => recent_plates eng' = recent_plates eng /\ tick c' = S n
        end
  end.

(** No two entry events of the log that carry the same plate text lie less
    than a window apart. *)
Definition entries_separated (window : Z) (log : list Event) : Prop :=
  forall (i j : nat) (e1 e2 : Event) (plate : string),
    (i < j)%nat -> log !! i = Some e1 -> log !! j = Some e2 ->
    ev_type e1 = Entry -> ev_type e2 = Entry ->
    plate_present (ev_plate_text e1) = Some plate ->
    plate_present (ev_plate_text e2) = Some plate ->
    window <= ev_timestamp e2 - ev_timestamp e1.

(** The invariant behind deduplication, for an engine, the log of the
    events it emitted, and the clock: cache times and event timestamps are
    past clock readings; an event's plate is cached no earlier than the
    event, or has been pruned and is by now out of the window; and the
    entries of the log are separated. *)
Definition dedup_inv (config : EventConfig) (eng : EventEngine)
    (log : list Event) (c : Clock) : Prop :=
  ev_config eng = config /\
  (forall plate t, recent_plates eng !! plate = Some t ->
     forall n : nat, (tick c <= n)%nat -> t <= wall c n) /\
  (forall e, In e log -> forall n : nat, (tick c <= n)%nat ->
     ev_timestamp e <= wall c n) /\
  (forall e plate, In e log -> plate_present (ev_plate_text e) = Some plate ->
     match recent_plates eng !! plate with
     | Some t => ev_timestamp e <= t
     | None => forall n : nat, (tick c <= n)%nat ->
                 window_us config <= wall c n - ev_timestamp e
     end) /\
  entries_separated (window_us config) log.

(** Two tracks of one camera that carry the same locked plate and stand
    below the entry line. *)
Definition plated_track (tid : Z) : Track :=
  mkTrack tid 1 CONFIRMED CAR (-5000000) 0 (mkBBox 0 70 2 90) (8 / 10) None None 3 5 0
    [] (Some "ABC1234"%string) (Some (9 / 10)%Q) true OUTSIDE None None.

Definition twin_plate_ops : list EngineOp :=
  [OpTrack (plated_track 1) 100; OpTrack (plated_track 1) 100;
   OpTrack (plated_track 2) 100; OpTrack (plated_track 2) 100;
   OpCleanup; OpTrack (plated_track 2) 100].

(** ** Fusion with consensus, as the specification words it *)

(** How often [s] occurs in [texts]. *)
Definition count_text (s : string) (texts : list string) : nat :=
  length (List.filter (String.eqb s) texts).

(** The position at which [s] first appears in [texts] (the length of
    [texts] if it does not appear). *)
Fixpoint first_index (s : string) (texts : list string) : nat :=
  match texts with
  | [] => 0
  | t :: rest => if String.eqb s t then 0 else S (first_index s rest)
  end.

(** [s] is the most frequent string of [texts]; among equally frequent
    strings it is the one that appears first in [sequence]. *)
Definition most_frequent_first (sequence texts : list string) (s : string) : Prop :=
  In s texts /\
  forall s', In s' texts -> s' <> s ->
    (count_text s' texts < count_text s texts)%nat \/
    (count_text s' texts = count_text s texts /\
     (first_index s sequence < first_index s' sequence)%nat).

(** The readings of [group] whose text is exactly [text]. *)
Definition occurrences (text : string) (group : list Reading) : list Reading :=
  List.filter (fun r => String.eqb (r_text r) text) group.

(** Sum of the confidences divided by their number. *)
Definition average_confidence (rs : list Reading) : Q :=
  (fold_right (fun r acc => r_confidence r + acc) 0 rs
   / inject_Z (Z.of_nat (length rs)))%Q.

(** The index of the group that a reading with text [t] joins in the
    grouping loop: the first group whose first member is within distance 2
    of [t]; [None] when the reading opens a new group. *)
Fixpoint home (t : string) (groups : list (list Reading)) : option nat :=
  match groups with
  | [] => None
  | group :: rest =>
      match group with
      | first :: _ =>
          if (levenshtein_distance t (r_text first) <=? 2)%nat then Some 0%nat
          else option_map S (home t rest)
      | [] => option_map S (home t rest)
      end
  end.

(** Texts whose readings belong to group number [i]. *)
Definition home_is (groups : list (list Reading)) (i : nat) (t : string) : bool :=
  match home t groups with
  | Some k => Nat.eqb k i
  | None => false
  end.

(** The readings of spec scenario 4: three equal texts, a near miss and an
    outlier. *)
Definition scenario_readings : list Reading :=
  [mkReading "ABC1234" (9 / 10) 1000000; mkReading "ABC1234" (8 / 10) 2000000;
   mkReading "ABC1Z34" (95 / 100) 3000000; mkReading "ABC1234" (7 / 10) 4000000;
   mkReading "XYZ0000" (99 / 100) 5000000].

Definition scenario_track : Track :=
  set_plate_readings scenario_readings undecided_track.

(** Two texts equally frequent in one group: the earlier one is fused. *)
Definition tied_readings : list Reading :=
  [mkReading "ABC1235" (6 / 10) 1000000; mkReading "ABC1234" (9 / 10) 2000000;
   mkReading "ABC1234" (7 / 10) 3000000; mkReading "ABC1235" (8 / 10) 4000000].

(** ** Edit distance by its recurrence

    [edit_distance s1 s2 i j] is the distance between the first [i]
    characters of [s1] and the first [j] characters of [s2]: the empty
    prefix is at distance [j] (or [i]) from the other prefix, and two
    non-empty prefixes are one insertion, one deletion or one substitution
    (free when the last characters agree) away from shorter ones. *)
Definition subst_cost (c1 c2 : ascii) : nat := if Ascii.eqb c1 c2 then 0 else 1.

Fixpoint edit_distance (s1 s2 : list ascii) (i : nat) : nat -> nat :=
  match i with
  | O => fun j => j
  | S i' =>
      fix row (j : nat) : nat :=
        match j with
        | O => S i'
        | S j' =>
            Nat.min (edit_distance s1 s2 i' (S j') + 1)
              (Nat.min (row j' + 1)
                 (edit_distance s1 s2 i' j'
                  + subst_cost (nth i' s1 Ascii.zero) (nth j' s2 Ascii.zero)))
        end
  end.

(** Strings over the plate alphabet [A-Z0-9]. *)
Definition plate_alphabet (s : string) : Prop :=
  Forall (fun c => is_upper_or_digit c = true) (chars s).


(** ** Position states in the order the state machine visits them *)

Definition vehicle_rank (s : VehicleState) : Z :=
  match s with
  | OUTSIDE => 0 | APPROACHING => 1 | INSIDE => 2 | EXITING => 3 | LOGGED => 4
  end.

(** [self.track_states.get(track_id, VehicleState.OUTSIDE)] *)
Definition position_of (eng : EventEngine) (tid : Z) : VehicleState :=
  default OUTSIDE (track_states eng !! tid).

(** An event engine that logged the entry of plate "ABC1234" at time 0 and
    has seen track 1 move on to EXITING, and that track after six frames
    without a matching detection. *)
Definition exiting_engine : EventEngine :=
  mkEventEngine demo_event_config 1 {[ 1 := EXITING ]}
    {[ "ABC1234"%string := 0 ]} 1 0.

Definition leaving_track : Track :=
  mkTrack 1 1 LOST CAR (-5000000) 0 (mkBBox 0 95 2 99) (8 / 10) None None 9 15 6
    [] (Some "ABC1234"%string) (Some (9 / 10)%Q) true EXITING None None.

(** Two boxes with equal coordinates (as rational numbers). *)
Definition bbox_eq (a b : BBox) : Prop :=
  (bx1 a == bx1 b /\ by1 a == by1 b /\ bx2 a == bx2 b /\ by2 a == by2 b)%Q.

(** The transition matrix every filter is built with: the identity with
    ones in the four velocity columns. *)
Definition constant_velocity_F : QMat :=
  mat_set 3 7 1 (mat_set 2 6 1 (mat_set 1 5 1 (mat_set 0 4 1 (eye 8 8)))).

(** ** Durable writer, consumer side ([database/manager.py])

    SQLite is modelled by the three tables of the record
    [DatabaseManager] and by an oracle: [sql_ok] tells whether every
    statement of a batch and its [commit] go through.  An exception anywhere
    in the [try] block of [_execute_batch] leads to [rollback], which undoes
    the statements of the batch (each batch is one transaction). *)

(** [_insert_camera]: [INSERT OR REPLACE] on the primary key [id]. *)
Definition _insert_camera (cameras : list CameraRow) (camera : CameraRow)
    : list CameraRow :=
  List.filter (fun r => negb (cam_id r =? cam_id camera)) cameras ++ [camera].

(** One statement of a batch, on the tables. *)
Definition execute_op (tables : list Event * list TrackRow * list CameraRow)
    (op : WriteOp) : list Event * list TrackRow * list CameraRow :=
  let '(events, trks, cameras) := tables in
  match op with
  | insert_event_op event => (events ++ [event], trks, cameras)
  | insert_track_op track => (events, trks ++ [track], cameras)
  | insert_camera_op camera => (events, trks, _insert_camera cameras camera)
  end.

(** [DatabaseManager._execute_batch] *)
Definition _execute_batch (db : DatabaseManager) (batch : list WriteOp)
    (sql_ok : bool) : DatabaseManager :=
  if sql_ok then
    let '(events, trks, cameras) :=
      fold_left execute_op batch
        (events_table db, tracks_table db, cameras_table db) in
    mkDatabase (write_queue db) (db_running db)
      (total_writes db + Z.of_nat (length batch)) (failed_writes db)
      events trks cameras
  else
    mkDatabase (write_queue db) (db_running db) (total_writes db)
      (failed_writes db + Z.of_nat (length batch))
      (events_table db) (tracks_table db) (cameras_table db).

(** The local variables of [_write_worker]. *)
Record Worker := mkWorker { wk_batch : list WriteOp; wk_last_commit : Z }.

(** [Queue.get(timeout=0.5)]: the head of the queue, or nothing when the
    queue stays empty for the timeout. *)
Definition queue_get (db : DatabaseManager) : DatabaseManager * option WriteOp :=
  match write_queue db with
  | op :: rest =>
      (mkDatabase rest (db_running db) (total_writes db) (failed_writes db)
         (events_table db) (tracks_table db) (cameras_table db), Some op)
  | [] => (db, None)
  end.

(** One iteration of the [while self.is_running] loop of [_write_worker].
    The clock is read by [should_commit] only when the batch holds fewer
    than 10 records ([or] does not evaluate its second operand otherwise),
    and once more after a commit. *)
Definition worker_step (st : DatabaseManager * Worker) (sql_ok : bool)
    : Clk (DatabaseManager * Worker) :=
  let '(db, w) := st in
  let '(db, got) := queue_get db in
  let batch := match got with Some op => wk_batch w ++ [op] | None => wk_batch w end in
  do should_commit <-
    (if (10 <=? length batch)%nat then ret true
     else do t_now <- now;
          ret (Qleb (5 / 10) (total_seconds t_now (wk_last_commit w))));
  match batch with
  | _ :: _ =>
      if should_commit then
        do t_now <- now;
        ret (_execute_batch db batch sql_ok, mkWorker [] t_now)
      else ret (db, mkWorker batch (wk_last_commit w))
  | [] => ret (db, mkWorker batch (wk_last_commit w))
  end.

(** The final flush after the loop. *)
Definition worker_flush (st : DatabaseManager * Worker) (sql_ok : bool)
    : DatabaseManager * Worker :=
  let '(db, w) := st in
  match wk_batch w with
  | _ :: _ => (_execute_batch db (wk_batch w) sql_ok, w)
  | [] => (db, w)
  end.

(** What happens to the writer between two observations: a producer calls
    one of the three insert functions, or the worker thread runs one
    iteration of its loop.  The queue is the only object the two sides
    share and [get] is the only access of an iteration to it, so a producer
    that runs during an iteration has the effect of one that runs before it
    (if it comes before the [get]) or after it. *)
Inductive WriterAction :=
  | Produce (op : WriteOp)
  | Work (sql_ok : bool).

Definition writer_action (st : DatabaseManager * Worker) (a : WriterAction)
    : Clk (DatabaseManager * Worker) :=
  match a with
  | Produce op => ret (enqueue (fst st) op, snd st)
  | Work sql_ok => worker_step st sql_ok
  end.

Definition run_writer (actions : list WriterAction) (st : DatabaseManager * Worker)
    : Clk (DatabaseManager * Worker) :=
  fold_clk writer_action actions st.

(** The records a sequence of actions offers to the queue, and those the
    queue takes (a record offered to a full queue is dropped). *)
Definition events_of (ops : list WriteOp) : list Event :=
  flat_map (fun op => match op with insert_event_op e => [e] | _ => [] end) ops.

(** The three tables of the database. *)
Definition tables (db : DatabaseManager) : list Event * list TrackRow * list CameraRow :=
  (events_table db, tracks_table db, cameras_table db).

(** The records that were taken by the queue and are not yet executed: the
    worker's batch, then the queue. *)
Definition pending (st : DatabaseManager * Worker) : list WriteOp :=
  wk_batch (snd st) ++ write_queue (fst st).

(** Every record the writer has taken so far: written, failed or pending. *)
Definition accounted (st : DatabaseManager * Worker) : Z :=
  total_writes (fst st) + failed_writes (fst st) + Z.of_nat (length (pending st)).

(** The tables as they are once the pending records are executed. *)
Definition settled (st : DatabaseManager * Worker)
    : list Event * list TrackRow * list CameraRow :=
  fold_left execute_op (pending st) (tables (fst st)).

(** The records the producers offer in a sequence of actions. *)
Definition produced (actions : list WriterAction) : list WriteOp :=
  flat_map (fun a => match a with Produce op => [op] | Work _ => [] end) actions.

(** No batch fails. *)
Definition sql_always_ok (actions : list WriterAction) : Prop :=
  Forall (fun a => a <> Work false) actions.

(** A writer as its thread starts, and a short history: three records are
    produced while the worker runs, the first commit succeeds. *)
Definition fresh_writer : DatabaseManager * Worker :=
  (DatabaseManager_init, mkWorker [] 0).

Definition gate_row : CameraRow := mkCameraRow 1 "gate" "rtsp://gate" "active".

Definition writer_history : list WriterAction :=
  [Produce (insert_camera_op gate_row); Work true;
   Produce (insert_track_op (mkTrackRow 1 1 CAR 0 1000000)); Work true;
   Produce (insert_camera_op gate_row); Work true; Work true].

(** ** The pipeline and its cameras ([main.py]) *)

(** The record [ANPRPipeline.__init__] hands to the writer for a camera. *)
Definition camera_row (camera : CameraConfig) : CameraRow :=
  mkCameraRow (cc_id camera) (cc_name camera) (cc_source camera) "active".

(** [cam] is the id of an enabled camera of the configuration. *)
Definition enabled_camera (cameras : list CameraConfig) (cam : Z) : bool :=
  existsb (fun camera => cc_enabled camera && (cc_id camera =? cam)) cameras.

(** A configuration that lists camera 1 twice and a disabled camera 2. *)
Definition demo_cameras : list CameraConfig :=
  [mkCameraConfig 1 "gate" "0" true; mkCameraConfig 2 "yard" "1" false;
   mkCameraConfig 1 "gate-b" "2" true].

(** The pipeline with both frame counters advanced by one. *)
Definition count_frame (p : Pipeline) : Pipeline :=
  mkPipeline (pl_ocr_config p) (trackers p) (event_engines p) (ocr_engines p)
    (database p) (total_frames p + 1) (processed_frames p + 1).

(** A frame of a camera the pipeline has no tracker for. *)
Definition stray_frame : Frame := mkFrame 9 [car_left] 100 (fun _ => RoiEmpty).

(** What the OCR oracle answers when it reads a plate. *)
Definition plate_outcome : OcrOutcome := OcrLines [("abc-1234"%string, (9 / 10)%Q)].

(** ** Camera streams ([camera/manager.py])

    A stream runs [_capture_loop] in a thread of its own and feeds the frame
    queue the processing loop reads.  The capture device is an oracle: for
    each iteration it tells whether [cv2.VideoCapture] opens and passes the
    test read, and what [cap.read()] yields.  The event callback, where there
    is one, is taken not to raise. *)

(** A record of the frame queue; the image is opaque. *)
Record FrameData := mkFrameData {
  fd_camera_id : Z;
  fd_frame : Z;
  fd_timestamp : Z;
  fd_frame_id : Z
}.

Inductive CameraEvent :=
  | CAMERA_CONNECTED (camera : Z)
  | CAMERA_DISCONNECTED (camera : Z).

Record CameraStream := mkCameraStream {
  cs_camera_id : Z;            (* [config.id] *)
  cs_fps : Z;                  (* [config.fps] *)
  cs_has_callback : bool;      (* [event_callback] is not [None] *)
  is_connected : bool;
  frame_count : Z;
  dropped_frames : Z;
  last_frame_time : option Z;
  reconnect_attempts : Z
}.

(** [CameraStream.__init__] *)
Definition CameraStream_init (id fps : Z) (callback : bool) : CameraStream :=
  mkCameraStream id fps callback false 0 0 None 0.

Definition max_reconnect_delay : Z := 60.

Inductive ReadOutcome :=
  | GotFrame (frame : Z)
  | NoFrame                    (* [not ret or frame is None] *)
  | ReadRaises.

Record Device := mkDevice { dev_opens : bool; dev_read : ReadOutcome }.

(** [Queue(maxsize=n).put_nowait]: a queue with [n <= 0] is unbounded. *)
Definition frame_put_nowait (maxsize : Z) (q : list FrameData) (item : FrameData)
    : option (list FrameData) :=
  if (0 <? maxsize) && (maxsize <=? Z.of_nat (length q)) then None
  else Some (q ++ [item]).

(** What one iteration of the capture loop shows to the outside: the frame
    read from the device, the record put on the queue, the events handed to
    the callback and the argument of [stop_event.wait]. *)
Record CaptureLog := mkCaptureLog {
  captured : option Z;
  pushed : option FrameData;
  emitted : list CameraEvent;
  waited : option Q
}.

Definition set_connected (v : bool) (s : CameraStream) : CameraStream :=
  mkCameraStream (cs_camera_id s) (cs_fps s) (cs_has_callback s) v (frame_count s)
    (dropped_frames s) (last_frame_time s) (reconnect_attempts s).

Definition set_reconnect_attempts (v : Z) (s : CameraStream) : CameraStream :=
  mkCameraStream (cs_camera_id s) (cs_fps s) (cs_has_callback s) (is_connected s)
    (frame_count s) (dropped_frames s) (last_frame_time s) v.

(** [CameraStream._disconnect] *)
Definition _disconnect (s : CameraStream) : CameraStream * list CameraEvent :=
  let was_connected := is_connected s in
  (set_connected false s,
   if was_connected && cs_has_callback s then [CAMERA_DISCONNECTED (cs_camera_id s)]
   else []).

(** [CameraStream._connect] *)
Definition _connect (s : CameraStream) (opens : bool)
    : CameraStream * list CameraEvent * bool :=
  if opens then
    (set_reconnect_attempts 0 (set_connected true s),
     if cs_has_callback s then [CAMERA_CONNECTED (cs_camera_id s)] else [],
     true)
  else
    let '(s, events) := _disconnect s in (s, events, false).

(** One iteration of the loop of [_capture_loop]. *)
Definition capture_step (maxsize : Z) (st : CameraStream * list FrameData)
    (dev : Device) : Clk (CameraStream * list FrameData * CaptureLog) :=
  let '(s, queue) := st in
  if negb (is_connected s) then
    let '(s, events, ok) := _connect s (dev_opens dev) in
    if ok then ret (s, queue, mkCaptureLog None None events None)
    else
      let delay := Z.min (2 ^ reconnect_attempts s) max_reconnect_delay in
      ret (set_reconnect_attempts (reconnect_attempts s + 1) s, queue,
           mkCaptureLog None None events (Some (inject_Z delay)))
  else
    match dev_read dev with
    | NoFrame =>
        let '(s, events) := _disconnect s in
        ret (s, queue, mkCaptureLog None None events None)
    | ReadRaises =>
        let '(s, events) := _disconnect s in
        ret (s, queue, mkCaptureLog None None events (Some 1%Q))
    | GotFrame frame =>
        do timestamp <- now;
        let item := mkFrameData (cs_camera_id s) frame timestamp (frame_count s) in
        let rate := if 0 <? cs_fps s then Some (1 / inject_Z (cs_fps s))%Q else None in
        match frame_put_nowait maxsize queue item with
        | Some queue =>
            do t_now <- now;
            ret (mkCameraStream (cs_camera_id s) (cs_fps s) (cs_has_callback s)
                   (is_connected s) (frame_count s + 1) (dropped_frames s)
                   (Some t_now) (reconnect_attempts s),
                 queue, mkCaptureLog (Some frame) (Some item) [] rate)
        | None =>
            ret (mkCameraStream (cs_camera_id s) (cs_fps s) (cs_has_callback s)
                   (is_connected s) (frame_count s) (dropped_frames s + 1)
                   (last_frame_time s) (reconnect_attempts s),
                 queue, mkCaptureLog (Some frame) None [] rate)
        end
    end.

(** The stream and the frame queue between two observations: the stream
    runs one iteration, or the processing loop takes a frame
    ([frame_queue.get], which leaves an empty queue empty). *)
Inductive BusAction :=
  | Capture (dev : Device)
  | Consume.

Definition bus_action (maxsize : Z)
    (st : CameraStream * list FrameData * list CaptureLog) (a : BusAction)
    : Clk (CameraStream * list FrameData * list CaptureLog) :=
  let '(s, queue, logs) := st in
  match a with
  | Capture dev =>
      do (s, queue, log) <- capture_step maxsize (s, queue) dev;
      ret (s, queue, logs ++ [log])
  | Consume => ret (s, tl queue, logs)
  end.

Definition run_bus (maxsize : Z) (actions : list BusAction)
    (st : CameraStream * list FrameData * list CaptureLog)
    : Clk (CameraStream * list FrameData * list CaptureLog) :=
  fold_clk (bus_action maxsize) actions st.

(** The frames read from the device, the records put on the queue, the
    events and the waits of a run, in order. *)
Definition captured_frames (logs : list CaptureLog) : list Z := omap captured logs.
Definition pushed_frames (logs : list CaptureLog) : list FrameData := omap pushed logs.
Definition emitted_events (logs : list CaptureLog) : list CameraEvent :=
  flat_map emitted logs.
Definition waits (logs : list CaptureLog) : list Q := omap waited logs.

(** [CONNECTED, DISCONNECTED, CONNECTED, ...], [n] events. *)
Fixpoint alternating (camera : Z) (n : nat) : list CameraEvent :=
  match n with
  | O => []
  | S n' =>
      alternating camera n' ++
      [if Nat.even n' then CAMERA_CONNECTED camera else CAMERA_DISCONNECTED camera]
  end.

(** The waits of [k] failed connection attempts in a row, the first of
    them being attempt number [n]. *)
Definition backoff (n : Z) (k : nat) : list Q :=
  map (fun i => inject_Z (Z.min (2 ^ (n + Z.of_nat i)) max_reconnect_delay)) (seq 0 k).

(** A camera that is down for three iterations, comes up, delivers two
    frames into a queue of size 1 and loses the connection. *)
Definition gate_stream : CameraStream := CameraStream_init 1 20 true.

Definition gate_history : list BusAction :=
  [Capture (mkDevice false NoFrame); Capture (mkDevice false NoFrame);
   Capture (mkDevice false NoFrame); Capture (mkDevice true NoFrame);
   Capture (mkDevice true (GotFrame 100)); Capture (mkDevice true (GotFrame 101));
   Consume; Capture (mkDevice true (GotFrame 102)); Capture (mkDevice true NoFrame)].

(** ** The camera manager ([camera/manager.py], class [CameraManager])

    [CameraManager.cameras] maps a camera id to its stream; a stream is
    represented here by the configuration it was created with. *)

(** [CameraManager.add_camera] *)
Definition add_camera (cameras : gmap Z CameraConfig) (config : CameraConfig)
    : gmap Z CameraConfig * bool :=
  match cameras !! cc_id config with
  | Some _ => (cameras, false)
  | None =>
      if negb (cc_enabled config) then (cameras, false)
      else (<[cc_id config := config]> cameras, true)
  end.

(** [CameraManager.remove_camera] *)
Definition remove_camera (cameras : gmap Z CameraConfig) (camera_id : Z)
    : gmap Z CameraConfig :=
  match cameras !! camera_id with
  | None => cameras
  | Some _ => delete camera_id cameras
  end.

(** The loop of [ANPRPipeline.start] over [config.cameras], on the manager
    the pipeline was built with. *)
Definition start_cameras (configs : list CameraConfig) : gmap Z CameraConfig :=
  fold_left (fun cameras config => fst (add_camera cameras config)) configs ∅.

(** The first enabled entry of the configuration with a given id. *)
Definition first_enabled (configs : list CameraConfig) (cam : Z) : option CameraConfig :=
  find (fun config => cc_enabled config && (cc_id config =? cam)) configs.

(** The last one. *)
Definition last_enabled (configs : list CameraConfig) (cam : Z) : option CameraConfig :=
  first_enabled (rev configs) cam.

(** [SELECT * FROM cameras WHERE id = ?] *)
Definition camera_by_id (cameras : list CameraRow) (id : Z) : option CameraRow :=
  find (fun r => cam_id r =? id) cameras.

Lemma Qltb_lt a b : Qltb a b = true <-> (a < b)%Q.
Proof.
  unfold Qltb. rewrite negb_true_iff. split.
  - intros H. apply Qnot_le_lt. intros Hle.
    apply Qle_bool_iff in Hle. congruence.
  - intros H. destruct (Qle_bool b a) eqn:E; [|reflexivity].
    apply Qle_bool_iff in E. exfalso. exact (Qlt_not_le _ _ H E).
Qed.

Lemma Qltb_ge a b : Qltb a b = false <-> (b <= a)%Q.
Proof.
  unfold Qltb. rewrite negb_false_iff. apply Qle_bool_iff.
Qed.

Lemma py_max_spec a b :
  (a <= py_max a b)%Q /\ (b <= py_max a b)%Q /\ (py_max a b = a \/ py_max a b = b).
Proof.
  unfold py_max. destruct (Qltb a b) eqn:E.
  - apply Qltb_lt in E. repeat split; [lra | lra | now right].
  - apply Qltb_ge in E. repeat split; [lra | lra | now left].
Qed.

Lemma py_min_spec a b :
  (py_min a b <= a)%Q /\ (py_min a b <= b)%Q /\ (py_min a b = a \/ py_min a b = b).
Proof.
  unfold py_min. destruct (Qltb b a) eqn:E.
  - apply Qltb_lt in E. repeat split; [lra | lra | now right].
  - apply Qltb_ge in E. repeat split; [lra | lra | now left].
Qed.

Lemma empty_overlapb_spec a b : empty_overlapb a b = true <-> empty_overlap a b.
Proof.
  unfold empty_overlapb, empty_overlap.
  rewrite orb_true_iff, !Qltb_lt. reflexivity.
Qed.

Lemma iou_unfold a b :
  iou a b =
  if empty_overlapb a b then 0%Q
  else if Qltb 0 (union_area a b)
       then (intersection_area a b / union_area a b)%Q else 0%Q.
Proof. reflexivity. Qed.

Section IouBounds.
Variables a b : BBox.
Hypothesis overlap : ~ empty_overlap a b.

Let ix1 := inter_x1 a b.
Let iy1 := inter_y1 a b.
Let ix2 := inter_x2 a b.
Let iy2 := inter_y2 a b.

Lemma inter_sides :
  (bx1 a <= ix1 /\ bx1 b <= ix1 /\ ix1 <= ix2 /\ ix2 <= bx2 a /\ ix2 <= bx2 b)%Q /\
  (by1 a <= iy1 /\ by1 b <= iy1 /\ iy1 <= iy2 /\ iy2 <= by2 a /\ iy2 <= by2 b)%Q.
Proof.
  subst ix1 iy1 ix2 iy2. unfold inter_x1, inter_x2, inter_y1, inter_y2.
  assert (Hx : ~ (inter_x2 a b < inter_x1 a b)%Q) by (intros H; apply overlap; now left).
  assert (Hy : ~ (inter_y2 a b < inter_y1 a b)%Q) by (intros H; apply overlap; now right).
  apply Qnot_lt_le in Hx, Hy.
  unfold inter_x1, inter_x2, inter_y1, inter_y2 in Hx, Hy.
  pose proof (py_max_spec (bx1 a) (bx1 b)) as (? & ? & _).
  pose proof (py_max_spec (by1 a) (by1 b)) as (? & ? & _).
  pose proof (py_min_spec (bx2 a) (bx2 b)) as (? & ? & _).
  pose proof (py_min_spec (by2 a) (by2 b)) as (? & ? & _).
  repeat split; assumption.
Qed.

Lemma intersection_nonneg : (0 <= intersection_area a b)%Q.
Proof.
  destruct inter_sides as [(_ & _ & Hx & _) (_ & _ & Hy & _)].
  unfold intersection_area. fold ix1 ix2 iy1 iy2.
  apply Qmult_le_0_compat; lra.
Qed.

Lemma intersection_le_area_l : (intersection_area a b <= box_area a)%Q.
Proof.
  destruct inter_sides as [(A1 & _ & Hx & A2 & _) (A3 & _ & Hy & A4 & _)].
  unfold intersection_area, box_area. fold ix1 ix2 iy1 iy2.
  apply Qle_trans with ((ix2 - ix1) * (by2 a - by1 a))%Q.
  - rewrite !(Qmult_comm (ix2 - ix1)). apply Qmult_le_compat_r; lra.
  - apply Qmult_le_compat_r; lra.
Qed.

Lemma intersection_le_area_r : (intersection_area a b <= box_area b)%Q.
Proof.
  destruct inter_sides as [(_ & A1 & Hx & _ & A2) (_ & A3 & Hy & _ & A4)].
  unfold intersection_area, box_area. fold ix1 ix2 iy1 iy2.
  apply Qle_trans with ((ix2 - ix1) * (by2 b - by1 b))%Q.
  - rewrite !(Qmult_comm (ix2 - ix1)). apply Qmult_le_compat_r; lra.
  - apply Qmult_le_compat_r; lra.
Qed.

Lemma intersection_le_union : (intersection_area a b <= union_area a b)%Q.
Proof.
  pose proof intersection_le_area_l. pose proof intersection_le_area_r.
  unfold union_area. lra.
Qed.
End IouBounds.

Lemma box_area_pos a : well_formed a -> (0 < box_area a)%Q.
Proof.
  intros [Hx Hy]. unfold box_area.
  apply Qmult_lt_0_compat; lra.
Qed.

Lemma iou_range a b : (0 <= iou a b <= 1)%Q.
Proof.
  rewrite iou_unfold.
  destruct (empty_overlapb a b) eqn:E; [lra|].
  assert (Hov : ~ empty_overlap a b).
  { rewrite <- empty_overlapb_spec. congruence. }
  destruct (Qltb 0 (union_area a b)) eqn:U; [|lra].
  apply Qltb_lt in U.
  pose proof (intersection_nonneg a b Hov).
  pose proof (intersection_le_union a b Hov).
  split.
  - apply Qle_shift_div_l; [assumption | lra].
  - apply Qle_shift_div_r; [assumption | lra].
Qed.

(** C10. [iou] is total on every pair of boxes, degenerate ones included:
    it returns the literal 0 when the overlap is empty or the union area is
    not positive; otherwise it returns intersection / union, and the divisor
    is then strictly positive (no division by zero); the value always lies in
    [0, 1], in particular for well-formed boxes, whose union is positive. *)
Theorem iou_well_defined (a b : BBox) :
  (empty_overlap a b \/ ~ (0 < union_area a b)%Q -> iou a b = 0%Q) /\
  (~ empty_overlap a b -> (0 < union_area a b)%Q ->
     iou a b = (intersection_area a b / union_area a b)%Q /\
     ~ (union_area a b == 0)%Q) /\
  (0 <= iou a b <= 1)%Q /\
  (well_formed a -> well_formed b -> ~ empty_overlap a b ->
     (0 < union_area a b)%Q /\
     iou a b = (intersection_area a b / union_area a b)%Q).
Proof.
  repeat split.
  - intros [H | H]; rewrite iou_unfold.
    + apply empty_overlapb_spec in H. now rewrite H.
    + destruct (empty_overlapb a b); [reflexivity|].
      destruct (Qltb 0 (union_area a b)) eqn:U; [|reflexivity].
      apply Qltb_lt in U. contradiction.
  - rewrite iou_unfold.
    destruct (empty_overlapb a b) eqn:E.
    + apply empty_overlapb_spec in E. contradiction.
    + apply Qltb_lt in H0. now rewrite H0.
  - intros Hz. rewrite Hz in H0. lra.
  - apply iou_range.
  - apply iou_range.
  - pose proof (box_area_pos a H). pose proof (box_area_pos b H0).
    pose proof (intersection_le_area_l a b H1). unfold union_area. lra.
  - assert (U : (0 < union_area a b)%Q).
    { pose proof (box_area_pos a H). pose proof (box_area_pos b H0).
      pose proof (intersection_le_area_l a b H1). unfold union_area. lra. }
    rewrite iou_unfold.
    destruct (empty_overlapb a b) eqn:E.
    + apply empty_overlapb_spec in E. contradiction.
    + apply Qltb_lt in U. now rewrite U.
Qed.

Lemma shifted_overlap : ~ empty_overlap unit_box shifted_box.
Proof. intros [H | H]; vm_compute in H; discriminate. Qed.

Lemma iou_well_defined_witness :
  well_formed unit_box /\ well_formed shifted_box /\
  (0 < union_area unit_box shifted_box)%Q /\
  iou unit_box shifted_box =
    (intersection_area unit_box shifted_box / union_area unit_box shifted_box)%Q.
Proof.
  assert (W1 : well_formed unit_box) by (split; reflexivity).
  assert (W2 : well_formed shifted_box) by (split; reflexivity).
  split; [exact W1 | split; [exact W2 |]].
  exact (proj2 (proj2 (proj2 (iou_well_defined unit_box shifted_box)))
           W1 W2 shifted_overlap).
Defined.

Example iou_shifted : iou unit_box shifted_box = (1 / 7)%Q.
Proof. reflexivity. Qed.

Example iou_disjoint : iou unit_box (mkBBox 5 5 6 6) = 0%Q.
Proof. reflexivity. Qed.

Example iou_degenerate : iou (mkBBox 1 1 1 1) (mkBBox 1 1 1 1) = 0%Q.
Proof. reflexivity. Qed.

Example linalg_inv_2x2 :
  option_map (map (map Qred)) (linalg_inv [[2; 1]; [1; 1]]%Q)
  = Some [[1; -1]; [-1; 2]]%Q.
Proof. reflexivity. Qed.

Example linalg_inv_singular : linalg_inv [[1; 2]; [2; 4]]%Q = None.
Proof. reflexivity. Qed.

Example kalman_predict_static_box :
  kf_state (fst (kf_predict (KalmanFilter_init (mkBBox 0 0 2 4))))
  = [1; 2; 2; 4; 0; 0; 0; 0]%Q.
Proof. vm_compute. reflexivity. Qed.

Example kalman_update_same_box :
  kf_state (kf_update (fst (kf_predict (KalmanFilter_init (mkBBox 0 0 2 4))))
              (mkBBox 0 0 2 4))
  = [1; 2; 2; 4; 0; 0; 0; 0]%Q.
Proof. vm_compute. reflexivity. Qed.

Example lev_kitten : levenshtein_distance "kitten" "sitting" = 3%nat.
Proof. reflexivity. Qed.
Example lev_plate : levenshtein_distance "ABC1234" "ABC1Z34" = 1%nat.
Proof. reflexivity. Qed.
Example lev_far : levenshtein_distance "ABC1234" "XYZ0000" = 7%nat.
Proof. reflexivity. Qed.

Example clean_plate : _clean_plate_text "ab-12 c.3!" = "AB12C3".
Proof. reflexivity. Qed.

(** ** The producer side of the durable writer *)

Lemma put_nowait_full q item :
  (write_queue_maxsize <= length q)%nat -> put_nowait q item = None.
Proof.
  intros H. unfold put_nowait.
  destruct (write_queue_maxsize <=? length q)%nat eqn:E; [reflexivity|].
  apply Nat.leb_gt in E. lia.
Qed.

Lemma put_nowait_room q item :
  (length q < write_queue_maxsize)%nat -> put_nowait q item = Some (q ++ [item]).
Proof.
  intros H. unfold put_nowait.
  destruct (write_queue_maxsize <=? length q)%nat eqn:E; [|reflexivity].
  apply Nat.leb_le in E. lia.
Qed.

Lemma enqueue_full db op :
  (write_queue_maxsize <= length (write_queue db))%nat -> enqueue db op = db.
Proof. intros H. unfold enqueue. now rewrite put_nowait_full. Qed.

Lemma enqueue_room db op :
  (length (write_queue db) < write_queue_maxsize)%nat ->
  write_queue (enqueue db op) = write_queue db ++ [op] /\
  total_writes (enqueue db op) = total_writes db /\
  failed_writes (enqueue db op) = failed_writes db.
Proof. intros H. unfold enqueue. rewrite put_nowait_room by assumption. now cbn. Qed.

(** C9 (as amended).  The three producers are total functions of the writer
    state (they return without waiting).  On a full queue (1000 records) each
    of them returns the writer exactly as it was: the record is dropped, the
    queue keeps its contents, and neither [total_writes], [failed_writes] nor
    any other number of [get_stats] moves; the writer has no drop counter.
    With room left the record is appended at the tail. *)
Theorem producers_drop_on_full (db : DatabaseManager) (event : Event)
    (track : TrackRow) (camera : CameraRow) :
  ((write_queue_maxsize <= length (write_queue db))%nat ->
     insert_event db event = db /\ insert_track db track = db /\
     insert_camera db camera = db /\
     get_stats (insert_event db event) = get_stats db) /\
  ((length (write_queue db) < write_queue_maxsize)%nat ->
     write_queue (insert_event db event) = write_queue db ++ [insert_event_op event] /\
     write_queue (insert_track db track) = write_queue db ++ [insert_track_op track] /\
     write_queue (insert_camera db camera) = write_queue db ++ [insert_camera_op camera]).
Proof.
  split; intros H.
  - unfold insert_event, insert_track, insert_camera.
    rewrite !enqueue_full by assumption. repeat split.
  - unfold insert_event, insert_track, insert_camera.
    repeat split; apply enqueue_room; assumption.
Qed.

Lemma full_db_is_full : (write_queue_maxsize <= length (write_queue full_db))%nat.
Proof. vm_compute. reflexivity. Qed.

Lemma producers_drop_on_full_witness :
  (write_queue_maxsize <= length (write_queue full_db))%nat /\
  insert_event full_db sample_event = full_db.
Proof.
  split; [exact full_db_is_full|].
  exact (proj1 (proj1 (producers_drop_on_full full_db sample_event
                         (mkTrackRow 1 7 CAR 0 0) sample_camera) full_db_is_full)).
Defined.

(** C9, the claim as stated, fails: on the full queue [full_db] the dropped
    event changes none of the counters [get_stats] exposes, so the drop is
    not counted anywhere. *)
Lemma drop_is_not_counted :
  length (write_queue full_db) = write_queue_maxsize /\
  write_queue (insert_event full_db sample_event) = write_queue full_db /\
  get_stats (insert_event full_db sample_event) = get_stats full_db /\
  total_writes (insert_event full_db sample_event) = total_writes full_db /\
  failed_writes (insert_event full_db sample_event) = failed_writes full_db.
Proof. vm_compute. repeat split. Qed.

(** ** OCR admission *)

Lemma now_run c : now c = (wall c (tick c), mkClock (wall c) (S (tick c))).
Proof. reflexivity. Qed.

(** The throttle test in integers: [elapsed < throttle_frames / 20] compares
    microseconds with [throttle_frames * 50000]. *)
Lemma throttle_in_microseconds (t_now last frames : Z) :
  (total_seconds t_now last < inject_Z frames / 20)%Q <->
  t_now - last < frames * 50000.
Proof.
  unfold total_seconds, Qlt, Qdiv, Qmult, Qinv, inject_Z. cbn. lia.
Qed.

Lemma can_process_true_iff eng tid c :
  fst (can_process eng tid c) = true <-> admissible eng tid (wall c (tick c)).
Proof.
  unfold can_process, admissible.
  destruct (ocr_enabled (ocr_config eng)); cbn [negb orb];
    [| cbn; split; [discriminate | intros (? & _); discriminate]].
  destruct (is_loaded eng); cbn [negb];
    [| cbn; split; [discriminate | intros (_ & ? & _); discriminate]].
  destruct (max_concurrent (ocr_config eng) <=? active_ocr_count eng) eqn:Hcap.
  - apply Z.leb_le in Hcap. cbn. split; [discriminate | intros (_ & _ & ? & _); lia].
  - apply Z.leb_gt in Hcap.
    destruct (last_ocr_time eng !! tid) as [last|] eqn:Hlast.
    + unfold bind. rewrite now_run.
      destruct (Qltb _ _) eqn:Hq; cbn.
      * apply Qltb_lt in Hq. split; [discriminate|].
        intros (_ & _ & _ & [? | (l & Hl & Hle)]); [discriminate|].
        injection Hl as <-. exfalso. exact (Qlt_not_le _ _ Hq Hle).
      * apply Qltb_ge in Hq. split; [|reflexivity]. intros _.
        repeat split; try assumption. right. exists last. now split.
    + cbn. split; [|reflexivity]. intros _. repeat split; try assumption. now left.
Qed.

Lemma can_process_clock eng tid c :
  wall (snd (can_process eng tid c)) = wall c.
Proof.
  unfold can_process.
  destruct (negb _ || negb _); [reflexivity|].
  destruct (_ <=? _); [reflexivity|].
  destruct (last_ocr_time eng !! tid); [|reflexivity].
  unfold bind. rewrite now_run. now destruct (Qltb _ _).
Qed.

Lemma can_process_at_cap eng tid c :
  max_concurrent (ocr_config eng) <= active_ocr_count eng ->
  can_process eng tid c = (false, c).
Proof.
  intros H. unfold can_process.
  destruct (negb _ || negb _); [reflexivity|].
  apply Z.leb_le in H. now rewrite H.
Qed.

Lemma recognize_plate_refused eng outcome tid c :
  fst (can_process eng tid c) = false ->
  fst (recognize_plate eng outcome tid c) = (eng, None).
Proof.
  intros H. unfold recognize_plate, bind.
  destruct (can_process eng tid c) as [ok c'] eqn:E. cbn in H. subst ok.
  reflexivity.
Qed.

(** C8.  [can_process] answers true exactly when the subsystem is enabled and
    loaded, the active count is strictly below [max_concurrent], and the track
    has no recorded last-OCR time or at least [throttle_frames / 20] seconds
    have elapsed since it.  The check returns a boolean only: it has no
    engine to hand back, and it leaves the wall clock's readings as they are;
    an admission attempt at the cap is refused, reads nothing, and
    [recognize_plate] then returns no result and the engine unchanged. *)
Theorem can_process_spec (eng : OCREngine) (tid : Z) (c : Clock)
    (outcome : OcrOutcome) :
  (fst (can_process eng tid c) = true <-> admissible eng tid (wall c (tick c))) /\
  wall (snd (can_process eng tid c)) = wall c /\
  (max_concurrent (ocr_config eng) <= active_ocr_count eng ->
     can_process eng tid c = (false, c) /\
     recognize_plate eng outcome tid c = (eng, None, c)) /\
  (fst (can_process eng tid c) = false ->
     fst (recognize_plate eng outcome tid c) = (eng, None)).
Proof.
  split; [apply can_process_true_iff|].
  split; [apply can_process_clock|].
  split; [|apply recognize_plate_refused].
  intros H. split; [now apply can_process_at_cap|].
  unfold recognize_plate, bind. now rewrite can_process_at_cap.
Qed.

Lemma can_process_spec_witness :
  max_concurrent (ocr_config busy_ocr) <= active_ocr_count busy_ocr /\
  recognize_plate busy_ocr (OcrLines [("ABC1234"%string, 1%Q)]) 7 second_clock
    = (busy_ocr, None, second_clock).
Proof.
  assert (H : max_concurrent (ocr_config busy_ocr) <= active_ocr_count busy_ocr)
    by (vm_compute; discriminate).
  split; [exact H|].
  exact (proj2 (proj1 (proj2 (proj2
           (can_process_spec busy_ocr 7 second_clock
              (OcrLines [("ABC1234"%string, 1%Q)])))) H)).
Defined.

Example can_process_throttled :
  fst (can_process idle_ocr 7 second_clock) = false /\
  fst (can_process idle_ocr 7 (mkClock (wall second_clock) 2)) = true /\
  fst (can_process idle_ocr 8 second_clock) = true.
Proof. vm_compute. repeat split. Qed.

(** ** [max(..., key=...)] returns the first maximal element *)

Section PyMax.
Context {A K : Type} (ltb : K -> K -> bool) (key : A -> K).
Hypothesis ltb_trans :
  forall a b c, ltb a b = true -> ltb b c = true -> ltb a c = true.
Hypothesis ltb_not_lt_trans :
  forall a b c, ltb a b = false -> ltb a c = true -> ltb b c = true.
Hypothesis ltb_irrefl : forall a, ltb a a = false.

Let step := fun (best y : A) => if ltb (key best) (key y) then y else best.

Lemma fold_max_first (l : list A) (x : A) :
  first_max ltb key (x :: l) (fold_left step l x).
Proof.
  revert x. induction l as [|y l IH]; intros x.
  - exists [], []. cbn. split; [reflexivity|]. split; intros ? [].
  - cbn [fold_left]. unfold step at 2.
    destruct (ltb (key x) (key y)) eqn:E.
    + destruct (IH y) as (pre & post & Hl & Hpre & Hpost).
      exists (x :: pre), post.
      split; [cbn; f_equal; exact Hl|]. split; [|assumption].
      intros z [<- | Hz]; [|now apply Hpre].
      destruct pre as [|p pre].
      * cbn in Hl. injection Hl as <- _. exact E.
      * cbn in Hl. injection Hl as <- _.
        apply ltb_trans with (key y); [exact E|]. apply Hpre. now left.
    + destruct (IH x) as (pre & post & Hl & Hpre & Hpost).
      destruct pre as [|p pre].
      * cbn in Hl. injection Hl as Hx Hl'.
        exists [], (y :: post).
        split; [cbn; f_equal; [exact Hx | f_equal; exact Hl']|]. split; [intros ? []|].
        intros z [<- | Hz]; [now rewrite <- Hx | now apply Hpost].
      * cbn in Hl. injection Hl as <- Hl'.
        exists (x :: y :: pre), post.
        split; [cbn; do 2 f_equal; exact Hl'|]. split; [|assumption].
        intros z [<- | [<- | Hz]].
        -- apply Hpre. now left.
        -- apply ltb_not_lt_trans with (key x); [exact E|]. apply Hpre. now left.
        -- apply Hpre. now right.
Qed.

Lemma py_max_on_first (l : list A) (x : A) :
  py_max_on ltb key l = Some x -> first_max ltb key l x.
Proof.
  destruct l as [|a l]; [discriminate|]. cbn. intros [= <-].
  apply fold_max_first.
Qed.

Lemma py_max_on_some (l : list A) :
  l <> [] -> exists x, py_max_on ltb key l = Some x.
Proof. destruct l; [congruence|]. intros _. eexists. reflexivity. Qed.

Lemma first_max_unique (l : list A) (x y : A) :
  first_max ltb key l x -> first_max ltb key l y -> x = y.
Proof.
  intros (p1 & q1 & H1 & Hp1 & Hq1) (p2 & q2 & H2 & Hp2 & Hq2).
  subst l. revert p2 H2 Hp2. induction p1 as [|a p1 IH]; intros p2 H2 Hp2.
  - destruct p2 as [|b p2]; cbn in H2.
    + now injection H2.
    + injection H2 as <- H2.
      assert (Hy : In y q1) by (rewrite H2; apply in_elt).
      specialize (Hq1 y Hy). specialize (Hp2 x (or_introl eq_refl)). congruence.
  - destruct p2 as [|b p2]; cbn in H2.
    + injection H2 as <- H2.
      assert (Hx : In x q2) by (rewrite <- H2; apply in_elt).
      specialize (Hq2 x Hx). specialize (Hp1 a (or_introl eq_refl)). congruence.
    + injection H2 as <- H2. apply (IH ltac:(intros; apply Hp1; now right) p2 H2).
      intros; apply Hp2; now right.
Qed.
End PyMax.

Lemma Qltb_trans a b c : Qltb a b = true -> Qltb b c = true -> Qltb a c = true.
Proof. rewrite !Qltb_lt. intros; lra. Qed.

Lemma Qltb_not_lt_trans a b c :
  Qltb a b = false -> Qltb a c = true -> Qltb b c = true.
Proof. rewrite Qltb_ge, !Qltb_lt. intros; lra. Qed.

Lemma Qltb_irrefl a : Qltb a a = false.
Proof. apply Qltb_ge. lra. Qed.

Lemma nat_ltb_trans (a b c : nat) :
  (a <? b)%nat = true -> (b <? c)%nat = true -> (a <? c)%nat = true.
Proof. rewrite !Nat.ltb_lt. lia. Qed.

Lemma nat_ltb_not_lt_trans (a b c : nat) :
  (a <? b)%nat = false -> (a <? c)%nat = true -> (b <? c)%nat = true.
Proof. rewrite Nat.ltb_ge, !Nat.ltb_lt. lia. Qed.

(** ** Fusion without consensus *)

Lemma highest_confidence_first_max readings f :
  highest_confidence readings = Some f ->
  exists r, f = BestReading r /\ first_max Qltb r_confidence readings r.
Proof.
  unfold highest_confidence.
  destruct (py_max_on Qltb r_confidence readings) as [r|] eqn:E; [|discriminate].
  intros [= <-]. exists r. split; [reflexivity|].
  apply py_max_on_first; [exact Qltb_trans | exact Qltb_not_lt_trans | exact E].
Qed.

Lemma largest_group_nonempty_input readings group :
  largest_group readings = Some group -> readings <> [].
Proof. intros H ->. discriminate. Qed.

Lemma fuse_no_consensus config readings group :
  fusion_min_samples config <= Z.of_nat (length readings) ->
  largest_group readings = Some group ->
  Z.of_nat (length group) < fusion_min_samples config ->
  fuse_readings config readings = highest_confidence readings.
Proof.
  intros Hlen Hg Hsmall. unfold fuse_readings.
  destruct readings as [|r0 rs] eqn:Er; [discriminate|]. rewrite <- Er in *.
  destruct (Z.of_nat (length readings) <? fusion_min_samples config) eqn:E1;
    [reflexivity|].
  rewrite Hg.
  apply Z.ltb_lt in Hsmall. now rewrite Hsmall.
Qed.

(** C2 (as amended).  When the track holds at least [fusion_min_samples]
    readings and the largest group of the greedy distance-2 grouping is
    smaller than [fusion_min_samples], fusion returns the reading with the
    highest confidence (the earliest one among equals), and the pipeline
    finalizes it: the track's plate text and confidence become that
    reading's, and [plate_locked] becomes true. *)
Theorem no_consensus_takes_best_reading (config : OCRConfig) (track : Track)
    (group : list Reading) :
  fusion_min_samples config <= Z.of_nat (length (plate_readings track)) ->
  largest_group (plate_readings track) = Some group ->
  Z.of_nat (length group) < fusion_min_samples config ->
  exists r,
    fuse_readings config (plate_readings track) = Some (BestReading r) /\
    first_max Qltb r_confidence (plate_readings track) r /\
    try_finalize config track = finalize_plate track (r_text r) (r_confidence r) /\
    plate_locked (try_finalize config track) = true /\
    plate_text (try_finalize config track) = Some (r_text r) /\
    plate_confidence (try_finalize config track) = Some (r_confidence r).
Proof.
  intros Hlen Hg Hsmall.
  pose proof (fuse_no_consensus config _ _ Hlen Hg Hsmall) as Hfuse.
  pose proof (largest_group_nonempty_input _ _ Hg) as Hne.
  destruct (py_max_on_some Qltb r_confidence (plate_readings track) Hne) as [r Hr].
  assert (Hbest : highest_confidence (plate_readings track) = Some (BestReading r)).
  { unfold highest_confidence. now rewrite Hr. }
  destruct (highest_confidence_first_max _ _ Hbest) as (r' & [= <-] & Hmax).
  exists r. rewrite Hfuse, Hbest.
  assert (Hfin : try_finalize config track
                 = finalize_plate track (r_text r) (r_confidence r)).
  { unfold try_finalize. apply Z.leb_le in Hlen. rewrite Hlen, Hfuse, Hbest.
    reflexivity. }
  rewrite Hfin. repeat split; assumption.
Qed.

Lemma no_consensus_takes_best_reading_witness :
  plate_locked (try_finalize sample_ocr_config three_readings_track) = true /\
  plate_text (try_finalize sample_ocr_config three_readings_track) = Some "ABC1234"%string.
Proof.
  assert (H1 : fusion_min_samples sample_ocr_config
               <= Z.of_nat (length (plate_readings three_readings_track)))
    by (vm_compute; discriminate).
  assert (H2 : largest_group (plate_readings three_readings_track)
               = Some [mkReading "ABC1234" (9 / 10) 1000000]) by reflexivity.
  assert (H3 : Z.of_nat (length [mkReading "ABC1234" (9 / 10) 1000000])
               < fusion_min_samples sample_ocr_config) by reflexivity.
  destruct (no_consensus_takes_best_reading sample_ocr_config three_readings_track
              _ H1 H2 H3) as (r & Hf & _ & _ & Hlock & Htext & _).
  split; [exact Hlock|].
  rewrite Htext. vm_compute in Hf. injection Hf as <-. reflexivity.
Defined.

(** C2, the claim as stated, fails.  The track below is confirmed and
    unlocked and holds two readings; the OCR call of this frame adds a third.
    Fusion is triggered (3 readings, [fusion_min_samples = 3]), every group
    has size 1, the best single reading "ABC1234" is returned -- and the
    plate is locked on it. *)
Lemma no_consensus_still_locks :
  let after := snd (fst (ocr_track sample_ocr_config fresh_ocr undecided_track
                           (OcrLines [("QRS5555"%string, (7 / 10)%Q)]) second_clock)) in
  plate_locked undecided_track = false /\
  length (plate_readings after) = 3%nat /\
  option_map (@length Reading) (largest_group (plate_readings after)) = Some 1%nat /\
  option_map fused_text (fuse_readings sample_ocr_config (plate_readings after))
    = Some "ABC1234"%string /\
  plate_locked after = true /\
  plate_text after = Some "ABC1234"%string.
Proof. vm_compute. repeat split. Qed.

(** ** The stable descending sort *)

Lemma insert_desc_filter q c l :
  List.filter (same_iou q) (insert_desc c l) = List.filter (same_iou q) (c :: l).
Proof.
  induction l as [|c' l IH]; [reflexivity|].
  cbn [insert_desc]. destruct (Qltb (cell_iou c) (cell_iou c')) eqn:E; [|reflexivity].
  cbn [List.filter]. rewrite IH. cbn [List.filter].
  apply Qltb_lt in E.
  destruct (same_iou q c') eqn:E1; destruct (same_iou q c) eqn:E2; try reflexivity.
  unfold same_iou in E1, E2. apply Qeq_bool_iff in E1, E2. lra.
Qed.

Lemma sort_desc_filter q l :
  List.filter (same_iou q) (sort_desc l) = List.filter (same_iou q) l.
Proof.
  induction l as [|c l IH]; [reflexivity|].
  cbn [sort_desc foldr]. fold (sort_desc l).
  rewrite insert_desc_filter. cbn [List.filter]. now rewrite IH.
Qed.

Lemma insert_desc_In c l x : In x (insert_desc c l) <-> x = c \/ In x l.
Proof.
  induction l as [|c' l IH]; cbn.
  - intuition congruence.
  - destruct (Qltb _ _); cbn; rewrite ?IH; intuition congruence.
Qed.

Lemma insert_desc_sorted c l :
  StronglySorted (fun a b => (cell_iou b <= cell_iou a)%Q) l ->
  StronglySorted (fun a b => (cell_iou b <= cell_iou a)%Q) (insert_desc c l).
Proof.
  induction l as [|c' l IH]; intros Hs; cbn.
  - constructor; constructor.
  - inversion Hs as [|? ? Hs' Hall]; subst.
    destruct (Qltb (cell_iou c) (cell_iou c')) eqn:E.
    + apply Qltb_lt in E. constructor; [now apply IH|].
      apply List.Forall_forall. intros x Hx. apply insert_desc_In in Hx.
      destruct Hx as [-> | Hx]; [lra|].
      rewrite List.Forall_forall in Hall. now apply Hall.
    + apply Qltb_ge in E. constructor; [assumption|].
      constructor; [assumption|].
      rewrite List.Forall_forall in Hall |- *. intros x Hx.
      specialize (Hall x Hx). lra.
Qed.

Lemma sort_desc_sorted l :
  StronglySorted (fun a b => (cell_iou b <= cell_iou a)%Q) (sort_desc l).
Proof.
  induction l as [|c l IH]; [constructor|].
  cbn [sort_desc foldr]. now apply insert_desc_sorted.
Qed.

Lemma sort_desc_stable l : stable_desc_sort l (sort_desc l).
Proof. split; [apply sort_desc_sorted | intros q; apply sort_desc_filter]. Qed.

Lemma same_iou_refl c : same_iou (cell_iou c) c = true.
Proof. unfold same_iou. apply Qeq_bool_iff. reflexivity. Qed.

Lemma filter_same_In q l x :
  In x (List.filter (same_iou q) l) <-> In x l /\ same_iou q x = true.
Proof. apply filter_In. Qed.

(** A stable descending sort has only one possible result. *)
Lemma stable_sort_unique l l1 l2 :
  stable_desc_sort l l1 -> stable_desc_sort l l2 -> l1 = l2.
Proof.
  intros [S1 F1] [S2 F2].
  assert (F : forall q, List.filter (same_iou q) l1 = List.filter (same_iou q) l2)
    by (intros q; now rewrite F1, F2).
  clear F1 F2 l. revert l2 S2 F.
  induction S1 as [|a l1 S1 IH Ha]; intros l2 S2 F.
  - destruct l2 as [|b l2]; [reflexivity|].
    specialize (F (cell_iou b)). cbn in F. rewrite same_iou_refl in F. discriminate.
  - destruct l2 as [|b l2].
    { specialize (F (cell_iou a)). cbn in F. rewrite same_iou_refl in F. discriminate. }
    inversion S2 as [|? ? S2' Hb]; subst.
    rewrite List.Forall_forall in Ha, Hb.
    assert (Hab : (cell_iou a == cell_iou b)%Q).
    { assert (In a (b :: l2)) as [-> | Hin].
      { apply (filter_same_In (cell_iou a)). rewrite <- F. cbn.
        rewrite same_iou_refl. now left. }
      { reflexivity. }
      assert (In b (a :: l1)) as [-> | Hin'].
      { apply (filter_same_In (cell_iou b)). rewrite F. cbn.
        rewrite same_iou_refl. now left. }
      { reflexivity. }
      specialize (Ha _ Hin'). specialize (Hb _ Hin). lra. }
    assert (a = b).
    { specialize (F (cell_iou a)). cbn in F. rewrite same_iou_refl in F.
      assert (E : same_iou (cell_iou a) b = true).
      { unfold same_iou. apply Qeq_bool_iff. now symmetry. }
      rewrite E in F. now injection F. }
    subst b. f_equal. apply IH; [assumption|].
    intros q. specialize (F q). cbn in F.
    destruct (same_iou q a); [now injection F | assumption].
Qed.

(** ** Insertion-ordered dictionaries *)

Section DictFacts.
Context {V : Type}.
Implicit Types (d : list (Z * V)) (k : Z) (v : V).

Lemma dict_get_In d k v :
  NoDup (dict_keys d) -> In (k, v) d -> dict_get k d = Some v.
Proof.
  induction d as [|[k' v'] d IH]; intros Hnd Hin; [destruct Hin|].
  cbn in Hnd. apply NoDup_cons in Hnd as [Hnotin Hnd].
  cbn. destruct Hin as [[= -> ->] | Hin].
  - now rewrite Z.eqb_refl.
  - destruct (Z.eqb_spec k k') as [-> | Hne]; [|now apply IH].
    exfalso. apply Hnotin. apply list_elem_of_In.
    change k' with (fst (k', v)). now apply in_map.
Qed.

Lemma dict_get_Some_In d k v : dict_get k d = Some v -> In (k, v) d.
Proof.
  induction d as [|[k' v'] d IH]; [discriminate|]. cbn.
  destruct (Z.eqb_spec k k') as [-> | Hne].
  - intros [= ->]. now left.
  - intros H. right. now apply IH.
Qed.

Lemma dict_get_None d k : dict_get k d = None <-> ~ In k (dict_keys d).
Proof.
  induction d as [|[k' v'] d IH]; cbn; [tauto|].
  destruct (Z.eqb_spec k k') as [-> | Hne].
  - split; [discriminate | intros H; exfalso; apply H; now left].
  - rewrite IH. split; [intros H [E | Hin]; [congruence | tauto] | tauto].
Qed.

Lemma dict_get_is_Some d k : is_Some (dict_get k d) <-> In k (dict_keys d).
Proof.
  destruct (dict_get k d) eqn:E.
  - split; [intros _ | eauto]. apply dict_get_Some_In in E.
    change k with (fst (k, v)). now apply in_map.
  - apply dict_get_None in E. split; [intros [? [=]] | tauto].
Qed.

Lemma dict_get_set d k v k' :
  dict_get k' (dict_set k v d) = if Z.eqb k' k then Some v else dict_get k' d.
Proof.
  induction d as [|[k0 v0] d IH]; cbn.
  - now destruct (Z.eqb k' k).
  - destruct (Z.eqb_spec k k0) as [-> | Hne]; cbn.
    + now destruct (Z.eqb k' k0).
    + rewrite IH. destruct (Z.eqb_spec k' k0) as [-> | Hne'];
        [|reflexivity].
      destruct (Z.eqb_spec k0 k); [congruence | reflexivity].
Qed.

Lemma dict_get_alter (f : V -> V) d k k' :
  dict_get k' (dict_alter f k d)
  = if Z.eqb k' k then option_map f (dict_get k' d) else dict_get k' d.
Proof.
  induction d as [|[k0 v0] d IH]; cbn.
  - now destruct (Z.eqb k' k).
  - destruct (Z.eqb_spec k k0) as [-> | Hne]; cbn.
    + now destruct (Z.eqb k' k0).
    + rewrite IH. destruct (Z.eqb_spec k' k0) as [-> | Hne'];
        [|reflexivity].
      destruct (Z.eqb_spec k0 k); [congruence | reflexivity].
Qed.

Lemma dict_keys_alter (f : V -> V) d k : dict_keys (dict_alter f k d) = dict_keys d.
Proof.
  unfold dict_keys. induction d as [|[k0 v0] d IH]; [reflexivity|]. cbn.
  destruct (Z.eqb k k0); cbn; [reflexivity | now rewrite IH].
Qed.

Lemma dict_keys_set d k v :
  dict_keys (dict_set k v d)
  = if dict_mem k d then dict_keys d else dict_keys d ++ [k].
Proof.
  unfold dict_mem, dict_keys. induction d as [|[k0 v0] d IH]; [reflexivity|]. cbn.
  destruct (Z.eqb_spec k k0) as [-> | Hne]; cbn; [reflexivity|].
  rewrite IH. now destruct (dict_get k d).
Qed.

Lemma dict_keys_del d k :
  NoDup (dict_keys d) ->
  dict_keys (dict_del k d) = List.filter (fun k' => negb (Z.eqb k' k)) (dict_keys d).
Proof.
  unfold dict_keys. induction d as [|[k0 v0] d IH]; intros Hnd; [reflexivity|].
  cbn in Hnd. apply NoDup_cons in Hnd as [Hnotin Hnd]. cbn.
  destruct (Z.eqb_spec k k0) as [-> | Hne].
  - rewrite Z.eqb_refl. cbn. symmetry. apply forallb_filter_id.
    apply forallb_forall. intros x Hx. apply negb_true_iff. apply Z.eqb_neq.
    intros ->. apply Hnotin. now apply list_elem_of_In.
  - destruct (Z.eqb_spec k0 k); [congruence|]. cbn. now rewrite IH.
Qed.

Lemma dict_get_del d k k' :
  NoDup (dict_keys d) ->
  dict_get k' (dict_del k d) = if Z.eqb k' k then None else dict_get k' d.
Proof.
  induction d as [|[k0 v0] d IH]; intros Hnd; cbn.
  - now destruct (Z.eqb k' k).
  - cbn in Hnd. apply NoDup_cons in Hnd as [Hnotin Hnd].
    destruct (Z.eqb_spec k k0) as [E | Hne]; cbn.
    + subst k. destruct (Z.eqb_spec k' k0) as [E | Hne']; [|reflexivity].
      subst k'. apply dict_get_None. intros Hin. apply Hnotin.
      now apply list_elem_of_In.
    + rewrite IH by assumption.
      destruct (Z.eqb_spec k' k0) as [E | Hne']; [|reflexivity].
      subst k'. destruct (Z.eqb_spec k0 k); [congruence | reflexivity].
Qed.
End DictFacts.

(** ** The candidate cells *)

Lemma enumerate_seq {A} (l : list A) (d : A) :
  enumerate l = map (fun i => (i, nth i l d)) (seq 0 (length l)).
Proof.
  unfold enumerate.
  assert (G : forall s, zip (seq s (length l)) l
                        = map (fun i => (i, nth (i - s) l d)) (seq s (length l))).
  { induction l as [|x l IH]; intros s; [reflexivity|].
    cbn [length seq map]. cbn [zip zip_with]. f_equal.
    - now rewrite Nat.sub_diag.
    - rewrite IH. apply map_ext_in. intros i Hi. apply in_seq in Hi.
      replace (i - s)%nat with (S (i - S s)) by lia. reflexivity. }
  rewrite G. apply map_ext. intros i. now rewrite Nat.sub_0_r.
Qed.

Lemma enumerate_seq_zip {A} (l : list A) (d : A) :
  zip (seq 0 (length l)) l = map (fun i => (i, nth i l d)) (seq 0 (length l)).
Proof. exact (enumerate_seq l d). Qed.

Lemma flat_map_ext_in {A B} (f g : A -> list B) (l : list A) :
  (forall x, In x l -> f x = g x) -> flat_map f l = flat_map g l.
Proof.
  induction l as [|x l IH]; intros H; [reflexivity|].
  cbn. rewrite (H x) by now left. rewrite IH; [reflexivity|].
  intros; apply H; now right.
Qed.

Lemma build_iou_matrix_rows trks detections :
  NoDup (dict_keys trks) ->
  build_iou_matrix trks (dict_keys trks) detections
  = map (fun a => map (fun b => iou a b) (map det_bbox detections))
      (map (fun p => bbox (snd p)) trks).
Proof.
  intros Hnd. unfold build_iou_matrix, dict_keys. rewrite !map_map.
  apply map_ext_in. intros [k t] Hin. cbn.
  rewrite (dict_get_In trks k t Hnd Hin). now rewrite map_map.
Qed.

Lemma flat_map_after_map {A B C} (g : A -> B) (f : B -> list C) (l : list A) :
  flat_map f (map g l) = flat_map (fun x => f (g x)) l.
Proof. induction l as [|x l IH]; [reflexivity|]. cbn. now rewrite IH. Qed.

Lemma collect_matches_spec rows cols threshold :
  collect_matches (map (fun a => map (fun b => iou a b) cols) rows)
    (length rows) (length cols) threshold
  = spec_cells rows cols threshold.
Proof.
  unfold collect_matches, spec_cells.
  set (d := mkBBox 0 0 0 0).
  rewrite (enumerate_seq rows d), flat_map_after_map.
  apply flat_map_ext_in. intros i Hi. apply in_seq in Hi.
  rewrite (enumerate_seq cols d), flat_map_after_map.
  apply flat_map_ext_in. intros j Hj. apply in_seq in Hj.
  assert (E : matrix_at (map (fun a => map (fun b => iou a b) cols) rows) i j
              = iou (nth i rows d) (nth j cols d)).
  { unfold matrix_at.
    rewrite (nth_indep _ [] (map (fun b => iou d b) cols))
      by (rewrite length_map; lia).
    rewrite (map_nth (fun a => map (fun b => iou a b) cols) rows d i).
    rewrite (nth_indep _ 0%Q (iou (nth i rows d) d)) by (rewrite length_map; lia).
    now rewrite (map_nth (fun b => iou (nth i rows d) b) cols d j). }
  now rewrite E.
Qed.

(** ** The greedy loop *)

Lemma existsb_eqb_In (i : nat) (l : list nat) :
  existsb (Nat.eqb i) l = true <-> In i l.
Proof.
  rewrite existsb_exists. split.
  - intros (x & Hx & E). apply Nat.eqb_eq in E. now subst.
  - intros H. exists i. split; [assumption | apply Nat.eqb_refl].
Qed.

Lemma existsb_eqb_not_In (i : nat) (l : list nat) :
  existsb (Nat.eqb i) l = false <-> ~ In i l.
Proof.
  rewrite <- existsb_eqb_In. destruct (existsb _ _); split; congruence.
Qed.

Lemma stdpp_filter_as_List {A} (P : A -> Prop) `{!forall x, Decision (P x)}
    (f : A -> bool) (l : list A) :
  (forall x, In x l -> (P x <-> f x = true)) -> filter P l = List.filter f l.
Proof.
  induction l as [|x l IH]; intros Hf; [reflexivity|].
  cbn [List.filter]. rewrite filter_cons. rewrite IH by (intros; apply Hf; now right).
  pose proof (Hf x (or_introl eq_refl)) as Hx.
  destruct (decide (P x)) as [p|np]; destruct (f x); try reflexivity.
  - apply Hx in p. discriminate.
  - exfalso. apply np. now apply Hx.
Qed.

Section Greedy.
Variable track_ids : list Z.
Variable n_dets : nat.
Hypothesis ids_nodup : NoDup track_ids.

Definition cell_in_range (c : Cell) : Prop :=
  (fst (fst c) < length track_ids)%nat /\ (snd (fst c) < n_dets)%nat.

Definition to_ids (p : nat * nat) : Z * nat := (nth (fst p) track_ids 0, snd p).

(** The sets of the code against the consumed rows and columns. *)
Definition tracks_the_used (unmatched_dets : gset nat) (unmatched_tracks : gset Z)
    (used_rows used_cols : list nat) : Prop :=
  (forall j, j ∈ unmatched_dets <-> (j < n_dets)%nat /\ ~ In j used_cols) /\
  (forall i, (i < length track_ids)%nat ->
     nth i track_ids 0 ∈ unmatched_tracks <-> ~ In i used_rows).

Lemma nth_ids_inj i i' :
  (i < length track_ids)%nat -> (i' < length track_ids)%nat ->
  nth i track_ids 0 = nth i' track_ids 0 -> i = i'.
Proof.
  intros Hi Hi' E.
  apply (proj1 (List.NoDup_nth track_ids 0)); try assumption.
  now apply NoDup_ListNoDup.
Qed.

Lemma greedy_fold_spec cells :
  Forall cell_in_range cells ->
  forall matched unmatched_dets unmatched_tracks used_rows used_cols,
  tracks_the_used unmatched_dets unmatched_tracks used_rows used_cols ->
  exists unmatched_dets' unmatched_tracks',
    fold_left (greedy_step track_ids) cells
      (matched, unmatched_dets, unmatched_tracks)
    = (matched ++ map to_ids (spec_greedy cells used_rows used_cols),
       unmatched_dets', unmatched_tracks') /\
    (forall j, j ∈ unmatched_dets' <->
       j ∈ unmatched_dets /\
       ~ In j (map snd (spec_greedy cells used_rows used_cols))) /\
    (forall i, (i < length track_ids)%nat ->
       nth i track_ids 0 ∈ unmatched_tracks' <->
       nth i track_ids 0 ∈ unmatched_tracks /\
       ~ In i (map fst (spec_greedy cells used_rows used_cols))).
Proof.
  induction 1 as [|[[i j] q] cells [Hi Hj] Hrange IH];
    intros matched U_d U_t used_rows used_cols [Hd Ht].
  - exists U_d, U_t. cbn. rewrite app_nil_r. repeat split; tauto.
  - cbn in Hi, Hj. cbn [fold_left spec_greedy]. unfold greedy_step at 2.
    destruct (existsb (Nat.eqb i) used_rows) eqn:Er.
    + (* the row is consumed *)
      apply existsb_eqb_In in Er.
      rewrite (bool_decide_eq_false_2 (nth i track_ids 0 ∈ U_t))
        by (rewrite (Ht i Hi); tauto).
      cbn [andb negb]. now apply IH.
    + apply existsb_eqb_not_In in Er.
      rewrite (bool_decide_eq_true_2 (nth i track_ids 0 ∈ U_t))
        by (now apply (Ht i Hi)).
      destruct (existsb (Nat.eqb j) used_cols) eqn:Ec.
      * (* the column is consumed *)
        apply existsb_eqb_In in Ec.
        rewrite (bool_decide_eq_false_2 (j ∈ U_d)) by (rewrite Hd; tauto).
        cbn [andb negb]. now apply IH.
      * (* the cell is accepted *)
        apply existsb_eqb_not_In in Ec.
        rewrite (bool_decide_eq_true_2 (j ∈ U_d)) by (apply Hd; tauto).
        cbn [andb negb].
        destruct (IH (matched ++ [(nth i track_ids 0, j)])
                    (U_d ∖ {[j]}) (U_t ∖ {[nth i track_ids 0]})
                    (i :: used_rows) (j :: used_cols))
          as (U_d' & U_t' & Hfold & Hd' & Ht').
        { split.
          - intros j'. rewrite elem_of_difference, elem_of_singleton, Hd. cbn.
            intuition congruence.
          - intros i' Hi'. rewrite elem_of_difference, elem_of_singleton.
            rewrite (Ht i' Hi'). cbn. split.
            + intros [Hn Hne] [E | Hin]; [|tauto]. subst. now apply Hne.
            + intros Hn. split; [tauto|]. intros E.
              apply nth_ids_inj in E; try assumption. subst. tauto. }
        exists U_d', U_t'. rewrite Hfold, <- app_assoc. cbn [map app].
        split; [reflexivity|]. split.
        -- intros j'. rewrite Hd', elem_of_difference, elem_of_singleton. cbn.
           intuition congruence.
        -- intros i' Hi'. rewrite (Ht' i' Hi'), elem_of_difference, elem_of_singleton.
           cbn. split.
           ++ intros [[Hin Hne] Hn]. split; [assumption|].
              intros [E | Hin']; [|tauto]. subst. now apply Hne.
           ++ intros [Hin Hn]. split; [split; [assumption|]|tauto].
              intros E. apply nth_ids_inj in E; try assumption. subst. tauto.
Qed.

Lemma spec_greedy_subset cells used_rows used_cols i j :
  In (i, j) (spec_greedy cells used_rows used_cols) ->
  exists q, In (i, j, q) cells.
Proof.
  revert used_rows used_cols.
  induction cells as [|[[i' j'] q'] cells IH]; intros used_rows used_cols; [intros []|].
  cbn [spec_greedy].
  destruct (negb _ && negb _).
  - intros [[= -> ->] | Hin]; [exists q'; now left|].
    destruct (IH _ _ Hin) as [q Hq]. exists q. now right.
  - intros Hin. destruct (IH _ _ Hin) as [q Hq]. exists q. now right.
Qed.
End Greedy.

(** ** [_match] against the specification of the association step *)

Lemma spec_cells_in_range rows cols threshold c :
  In c (spec_cells rows cols threshold) ->
  (fst (fst c) < length rows)%nat /\ (snd (fst c) < length cols)%nat.
Proof.
  unfold spec_cells. set (d := mkBBox 0 0 0 0).
  rewrite (enumerate_seq rows d), flat_map_after_map, in_flat_map.
  intros (i & Hi & Hc). apply in_seq in Hi.
  rewrite (enumerate_seq cols d), flat_map_after_map, in_flat_map in Hc.
  destruct Hc as (j & Hj & Hc). apply in_seq in Hj.
  destruct (Qltb _ _); [|destruct Hc].
  destruct Hc as [<- | []]. cbn. lia.
Qed.

Lemma sort_desc_In l x : In x (sort_desc l) <-> In x l.
Proof.
  induction l as [|c l IH]; [reflexivity|].
  cbn [sort_desc foldr]. fold (sort_desc l). rewrite insert_desc_In, IH. cbn.
  intuition congruence.
Qed.

Lemma spec_cells_no_cols rows threshold : spec_cells rows [] threshold = [].
Proof.
  unfold spec_cells. induction (enumerate rows) as [|[i a] l IH]; [reflexivity|].
  cbn. exact IH.
Qed.

Lemma filter_enumerate {A} (P : A -> Prop) `{!forall x, Decision (P x)}
    (f : nat * A -> bool) (l : list A) :
  (forall i x, nth_error l i = Some x -> (P x <-> f (i, x) = true)) ->
  filter P l = map snd (List.filter f (enumerate l)).
Proof.
  unfold enumerate.
  assert (G : forall s,
    (forall i x, nth_error l i = Some x -> (P x <-> f ((s + i)%nat, x) = true)) ->
    filter P l = map snd (List.filter f (zip (seq s (length l)) l))).
  { induction l as [|x l IH]; intros s Hf; [reflexivity|].
    cbn [length seq]. cbn [zip zip_with List.filter]. rewrite filter_cons.
    rewrite (IH (S s)).
    2:{ intros i y Hy. replace (S s + i)%nat with (s + S i)%nat by lia.
        now apply Hf. }
    pose proof (Hf 0%nat x eq_refl) as Hx. rewrite Nat.add_0_r in Hx.
    destruct (decide (P x)) as [p|np]; destruct (f (s, x)); try reflexivity.
    - apply Hx in p. discriminate.
    - exfalso. apply np. now apply Hx. }
  intros Hf. now apply (G 0%nat).
Qed.

Lemma map_snd_enumerate {A} (l : list A) : map snd (enumerate l) = l.
Proof.
  unfold enumerate. generalize 0%nat.
  induction l as [|x l IH]; intros s; [reflexivity|].
  cbn. f_equal. apply IH.
Qed.

Lemma filter_all_true {A} (f : A -> bool) (l : list A) :
  (forall x, f x = true) -> List.filter f l = l.
Proof.
  intros H. induction l as [|x l IH]; [reflexivity|]. cbn. now rewrite H, IH.
Qed.

Lemma list_nil_or_not {A} (l : list A) : l = [] \/ l <> [].
Proof. destruct l; [now left | now right]. Qed.

Lemma match_unfold eng detections :
  tracks eng <> [] -> detections <> [] ->
  _match eng detections =
  let track_ids := dict_keys (tracks eng) in
  let '(matched, unmatched_dets, unmatched_tracks) :=
    fold_left (greedy_step track_ids)
      (sort_desc
         (collect_matches (build_iou_matrix (tracks eng) track_ids detections)
            (length track_ids) (length detections)
            (iou_threshold (tr_config eng))))
      ([], list_to_set (seq 0 (length detections)), list_to_set track_ids) in
  (matched,
   filter (fun j => j ∈ unmatched_dets) (seq 0 (length detections)),
   filter (fun tid => tid ∈ unmatched_tracks) track_ids).
Proof.
  intros H1 H2. unfold _match.
  destruct (tracks eng); [congruence|]. destruct detections; [congruence|].
  reflexivity.
Qed.

Lemma match_no_candidates eng detections :
  tracks eng = [] \/ detections = [] ->
  _match eng detections
  = ([], seq 0 (length detections), dict_keys (tracks eng)).
Proof.
  unfold _match. intros [E | E]; rewrite E; [reflexivity|].
  now destruct (tracks eng).
Qed.

Lemma match_meets_spec eng detections :
  NoDup (dict_keys (tracks eng)) ->
  association_spec eng detections (_match eng detections).
Proof.
  intros Hnd. unfold association_spec.
  set (rows := map (fun p => bbox (snd p)) (tracks eng)).
  set (cols := map det_bbox detections).
  set (thr := iou_threshold (tr_config eng)).
  set (track_ids := dict_keys (tracks eng)) in *.
  assert (Hnone : tracks eng = [] \/ detections = [] ->
    exists sorted : list Cell,
      stable_desc_sort (spec_cells rows cols thr) sorted /\
      _match eng detections =
        (map (fun '(i, j) => (nth i track_ids 0, j)) (spec_greedy sorted [] []),
         List.filter
           (fun j => negb (existsb (Nat.eqb j) (map snd (spec_greedy sorted [] []))))
           (seq 0 (length detections)),
         map snd
           (List.filter
              (fun '(i, _) =>
                 negb (existsb (Nat.eqb i) (map fst (spec_greedy sorted [] []))))
              (enumerate track_ids)))).
  { intros Hempty. exists [].
    assert (Hcells : spec_cells rows cols thr = []).
    { destruct Hempty as [E | E].
      - unfold rows. now rewrite E.
      - unfold cols. rewrite E. apply spec_cells_no_cols. }
    rewrite Hcells. split; [split; [constructor | reflexivity]|].
    rewrite match_no_candidates by assumption.
    cbn [spec_greedy map existsb negb].
    rewrite filter_all_true by reflexivity.
    rewrite filter_all_true by (now intros [i x]).
    now rewrite map_snd_enumerate. }
  destruct (list_nil_or_not (tracks eng)) as [Etr | Etr]; [apply Hnone; now left|].
  destruct (list_nil_or_not detections) as [Edet | Edet]; [apply Hnone; now right|].
  clear Hnone.
  assert (Hcells :
    collect_matches (build_iou_matrix (tracks eng) track_ids detections)
      (length track_ids) (length detections) thr
    = spec_cells rows cols thr).
  { unfold track_ids. rewrite build_iou_matrix_rows by assumption.
    fold rows cols.
    replace (length (dict_keys (tracks eng))) with (length rows)
      by (unfold rows, dict_keys; now rewrite !length_map).
    replace (length detections) with (length cols)
      by (unfold cols; now rewrite length_map).
    apply collect_matches_spec. }
  set (sorted := sort_desc (spec_cells rows cols thr)).
  exists sorted. split; [apply sort_desc_stable|].
  assert (Hrange : Forall (cell_in_range track_ids (length detections)) sorted).
  { apply List.Forall_forall. intros c Hc. unfold sorted in Hc.
    apply (proj1 (sort_desc_In _ _)) in Hc.
    apply spec_cells_in_range in Hc. unfold cell_in_range, track_ids.
    unfold rows, cols, dict_keys in *. rewrite !length_map in *. exact Hc. }
  destruct (greedy_fold_spec track_ids (length detections) Hnd sorted Hrange
              [] (list_to_set (seq 0 (length detections))) (list_to_set track_ids)
              [] [])
    as (U_d & U_t & Hfold & Hd & Ht).
  { split.
    - intros j. rewrite elem_of_list_to_set, list_elem_of_In, in_seq. cbn. lia.
    - intros i Hi. rewrite elem_of_list_to_set, list_elem_of_In. cbn.
      split; [tauto|]. intros _. now apply nth_In. }
  rewrite match_unfold by assumption. cbv zeta.
  fold track_ids thr. rewrite Hcells. fold sorted. rewrite Hfold.
  cbn [app]. f_equal; [f_equal|].
  - apply map_ext. now intros [i j].
  - apply stdpp_filter_as_List. intros j Hj.
    rewrite Hd, elem_of_list_to_set, list_elem_of_In, negb_true_iff,
      existsb_eqb_not_In. tauto.
  - apply filter_enumerate. intros i x Hi.
    assert (Hlt : (i < length track_ids)%nat).
    { apply nth_error_Some. congruence. }
    rewrite <- (nth_error_nth _ _ 0 Hi), (Ht i Hlt), elem_of_list_to_set,
      list_elem_of_In, negb_true_iff, existsb_eqb_not_In.
    split; [tauto|]. intros Hn. split; [now apply nth_In | assumption].
Qed.

(** C5.  For a tracker whose dict has (as every dict) no repeated key,
    [_match] returns a result the specification of the association step
    describes -- candidate cells enumerated in row-major order, sorted by IoU
    descending with ties in enumeration order, accepted greedily exactly when
    row and column are both unconsumed, the rest returned unmatched -- and
    that description determines the result: any triple meeting it is the one
    [_match] returns. *)
Theorem match_is_greedy_association (eng : TrackingEngine)
    (detections : list Detection) :
  NoDup (dict_keys (tracks eng)) ->
  association_spec eng detections (_match eng detections) /\
  forall result, association_spec eng detections result ->
                 result = _match eng detections.
Proof.
  intros Hnd. pose proof (match_meets_spec eng detections Hnd) as Hspec.
  split; [exact Hspec|].
  intros result (s1 & Hs1 & ->). destruct Hspec as (s2 & Hs2 & ->).
  now rewrite (stable_sort_unique _ _ _ Hs1 Hs2).
Qed.

(** ** The steps of [TrackingEngine.update] *)

Lemma fold_clk_invariant {A S} (f : S -> A -> Clk S) (P : S -> Prop) (l : list A) :
  (forall s x c, In x l -> P s -> P (fst (f s x c))) ->
  forall s c, P s -> P (fst (fold_clk f l s c)).
Proof.
  induction l as [|x l IH]; intros Hstep s c Hs; [exact Hs|].
  cbn [fold_clk]. unfold bind.
  pose proof (Hstep s x c (or_introl eq_refl) Hs) as H1.
  destruct (f s x c) as [s' c']. cbn in H1.
  apply IH; [|exact H1]. intros; apply Hstep; [now right | assumption].
Qed.

Lemma fold_left_invariant {A S} (f : S -> A -> S) (P : S -> Prop) (l : list A) :
  (forall s x, In x l -> P s -> P (f s x)) ->
  forall s, P s -> P (fold_left f l s).
Proof.
  induction l as [|x l IH]; intros Hstep s Hs; [exact Hs|].
  cbn. apply IH; [intros; apply Hstep; [now right | assumption]|].
  apply Hstep; [now left | exact Hs].
Qed.

(** *** Prediction *)

Lemma predict_fold_get (g : KalmanFilter -> Track -> Track)
    (kfs : list (Z * KalmanFilter)) :
  NoDup (dict_keys kfs) ->
  forall (trks : list (Z * Track)) (k : Z),
  dict_get k (fold_left (fun trks '(tid, kf) => dict_alter (g kf) tid trks) kfs trks)
  = match dict_get k kfs with
    | Some kf => option_map (g kf) (dict_get k trks)
    | None => dict_get k trks
    end.
Proof.
  induction kfs as [|[k0 kf0] kfs IH]; intros Hnd trks k; [reflexivity|].
  cbn in Hnd. apply NoDup_cons in Hnd as [Hnotin Hnd].
  cbn [fold_left dict_get]. rewrite IH by assumption. rewrite dict_get_alter.
  destruct (Z.eqb_spec k k0) as [E | Hne]; [|reflexivity].
  subst k0.
  assert (Hnone : dict_get k kfs = None).
  { apply dict_get_None. intros Hin. apply Hnotin. now apply list_elem_of_In. }
  now rewrite Hnone.
Qed.

Lemma predict_fold_keys (g : KalmanFilter -> Track -> Track)
    (kfs : list (Z * KalmanFilter)) (trks : list (Z * Track)) :
  dict_keys (fold_left (fun trks '(tid, kf) => dict_alter (g kf) tid trks) kfs trks)
  = dict_keys trks.
Proof.
  revert trks. induction kfs as [|[k0 kf0] kfs IH]; intros trks; [reflexivity|].
  cbn [fold_left]. rewrite IH. apply dict_keys_alter.
Qed.

Lemma predict_all_keys eng :
  dict_keys (tracks (predict_all eng)) = dict_keys (tracks eng) /\
  dict_keys (kalman_filters (predict_all eng)) = dict_keys (kalman_filters eng) /\
  next_track_id (predict_all eng) = next_track_id eng /\
  tr_config (predict_all eng) = tr_config eng.
Proof.
  unfold predict_all. cbn. split; [apply predict_fold_keys|].
  split; [|split; reflexivity].
  unfold dict_keys. rewrite map_map. apply map_ext. now intros [k kf].
Qed.

Lemma predict_all_wf eng : tracker_wf eng -> tracker_wf (predict_all eng).
Proof.
  intros (Hnd & Hk & Hlt).
  destruct (predict_all_keys eng) as (E1 & E2 & E3 & _).
  unfold tracker_wf. rewrite E1, E2, E3. auto.
Qed.

(** Every track of a well-formed tracker is advanced by the prediction
    loop: its box is the predicted one, [age] and [time_since_update] are
    incremented. *)
Lemma predict_all_get eng k :
  tracker_wf eng ->
  exists kfs_bbox : option BBox,
    dict_get k (tracks (predict_all eng))
    = match kfs_bbox, dict_get k (tracks eng) with
      | Some b, Some t => Some (apply_prediction b t)
      | _, _ => None
      end /\
    (is_Some (dict_get k (tracks eng)) -> is_Some kfs_bbox) /\
    (forall b, kfs_bbox = Some b ->
       exists kf, dict_get k (kalman_filters eng) = Some kf /\
                  b = snd (kf_predict kf)).
Proof.
  intros (Hnd & Hk & _).
  unfold predict_all. cbn [tracks].
  rewrite (predict_fold_get (fun kf => apply_prediction (snd (kf_predict kf))))
    by (now rewrite Hk).
  destruct (dict_get k (kalman_filters eng)) as [kf|] eqn:Ekf.
  - exists (Some (snd (kf_predict kf))). split; [now destruct (dict_get k (tracks eng))|].
    split; [eauto|]. intros b [= <-]. eauto.
  - exists None. apply dict_get_None in Ekf. rewrite Hk in Ekf.
    apply dict_get_None in Ekf. rewrite Ekf. split; [reflexivity|].
    split; [intros [? [=]] | discriminate].
Qed.

(** *** What the association returns *)

Lemma match_partition eng detections :
  NoDup (dict_keys (tracks eng)) ->
  let '(matched, unmatched_dets, unmatched_tracks) := _match eng detections in
  (forall tid j, In (tid, j) matched ->
     In tid (dict_keys (tracks eng)) /\ (j < length detections)%nat) /\
  (forall tid, In tid (dict_keys (tracks eng)) ->
     In tid (map fst matched) \/ In tid unmatched_tracks) /\
  (forall tid, In tid unmatched_tracks -> In tid (dict_keys (tracks eng))) /\
  (forall j, In j unmatched_dets -> (j < length detections)%nat).
Proof.
  intros Hnd. destruct (match_meets_spec eng detections Hnd) as (sorted & Hsort & ->).
  cbv zeta.
  set (accepted := spec_greedy sorted [] []).
  set (track_ids := dict_keys (tracks eng)).
  assert (Hacc : forall i j, In (i, j) accepted ->
            (i < length track_ids)%nat /\ (j < length detections)%nat).
  { intros i j Hin. apply spec_greedy_subset in Hin as [q Hq].
    pose proof (proj2 (filter_same_In q sorted (i, j, q))
                  (conj Hq (same_iou_refl (i, j, q)))) as Hq'.
    rewrite (proj2 Hsort q) in Hq'. apply filter_In in Hq' as [Hq' _].
    apply spec_cells_in_range in Hq'. cbn in Hq'.
    unfold track_ids, dict_keys. rewrite !length_map in *. exact Hq'. }
  repeat split.
  - apply in_map_iff in H as ([i j'] & [= <- <-] & Hin).
    apply nth_In. now apply (Hacc i j').
  - apply in_map_iff in H as ([i j'] & [= <- <-] & Hin). now apply (Hacc i j').
  - intros tid Hin. apply In_nth_error in Hin as [i Hi].
    destruct (existsb (Nat.eqb i) (map fst accepted)) eqn:E.
    + left. apply existsb_eqb_In in E. apply in_map_iff in E as ([i' j] & Ei & Hin).
      cbn in Ei. subst i'. rewrite map_map. apply in_map_iff.
      exists (i, j). split; [|assumption]. cbn.
      now apply nth_error_nth.
    + right. apply in_map_iff. exists (i, tid). split; [reflexivity|].
      apply filter_In. split; [|now rewrite E].
      unfold enumerate. fold track_ids.
      assert (Hlt : (i < length track_ids)%nat) by (apply nth_error_Some; congruence).
      rewrite (enumerate_seq_zip track_ids 0%Z). apply in_map_iff.
      exists i. split; [|apply in_seq; lia].
      f_equal. now apply nth_error_nth.
  - intros tid Hin. apply in_map_iff in Hin as ([i x] & Ex & Hin). cbn in Ex. subst x.
    apply filter_In in Hin as [Hin _]. fold track_ids in Hin |- *.
    unfold enumerate in Hin. rewrite (enumerate_seq_zip track_ids 0%Z) in Hin.
    apply in_map_iff in Hin as (i' & [= <- <-] & Hi'). apply in_seq in Hi'.
    apply nth_In. lia.
  - intros j Hin. apply filter_In in Hin as [Hin _]. apply in_seq in Hin. lia.
Qed.

(** *** Matched tracks *)

Lemma same_plate_refl t : same_plate t t.
Proof. repeat split. Qed.

Lemma same_plate_trans t1 t2 t3 :
  same_plate t1 t2 -> same_plate t2 t3 -> same_plate t1 t3.
Proof. unfold same_plate. intuition congruence. Qed.

Lemma kept_refl t : kept t t.
Proof. repeat split. now left. Qed.

Lemma kept_trans t1 t2 t3 : kept t1 t2 -> kept t2 t3 -> kept t1 t3.
Proof.
  intros (P1 & A1 & I1 & T1) (P2 & A2 & I2 & T2).
  split; [eapply same_plate_trans; eassumption|].
  repeat split; try congruence.
  destruct T2 as [T2 | T2]; [|now right].
  rewrite T2. exact T1.
Qed.

Lemma pointwise_refl (R : Track -> Track -> Prop) d :
  (forall t, R t t) -> pointwise R d d.
Proof. intros HR k. destruct (dict_get k d); auto. Qed.

Lemma pointwise_trans (R : Track -> Track -> Prop) d1 d2 d3 :
  (forall a b c, R a b -> R b c -> R a c) ->
  pointwise R d1 d2 -> pointwise R d2 d3 -> pointwise R d1 d3.
Proof.
  intros HR H12 H23 k. specialize (H12 k). specialize (H23 k).
  destruct (dict_get k d1), (dict_get k d2), (dict_get k d3); eauto; contradiction.
Qed.

Lemma pointwise_set (R : Track -> Track -> Prop) d k t t' :
  (forall t, R t t) -> dict_get k d = Some t -> R t t' ->
  pointwise R d (dict_set k t' d).
Proof.
  intros HR Hget Ht k'. rewrite dict_get_set.
  destruct (Z.eqb_spec k' k) as [-> | Hne].
  - now rewrite Hget.
  - destruct (dict_get k' d); auto.
Qed.

Lemma pointwise_alter (R : Track -> Track -> Prop) d k f :
  (forall t, R t t) -> (forall t, R t (f t)) -> pointwise R d (dict_alter f k d).
Proof.
  intros HR Hf k'. rewrite dict_get_alter.
  destruct (Z.eqb_spec k' k) as [-> | Hne]; destruct (dict_get _ d); cbn; auto.
Qed.

Lemma dict_keys_set_present {V} (d : list (Z * V)) k v :
  is_Some (dict_get k d) -> dict_keys (dict_set k v d) = dict_keys d.
Proof.
  intros [v0 H]. rewrite dict_keys_set. unfold dict_mem. now rewrite H.
Qed.

Lemma confirm_matched_fields config t :
  kept t (confirm_matched config t) /\
  hits (confirm_matched config t) = hits t /\
  time_since_update (confirm_matched config t) = time_since_update t.
Proof.
  unfold confirm_matched.
  destruct (bool_decide (state t = TENTATIVE) && (min_hits config <=? hits t));
    match goal with |- context [bool_decide ?P] => destruct (bool_decide P) end;
    cbn; (split; [|split; reflexivity]);
    (split; [repeat split | split; [reflexivity | split; [reflexivity | now left]]]).
Qed.

(** The engine after the body of the matched loop, when its lookups
    succeed. *)
Lemma update_matched_run detections eng tid j detection track kf c :
  detections !! j = Some detection ->
  dict_get tid (tracks eng) = Some track ->
  dict_get tid (kalman_filters eng) = Some kf ->
  exists track',
    fst (update_matched detections eng (tid, j) c)
    = mkTracker (tr_config eng) (tr_camera_id eng)
        (dict_set tid track' (tracks eng)) (next_track_id eng)
        (dict_set tid (kf_update kf (det_bbox detection)) (kalman_filters eng))
        (total_tracks eng) (active_tracks eng) /\
    kept track track' /\ time_since_update track' = 0 /\
    hits track' = hits track + 1.
Proof.
  intros Hd Ht Hk. unfold update_matched. rewrite Hd, Ht, Hk.
  unfold bind, update_bbox, now, ret. cbn [fst].
  eexists. split; [reflexivity|].
  match goal with |- context [confirm_matched ?cfg ?t0] =>
    destruct (confirm_matched_fields cfg t0) as (Hk2 & Hh & Hts);
    set (t1 := t0) in * end.
  assert (H1 : kept track t1) by (repeat split; now right).
  split; [eapply kept_trans; eassumption|].
  split; [rewrite Hts; reflexivity|].
  rewrite Hh. reflexivity.
Qed.

Lemma update_matched_step detections eng m c :
  let eng' := fst (update_matched detections eng m c) in
  dict_keys (tracks eng') = dict_keys (tracks eng) /\
  dict_keys (kalman_filters eng') = dict_keys (kalman_filters eng) /\
  next_track_id eng' = next_track_id eng /\
  tr_config eng' = tr_config eng /\
  pointwise kept (tracks eng) (tracks eng').
Proof.
  destruct m as [tid j]. cbv zeta.
  destruct (detections !! j) as [detection|] eqn:Hd;
    [destruct (dict_get tid (tracks eng)) as [track|] eqn:Ht;
     [destruct (dict_get tid (kalman_filters eng)) as [kf|] eqn:Hk|]|].
  - destruct (update_matched_run _ _ _ _ _ _ _ c Hd Ht Hk)
      as (track' & -> & Hkept & _).
    cbn [tracks kalman_filters next_track_id tr_config].
    rewrite !dict_keys_set_present by eauto.
    repeat split. apply (pointwise_set kept _ _ track); auto using kept_refl.
  - unfold update_matched. rewrite Hd, Ht, Hk. cbn.
    repeat split. apply pointwise_refl, kept_refl.
  - unfold update_matched. rewrite Hd, Ht. cbn.
    repeat split. apply pointwise_refl, kept_refl.
  - unfold update_matched. rewrite Hd. cbn.
    repeat split. apply pointwise_refl, kept_refl.
Qed.

Lemma matched_loop detections matched :
  forall eng c,
  let eng' := fst (fold_clk (update_matched detections) matched eng c) in
  dict_keys (tracks eng') = dict_keys (tracks eng) /\
  dict_keys (kalman_filters eng') = dict_keys (kalman_filters eng) /\
  next_track_id eng' = next_track_id eng /\
  tr_config eng' = tr_config eng /\
  pointwise kept (tracks eng) (tracks eng').
Proof.
  intros eng c.
  apply (fold_clk_invariant (update_matched detections)
           (fun e => dict_keys (tracks e) = dict_keys (tracks eng) /\
                     dict_keys (kalman_filters e) = dict_keys (kalman_filters eng) /\
                     next_track_id e = next_track_id eng /\
                     tr_config e = tr_config eng /\
                     pointwise kept (tracks eng) (tracks e))).
  - intros s x c' _ (K1 & K2 & N & C & P).
    destruct (update_matched_step detections s x c') as (K1' & K2' & N' & C' & P').
    repeat split; try congruence.
    eapply pointwise_trans; [exact kept_trans | exact P | exact P'].
  - repeat split. apply pointwise_refl, kept_refl.
Qed.

(** Every matched track leaves the loop with [time_since_update = 0]. *)
Lemma matched_loop_resets detections matched :
  forall eng c,
  dict_keys (kalman_filters eng) = dict_keys (tracks eng) ->
  (forall tid j, In (tid, j) matched ->
     In tid (dict_keys (tracks eng)) /\ (j < length detections)%nat) ->
  forall tid, In tid (map fst matched) ->
  exists t', dict_get tid (tracks (fst (fold_clk (update_matched detections)
                                          matched eng c))) = Some t' /\
             time_since_update t' = 0.
Proof.
  induction matched as [|[tid0 j0] matched IH]; intros eng c Hk Hin tid Htid;
    [destruct Htid|].
  cbn [fold_clk]. unfold bind.
  destruct (Hin tid0 j0 (or_introl eq_refl)) as [Hkey Hj].
  apply dict_get_is_Some in Hkey as Hsome. destruct Hsome as [track Ht].
  assert (Hkf : is_Some (dict_get tid0 (kalman_filters eng))).
  { apply dict_get_is_Some. now rewrite Hk. }
  destruct Hkf as [kf Hkf].
  destruct (lookup_lt_is_Some_2 detections j0 Hj) as [detection Hd].
  destruct (update_matched_run detections eng tid0 j0 _ _ _ c Hd Ht Hkf)
    as (track' & Hrun & Hkept & Hts & _).
  destruct (update_matched_step detections eng (tid0, j0) c)
    as (K1 & K2 & _ & _ & _).
  destruct (update_matched detections eng (tid0, j0) c) as [eng1 c1] eqn:E1.
  cbn [fst] in *.
  assert (Hin1 : forall tid j, In (tid, j) matched ->
            In tid (dict_keys (tracks eng1)) /\ (j < length detections)%nat).
  { intros t j H. rewrite K1. apply Hin. now right. }
  assert (Hk1 : dict_keys (kalman_filters eng1) = dict_keys (tracks eng1))
    by congruence.
  destruct (in_dec Z.eq_dec tid (map fst matched)) as [Hlater | Hnot].
  - now apply IH.
  - destruct Htid as [E | Hlater]; [|contradiction]. cbn in E. subst tid0.
    destruct (matched_loop detections matched eng1 c1) as (_ & _ & _ & _ & P).
    specialize (P tid).
    assert (Hget1 : dict_get tid (tracks eng1) = Some track').
    { rewrite Hrun. cbn. now rewrite dict_get_set, Z.eqb_refl. }
    rewrite Hget1 in P.
    destruct (dict_get tid (tracks (fst (fold_clk _ matched eng1 c1)))) as [t'|];
      [|contradiction].
    exists t'. split; [reflexivity|].
    destruct P as (_ & _ & _ & [T | T]); congruence.
Qed.

(** *** New tracks *)

Lemma create_track_run eng detection h c :
  exists track,
    fst (_create_track eng detection h c)
    = mkTracker (tr_config eng) (tr_camera_id eng)
        (dict_set (next_track_id eng) track (tracks eng)) (next_track_id eng + 1)
        (dict_set (next_track_id eng) (KalmanFilter_init (det_bbox detection))
           (kalman_filters eng))
        (total_tracks eng + 1) (active_tracks eng) /\
    fresh_track track /\ state track = TENTATIVE.
Proof.
  unfold _create_track, bind, now, ret. cbn [fst].
  eexists. split; [reflexivity|]. repeat split.
Qed.

Lemma not_in_keys_lt {V} (d : list (Z * V)) (n : Z) :
  (forall k, In k (dict_keys d) -> k < n) -> ~ In n (dict_keys d).
Proof. intros H Hin. specialize (H n Hin). lia. Qed.

Lemma dict_keys_set_absent {V} (d : list (Z * V)) k v :
  ~ In k (dict_keys d) -> dict_keys (dict_set k v d) = dict_keys d ++ [k].
Proof.
  intros H. rewrite dict_keys_set. unfold dict_mem.
  apply dict_get_None in H. now rewrite H.
Qed.

Lemma create_loop detections h unmatched_dets eng0 :
  tracker_wf eng0 ->
  forall c,
  let eng' := fst (fold_clk (create_unmatched detections h) unmatched_dets eng0 c) in
  tracker_wf eng' /\ tr_config eng' = tr_config eng0 /\
  next_track_id eng0 <= next_track_id eng' /\
  (forall k t, dict_get k (tracks eng0) = Some t -> dict_get k (tracks eng') = Some t) /\
  (forall k t', dict_get k (tracks eng') = Some t' ->
     dict_get k (tracks eng0) = None -> fresh_track t' /\ next_track_id eng0 <= k).
Proof.
  intros Hwf0 c.
  apply (fold_clk_invariant (create_unmatched detections h)
    (fun e => tracker_wf e /\ tr_config e = tr_config eng0 /\
              next_track_id eng0 <= next_track_id e /\
              (forall k t, dict_get k (tracks eng0) = Some t ->
                           dict_get k (tracks e) = Some t) /\
              (forall k t', dict_get k (tracks e) = Some t' ->
                 dict_get k (tracks eng0) = None ->
                 fresh_track t' /\ next_track_id eng0 <= k))).
  - intros e j c' _ ((Hnd & Hk & Hlt) & Hcfg & Hnext & Hold & Hnew).
    unfold create_unmatched.
    destruct (detections !! j) as [detection|];
      [|exact (conj (conj Hnd (conj Hk Hlt))
                 (conj Hcfg (conj Hnext (conj Hold Hnew))))].
    destruct (create_track_run e detection h c') as (track & -> & Hfresh & _).
    cbn [tracks kalman_filters next_track_id tr_config].
    pose proof (not_in_keys_lt _ _ Hlt) as Hnotin.
    assert (Hnotin' : ~ In (next_track_id e) (dict_keys (kalman_filters e)))
      by (now rewrite Hk).
    split; [|split; [assumption | split; [lia | split]]].
    + unfold tracker_wf. cbn [tracks kalman_filters next_track_id].
      rewrite !dict_keys_set_absent by assumption. rewrite Hk.
      split; [|split; [reflexivity|]].
      * apply NoDup_app. split; [assumption|]. split.
        -- intros x Hx Hx'. apply list_elem_of_In in Hx.
           apply list_elem_of_singleton in Hx'. subst. contradiction.
        -- apply NoDup_singleton.
      * intros k Hin. apply in_app_or in Hin as [Hin | [<- | []]]; [|lia].
        specialize (Hlt k Hin). lia.
    + intros k t Hget. rewrite dict_get_set.
      destruct (Z.eqb_spec k (next_track_id e)) as [-> | Hne]; [|now apply Hold].
      exfalso. apply Hnotin. apply dict_get_is_Some. rewrite (Hold _ _ Hget). eauto.
    + intros k t'. rewrite dict_get_set.
      destruct (Z.eqb_spec k (next_track_id e)) as [-> | Hne]; [|now apply Hnew].
      intros [= <-] _. split; [assumption | lia].
  - split; [assumption|]. split; [reflexivity|]. split; [lia|].
    split; [auto|]. intros k t' H1 H2. congruence.
Qed.

(** *** Unmatched tracks *)

Lemma mark_lost_relabelled config t :
  relabelled t (mark_lost config t) /\
  within_or_deleted (max_lost_frames config) (mark_lost config t).
Proof.
  unfold mark_lost, within_or_deleted.
  destruct (bool_decide (state t = CONFIRMED)); cbn [time_since_update set_state];
    destruct (max_lost_frames config <? time_since_update t) eqn:E;
    cbn; (split; [repeat split|]);
    try (right; reflexivity); left;
    apply Z.ltb_ge in E; exact E.
Qed.

Lemma relabelled_refl t : relabelled t t.
Proof. repeat split. Qed.

Lemma relabelled_trans t1 t2 t3 :
  relabelled t1 t2 -> relabelled t2 t3 -> relabelled t1 t3.
Proof.
  intros (P1 & A1 & I1 & H1 & T1) (P2 & A2 & I2 & H2 & T2).
  split; [eapply same_plate_trans; eassumption|]. repeat split; congruence.
Qed.

Lemma unmatched_loop unmatched_tracks :
  forall eng,
  let eng' := fold_left handle_unmatched unmatched_tracks eng in
  dict_keys (tracks eng') = dict_keys (tracks eng) /\
  kalman_filters eng' = kalman_filters eng /\
  next_track_id eng' = next_track_id eng /\
  tr_config eng' = tr_config eng /\
  pointwise relabelled (tracks eng) (tracks eng').
Proof.
  intros eng.
  apply (fold_left_invariant handle_unmatched
    (fun e => dict_keys (tracks e) = dict_keys (tracks eng) /\
              kalman_filters e = kalman_filters eng /\
              next_track_id e = next_track_id eng /\
              tr_config e = tr_config eng /\
              pointwise relabelled (tracks eng) (tracks e))).
  - intros e tid _ (K & KF & N & C & P). unfold handle_unmatched.
    cbn [tracks kalman_filters next_track_id tr_config].
    rewrite dict_keys_alter. repeat split; try assumption.
    eapply pointwise_trans; [exact relabelled_trans | exact P|].
    apply pointwise_alter; [exact relabelled_refl|].
    intros t. apply mark_lost_relabelled.
  - repeat split. apply pointwise_refl, relabelled_refl.
Qed.

Lemma mark_lost_keeps_verdict config t :
  within_or_deleted (max_lost_frames config) t ->
  within_or_deleted (max_lost_frames config) (mark_lost config t).
Proof. intros _. apply mark_lost_relabelled. Qed.

Lemma unmatched_loop_other l tid :
  forall eng, ~ In tid l ->
  dict_get tid (tracks (fold_left handle_unmatched l eng)) = dict_get tid (tracks eng).
Proof.
  induction l as [|x l IHl]; intros e Hnot; [reflexivity|].
  cbn [fold_left]. rewrite IHl by (intros H; apply Hnot; now right).
  unfold handle_unmatched. cbn [tracks]. rewrite dict_get_alter.
  destruct (Z.eqb_spec tid x) as [-> | Hne]; [|reflexivity].
  exfalso. apply Hnot. now left.
Qed.

(** Every track named in [unmatched_tracks] leaves the loop either within
    the limit or marked [DELETED]. *)
Lemma unmatched_loop_marks unmatched_tracks :
  forall eng tid t,
  In tid unmatched_tracks -> dict_get tid (tracks eng) = Some t ->
  exists t', dict_get tid (tracks (fold_left handle_unmatched unmatched_tracks eng))
             = Some t' /\
             within_or_deleted (max_lost_frames (tr_config eng)) t'.
Proof.
  induction unmatched_tracks as [|tid0 l IH]; intros eng tid t Hin Hget;
    [destruct Hin|].
  cbn [fold_left].
  set (eng1 := handle_unmatched eng tid0).
  assert (Hcfg : tr_config eng1 = tr_config eng) by reflexivity.
  assert (Hget1 : dict_get tid (tracks eng1)
                  = if Z.eqb tid tid0 then Some (mark_lost (tr_config eng) t) else Some t).
  { unfold eng1, handle_unmatched. cbn [tracks]. rewrite dict_get_alter, Hget.
    now destruct (Z.eqb tid tid0). }
  destruct (in_dec Z.eq_dec tid l) as [Hlater | Hnot].
  - rewrite <- Hcfg.
    destruct (Z.eqb tid tid0); eapply IH; eauto.
  - destruct Hin as [E | Hlater]; [subst tid0 | contradiction].
    rewrite Z.eqb_refl in Hget1.
    rewrite (unmatched_loop_other l tid eng1 Hnot), Hget1. eexists. split; [reflexivity|].
    apply mark_lost_relabelled.
Qed.

(** *** Removal of deleted tracks *)

Lemma filter_twice {A} (f g : A -> bool) (l : list A) :
  List.filter g (List.filter f l) = List.filter (fun x => f x && g x) l.
Proof.
  induction l as [|x l IH]; [reflexivity|]. cbn.
  destruct (f x); cbn; [destruct (g x)|]; now rewrite IH.
Qed.

Lemma ListNoDup_filter_keys (f : Z -> bool) (l : list Z) :
  NoDup l -> NoDup (List.filter f l).
Proof.
  rewrite !NoDup_ListNoDup. apply List.NoDup_filter.
Qed.

Lemma remove_fold ids :
  forall e,
  NoDup (dict_keys (tracks e)) -> NoDup (dict_keys (kalman_filters e)) ->
  let e' := fold_left del_track ids e in
  (forall k, dict_get k (tracks e')
             = if existsb (Z.eqb k) ids then None else dict_get k (tracks e)) /\
  dict_keys (tracks e')
  = List.filter (fun k => negb (existsb (Z.eqb k) ids)) (dict_keys (tracks e)) /\
  dict_keys (kalman_filters e')
  = List.filter (fun k => negb (existsb (Z.eqb k) ids)) (dict_keys (kalman_filters e)) /\
  next_track_id e' = next_track_id e /\ tr_config e' = tr_config e.
Proof.
  induction ids as [|x ids IH]; intros e Hnd Hnd'; cbv zeta.
  - cbn. rewrite !filter_all_true by reflexivity. repeat split.
  - cbn [fold_left].
    assert (K1 : dict_keys (tracks (del_track e x))
                 = List.filter (fun k => negb (Z.eqb k x)) (dict_keys (tracks e)))
      by (apply dict_keys_del; assumption).
    assert (K2 : dict_keys (kalman_filters (del_track e x))
                 = List.filter (fun k => negb (Z.eqb k x))
                     (dict_keys (kalman_filters e)))
      by (apply dict_keys_del; assumption).
    destruct (IH (del_track e x)) as (G & T & F & N & C).
    { rewrite K1. now apply ListNoDup_filter_keys. }
    { rewrite K2. now apply ListNoDup_filter_keys. }
    split; [|split; [|split; [|split; assumption]]].
    + intros k. rewrite G. cbn [existsb del_track tracks].
      rewrite dict_get_del by assumption.
      destruct (Z.eqb k x); cbn; [now destruct (existsb _ ids) | reflexivity].
    + rewrite T, K1, filter_twice. apply filter_ext. intros k. cbn.
      now destruct (Z.eqb k x).
    + rewrite F, K2, filter_twice. apply filter_ext. intros k. cbn.
      now destruct (Z.eqb k x).
Qed.

Lemma deleted_ids_spec trks k :
  NoDup (dict_keys trks) ->
  existsb (Z.eqb k) (deleted_ids trks) = true <->
  exists t, dict_get k trks = Some t /\ state t = DELETED.
Proof.
  intros Hnd. unfold deleted_ids. rewrite existsb_exists. split.
  - intros (k' & Hin & E). apply Z.eqb_eq in E. subst k'.
    apply in_map_iff in Hin as ([k' t] & Ek & Hin). cbn in Ek. subst k'.
    apply list_elem_of_In, list_elem_of_filter in Hin as [Hdel Hin].
    apply list_elem_of_In in Hin. cbn in Hdel. apply bool_decide_unpack in Hdel.
    exists t. split; [now apply dict_get_In | assumption].
  - intros (t & Hget & Hdel). exists k. split; [|apply Z.eqb_refl].
    apply in_map_iff. exists (k, t). split; [reflexivity|].
    apply list_elem_of_In, list_elem_of_filter. split.
    + cbn. now apply bool_decide_pack.
    + apply list_elem_of_In. now apply dict_get_Some_In.
Qed.

Lemma remove_deleted_spec eng :
  NoDup (dict_keys (tracks eng)) ->
  dict_keys (kalman_filters eng) = dict_keys (tracks eng) ->
  let eng' := remove_deleted eng in
  (forall k t, dict_get k (tracks eng') = Some t <->
               dict_get k (tracks eng) = Some t /\ state t <> DELETED) /\
  NoDup (dict_keys (tracks eng')) /\
  dict_keys (kalman_filters eng') = dict_keys (tracks eng') /\
  (forall k, In k (dict_keys (tracks eng')) -> In k (dict_keys (tracks eng))) /\
  next_track_id eng' = next_track_id eng /\ tr_config eng' = tr_config eng.
Proof.
  intros Hnd Hk. cbv zeta. unfold remove_deleted.
  destruct (remove_fold (deleted_ids (tracks eng)) eng) as (G & T & F & N & C);
    [assumption | now rewrite Hk |].
  split; [|split; [|split; [|split; [|split; assumption]]]].
  - intros k t. rewrite G.
    destruct (existsb (Z.eqb k) (deleted_ids (tracks eng))) eqn:E.
    + apply deleted_ids_spec in E as (t0 & Hget & Hdel); [|assumption].
      split; [discriminate|]. intros [Hget' Hne]. congruence.
    + split; [|tauto]. intros Hget. split; [assumption|]. intros Hdel.
      assert (existsb (Z.eqb k) (deleted_ids (tracks eng)) = true)
        by (apply deleted_ids_spec; eauto).
      congruence.
  - rewrite T. now apply ListNoDup_filter_keys.
  - now rewrite T, F, Hk.
  - intros k. rewrite T. intros Hin. now apply filter_In in Hin.
Qed.

(** *** The whole update *)

Lemma apply_prediction_fields b t :
  same_plate t (apply_prediction b t) /\
  age (apply_prediction b t) = age t + 1 /\
  time_since_update (apply_prediction b t) = time_since_update t + 1 /\
  bbox (apply_prediction b t) = b.
Proof. repeat split. Qed.

Lemma fresh_relabelled t t' : fresh_track t -> relabelled t t' -> fresh_track t'.
Proof.
  intros (H & A & T & L & X & C & R) ((L' & X' & C' & R') & A' & _ & H' & T').
  unfold fresh_track. repeat split; congruence.
Qed.

Lemma update_spec eng detections h c :
  tracker_wf eng ->
  let eng' := fst (fst (update eng detections h c)) in
  let active := snd (fst (update eng detections h c)) in
  tracker_wf eng' /\ tr_config eng' = tr_config eng /\
  next_track_id eng <= next_track_id eng' /\
  (forall k t', dict_get k (tracks eng') = Some t' ->
     match dict_get k (tracks eng) with
     | Some t => tracked_on (max_lost_frames (tr_config eng)) t t'
     | None => fresh_track t' /\ state t' <> DELETED /\ next_track_id eng <= k
     end) /\
  (forall k, In k active ->
     exists t', dict_get k (tracks eng') = Some t' /\ is_active t' = true).
Proof.
  intros Hwf. cbv zeta.
  pose proof (predict_all_wf eng Hwf) as Hwf1.
  destruct (predict_all_keys eng) as (_ & _ & N1 & C1).
  set (eng1 := predict_all eng) in *.
  destruct Hwf1 as (Hnd1 & Hk1 & Hlt1).
  pose proof (match_partition eng1 detections Hnd1) as Hpart.
  unfold update. fold eng1.
  destruct (_match eng1 detections) as [[matched ud] ut] eqn:Em.
  destruct Hpart as (M1 & M2 & M3 & _).
  unfold bind.
  pose proof (matched_loop detections matched eng1 c) as L2.
  pose proof (matched_loop_resets detections matched eng1 c Hk1 M1) as R2.
  destruct (fold_clk (update_matched detections) matched eng1 c) as [eng2 c2].
  cbn [fst] in L2, R2. destruct L2 as (K2 & KF2 & N2 & C2 & P2).
  assert (Hwf2 : tracker_wf eng2).
  { unfold tracker_wf. rewrite K2, KF2, N2. auto. }
  pose proof (create_loop detections h ud eng2 Hwf2 c2) as L3.
  destruct (fold_clk (create_unmatched detections h) ud eng2 c2) as [eng3 c3].
  cbn [fst] in L3. destruct L3 as ((Hnd3 & Hk3 & Hlt3) & C3 & N3 & Old3 & New3).
  pose proof (unmatched_loop ut eng3) as L4.
  pose proof (unmatched_loop_marks ut eng3) as Mk4.
  set (eng4 := fold_left handle_unmatched ut eng3) in *.
  cbv zeta in L4. destruct L4 as (K4 & KF4 & N4 & C4 & P4).
  assert (Hnd4 : NoDup (dict_keys (tracks eng4))) by (now rewrite K4).
  assert (Hk4 : dict_keys (kalman_filters eng4) = dict_keys (tracks eng4))
    by (now rewrite KF4, K4).
  pose proof (remove_deleted_spec eng4 Hnd4 Hk4) as L5.
  set (eng5 := remove_deleted eng4) in *.
  cbv zeta in L5. destruct L5 as (G5 & Hnd5 & Hk5 & Sub5 & N5 & C5).
  unfold ret. cbn [fst snd tracks kalman_filters next_track_id tr_config].
  split; [|split; [congruence | split; [lia | split]]].
  - unfold tracker_wf. cbn [tracks kalman_filters next_track_id].
    split; [assumption | split; [assumption|]].
    intros k Hin. apply Sub5 in Hin. rewrite K4 in Hin. rewrite N5, N4.
    now apply Hlt3.
  - intros k t' Hget. apply G5 in Hget as [Hget4 Hlive].
    specialize (P4 k). rewrite Hget4 in P4.
    destruct (dict_get k (tracks eng3)) as [t3|] eqn:Hget3; [|contradiction].
    destruct (predict_all_get eng k Hwf) as (ob & Hpred & Hsome & _).
    fold eng1 in Hpred.
    specialize (P2 k).
    destruct (dict_get k (tracks eng)) as [t|] eqn:Hget0.
    + destruct ob as [b|]; [|destruct (Hsome ltac:(eauto)) as [? [=]]].
      rewrite Hpred in P2.
      destruct (dict_get k (tracks eng2)) as [t2|] eqn:Hget2; [|contradiction].
      rewrite (Old3 k t2 Hget2) in Hget3. injection Hget3 as <-.
      destruct (apply_prediction_fields b t) as (Pl1 & A1 & T1 & _).
      destruct P2 as (Pl2 & A2 & _ & T2).
      destruct P4 as (Pl4 & A4 & _ & _ & T4).
      assert (Hkey1 : In k (dict_keys (tracks eng1))).
      { apply dict_get_is_Some. rewrite Hpred. eauto. }
      split; [eapply same_plate_trans; [|exact Pl4];
              eapply same_plate_trans; eassumption|].
      split; [congruence|].
      split; [|assumption].
      destruct (M2 k Hkey1) as [Hm | Hu].
      * destruct (R2 k Hm) as (t2' & Hget2' & Hz).
        rewrite Hget2 in Hget2'. injection Hget2' as <-. left. congruence.
      * destruct (Mk4 k t2 Hu (Old3 k t2 Hget2)) as (t4 & Hget4' & Hgood).
        fold eng4 in Hget4'. rewrite Hget4 in Hget4'. injection Hget4' as <-.
        destruct Hgood as [Hle | Hdel]; [|contradiction].
        rewrite C3, C2, C1 in Hle.
        destruct T2 as [T2 | T2]; [right; split; [congruence | exact Hle]|].
        left. congruence.
    + assert (Hnone1 : dict_get k (tracks eng1) = None)
        by (rewrite Hpred; now destruct ob).
      rewrite Hnone1 in P2.
      destruct (dict_get k (tracks eng2)) as [t2|] eqn:Hget2; [contradiction|].
      destruct (New3 k t3 Hget3 Hget2) as [Hfresh Hge].
      split; [eapply fresh_relabelled; eassumption|].
      split; [assumption | lia].
  - intros k Hin. apply in_map_iff in Hin as ([k' t'] & Ek & Hin). cbn in Ek. subst k'.
    apply list_elem_of_In, list_elem_of_filter in Hin as [Hact Hin].
    apply list_elem_of_In in Hin. cbn in Hact.
    exists t'. split; [now apply dict_get_In | now apply Is_true_true].
Qed.

(** ** Lifecycle invariant of the tracker *)

Lemma TrackingEngine_init_wf config cam : tracker_wf (TrackingEngine_init config cam).
Proof.
  unfold tracker_wf. cbn. split; [constructor|]. split; [reflexivity|].
  intros k [].
Qed.

Lemma update_wf eng detections h c :
  tracker_wf eng -> tracker_wf (fst (fst (update eng detections h c))).
Proof. intros Hwf. apply (update_spec eng detections h c Hwf). Qed.

(** C7.  For a tracker whose dicts are consistent (as they are initially
    and after every update) and a non-negative [max_lost_frames]: after
    [update] returns, every retained track has
    [time_since_update <= max_lost_frames] and is not [DELETED], the Kalman
    filters kept are exactly those of the retained tracks, and a track that
    went unmatched past the limit is gone from the tracker together with its
    filter. *)
Theorem update_keeps_live_tracks_only (eng : TrackingEngine)
    (detections : list Detection) (h : Z) (c : Clock) :
  tracker_wf eng -> 0 <= max_lost_frames (tr_config eng) ->
  let eng' := fst (fst (update eng detections h c)) in
  (forall k t, In (k, t) (tracks eng') ->
     time_since_update t <= max_lost_frames (tr_config eng') /\
     state t <> DELETED) /\
  dict_keys (kalman_filters eng') = dict_keys (tracks eng') /\
  (forall k t, dict_get k (tracks eng) = Some t ->
     (forall t', dict_get k (tracks eng') = Some t' ->
        time_since_update t' = 0 \/
        time_since_update t + 1 <= max_lost_frames (tr_config eng)) /\
     (dict_get k (tracks eng') = None ->
        dict_get k (kalman_filters eng') = None)).
Proof.
  intros Hwf Hmax. cbv zeta.
  destruct (update_spec eng detections h c Hwf)
    as ((Hnd' & Hk' & Hlt') & Hcfg & _ & Htr & _).
  split; [|split; [exact Hk'|]].
  - intros k t Hin. rewrite Hcfg.
    pose proof (dict_get_In _ k t Hnd' Hin) as Hget.
    specialize (Htr k t Hget).
    destruct (dict_get k (tracks eng)) as [t0|].
    + destruct Htr as (_ & _ & [Hz | [_ Hle]] & Hlive); split; (lia || assumption).
    + destruct Htr as ((_ & _ & Hz & _) & Hlive & _). split; [lia | assumption].
  - intros k t Hget. split.
    + intros t' Hget'. specialize (Htr k t' Hget'). rewrite Hget in Htr.
      destruct Htr as (_ & _ & [Hz | [He Hle]] & _); [now left | right; lia].
    + intros Hnone. apply dict_get_None. rewrite Hk'. now apply dict_get_None.
Qed.

Lemma two_track_engine_wf : tracker_wf two_track_engine.
Proof. apply update_wf, TrackingEngine_init_wf. Qed.

Lemma update_keeps_live_tracks_only_witness :
  tracker_wf two_track_engine /\
  0 <= max_lost_frames (tr_config two_track_engine) /\
  dict_keys (kalman_filters
               (fst (fst (update two_track_engine [car_left] 100 second_clock))))
  = dict_keys (tracks (fst (fst (update two_track_engine [car_left] 100 second_clock)))).
Proof.
  assert (H : 0 <= max_lost_frames (tr_config two_track_engine))
    by (vm_compute; discriminate).
  split; [exact two_track_engine_wf | split; [exact H|]].
  exact (proj1 (proj2 (update_keeps_live_tracks_only two_track_engine [car_left]
                         100 second_clock two_track_engine_wf H))).
Defined.

(** A track unmatched for [max_lost_frames + 1 = 3] frames disappears with
    its filter. *)
Example lost_track_is_removed :
  let step := fun e => fst (fst (update e [car_left] 100 second_clock)) in
  dict_keys (tracks (step (step two_track_engine))) = [1; 2] /\
  dict_keys (tracks (step (step (step two_track_engine)))) = [1] /\
  dict_keys (kalman_filters (step (step (step two_track_engine)))) = [1].
Proof. vm_compute. repeat split. Qed.

Lemma match_is_greedy_association_witness :
  NoDup (dict_keys (tracks two_track_engine)) /\
  association_spec two_track_engine [bus_right; car_left]
    (_match two_track_engine [bus_right; car_left]).
Proof.
  assert (H : NoDup (dict_keys (tracks two_track_engine)))
    by apply two_track_engine_wf.
  split; [exact H|].
  exact (proj1 (match_is_greedy_association two_track_engine
                  [bus_right; car_left] H)).
Defined.

Example match_crossed : _match two_track_engine [bus_right; car_left]
                        = ([(1, 1%nat); (2, 0%nat)], [], []).
Proof. vm_compute. reflexivity. Qed.

(** Equal IoU: the cell of the lower row is enumerated first and wins. *)
Example match_tie_prefers_first_row :
  _match twin_engine [car_left] = ([(1, 0%nat)], [], [2]).
Proof. vm_compute. reflexivity. Qed.

(** ** The plate store is frozen once locked *)

Lemma add_plate_reading_locked t text conf c :
  plate_locked t = true -> add_plate_reading t text conf c = (t, c).
Proof. intros H. unfold add_plate_reading. now rewrite H. Qed.

Lemma add_plate_reading_unlocked t text conf c :
  plate_locked t = false ->
  add_plate_reading t text conf c
  = (set_plate_readings (plate_readings t ++ [mkReading text conf (wall c (tick c))]) t,
     mkClock (wall c) (S (tick c))).
Proof. intros H. unfold add_plate_reading. now rewrite H. Qed.

Lemma ocr_track_locked config eng t outcome c :
  plate_locked t = true -> ocr_track config eng t outcome c = (eng, t, c).
Proof.
  intros H. unfold ocr_track. rewrite H. now rewrite andb_false_r.
Qed.

Lemma try_finalize_cases config t :
  try_finalize config t = t \/
  exists text conf, try_finalize config t = finalize_plate t text conf.
Proof.
  unfold try_finalize.
  destruct (_ <=? _); [|now left].
  destruct (fuse_readings config (plate_readings t)); [right; eauto | now left].
Qed.

Lemma ocr_track_cases config eng t outcome c :
  snd (fst (ocr_track config eng t outcome c)) = t \/
  plate_locked t = false /\
  exists r, snd (fst (ocr_track config eng t outcome c))
            = try_finalize config (set_plate_readings (plate_readings t ++ [r]) t).
Proof.
  unfold ocr_track.
  destruct (bool_decide (state t = CONFIRMED) && negb (plate_locked t)) eqn:G;
    [|now left].
  apply andb_true_iff in G as [_ Hun]. apply negb_true_iff in Hun.
  unfold bind.
  destruct (can_process eng (track_id t) c) as [[|] c1]; [|now left].
  destruct (recognize_plate eng outcome (track_id t) c1) as [[eng' [r|]] c2];
    [|now left].
  rewrite add_plate_reading_unlocked by assumption. cbn.
  right. split; [assumption|]. eauto.
Qed.

Lemma plate_frozen_refl t : plate_frozen t t.
Proof. split; [intros _; apply same_plate_refl | auto]. Qed.

Lemma plate_frozen_trans t1 t2 t3 :
  plate_frozen t1 t2 -> plate_frozen t2 t3 -> plate_frozen t1 t3.
Proof.
  intros [F1 O1] [F2 O2]. split; [|auto].
  intros L. specialize (F1 L). eapply same_plate_trans; [exact F1|].
  apply F2. destruct F1 as (E & _). congruence.
Qed.

Lemma same_plate_frozen t t' : same_plate t t' -> plate_frozen t t'.
Proof.
  intros (L & X & C & R). split; [intros _; repeat split; assumption|].
  unfold plate_ok. rewrite L, X. auto.
Qed.

Lemma ocr_rel_refl t : ocr_rel t t.
Proof. unfold ocr_rel. repeat (split; [reflexivity|]). apply plate_frozen_refl. Qed.

Lemma ocr_rel_trans t1 t2 t3 : ocr_rel t1 t2 -> ocr_rel t2 t3 -> ocr_rel t1 t3.
Proof.
  intros (I1 & A1 & T1 & H1 & S1 & F1) (I2 & A2 & T2 & H2 & S2 & F2).
  repeat split; try congruence; eapply plate_frozen_trans; eassumption.
Qed.

Lemma ocr_track_rel config eng t outcome c :
  ocr_rel t (snd (fst (ocr_track config eng t outcome c))).
Proof.
  destruct (ocr_track_cases config eng t outcome c) as [-> | (Hun & r & ->)];
    [apply ocr_rel_refl|].
  set (t1 := set_plate_readings (plate_readings t ++ [r]) t).
  assert (Hun1 : plate_locked t1 = false) by exact Hun.
  destruct (try_finalize_cases config t1) as [-> | (text & conf & ->)].
  - unfold ocr_rel. repeat (split; [reflexivity|]). split.
    + intros L. congruence.
    + intros _ L. cbn in L. congruence.
  - unfold ocr_rel. repeat (split; [reflexivity|]). split.
    + intros L. congruence.
    + intros _ _. cbn. discriminate.
Qed.

Lemma ocr_loop_body_step config ocr_of st tid c :
  let st' := fst (ocr_loop_body config ocr_of st tid c) in
  dict_keys (tracks (fst st')) = dict_keys (tracks (fst st)) /\
  kalman_filters (fst st') = kalman_filters (fst st) /\
  next_track_id (fst st') = next_track_id (fst st) /\
  tr_config (fst st') = tr_config (fst st) /\
  pointwise ocr_rel (tracks (fst st)) (tracks (fst st')).
Proof.
  cbv zeta. unfold ocr_loop_body.
  destruct (dict_get tid (tracks (fst st))) as [track|] eqn:Hget.
  - unfold bind.
    pose proof (ocr_track_rel config (snd st) track (ocr_of tid) c) as Hrel.
    destruct (ocr_track config (snd st) track (ocr_of tid) c) as [[eng' track'] c'].
    cbn [fst snd] in Hrel. cbn [ret fst snd with_tracks tracks kalman_filters
                                  next_track_id tr_config].
    unfold ret. cbn [fst snd with_tracks tracks kalman_filters
                       next_track_id tr_config].
    rewrite dict_keys_set_present by eauto.
    repeat split. apply (pointwise_set ocr_rel _ _ track); auto using ocr_rel_refl.
  - cbn. repeat split. apply pointwise_refl, ocr_rel_refl.
Qed.

Lemma ocr_loop config ocr_of active st c :
  let st' := fst (fold_clk (ocr_loop_body config ocr_of) active st c) in
  dict_keys (tracks (fst st')) = dict_keys (tracks (fst st)) /\
  kalman_filters (fst st') = kalman_filters (fst st) /\
  next_track_id (fst st') = next_track_id (fst st) /\
  tr_config (fst st') = tr_config (fst st) /\
  pointwise ocr_rel (tracks (fst st)) (tracks (fst st')).
Proof.
  apply (fold_clk_invariant (ocr_loop_body config ocr_of)
    (fun s => dict_keys (tracks (fst s)) = dict_keys (tracks (fst st)) /\
              kalman_filters (fst s) = kalman_filters (fst st) /\
              next_track_id (fst s) = next_track_id (fst st) /\
              tr_config (fst s) = tr_config (fst st) /\
              pointwise ocr_rel (tracks (fst st)) (tracks (fst s)))).
  - intros s x c' _ (K & KF & N & C & P).
    destruct (ocr_loop_body_step config ocr_of s x c') as (K' & KF' & N' & C' & P').
    repeat split; try congruence.
    eapply pointwise_trans; [exact ocr_rel_trans | exact P | exact P'].
  - repeat split. apply pointwise_refl, ocr_rel_refl.
Qed.

Lemma process_track_relabelled eng t h c :
  relabelled t (snd (fst (fst (process_track eng t h c)))).
Proof.
  unfold process_track, bind.
  destruct (transition _ _ _ _ c) as [[[eng' new_state] event] c'].
  destruct (bool_decide _); cbn; repeat split.
Qed.

Lemma event_loop_body_step h st tid c :
  let st' := fst (event_loop_body h st tid c) in
  dict_keys (tracks (fst (fst st'))) = dict_keys (tracks (fst (fst st))) /\
  kalman_filters (fst (fst st')) = kalman_filters (fst (fst st)) /\
  next_track_id (fst (fst st')) = next_track_id (fst (fst st)) /\
  tr_config (fst (fst st')) = tr_config (fst (fst st)) /\
  pointwise relabelled (tracks (fst (fst st))) (tracks (fst (fst st'))).
Proof.
  cbv zeta. destruct st as [[tracker event_engine] db]. unfold event_loop_body.
  cbn [fst].
  destruct (dict_get tid (tracks tracker)) as [track|] eqn:Hget.
  - unfold bind.
    pose proof (process_track_relabelled event_engine track h c) as Hrel.
    destruct (process_track event_engine track h c) as [[[eng' track'] event] c'].
    cbn [fst snd] in Hrel.
    assert (G :
      dict_keys (tracks (with_tracks tracker (dict_set tid track' (tracks tracker))))
      = dict_keys (tracks tracker) /\
      pointwise relabelled (tracks tracker)
        (tracks (with_tracks tracker (dict_set tid track' (tracks tracker))))).
    { cbn [with_tracks tracks].
      rewrite dict_keys_set_present by eauto. split; [reflexivity|].
      apply (pointwise_set relabelled _ _ track); auto using relabelled_refl. }
    destruct G as [G1 G2].
    destruct event; unfold ret; cbn [fst snd]; repeat split; assumption.
  - cbn. repeat split. apply pointwise_refl, relabelled_refl.
Qed.

Lemma event_loop h active st c :
  let st' := fst (fold_clk (event_loop_body h) active st c) in
  dict_keys (tracks (fst (fst st'))) = dict_keys (tracks (fst (fst st))) /\
  kalman_filters (fst (fst st')) = kalman_filters (fst (fst st)) /\
  next_track_id (fst (fst st')) = next_track_id (fst (fst st)) /\
  tr_config (fst (fst st')) = tr_config (fst (fst st)) /\
  pointwise relabelled (tracks (fst (fst st))) (tracks (fst (fst st'))).
Proof.
  apply (fold_clk_invariant (event_loop_body h)
    (fun s => dict_keys (tracks (fst (fst s))) = dict_keys (tracks (fst (fst st))) /\
              kalman_filters (fst (fst s)) = kalman_filters (fst (fst st)) /\
              next_track_id (fst (fst s)) = next_track_id (fst (fst st)) /\
              tr_config (fst (fst s)) = tr_config (fst (fst st)) /\
              pointwise relabelled (tracks (fst (fst st))) (tracks (fst (fst s))))).
  - intros s x c' _ (K & KF & N & C & P).
    destruct (event_loop_body_step h s x c') as (K' & KF' & N' & C' & P').
    repeat split; try congruence.
    eapply pointwise_trans; [exact relabelled_trans | exact P | exact P'].
  - repeat split. apply pointwise_refl, relabelled_refl.
Qed.

Lemma loop_rel_refl t : loop_rel t t.
Proof. unfold loop_rel. repeat (split; [reflexivity|]). apply plate_frozen_refl. Qed.

Lemma loop_rel_trans t1 t2 t3 : loop_rel t1 t2 -> loop_rel t2 t3 -> loop_rel t1 t3.
Proof.
  intros (I1 & A1 & T1 & H1 & F1) (I2 & A2 & T2 & H2 & F2).
  repeat split; try congruence; eapply plate_frozen_trans; eassumption.
Qed.

Lemma pointwise_weaken (R R' : Track -> Track -> Prop) d d' :
  (forall t t', R t t' -> R' t t') -> pointwise R d d' -> pointwise R' d d'.
Proof.
  intros H P k. specialize (P k).
  destruct (dict_get k d), (dict_get k d'); auto.
Qed.

Lemma stage_rel_refl eng : stage_rel eng eng.
Proof. repeat split. apply pointwise_refl, loop_rel_refl. Qed.

Lemma stage_rel_trans e1 e2 e3 : stage_rel e1 e2 -> stage_rel e2 e3 -> stage_rel e1 e3.
Proof.
  intros (K1 & F1 & N1 & C1 & P1) (K2 & F2 & N2 & C2 & P2).
  repeat split; try congruence.
  eapply pointwise_trans; [exact loop_rel_trans | exact P1 | exact P2].
Qed.

Lemma ocr_stage_rel p cam ocr_of tracker active c :
  stage_rel tracker (fst (fst (ocr_stage p cam ocr_of tracker active c))).
Proof.
  unfold ocr_stage. destruct (ocr_engines p !! cam) as [oe|]; [|apply stage_rel_refl].
  unfold bind.
  pose proof (ocr_loop (pl_ocr_config p) ocr_of active (tracker, oe) c) as L.
  destruct (fold_clk _ active (tracker, oe) c) as [[tracker' oe'] c'].
  cbn [fst snd] in *. destruct L as (K & F & N & C & P).
  repeat split; try assumption.
  eapply pointwise_weaken; [|exact P].
  intros t t' (I & A & T & H & _ & Fr). unfold loop_rel.
  repeat (split; [assumption|]). exact Fr.
Qed.

Lemma event_stage_rel p cam h tracker active c :
  stage_rel tracker (fst (fst (fst (event_stage p cam h tracker active c)))).
Proof.
  unfold event_stage. destruct (event_engines p !! cam) as [ee|]; [|apply stage_rel_refl].
  unfold bind.
  pose proof (event_loop h active (tracker, ee, database p) c) as L.
  destruct (fold_clk _ active (tracker, ee, database p) c) as [[[tracker' ee'] db'] c'].
  cbn [fst snd] in *. destruct L as (K & F & N & C & P).
  repeat split; try assumption.
  eapply pointwise_weaken; [|exact P].
  intros t t' (Pl & A & I & H & T). unfold loop_rel.
  repeat (split; [assumption|]). now apply same_plate_frozen.
Qed.

Lemma fresh_plate_ok t : fresh_track t -> plate_ok t.
Proof. intros (_ & _ & _ & L & _) H. congruence. Qed.

(** The tracker of the camera after a frame with detections: the result of
    [update], then what the two loops changed. *)
Lemma process_frame_tracker p cam d ds h ocr_of c eng :
  trackers p !! cam = Some eng ->
  exists eng',
    trackers (fst (_process_frame p cam (d :: ds) h ocr_of c))
    = <[cam := eng']> (trackers p) /\
    stage_rel (fst (fst (update eng (d :: ds) h c))) eng'.
Proof.
  intros Heng. unfold _process_frame. rewrite Heng. unfold bind.
  destruct (update eng (d :: ds) h c) as [[eng1 active] c1]. cbn [fst].
  pose proof (ocr_stage_rel p cam ocr_of eng1 active c1) as S2.
  destruct (ocr_stage p cam ocr_of eng1 active c1) as [[eng2 oes] c2].
  cbn [fst] in S2.
  pose proof (event_stage_rel p cam h eng2 active c2) as S3.
  destruct (event_stage p cam h eng2 active c2) as [[[eng3 ees] db] c3].
  cbn [fst] in S3. unfold ret. cbn [fst trackers].
  exists eng3. split; [reflexivity|]. eapply stage_rel_trans; eassumption.
Qed.

Lemma stage_rel_wf eng eng' : stage_rel eng eng' -> tracker_wf eng -> tracker_wf eng'.
Proof.
  intros (K & F & N & _ & _) (Hnd & Hk & Hlt).
  unfold tracker_wf. rewrite K, F, N. auto.
Qed.

Lemma process_frame_rel p cam detections h ocr_of c eng :
  trackers p !! cam = Some eng -> tracker_wf eng ->
  exists eng',
    trackers (fst (_process_frame p cam detections h ocr_of c))
    = <[cam := eng']> (trackers p) /\
    frame_rel eng eng'.
Proof.
  intros Heng Hwf. destruct detections as [|d ds].
  - exists eng. cbn. split; [now rewrite insert_id|].
    split; [assumption|]. split; [lia|]. split; [reflexivity|].
    intros k t' Hget. rewrite Hget. apply plate_frozen_refl.
  - destruct (process_frame_tracker p cam d ds h ocr_of c eng Heng)
      as (eng' & Htr & Hst).
    exists eng'. split; [exact Htr|].
    destruct (update_spec eng (d :: ds) h c Hwf) as (Hwf1 & C1 & N1 & Htracks & _).
    set (eng1 := fst (fst (update eng (d :: ds) h c))) in *.
    pose proof (stage_rel_wf _ _ Hst Hwf1) as Hwf'.
    destruct Hst as (K & F & N & C & P).
    split; [assumption|]. split; [lia|]. split; [congruence|].
    intros k t' Hget. specialize (P k). rewrite Hget in P.
    destruct (dict_get k (tracks eng1)) as [t1|] eqn:Hget1; [|contradiction].
    specialize (Htracks k t1 Hget1).
    destruct P as (_ & _ & _ & _ & Fr).
    destruct (dict_get k (tracks eng)) as [t|].
    + eapply plate_frozen_trans; [|exact Fr].
      apply same_plate_frozen. apply Htracks.
    + destruct Htracks as (Hfresh & _ & Hge). split; [|assumption].
      apply Fr. now apply fresh_plate_ok.
Qed.

(** *** Frames in sequence *)

Lemma frame_rel_refl eng : tracker_wf eng -> frame_rel eng eng.
Proof.
  intros Hwf. split; [assumption|]. split; [lia|]. split; [reflexivity|].
  intros k t' Hget. rewrite Hget. apply plate_frozen_refl.
Qed.

Lemma frame_rel_trans e1 e2 e3 :
  tracker_wf e1 -> frame_rel e1 e2 -> frame_rel e2 e3 -> frame_rel e1 e3.
Proof.
  intros (_ & _ & Hlt1) (Hwf2 & N12 & C12 & P12) (Hwf3 & N23 & C23 & P23).
  split; [assumption|]. split; [lia|]. split; [congruence|].
  intros k t3 Hget3. specialize (P23 k t3 Hget3).
  destruct (dict_get k (tracks e2)) as [t2|] eqn:Hget2.
  - specialize (P12 k t2 Hget2).
    destruct (dict_get k (tracks e1)) as [t1|].
    + eapply plate_frozen_trans; eassumption.
    + destruct P12 as [Hok Hge]. split; [|assumption]. now apply P23.
  - destruct P23 as [Hok Hge].
    destruct (dict_get k (tracks e1)) as [t1|] eqn:Hget1.
    + exfalso. assert (k < next_track_id e1).
      { apply Hlt1. apply dict_get_is_Some. eauto. }
      lia.
    + split; [assumption | lia].
Qed.

Lemma trackers_rel_wf p p' : trackers_rel p p' -> pipeline_wf p'.
Proof.
  intros H cam eng' Hget. specialize (H cam).
  destruct (trackers p !! cam); [|congruence].
  destruct H as (e & He & Hrel). rewrite Hget in He. injection He as <-.
  apply Hrel.
Qed.

Lemma trackers_rel_refl p : pipeline_wf p -> trackers_rel p p.
Proof.
  intros Hwf cam. destruct (trackers p !! cam) as [eng|] eqn:E; [|reflexivity].
  exists eng. split; [reflexivity|]. apply frame_rel_refl. now apply (Hwf cam).
Qed.

Lemma trackers_rel_trans p1 p2 p3 :
  pipeline_wf p1 -> trackers_rel p1 p2 -> trackers_rel p2 p3 -> trackers_rel p1 p3.
Proof.
  intros Hwf H12 H23 cam. specialize (H12 cam). specialize (H23 cam).
  destruct (trackers p1 !! cam) as [e1|] eqn:E1.
  - destruct H12 as (e2 & E2 & R12). rewrite E2 in H23.
    destruct H23 as (e3 & E3 & R23). exists e3. split; [assumption|].
    eapply frame_rel_trans; eauto.
  - now rewrite H12 in H23.
Qed.

Lemma process_frame_trackers_rel p cam detections h ocr_of c :
  pipeline_wf p ->
  trackers_rel p (fst (_process_frame p cam detections h ocr_of c)).
Proof.
  intros Hwf.
  destruct (trackers p !! cam) as [eng|] eqn:Heng.
  - destruct (process_frame_rel p cam detections h ocr_of c eng Heng (Hwf _ _ Heng))
      as (eng' & Htr & Hrel).
    intros cam'. rewrite Htr.
    destruct (decide (cam' = cam)) as [-> | Hne].
    + rewrite Heng, lookup_insert_eq. eauto.
    + rewrite lookup_insert_ne by congruence.
      destruct (trackers p !! cam') as [e|] eqn:E; [|reflexivity].
      exists e. split; [reflexivity|]. apply frame_rel_refl. now apply (Hwf cam').
  - assert (E : _process_frame p cam detections h ocr_of c = (p, c)).
    { unfold _process_frame. rewrite Heng. now destruct detections. }
    rewrite E. now apply trackers_rel_refl.
Qed.

Lemma cleanup_trackers p c : trackers (fst (_periodic_cleanup p c)) = trackers p.
Proof.
  unfold _periodic_cleanup, bind. now destruct (fold_clk _ _ _ c).
Qed.

Lemma processing_step_trackers p cam detections h ocr_of c :
  exists p0 c0,
    trackers p0 = trackers p /\
    trackers (fst (processing_step p cam detections h ocr_of c))
    = trackers (fst (_process_frame p0 cam detections h ocr_of c0)).
Proof.
  unfold processing_step, bind.
  match goal with |- context [_process_frame ?q _ _ _ _ c] =>
    exists q, c; split; [reflexivity|]; destruct (_process_frame q cam detections h ocr_of c)
      as [p1 c1] end.
  cbn [fst]. destruct (_ =? 0); [now rewrite cleanup_trackers | reflexivity].
Qed.

Lemma processing_step_trackers_rel p cam detections h ocr_of c :
  pipeline_wf p ->
  trackers_rel p (fst (processing_step p cam detections h ocr_of c)).
Proof.
  intros Hwf.
  destruct (processing_step_trackers p cam detections h ocr_of c)
    as (p0 & c0 & E0 & E).
  assert (Hwf0 : pipeline_wf p0) by (unfold pipeline_wf; now rewrite E0).
  pose proof (process_frame_trackers_rel p0 cam detections h ocr_of c0 Hwf0) as H.
  unfold trackers_rel in *. rewrite E. now rewrite <- E0.
Qed.

Lemma run_frames_trackers_rel frames :
  forall p c, pipeline_wf p -> trackers_rel p (fst (run_frames p frames c)).
Proof.
  induction frames as [|f frames IH]; intros p c Hwf.
  - now apply trackers_rel_refl.
  - unfold run_frames. cbn [fold_clk]. unfold bind.
    pose proof (processing_step_trackers_rel p (f_camera f) (f_detections f)
                  (f_height f) (f_ocr f) c Hwf) as H1.
    destruct (processing_step p (f_camera f) (f_detections f) (f_height f) (f_ocr f) c)
      as [p1 c1].
    cbn [fst] in H1. eapply trackers_rel_trans; [assumption | exact H1|].
    apply IH. eapply trackers_rel_wf; eassumption.
Qed.

Lemma ANPRPipeline_init_wf tracking events ocr loaded cameras :
  pipeline_wf (ANPRPipeline_init tracking events ocr loaded cameras) /\
  plates_ok (ANPRPipeline_init tracking events ocr loaded cameras).
Proof.
  unfold ANPRPipeline_init.
  apply (fold_left_invariant _ (fun p => pipeline_wf p /\ plates_ok p)).
  - intros p camera _ [Hwf Hok]. destruct (cc_enabled camera); [|now split].
    split.
    + intros cam eng. cbn [trackers]. rewrite lookup_insert.
      destruct (decide (cc_id camera = cam)); [|apply Hwf].
      intros [= <-]. apply TrackingEngine_init_wf.
    + intros cam eng k t. cbn [trackers]. rewrite lookup_insert.
      destruct (decide (cc_id camera = cam)); [|apply Hok].
      intros [= <-]. discriminate.
  - split; intros cam eng; cbn; rewrite lookup_empty; discriminate.
Qed.

(** C4.  Along any sequence of frames handled by the processing loop, from
    a pipeline whose trackers have consistent dicts: a track whose plate is
    locked keeps [plate_locked], [plate_text], [plate_confidence] and its
    reading list unchanged for as long as it exists; "locked implies
    [plate_text] is not null" is preserved for every track; and this is so
    because [add_plate_reading] returns a locked track as it is and the OCR
    step of the loop neither consults the OCR engine nor finalizes anything
    for a locked track. *)
Theorem locked_plate_is_final (p : Pipeline) (frames : list Frame) (c : Clock) :
  pipeline_wf p ->
  let p' := fst (run_frames p frames c) in
  (plates_ok p -> plates_ok p') /\
  (forall cam eng eng' k t t',
     trackers p !! cam = Some eng -> dict_get k (tracks eng) = Some t ->
     trackers p' !! cam = Some eng' -> dict_get k (tracks eng') = Some t' ->
     plate_locked t = true ->
     plate_locked t' = true /\ plate_text t' = plate_text t /\
     plate_confidence t' = plate_confidence t /\
     plate_readings t' = plate_readings t) /\
  (forall t text conf c0,
     plate_locked t = true -> add_plate_reading t text conf c0 = (t, c0)) /\
  (forall config ocr_engine t outcome c0,
     plate_locked t = true ->
     ocr_track config ocr_engine t outcome c0 = (ocr_engine, t, c0)).
Proof.
  intros Hwf. cbv zeta.
  pose proof (run_frames_trackers_rel frames p c Hwf) as Hrel.
  split; [|split; [|split]].
  - intros Hok cam eng' k t' Hget' Hk.
    specialize (Hrel cam).
    destruct (trackers p !! cam) as [eng|] eqn:Heng; [|congruence].
    destruct Hrel as (e & He & _ & _ & _ & Htr). rewrite Hget' in He.
    injection He as <-. specialize (Htr k t' Hk).
    destruct (dict_get k (tracks eng)) as [t|] eqn:Hget0.
    + apply Htr. eapply Hok; eassumption.
    + apply Htr.
  - intros cam eng eng' k t t' Heng Hget Heng' Hget' Hlocked.
    specialize (Hrel cam). rewrite Heng in Hrel.
    destruct Hrel as (e & He & _ & _ & _ & Htr). rewrite Heng' in He.
    injection He as <-. specialize (Htr k t' Hget'). rewrite Hget in Htr.
    destruct Htr as [Hfrozen _]. destruct (Hfrozen Hlocked) as (L & X & C & R).
    repeat split; congruence.
  - intros. now apply add_plate_reading_locked.
  - intros. now apply ocr_track_locked.
Qed.

Lemma locked_plate_is_final_witness :
  pipeline_wf demo_pipeline /\
  plates_ok (fst (run_frames demo_pipeline (repeat car_frame 6) second_clock)).
Proof.
  assert (H : pipeline_wf demo_pipeline) by apply ANPRPipeline_init_wf.
  split; [exact H|].
  apply (proj1 (locked_plate_is_final demo_pipeline (repeat car_frame 6)
                  second_clock H)).
  apply ANPRPipeline_init_wf.
Defined.

(** The plate of track 1 is locked by the fourth frame (three readings) and
    stays as it is while OCR keeps answering on the following frames. *)
Example plate_locks_and_stays :
  plates (fst (run_frames demo_pipeline (repeat car_frame 3) second_clock))
    = [(1, false, None, 2%nat)] /\
  plates (fst (run_frames demo_pipeline (repeat car_frame 4) second_clock))
    = [(1, true, Some "ABC1234"%string, 3%nat)] /\
  plates (fst (run_frames demo_pipeline (repeat car_frame 9) second_clock))
    = [(1, true, Some "ABC1234"%string, 3%nat)].
Proof. vm_compute. repeat split. Qed.

(** ** Frames without detections *)

(** C3 (the code departs from the claim).  On a frame for which the detector
    returns no detection, [_process_frame] returns before the tracker is
    consulted: the pipeline, and with it every track's [age] and
    [time_since_update], is exactly as before, and the processing loop only
    moves its two frame counters (and runs the periodic cleanup, which does
    not touch the trackers). *)
Theorem empty_frame_skips_tracker (p : Pipeline) (cam : Z) (h : Z)
    (ocr_of : Z -> OcrOutcome) (c : Clock) :
  _process_frame p cam [] h ocr_of c = (p, c) /\
  trackers (fst (processing_step p cam [] h ocr_of c)) = trackers p.
Proof.
  split; [reflexivity|].
  destruct (processing_step_trackers p cam [] h ocr_of c) as (p0 & c0 & E0 & E).
  now rewrite E.
Qed.

(** The failing input: after two frames showing the car, a frame without
    detections leaves the counters of track 1 at [(age, tsu) = (1, 0)],
    whereas the tracker's own [update] on the same empty detection list
    counts the frame: [(2, 1)]. *)
Example empty_frame_leaves_counters :
  let p := fst (run_frames demo_pipeline [car_frame; car_frame] second_clock) in
  counters p = [(1, 1, 0)] /\
  counters (fst (run_frames p [empty_frame] second_clock)) = [(1, 1, 0)] /\
  option_map (fun eng => map (fun kt => (fst kt, age (snd kt), time_since_update (snd kt)))
                           (tracks (fst (fst (update eng [] 100 second_clock)))))
    (trackers p !! 1)
  = Some [(1, 2, 1)].
Proof. vm_compute. repeat split. Qed.

(** On a frame with detections the tracker's update does run: every track
    that is still there afterwards has been counted. *)
Lemma frame_with_detections_counts p cam d ds h ocr_of c eng :
  trackers p !! cam = Some eng -> tracker_wf eng ->
  exists eng',
    trackers (fst (_process_frame p cam (d :: ds) h ocr_of c)) !! cam = Some eng' /\
    forall k t t',
      dict_get k (tracks eng) = Some t -> dict_get k (tracks eng') = Some t' ->
      age t' = age t + 1 /\
      (time_since_update t' = 0 \/
       time_since_update t' = time_since_update t + 1).
Proof.
  intros Heng Hwf.
  destruct (process_frame_tracker p cam d ds h ocr_of c eng Heng) as (eng' & Htr & Hst).
  exists eng'. rewrite Htr, lookup_insert_eq. split; [reflexivity|].
  intros k t t' Hget Hget'.
  destruct (update_spec eng (d :: ds) h c Hwf) as (_ & _ & _ & Htracks & _).
  destruct Hst as (_ & _ & _ & _ & P). specialize (P k). rewrite Hget' in P.
  destruct (dict_get k (tracks (fst (fst (update eng (d :: ds) h c))))) as [t1|] eqn:Hget1;
    [|contradiction].
  specialize (Htracks k t1 Hget1). rewrite Hget in Htracks.
  destruct Htracks as (_ & A & T & _). destruct P as (_ & A' & T' & _).
  split; [congruence|]. destruct T as [T | [T _]]; [left | right]; congruence.
Qed.

(** ** Entry/exit state machine: deduplication *)

(** The duplicate test in integers: [elapsed < dedup_window] compares
    microseconds. *)
Lemma dedup_in_microseconds (t_now last window : Z) :
  Qltb (total_seconds t_now last) (inject_Z window) = false <->
  window * 1000000 <= t_now - last.
Proof.
  rewrite Qltb_ge.
  unfold total_seconds, Qle, Qdiv, Qmult, Qinv, inject_Z. cbn. lia.
Qed.

Lemma is_duplicate_run eng track c :
  _is_duplicate_entry eng track c =
  match plate_present (plate_text track) with
  | None => (false, c)
  | Some plate =>
      match recent_plates eng !! plate with
      | None => (false, c)
      | Some last =>
          (Qltb (total_seconds (wall c (tick c)) last)
             (inject_Z (dedup_window (ev_config eng))),
           mkClock (wall c) (S (tick c)))
      end
  end.
Proof.
  unfold _is_duplicate_entry.
  destruct (plate_present (plate_text track)) as [plate|]; [|reflexivity].
  destruct (recent_plates eng !! plate) as [last|]; [|reflexivity].
  unfold bind, now. now destruct (Qltb _ _).
Qed.

Lemma emission_earlier eng track c c0 eng' event c' :
  wall c0 = wall c -> (tick c <= tick c0)%nat ->
  emission eng track c0 eng' event c' -> emission eng track c eng' event c'.
Proof.
  intros Hw Ht (W & T & C & E). unfold emission. rewrite <- Hw.
  split; [assumption|]. split; [lia|]. split; [assumption|].
  destruct event as [e|]; [|assumption].
  destruct E as (Hp & n & Hn & Hts & E). split; [assumption|].
  exists n. split; [lia|]. split; [assumption|].
  destruct (plate_present (plate_text track)) as [plate|]; [|assumption].
  destruct E as (Hc & Hc' & E). split; [assumption|]. split; [assumption|].
  destruct (recent_plates eng !! plate) as [last|]; [|exact I].
  destruct E as (m & Hm & Hwin). exists m. split; [lia | assumption].
Qed.

Lemma emission_none eng track c : emission eng track c eng None c.
Proof. unfold emission. repeat split; lia. Qed.

Lemma confirm_entry_emission eng track current_state c :
  let r := confirm_entry eng track current_state c in
  emission eng track c (fst (fst (fst r))) (snd (fst r)) (snd r) /\
  (forall e, snd (fst r) = Some e -> ev_type e = Entry) /\
  (snd (fst r) = None -> fst (fst (fst r)) = eng /\ snd (fst (fst r)) = current_state).
Proof.
  cbv zeta. unfold confirm_entry, bind. rewrite is_duplicate_run.
  unfold _create_entry_event, refresh_cache, bind, now, ret.
  destruct (plate_present (plate_text track)) as [plate|] eqn:Hp;
    [destruct (recent_plates eng !! plate) as [last|] eqn:Hc;
     [destruct (Qltb _ _) eqn:Hq|]|]; cbn [negb fst snd].
  - split; [|split; [discriminate | auto]].
    unfold emission. cbn. repeat split; lia.
  - split; [|split; [now intros e [= <-] | discriminate]].
    unfold emission. cbn [wall tick ev_config recent_plates count_entry
                            ev_plate_text ev_timestamp].
    split; [reflexivity|]. split; [lia|]. split; [reflexivity|].
    split; [reflexivity|]. exists (S (tick c)). split; [lia|].
    split; [reflexivity|]. rewrite Hp. split; [reflexivity|].
    split; [reflexivity|]. rewrite Hc. exists (tick c). split; [lia|].
    now apply dedup_in_microseconds.
  - split; [|split; [now intros e [= <-] | discriminate]].
    unfold emission. cbn [wall tick ev_config recent_plates count_entry
                            ev_plate_text ev_timestamp].
    split; [reflexivity|]. split; [lia|]. split; [reflexivity|].
    split; [reflexivity|]. exists (tick c). split; [lia|].
    split; [reflexivity|]. rewrite Hp. split; [reflexivity|].
    split; [reflexivity|]. now rewrite Hc.
  - split; [|split; [now intros e [= <-] | discriminate]].
    unfold emission. cbn [wall tick ev_config recent_plates count_entry
                            ev_plate_text ev_timestamp].
    split; [reflexivity|]. split; [lia|]. split; [reflexivity|].
    split; [reflexivity|]. exists (tick c). split; [lia|].
    split; [reflexivity|]. rewrite Hp. split; reflexivity.
Qed.

Lemma confirm_exit_emission eng track current_state c :
  let r := confirm_exit eng track current_state c in
  emission eng track c (fst (fst (fst r))) (snd (fst r)) (snd r) /\
  (forall e, snd (fst r) = Some e -> ev_type e = Exit) /\
  (snd (fst r) = None -> fst (fst (fst r)) = eng /\ snd (fst (fst r)) = current_state).
Proof.
  cbv zeta. unfold confirm_exit, _is_duplicate_exit, bind. rewrite is_duplicate_run.
  unfold _create_exit_event, refresh_cache, bind, now, ret.
  destruct (plate_present (plate_text track)) as [plate|] eqn:Hp;
    [destruct (recent_plates eng !! plate) as [last|] eqn:Hc;
     [destruct (Qltb _ _) eqn:Hq|]|]; cbn [negb fst snd].
  - split; [|split; [discriminate | auto]].
    unfold emission. cbn. repeat split; lia.
  - split; [|split; [now intros e [= <-] | discriminate]].
    unfold emission. cbn [wall tick ev_config recent_plates count_exit
                            ev_plate_text ev_timestamp].
    split; [reflexivity|]. split; [lia|]. split; [reflexivity|].
    split; [reflexivity|]. exists (S (tick c)). split; [lia|].
    split; [reflexivity|]. rewrite Hp. split; [reflexivity|].
    split; [reflexivity|]. rewrite Hc. exists (tick c). split; [lia|].
    now apply dedup_in_microseconds.
  - split; [|split; [now intros e [= <-] | discriminate]].
    unfold emission. cbn [wall tick ev_config recent_plates count_exit
                            ev_plate_text ev_timestamp].
    split; [reflexivity|]. split; [lia|]. split; [reflexivity|].
    split; [reflexivity|]. exists (tick c). split; [lia|].
    split; [reflexivity|]. rewrite Hp. split; [reflexivity|].
    split; [reflexivity|]. now rewrite Hc.
  - split; [|split; [now intros e [= <-] | discriminate]].
    unfold emission. cbn [wall tick ev_config recent_plates count_exit
                            ev_plate_text ev_timestamp].
    split; [reflexivity|]. split; [lia|]. split; [reflexivity|].
    split; [reflexivity|]. exists (tick c). split; [lia|].
    split; [reflexivity|]. rewrite Hp. split; reflexivity.
Qed.

Lemma transition_emission eng track ny current_state c :
  let r := transition eng track ny current_state c in
  emission eng track c (fst (fst (fst r))) (snd (fst r)) (snd r) /\
  (forall e, snd (fst r) = Some e ->
     ev_type e = Entry /\ current_state = APPROACHING \/
     ev_type e = Exit /\ current_state = EXITING).
Proof.
  cbv zeta. unfold transition.
  destruct current_state.
  - destruct (Qltb _ _); cbn; (split; [apply emission_none | discriminate]).
  - unfold bind. rewrite now_run.
    set (c1 := mkClock (wall c) (S (tick c))).
    assert (Hnone : emission eng track c eng None c1).
    { unfold emission. cbn. repeat split; lia. }
    destruct (Qleb _ _); [|cbn; split; [exact Hnone | discriminate]].
    destruct (_ && _); [cbn; split; [exact Hnone | discriminate]|].
    destruct (confirm_entry_emission eng track APPROACHING c1) as (E & K & _).
    split.
    + eapply emission_earlier; [| |exact E]; [reflexivity | cbn; lia].
    + intros e He. left. split; [now apply K | reflexivity].
  - destruct (Qltb _ _); cbn; (split; [apply emission_none | discriminate]).
  - destruct (5 <? _); [|cbn; split; [apply emission_none | discriminate]].
    destruct (_ && _); [cbn; split; [apply emission_none | discriminate]|].
    destruct (confirm_exit_emission eng track EXITING c) as (E & K & _).
    split; [exact E|]. intros e He. right. split; [now apply K | reflexivity].
  - cbn. split; [apply emission_none | discriminate].
Qed.

Lemma process_track_emission eng track h c :
  let r := process_track eng track h c in
  emission eng track c (fst (fst (fst r))) (snd (fst r)) (snd r).
Proof.
  cbv zeta. unfold process_track, bind.
  match goal with |- context [transition eng track ?ny ?cs c] =>
    destruct (transition_emission eng track ny cs c) as [E _];
    destruct (transition eng track ny cs c) as [[[eng' new_state] event] c'] end.
  cbn [fst snd] in E.
  destruct (bool_decide _); unfold ret; cbn [fst snd]; [|exact E].
  destruct E as (W & T & C & E). unfold emission.
  cbn [ev_config recent_plates]. auto.
Qed.

Lemma cleanup_run eng c :
  cleanup_old_entries eng c
  = (mkEventEngine (ev_config eng) (ee_camera_id eng) (track_states eng)
       (filter (fun kv => ~ (snd kv < wall c (tick c) - dedup_window (ev_config eng) * 2 * 1000000))
          (recent_plates eng))
       (total_entries eng) (total_exits eng),
     mkClock (wall c) (S (tick c))).
Proof. reflexivity. Qed.

Lemma dedup_inv_init config cam c : dedup_inv config (EventEngine_init config cam) [] c.
Proof.
  unfold dedup_inv. cbn. split; [reflexivity|].
  split; [intros plate t; rewrite lookup_empty; discriminate|].
  split; [intros e []|]. split; [intros e plate []|].
  intros i j e1 e2 plate _ H. rewrite lookup_nil in H. discriminate.
Qed.

Lemma entries_separated_snoc window log e :
  entries_separated window log ->
  (forall e1 plate, In e1 log -> ev_type e1 = Entry -> ev_type e = Entry ->
     plate_present (ev_plate_text e1) = Some plate ->
     plate_present (ev_plate_text e) = Some plate ->
     window <= ev_timestamp e - ev_timestamp e1) ->
  entries_separated window (log ++ [e]).
Proof.
  intros Hsep Hnew i j e1 e2 plate Hij H1 H2 K1 K2 P1 P2.
  assert (Hj : (j < length (log ++ [e]))%nat) by (eapply lookup_lt_Some; eauto).
  rewrite length_app in Hj. cbn in Hj.
  rewrite lookup_app_l in H1 by lia.
  destruct (decide (j = length log)) as [-> | Hne].
  - rewrite list_lookup_middle in H2 by reflexivity. injection H2 as <-.
    apply (Hnew e1 plate); try assumption.
    apply list_elem_of_In. eapply list_elem_of_lookup_2; eauto.
  - rewrite lookup_app_l in H2 by lia.
    exact (Hsep i j e1 e2 plate Hij H1 H2 K1 K2 P1 P2).
Qed.

Lemma dedup_inv_track config eng log c track h :
  monotone (wall c) -> dedup_inv config eng log c ->
  let r := run_op (eng, log) (OpTrack track h) c in
  dedup_inv config (fst (fst r)) (snd (fst r)) (snd r) /\ wall (snd r) = wall c.
Proof.
  intros Hmono (Hcfg & Hcache & Hpast & Hcov & Hsep). cbv zeta.
  unfold run_op, bind. cbn [fst snd].
  pose proof (process_track_emission eng track h c) as E.
  destruct (process_track eng track h c) as [[[eng' track'] event] c'].
  cbn [fst snd] in E. unfold ret. cbn [fst snd].
  destruct E as (W & T & C & E). split; [|exact W].
  unfold dedup_inv. rewrite W. split; [congruence|].
  destruct event as [e|].
  - destruct E as (Hplate & n & Hn & Hts & E).
    destruct (plate_present (plate_text track)) as [plate|] eqn:Hp.
    + destruct E as (Hc' & Htick & Hold).
      rewrite Hc', Htick.
      assert (Hmn : forall a b : nat, (a <= b)%nat -> wall c a <= wall c b)
        by (intros; now apply Hmono).
      split; [|split; [|split]].
      * intros plate' t. rewrite lookup_insert.
        destruct (decide (plate = plate')) as [-> | Hne].
        -- intros [= <-] n' Hn'. apply Hmn. lia.
        -- intros Hl n' Hn'. apply (Hcache plate' t Hl). lia.
      * intros e0 Hin n' Hn'. apply in_app_or in Hin as [Hin | [<- | []]].
        -- apply (Hpast e0 Hin). lia.
        -- rewrite Hts. apply Hmn. lia.
      * intros e0 plate' Hin Hp'. rewrite lookup_insert.
        apply in_app_or in Hin as [Hin | [<- | []]].
        -- destruct (decide (plate = plate')) as [-> | Hne].
           ++ pose proof (Hpast e0 Hin (S n) ltac:(lia)). assumption.
           ++ specialize (Hcov e0 plate' Hin Hp').
              destruct (recent_plates eng !! plate'); [assumption|].
              intros n' Hn'. apply Hcov. lia.
        -- rewrite Hplate, Hp in Hp'. injection Hp' as <-.
           rewrite decide_True by reflexivity. rewrite Hts. apply Hmn. lia.
      * apply entries_separated_snoc; [assumption|].
        intros e1 plate' Hin _ _ P1 P2.
        rewrite Hplate, Hp in P2. injection P2 as <-.
        specialize (Hcov e1 plate Hin P1). rewrite Hts.
        destruct (recent_plates eng !! plate) as [last|].
        -- destruct Hold as (m & Hm & Hwin). rewrite Hcfg in Hwin.
           pose proof (Hmn m n ltac:(lia)). lia.
        -- specialize (Hcov n Hn). lia.
    + destruct E as (Hc' & Htick). rewrite Hc', Htick.
      split; [|split; [|split]].
      * intros plate' t Hl n' Hn'. apply (Hcache plate' t Hl). lia.
      * intros e0 Hin n' Hn'. apply in_app_or in Hin as [Hin | [<- | []]].
        -- apply (Hpast e0 Hin). lia.
        -- rewrite Hts. apply Hmono. lia.
      * intros e0 plate' Hin Hp'.
        apply in_app_or in Hin as [Hin | [<- | []]].
        -- specialize (Hcov e0 plate' Hin Hp').
           destruct (recent_plates eng !! plate'); [assumption|].
           intros n' Hn'. apply Hcov. lia.
        -- rewrite Hplate, Hp in Hp'. discriminate.
      * apply entries_separated_snoc; [assumption|].
        intros e1 plate' Hin _ _ P1 P2. rewrite Hplate, Hp in P2. discriminate.
  - rewrite E. split; [|split; [|split; [|assumption]]].
    + intros plate' t Hl n' Hn'. apply (Hcache plate' t Hl). lia.
    + intros e0 Hin n' Hn'. apply (Hpast e0 Hin). lia.
    + intros e0 plate' Hin Hp'. specialize (Hcov e0 plate' Hin Hp').
      destruct (recent_plates eng !! plate'); [assumption|].
      intros n' Hn'. apply Hcov. lia.
Qed.

Lemma dedup_inv_cleanup config eng log c :
  monotone (wall c) -> dedup_inv config eng log c ->
  let r := run_op (eng, log) OpCleanup c in
  dedup_inv config (fst (fst r)) (snd (fst r)) (snd r) /\ wall (snd r) = wall c.
Proof.
  intros Hmono (Hcfg & Hcache & Hpast & Hcov & Hsep). cbv zeta.
  unfold run_op, bind. cbn [fst snd]. rewrite cleanup_run. unfold ret.
  cbn [fst snd wall tick]. split; [|reflexivity].
  unfold dedup_inv. cbn [ev_config recent_plates wall tick].
  split; [assumption|]. split; [|split; [|split; [|assumption]]].
  - intros plate t Hl n Hn. apply map_lookup_filter_Some in Hl as [Hl _].
    apply (Hcache plate t Hl). lia.
  - intros e Hin n Hn. apply (Hpast e Hin). lia.
  - intros e plate Hin Hp. specialize (Hcov e plate Hin Hp).
    destruct (filter _ (recent_plates eng) !! plate) as [t|] eqn:Hf.
    + apply map_lookup_filter_Some in Hf as [Hl _]. now rewrite Hl in Hcov.
    + destruct (recent_plates eng !! plate) as [t|] eqn:Hl.
      * intros n Hn.
        assert (Hold : t < wall c (tick c) - dedup_window (ev_config eng) * 2 * 1000000).
        { destruct (Z_lt_dec t (wall c (tick c) - dedup_window (ev_config eng) * 2 * 1000000))
            as [H | H]; [assumption|].
          assert (Hin' : filter (fun kv => ~ (snd kv < wall c (tick c)
                            - dedup_window (ev_config eng) * 2 * 1000000))
                           (recent_plates eng) !! plate = Some t)
            by (apply map_lookup_filter_Some; split; assumption).
          congruence. }
        pose proof (Hpast e Hin n ltac:(lia)).
        pose proof (Hmono (tick c) n ltac:(lia)).
        rewrite Hcfg in Hold. unfold window_us. lia.
      * intros n Hn. apply Hcov. lia.
Qed.

Lemma run_ops_inv config ops :
  forall eng log c,
  monotone (wall c) -> dedup_inv config eng log c ->
  let r := run_ops ops (eng, log) c in
  dedup_inv config (fst (fst r)) (snd (fst r)) (snd r).
Proof.
  induction ops as [|op ops IH]; intros eng log c Hmono Hinv; [exact Hinv|].
  cbv zeta. unfold run_ops. cbn [fold_clk]. unfold bind.
  assert (Hstep : dedup_inv config (fst (fst (run_op (eng, log) op c)))
                    (snd (fst (run_op (eng, log) op c))) (snd (run_op (eng, log) op c)) /\
                  wall (snd (run_op (eng, log) op c)) = wall c).
  { destruct op; [now apply dedup_inv_track | now apply dedup_inv_cleanup]. }
  destruct (run_op (eng, log) op c) as [[eng1 log1] c1]. cbn [fst snd] in Hstep.
  destruct Hstep as [Hinv1 Hw]. apply IH; [now rewrite Hw | assumption].
Qed.

Lemma duplicate_entry_suppressed eng track h c plate last :
  default OUTSIDE (track_states eng !! track_id track) = APPROACHING ->
  plate_present (plate_text track) = Some plate ->
  recent_plates eng !! plate = Some last ->
  wall c (S (tick c)) - last < window_us (ev_config eng) ->
  fst (process_track eng track h c) = (eng, track, None).
Proof.
  intros Hst Hp Hc Hrecent. unfold process_track. rewrite Hst.
  unfold transition, bind. rewrite now_run.
  assert (Hdup : confirm_entry eng track APPROACHING
                   (mkClock (wall c) (S (tick c)))
                 = (eng, APPROACHING, None, mkClock (wall c) (S (S (tick c))))).
  { unfold confirm_entry, bind. rewrite is_duplicate_run, Hp, Hc. cbn [wall tick].
    destruct (Qltb _ _) eqn:Hq; [reflexivity|].
    apply dedup_in_microseconds in Hq. unfold window_us in Hrecent. lia. }
  destruct (Qleb _ _); [destruct (_ && _)|]; rewrite ?Hdup; reflexivity.
Qed.

(** C1.  For a wall clock that does not run backwards and any sequence of
    tracks fed to, and cleanups run on, the event engine of a camera
    (starting from the engine as constructed): two entry events of the log
    that carry the same plate text are at least [dedup_window] seconds
    apart.  This rests on the two mechanisms the claim names: a track
    awaiting entry whose plate text is cached with a timestamp less than a
    window old at the duplicate check emits nothing and leaves engine and
    track as they are; and every emitted event carrying a plate text sets
    that plate's cache entry to the clock reading taken right after the
    event's timestamp. *)
Theorem entries_are_deduplicated (config : EventConfig) (cam : Z)
    (ops : list EngineOp) (c : Clock) :
  monotone (wall c) ->
  entries_separated (window_us config)
    (snd (fst (run_ops ops (EventEngine_init config cam, []) c))) /\
  (forall eng track h c0 plate last,
     default OUTSIDE (track_states eng !! track_id track) = APPROACHING ->
     plate_present (plate_text track) = Some plate ->
     recent_plates eng !! plate = Some last ->
     wall c0 (S (tick c0)) - last < window_us (ev_config eng) ->
     fst (process_track eng track h c0) = (eng, track, None)) /\
  (forall eng track h c0,
     emission eng track c0
       (fst (fst (fst (process_track eng track h c0))))
       (snd (fst (process_track eng track h c0)))
       (snd (process_track eng track h c0))).
Proof.
  intros Hmono. split; [|split].
  - apply (run_ops_inv config ops _ _ c Hmono (dedup_inv_init config cam c)).
  - apply duplicate_entry_suppressed.
  - intros. apply process_track_emission.
Qed.

Lemma second_clock_monotone : monotone (wall second_clock).
Proof. intros i j Hij. cbn. lia. Qed.

Lemma entries_are_deduplicated_witness :
  monotone (wall second_clock) /\
  entries_separated (window_us demo_event_config)
    (snd (fst (run_ops twin_plate_ops (EventEngine_init demo_event_config 1, [])
                 second_clock))).
Proof.
  split; [exact second_clock_monotone|].
  exact (proj1 (entries_are_deduplicated demo_event_config 1 twin_plate_ops
                  second_clock second_clock_monotone)).
Defined.

(** Scenario 3 of the specification: the second track with the same plate
    reaches [APPROACHING] and is held there; one entry event is emitted. *)
Example twin_plates_one_entry :
  let r := fst (run_ops twin_plate_ops (EventEngine_init demo_event_config 1, [])
                  second_clock) in
  map (fun e => (ev_type e, ev_track_id e, ev_plate_text e, ev_timestamp e)) (snd r)
    = [(Entry, 1, Some "ABC1234"%string, 1000000)] /\
  track_states (fst r) !! 2 = Some APPROACHING /\
  recent_plates (fst r) !! "ABC1234"%string = Some 2000000.
Proof. vm_compute. repeat split. Qed.

(** ** Counting texts *)

Lemma count_text_app s l l' :
  count_text s (l ++ l') = (count_text s l + count_text s l')%nat.
Proof. unfold count_text. now rewrite List.filter_app, length_app. Qed.

Lemma count_text_pos s l : In s l <-> (0 < count_text s l)%nat.
Proof.
  unfold count_text. induction l as [|t l IH]; cbn; [split; [tauto | lia]|].
  destruct (String.eqb_spec s t) as [-> | Hne]; cbn.
  - split; [lia | now left].
  - rewrite <- IH. split; [intros [E | H]; [congruence | assumption] | tauto].
Qed.

Lemma first_index_lt s l : In s l <-> (first_index s l < length l)%nat.
Proof.
  induction l as [|t l IH]; cbn; [split; [tauto | lia]|].
  destruct (String.eqb_spec s t) as [-> | Hne].
  - split; [lia | now left].
  - rewrite <- Nat.succ_lt_mono, <- IH.
    split; [intros [E | H]; [congruence | assumption] | tauto].
Qed.

Lemma first_index_app_in s l l' :
  In s l -> first_index s (l ++ l') = first_index s l.
Proof.
  induction l as [|t l IH]; cbn; [tauto|].
  destruct (String.eqb_spec s t) as [-> | Hne]; [reflexivity|].
  intros [E | H]; [congruence|]. now rewrite IH.
Qed.

Lemma first_index_app_notin s l l' :
  ~ In s l -> first_index s (l ++ l') = (length l + first_index s l')%nat.
Proof.
  induction l as [|t l IH]; cbn; [reflexivity|].
  destruct (String.eqb_spec s t) as [-> | Hne]; [tauto|].
  intros H. rewrite IH by tauto. reflexivity.
Qed.

Lemma counter_add_keys s c :
  map fst (counter_add s c)
  = if existsb (String.eqb s) (map fst c) then map fst c else map fst c ++ [s].
Proof.
  induction c as [|[k m] c IH]; [reflexivity|]. cbn.
  destruct (String.eqb s k); cbn; [reflexivity|].
  rewrite IH. now destruct (existsb _ _).
Qed.

Lemma existsb_eqb_string s l : existsb (String.eqb s) l = true <-> In s l.
Proof.
  rewrite existsb_exists. split.
  - intros (x & Hx & E). apply String.eqb_eq in E. now subst.
  - intros H. exists s. split; [assumption | apply String.eqb_refl].
Qed.

Lemma counter_add_In s c s' n' :
  List.NoDup (map fst c) ->
  In (s', n') (counter_add s c) ->
  s' <> s /\ In (s', n') c \/
  s' = s /\ (n' = 1%nat /\ ~ In s (map fst c) \/
             exists n, n' = S n /\ In (s, n) c).
Proof.
  induction c as [|[k m] c IH]; intros Hnd; cbn.
  - intros [[= <- <-] | []]. right. split; [reflexivity|]. left. tauto.
  - inversion Hnd as [|? ? Hnotin Hnd']; subst.
    destruct (String.eqb_spec s k) as [-> | Hne]; cbn.
    + intros [[= <- <-] | Hin].
      * right. split; [reflexivity|]. right. exists m. split; [reflexivity | now left].
      * left. split; [|now right]. intros ->. apply Hnotin.
        change k with (fst (k, n')). now apply in_map.
    + intros [[= <- <-] | Hin].
      * left. split; [congruence | now left].
      * destruct (IH Hnd' Hin) as [[H1 H2] | [H1 [[H2 H3] | (n & H2 & H3)]]].
        -- left. split; [assumption | now right].
        -- right. split; [assumption|]. left. split; [assumption|].
           intros [E | H]; [congruence | contradiction].
        -- right. split; [assumption|]. right. exists n. split; [assumption | now right].
Qed.

Lemma strongly_sorted_after {A} (R : A -> A -> Prop) l1 x l2 :
  StronglySorted R (l1 ++ x :: l2) -> Forall (R x) l2.
Proof.
  induction l1 as [|a l1 IH]; cbn; intros H; inversion H; subst; auto.
Qed.

Lemma strongly_sorted_lt_NoDup (l : list nat) : StronglySorted lt l -> List.NoDup l.
Proof.
  induction 1 as [|a l Hs IH Ha]; constructor; [|assumption].
  intros Hin. rewrite List.Forall_forall in Ha. specialize (Ha a Hin). lia.
Qed.

Lemma strongly_sorted_snoc (l : list nat) (x : nat) :
  StronglySorted lt l -> (forall y, In y l -> (y < x)%nat) ->
  StronglySorted lt (l ++ [x]).
Proof.
  induction 1 as [|a l Hs IH Ha]; intros Hx; cbn.
  - constructor; constructor.
  - constructor; [apply IH; intros; apply Hx; now right|].
    apply Forall_app. split; [assumption|]. constructor; [|constructor].
    apply Hx. now left.
Qed.

(** The counter of a text list: its keys are the distinct texts in order of
    first appearance, each with its number of occurrences. *)
Lemma Counter_spec texts :
  StronglySorted lt (map (fun s => first_index s texts) (map fst (Counter texts))) /\
  (forall s n, In (s, n) (Counter texts) -> In s texts /\ n = count_text s texts) /\
  (forall s, In s texts -> In s (map fst (Counter texts))).
Proof.
  induction texts as [|s texts IH] using rev_ind.
  - cbn. split; [constructor|]. split; [intros s n [] | intros s []].
  - destruct IH as (Hsorted & Hcount & Hkeys).
    unfold Counter in *. rewrite fold_left_app. cbn [fold_left].
    set (c := fold_left (fun c s => counter_add s c) texts []) in *.
    assert (Hin_keys : forall k, In k (map fst c) -> In k texts).
    { intros k Hk. apply in_map_iff in Hk as ([k' n] & E & Hk). cbn in E. subst k'.
      now apply (Hcount k n). }
    assert (Hnd : List.NoDup (map fst c)).
    { eapply NoDup_map_inv. apply strongly_sorted_lt_NoDup. exact Hsorted. }
    assert (Hsame : forall k, In k texts ->
              first_index k (texts ++ [s]) = first_index k texts)
      by (intros; now apply first_index_app_in).
    split; [|split].
    + rewrite counter_add_keys.
      destruct (existsb (String.eqb s) (map fst c)) eqn:E.
      * erewrite map_ext_in; [exact Hsorted|]. intros k Hk. cbn. auto.
      * rewrite map_app. cbn [map].
        assert (Hnot : ~ In s texts).
        { intros H. apply Hkeys, existsb_eqb_string in H. congruence. }
        erewrite (map_ext_in _ _ (map fst c)); [|intros k Hk; cbn; apply Hsame; auto].
        apply strongly_sorted_snoc; [exact Hsorted|].
        intros y Hy. apply in_map_iff in Hy as (k & <- & Hk).
        rewrite first_index_app_notin by assumption. cbn.
        rewrite String.eqb_refl. apply Hin_keys, first_index_lt in Hk. lia.
    + intros s' n' Hin. apply counter_add_In in Hin; [|assumption].
      rewrite in_app_iff, count_text_app. unfold count_text at 2. cbn.
      destruct Hin as [[Hne Hin] | [-> [[-> Hnot] | (n & -> & Hin)]]].
      * destruct (Hcount _ _ Hin) as [H1 ->].
        destruct (String.eqb_spec s' s); [congruence|]. cbn. split; [tauto | lia].
      * rewrite String.eqb_refl. cbn. split; [right; now left|].
        assert (count_text s texts = 0%nat).
        { destruct (count_text s texts) eqn:Ec; [reflexivity|].
          exfalso. apply Hnot, Hkeys, count_text_pos. lia. }
        lia.
      * rewrite String.eqb_refl. cbn. destruct (Hcount _ _ Hin) as [H1 ->].
        split; [tauto | lia].
    + intros k Hk. rewrite counter_add_keys.
      apply in_app_or in Hk as [Hk | [<- | []]].
      * destruct (existsb _ _); [|apply in_or_app; left]; now apply Hkeys.
      * destruct (existsb (String.eqb s) (map fst c)) eqn:E.
        -- now apply existsb_eqb_string.
        -- apply in_or_app. right. now left.
Qed.

Lemma most_common_spec texts s n :
  most_common_1 (Counter texts) = Some (s, n) ->
  most_frequent_first texts texts s /\ n = count_text s texts.
Proof.
  intros Hmax. unfold most_common_1 in Hmax.
  apply py_max_on_first in Hmax;
    [|exact nat_ltb_trans | exact nat_ltb_not_lt_trans].
  destruct Hmax as (cpre & cpost & Hc & Hpre & Hpost).
  destruct (Counter_spec texts) as (Hsorted & Hcount & Hkeys).
  assert (Hs : In (s, n) (Counter texts)) by (rewrite Hc; apply in_elt).
  destruct (Hcount s n Hs) as [Hin ->]. split; [|reflexivity].
  split; [assumption|]. intros s' Hin' Hne.
  apply Hkeys, in_map_iff in Hin' as ([k n'] & E & Hk). cbn in E. subst k.
  destruct (Hcount s' n' Hk) as [_ Hn'].
  rewrite Hc in Hk. apply in_app_or in Hk as [Hk | [[= E _] | Hk]].
  - left. specialize (Hpre _ Hk). cbn in Hpre. apply Nat.ltb_lt in Hpre. lia.
  - congruence.
  - specialize (Hpost _ Hk). cbn in Hpost. apply Nat.ltb_ge in Hpost.
    rewrite Hc, !map_app in Hsorted. cbn [map] in Hsorted.
    apply strongly_sorted_after in Hsorted. rewrite List.Forall_forall in Hsorted.
    assert (Hlt : (first_index s texts < first_index s' texts)%nat).
    { apply Hsorted.
      apply (in_map (fun k => first_index k texts) (map fst cpost) s').
      change s' with (fst (s', n')). now apply in_map. }
    destruct (Nat.eq_dec (count_text s' texts) (count_text s texts)) as [E | E];
      [right; now split | left; lia].
Qed.

Lemma most_frequent_first_unique sequence texts s1 s2 :
  most_frequent_first sequence texts s1 -> most_frequent_first sequence texts s2 ->
  s1 = s2.
Proof.
  intros [In1 H1] [In2 H2].
  destruct (string_dec s1 s2) as [E | Hne]; [assumption|].
  specialize (H1 s2 In2 ltac:(congruence)).
  specialize (H2 s1 In1 Hne). lia.
Qed.

(** ** Groups *)

Lemma place_total r G :
  length (concat (place r G)) = S (length (concat G)).
Proof.
  induction G as [|g G IH]; [reflexivity|]. cbn [place].
  destruct g as [|first g'].
  - cbn [concat app]. exact IH.
  - destruct (levenshtein_distance _ _ <=? 2)%nat.
    + cbn [concat]. rewrite !length_app. cbn. lia.
    + cbn [concat]. rewrite !length_app, IH. lia.
Qed.

Lemma place_nonempty r G :
  Forall (fun g => g <> []) G -> Forall (fun g => g <> []) (place r G).
Proof.
  induction 1 as [|g G Hg HG IH]; cbn [place].
  - constructor; [discriminate | constructor].
  - destruct g as [|first g']; [congruence|].
    destruct (levenshtein_distance _ _ <=? 2)%nat.
    + constructor; [|assumption]. now destruct g'.
    + constructor; assumption.
Qed.

Lemma group_readings_spec readings :
  length (concat (group_readings readings)) = length readings /\
  Forall (fun g => g <> []) (group_readings readings).
Proof.
  unfold group_readings.
  assert (G : forall acc,
    Forall (fun g => g <> []) acc ->
    length (concat (fold_left (fun groups r => place r groups) readings acc))
    = (length (concat acc) + length readings)%nat /\
    Forall (fun g => g <> [])
      (fold_left (fun groups r => place r groups) readings acc)).
  { induction readings as [|r rs IH]; intros acc Hacc; cbn [fold_left].
    - split; [cbn; lia | assumption].
    - destruct (IH (place r acc) (place_nonempty r acc Hacc)) as [H1 H2].
      split; [|assumption]. rewrite H1, place_total. cbn. lia. }
  apply (G []). constructor.
Qed.

Lemma length_member_concat {A} (g : list A) (G : list (list A)) :
  In g G -> (length g <= length (concat G))%nat.
Proof.
  induction G as [|g' G IH]; [intros []|]. cbn. rewrite length_app.
  intros [-> | H]; [lia|]. specialize (IH H). lia.
Qed.

Lemma largest_group_spec readings group :
  largest_group readings = Some group ->
  first_max Nat.ltb (@length Reading) (group_readings readings) group /\
  In group (group_readings readings) /\ group <> [] /\
  (length group <= length readings)%nat.
Proof.
  intros H. unfold largest_group in H.
  apply py_max_on_first in H; [|exact nat_ltb_trans | exact nat_ltb_not_lt_trans].
  split; [exact H|].
  destruct H as (pre & post & E & _).
  assert (Hin : In group (group_readings readings)) by (rewrite E; apply in_elt).
  destruct (group_readings_spec readings) as [Hlen Hne].
  split; [assumption|]. split.
  - rewrite List.Forall_forall in Hne. now apply Hne.
  - rewrite <- Hlen. now apply length_member_concat.
Qed.

Lemma mean_as_average (rs : list Reading) :
  mean (map r_confidence rs) = average_confidence rs.
Proof.
  unfold mean, average_confidence. rewrite length_map. f_equal.
  induction rs as [|r rs IH]; [reflexivity|]. cbn. now rewrite IH.
Qed.

Lemma fuse_consensus config readings group :
  largest_group readings = Some group ->
  fusion_min_samples config <= Z.of_nat (length group) ->
  exists text,
    fuse_readings config readings
    = Some (Consensus text (average_confidence (occurrences text group))
              (length group)) /\
    most_frequent_first (map r_text group) (map r_text group) text.
Proof.
  intros Hg Hmin.
  destruct (largest_group_spec readings group Hg) as (_ & _ & Hne & Hlen).
  pose proof (largest_group_nonempty_input _ _ Hg) as Hrs.
  unfold fuse_readings. destruct readings as [|r0 rs] eqn:Er; [congruence|].
  rewrite <- Er in *.
  destruct (Z.of_nat (length readings) <? fusion_min_samples config) eqn:E1;
    [apply Z.ltb_lt in E1; lia|].
  rewrite Hg.
  destruct (Z.of_nat (length group) <? fusion_min_samples config) eqn:E2;
    [apply Z.ltb_lt in E2; lia|].
  destruct (most_common_1 (Counter (map r_text group))) as [[text n]|] eqn:Emc.
  - exists text. apply most_common_spec in Emc as [Hmf _].
    split; [|exact Hmf]. do 2 f_equal.
    rewrite <- mean_as_average. do 2 f_equal. unfold occurrences.
    apply stdpp_filter_as_List. intros r _. split.
    + apply Is_true_true.
    + intros H. now apply Is_true_true.
  - exfalso. unfold most_common_1 in Emc.
    destruct (Counter_spec (map r_text group)) as (_ & _ & Hkeys).
    destruct group as [|g0 group']; [congruence|].
    specialize (Hkeys (r_text g0) (or_introl eq_refl)).
    destruct (Counter (map r_text (g0 :: group'))); [destruct Hkeys | discriminate].
Qed.

(** ** Levenshtein distance of a string to itself *)

Lemma lev_inner_fold (c1 : ascii) (previous_row : list nat) (suf2 : list ascii) :
  forall (k : nat) (cur : list nat),
  length cur = (k + 1)%nat ->
  let cur' :=
    fold_left
      (fun current_row '(j, c2) =>
         let insertions := (nth (j + 1) previous_row 0 + 1)%nat in
         let deletions := (nth j current_row 0 + 1)%nat in
         let substitutions :=
           (nth j previous_row 0 + (if Ascii.eqb c1 c2 then 0 else 1))%nat in
         current_row ++ [Nat.min insertions (Nat.min deletions substitutions)])
      (zip (seq k (length suf2)) suf2) cur in
  length cur' = (k + 1 + length suf2)%nat /\
  (forall m, (m <= k)%nat -> nth m cur' 0%nat = nth m cur 0%nat) /\
  (forall j, (k <= j)%nat -> nth_error suf2 (j - k) = Some c1 ->
     nth j previous_row 0%nat = 0%nat -> nth (j + 1) cur' 0%nat = 0%nat).
Proof.
  induction suf2 as [|c2 suf2 IH]; intros k cur Hlen cur'; subst cur'.
  - cbn. split; [lia|]. split; [auto|].
    intros j _ H. destruct (j - k)%nat; discriminate.
  - cbn [length seq zip zip_with fold_left].
    set (v := Nat.min _ _).
    specialize (IH (S k) (cur ++ [v])). cbv zeta in IH.
    destruct IH as (L & Keep & Diag).
    { rewrite length_app. cbn. lia. }
    split; [rewrite L; lia|]. split.
    + intros m Hm. rewrite Keep by lia. apply app_nth1. lia.
    + intros j Hj Hc Hz. destruct (Nat.eq_dec j k) as [E | Hne].
      * subst j. rewrite Nat.sub_diag in Hc. cbn in Hc. injection Hc as ->.
        rewrite Keep by lia. rewrite app_nth2 by lia.
        replace (k + 1 - length cur)%nat with 0%nat by lia. cbn. subst v.
        rewrite Hz, Ascii.eqb_refl. lia.
      * apply Diag; [lia | | assumption].
        replace (j - k)%nat with (S (j - S k)) in Hc by lia. exact Hc.
Qed.

Lemma lev_row_diag i c1 s2 previous_row :
  length (lev_row i c1 s2 previous_row) = (length s2 + 1)%nat /\
  (forall j, nth_error s2 j = Some c1 -> nth j previous_row 0%nat = 0%nat ->
     nth (j + 1) (lev_row i c1 s2 previous_row) 0%nat = 0%nat).
Proof.
  pose proof (lev_inner_fold c1 previous_row s2 0 [(i + 1)%nat] eq_refl) as H.
  unfold lev_row, enumerate. cbv zeta in H |- *.
  destruct H as (L & _ & Diag).
  split; [rewrite L; lia|].
  intros j Hc Hz. apply Diag; [lia | now rewrite Nat.sub_0_r | assumption].
Qed.

Lemma lev_outer_fold (s : list ascii) (suf : list ascii) :
  forall (pre : list ascii) (row : list nat),
  s = pre ++ suf -> length row = (length s + 1)%nat ->
  nth (length pre) row 0%nat = 0%nat ->
  let row' :=
    fold_left (fun previous_row '(i, c1) => lev_row i c1 s previous_row)
      (zip (seq (length pre) (length suf)) suf) row in
  length row' = (length s + 1)%nat /\ nth (length s) row' 0%nat = 0%nat.
Proof.
  induction suf as [|c suf IH]; intros pre row Hs Hlen Hz row'; subst row'.
  - cbn. rewrite app_nil_r in Hs. subst pre. now split.
  - cbn [length seq zip zip_with fold_left].
    destruct (lev_row_diag (length pre) c s row) as [L Diag].
    specialize (IH (pre ++ [c]) (lev_row (length pre) c s row)).
    rewrite length_app in IH. cbn [length] in IH.
    replace (length pre + 1)%nat with (S (length pre)) in IH by lia.
    apply IH.
    + now rewrite <- app_assoc.
    + exact L.
    + replace (S (length pre)) with (length pre + 1)%nat by lia.
      apply Diag; [|assumption].
      rewrite Hs, nth_error_app2 by lia. now rewrite Nat.sub_diag.
Qed.

Lemma last_as_nth (row : list nat) :
  List.last row 0%nat = nth (length row - 1) row 0%nat.
Proof.
  induction row as [|a row IH]; [reflexivity|].
  destruct row as [|b row]; [reflexivity|].
  change (List.last (a :: b :: row) 0%nat) with (List.last (b :: row) 0%nat).
  rewrite IH. cbn [length].
  replace (S (S (length row)) - 1)%nat with (S (S (length row) - 1)) by lia.
  reflexivity.
Qed.

Lemma lev_rows_same (s : list ascii) : lev_rows s s = 0%nat.
Proof.
  unfold lev_rows. destruct (Nat.eqb_spec (length s) 0) as [E | Hne].
  - assumption.
  - destruct (lev_outer_fold s s [] (seq 0 (length s + 1)) eq_refl) as [L Z0].
    { now rewrite length_seq. }
    { rewrite Nat.add_1_r. reflexivity. }
    unfold enumerate. cbn [length] in L, Z0.
    rewrite last_as_nth, L.
    replace (length s + 1 - 1)%nat with (length s) by lia.
    exact Z0.
Qed.

Lemma levenshtein_same (s : string) : levenshtein_distance s s = 0%nat.
Proof.
  unfold levenshtein_distance. rewrite Nat.ltb_irrefl. apply lev_rows_same.
Qed.

(** ** Which group a reading joins *)

Lemma home_lt t G i : home t G = Some i -> (i < length G)%nat.
Proof.
  revert i. induction G as [|g G IH]; intros i; cbn [home]; [discriminate|].
  assert (K : option_map S (home t G) = Some i -> (i < length (g :: G))%nat).
  { destruct (home t G) as [k|]; cbn; [|discriminate].
    intros [= <-]. specialize (IH k eq_refl). lia. }
  destruct g as [|first g']; [exact K|].
  destruct (levenshtein_distance _ _ <=? 2)%nat; [|exact K].
  intros [= <-]. cbn. lia.
Qed.

Lemma home_place t r G :
  Forall (fun g => g <> []) G ->
  home t (place r G)
  = match home t G with
    | Some i => Some i
    | None =>
        match home (r_text r) G with
        | Some _ => None
        | None =>
            if (levenshtein_distance t (r_text r) <=? 2)%nat
            then Some (length G) else None
        end
    end.
Proof.
  induction 1 as [|g G Hg HG IH].
  - cbn. now destruct (levenshtein_distance _ _ <=? 2)%nat.
  - destruct g as [|first g']; [congruence|]. cbn [place home length].
    destruct (levenshtein_distance (r_text r) (r_text first) <=? 2)%nat eqn:Er.
    + cbn [home app].
      destruct (levenshtein_distance t (r_text first) <=? 2)%nat; [reflexivity|].
      now destruct (home t G).
    + cbn [home].
      destruct (levenshtein_distance t (r_text first) <=? 2)%nat; [reflexivity|].
      rewrite IH. destruct (home t G) as [k|]; cbn; [reflexivity|].
      destruct (home (r_text r) G); cbn; [reflexivity|].
      now destruct (levenshtein_distance _ _ <=? 2)%nat.
Qed.

Lemma place_joins r G :
  Forall (fun g => g <> []) G ->
  forall i, home (r_text r) G = Some i ->
  forall j, place r G !! j
            = if Nat.eqb j i then option_map (fun g => g ++ [r]) (G !! j)
              else G !! j.
Proof.
  induction 1 as [|g G Hg HG IH]; intros i; [discriminate|].
  destruct g as [|first g']; [congruence|]. cbn [place home].
  destruct (levenshtein_distance (r_text r) (r_text first) <=? 2)%nat.
  - intros [= <-] j. now destruct j.
  - destruct (home (r_text r) G) as [k|] eqn:Ek; cbn; [|discriminate].
    intros [= <-] j. destruct j as [|j]; [reflexivity|]. cbn.
    apply (IH k eq_refl j).
Qed.

Lemma place_opens r G :
  Forall (fun g => g <> []) G -> home (r_text r) G = None ->
  place r G = G ++ [[r]].
Proof.
  induction 1 as [|g G Hg HG IH]; [reflexivity|].
  destruct g as [|first g']; [congruence|]. cbn [place home].
  destruct (levenshtein_distance (r_text r) (r_text first) <=? 2)%nat;
    [discriminate|].
  destruct (home (r_text r) G) as [k|] eqn:Ek; cbn; [discriminate|].
  intros _. now rewrite IH.
Qed.

Lemma filter_none {A} (P : A -> bool) l :
  (forall x, In x l -> P x = false) -> List.filter P l = [].
Proof.
  induction l as [|a l IH]; intros H; [reflexivity|]. cbn.
  rewrite (H a (or_introl eq_refl)). apply IH. intros x Hx. apply H. now right.
Qed.

(** Every group of the grouping loop consists of exactly the readings that
    join it, in the order in which they were read. *)
Lemma group_readings_homes readings :
  Forall (fun g => g <> []) (group_readings readings) /\
  (forall r, In r readings -> home (r_text r) (group_readings readings) <> None) /\
  (forall i g, group_readings readings !! i = Some g ->
     g = List.filter (fun r => home_is (group_readings readings) i (r_text r))
           readings).
Proof.
  induction readings as [|r rs IH] using rev_ind.
  - split; [constructor|]. split; [intros r []|]. intros i g H. discriminate.
  - destruct IH as (Hne & Hcov & Hpart).
    unfold group_readings in *. rewrite fold_left_app. cbn [fold_left].
    set (G := fold_left (fun groups reading => place reading groups) rs []) in *.
    split; [now apply place_nonempty|].
    destruct (home (r_text r) G) as [i0|] eqn:Ehome.
    + assert (Hsame : forall t, home t (place r G) = home t G).
      { intros t. rewrite home_place by assumption. rewrite Ehome.
        now destruct (home t G). }
      split.
      * intros r' Hr'. rewrite Hsame. apply in_app_or in Hr' as [Hr' | [<- | []]].
        -- now apply Hcov.
        -- congruence.
      * intros i g Hg. rewrite (place_joins r G Hne i0 Ehome) in Hg.
        rewrite List.filter_app.
        rewrite (List.filter_ext (fun r0 => home_is (place r G) i (r_text r0))
                   (fun r0 => home_is G i (r_text r0)))
          by (intros r0; unfold home_is; now rewrite Hsame).
        cbn [List.filter]. unfold home_is at 2. rewrite Hsame, Ehome.
        rewrite (Nat.eqb_sym i0 i).
        destruct (Nat.eqb i i0).
        -- destruct (G !! i) as [g0|] eqn:Eg; [|discriminate].
           cbn in Hg. injection Hg as <-. now rewrite (Hpart i g0 Eg) at 1.
        -- rewrite app_nil_r. now apply Hpart.
    + assert (Hnew : forall t,
                home t (place r G)
                = match home t G with
                  | Some i => Some i
                  | None => if (levenshtein_distance t (r_text r) <=? 2)%nat
                            then Some (length G) else None
                  end).
      { intros t. rewrite home_place by assumption. now rewrite Ehome. }
      assert (Hold : forall r', In r' rs ->
                home (r_text r') (place r G) = home (r_text r') G).
      { intros r' Hr'. rewrite Hnew. specialize (Hcov r' Hr').
        now destruct (home (r_text r') G). }
      assert (Hr : home (r_text r) (place r G) = Some (length G)).
      { rewrite Hnew, Ehome, levenshtein_same. reflexivity. }
      split.
      * intros r' Hr'. apply in_app_or in Hr' as [Hr' | [<- | []]].
        -- rewrite Hold by assumption. now apply Hcov.
        -- congruence.
      * intros i g Hg. rewrite List.filter_app.
        rewrite (List.filter_ext_in (fun r0 => home_is (place r G) i (r_text r0))
                   (fun r0 => home_is G i (r_text r0)) rs)
          by (intros r0 Hr0; unfold home_is; now rewrite Hold).
        cbn [List.filter]. unfold home_is at 2. rewrite Hr.
        rewrite (place_opens r G Hne Ehome) in Hg.
        destruct (Nat.lt_ge_cases i (length G)) as [Hlt | Hge].
        -- rewrite lookup_app_l in Hg by assumption.
           destruct (Nat.eqb_spec (length G) i) as [E | _]; [lia|].
           rewrite app_nil_r. now apply Hpart.
        -- rewrite lookup_app_r in Hg by assumption.
           destruct (i - length G)%nat as [|d] eqn:Ed; [|now destruct d].
           cbn in Hg. injection Hg as <-.
           assert (E : i = length G) by lia. subst i. rewrite Nat.eqb_refl.
           rewrite filter_none; [reflexivity|].
           intros r' Hr'. unfold home_is. specialize (Hcov r' Hr').
           destruct (home (r_text r') G) as [k|] eqn:Ek; [|congruence].
           apply home_lt in Ek. apply Nat.eqb_neq. lia.
Qed.

Lemma map_filter_text (P : string -> bool) (rs : list Reading) :
  map r_text (List.filter (fun r => P (r_text r)) rs)
  = List.filter P (map r_text rs).
Proof.
  induction rs as [|r rs IH]; [reflexivity|]. cbn.
  destruct (P (r_text r)); cbn; now rewrite IH.
Qed.

Lemma first_index_filter (P : string -> bool) l s s' :
  P s = true -> P s' = true ->
  (first_index s (List.filter P l) < first_index s' (List.filter P l))%nat ->
  (first_index s l < first_index s' l)%nat.
Proof.
  intros Hs Hs'. induction l as [|t l IH]; cbn [List.filter first_index]; [lia|].
  destruct (P t) eqn:Pt; cbn [first_index].
  - destruct (String.eqb_spec s t), (String.eqb_spec s' t); lia.
  - destruct (String.eqb_spec s t) as [-> | _]; [congruence|].
    destruct (String.eqb_spec s' t) as [-> | _]; [congruence|].
    intros H. specialize (IH H). lia.
Qed.

(** Within a group, texts first appear in the same order as in the whole
    reading sequence. *)
Lemma group_keeps_first_appearance readings group s s' :
  In group (group_readings readings) ->
  In s (map r_text group) -> In s' (map r_text group) ->
  (first_index s (map r_text group) < first_index s' (map r_text group))%nat ->
  (first_index s (map r_text readings) < first_index s' (map r_text readings))%nat.
Proof.
  intros Hg Hs Hs'.
  apply list_elem_of_In, list_elem_of_lookup_1 in Hg as [i Hi].
  destruct (group_readings_homes readings) as (_ & _ & Hpart).
  specialize (Hpart i group Hi).
  set (P := home_is (group_readings readings) i) in *.
  assert (Htexts : map r_text group = List.filter P (map r_text readings)).
  { rewrite Hpart at 1. apply map_filter_text. }
  rewrite Htexts in *.
  apply List.filter_In in Hs as [_ Hs]. apply List.filter_In in Hs' as [_ Hs'].
  now apply first_index_filter.
Qed.

Lemma occurrences_nonempty text group :
  In text (map r_text group) -> occurrences text group <> [].
Proof.
  intros Hin. apply in_map_iff in Hin as (r & E & Hr).
  assert (H : In r (occurrences text group)).
  { unfold occurrences. apply List.filter_In. split; [assumption|].
    rewrite E. apply String.eqb_refl. }
  intros Hnil. rewrite Hnil in H. destruct H.
Qed.

(** C6. When the largest group that [fuse_readings] forms from a track's
    readings holds at least [fusion_min_samples] readings, the fusion result
    is the consensus record: its text is the most frequent text of that
    group and, among equally frequent texts, the one that appears first in
    the reading sequence; no other text fits that description, so the
    reading sequence determines the result; its confidence is the mean
    confidence of the group's readings that carry exactly that text; and the
    finalize step of the frame loop locks that text and confidence on the
    track. *)
Theorem consensus_fusion_locks_most_frequent (config : OCRConfig)
    (track : Track) (group : list Reading)
    (Hgroup : largest_group (plate_readings track) = Some group)
    (Hsize : fusion_min_samples config <= Z.of_nat (length group)) :
  exists text,
    most_frequent_first (map r_text (plate_readings track))
      (map r_text group) text /\
    (forall text',
       most_frequent_first (map r_text (plate_readings track))
         (map r_text group) text' -> text' = text) /\
    occurrences text group <> [] /\
    fuse_readings config (plate_readings track)
    = Some (Consensus text (average_confidence (occurrences text group))
              (length group)) /\
    plate_locked (try_finalize config track) = true /\
    plate_text (try_finalize config track) = Some text /\
    plate_confidence (try_finalize config track)
    = Some (average_confidence (occurrences text group)).
Proof.
  destruct (fuse_consensus config _ group Hgroup Hsize) as (text & Hfuse & Hmf).
  destruct (largest_group_spec _ _ Hgroup) as (_ & Hin & Hne & Hlen).
  assert (Hseq : most_frequent_first (map r_text (plate_readings track))
                   (map r_text group) text).
  { destruct Hmf as [Hin_t Hall]. split; [assumption|]. intros s' Hs' Hneq.
    destruct (Hall s' Hs' Hneq) as [Hlt | [Heq Hfi]]; [now left|].
    right. split; [assumption|].
    now apply (group_keeps_first_appearance (plate_readings track) group). }
  exists text. split; [exact Hseq|]. split.
  { intros text' H'. exact (most_frequent_first_unique _ _ _ _ H' Hseq). }
  split; [apply occurrences_nonempty, Hseq|].
  split; [exact Hfuse|].
  unfold try_finalize.
  destruct (Z.leb_spec (fusion_min_samples config)
              (Z.of_nat (length (plate_readings track)))) as [_ | Hlt]; [|lia].
  rewrite Hfuse. cbn. repeat split.
Qed.

Lemma consensus_fusion_locks_most_frequent_witness :
  exists text,
    most_frequent_first (map r_text (plate_readings scenario_track))
      (map r_text (List.firstn 4 scenario_readings)) text /\
    (forall text',
       most_frequent_first (map r_text (plate_readings scenario_track))
         (map r_text (List.firstn 4 scenario_readings)) text' -> text' = text) /\
    occurrences text (List.firstn 4 scenario_readings) <> [] /\
    fuse_readings sample_ocr_config (plate_readings scenario_track)
    = Some (Consensus text
              (average_confidence
                 (occurrences text (List.firstn 4 scenario_readings)))
              (length (List.firstn 4 scenario_readings))) /\
    plate_locked (try_finalize sample_ocr_config scenario_track) = true /\
    plate_text (try_finalize sample_ocr_config scenario_track) = Some text /\
    plate_confidence (try_finalize sample_ocr_config scenario_track)
    = Some (average_confidence
              (occurrences text (List.firstn 4 scenario_readings))).
Proof.
  apply (consensus_fusion_locks_most_frequent sample_ocr_config scenario_track
           (List.firstn 4 scenario_readings)).
  - vm_compute. reflexivity.
  - simpl. lia.
Defined.

(** Scenario 4: three equal readings, a near miss and an outlier. *)
Example scenario_fusion :
  largest_group scenario_readings = Some (List.firstn 4 scenario_readings) /\
  option_map fused_text (fuse_readings sample_ocr_config scenario_readings)
  = Some "ABC1234"%string /\
  (exists conf,
     option_map fused_confidence (fuse_readings sample_ocr_config scenario_readings)
     = Some conf /\ (conf == 8 / 10)%Q) /\
  plate_locked (try_finalize sample_ocr_config scenario_track) = true /\
  plate_text (try_finalize sample_ocr_config scenario_track)
  = Some "ABC1234"%string.
Proof.
  split; [vm_compute; reflexivity|]. split; [vm_compute; reflexivity|].
  split; [|split; vm_compute; reflexivity].
  eexists. split; [vm_compute; reflexivity|]. reflexivity.
Qed.

(** Two texts with two readings each in one group: the text read first is
    fused, with the mean of its own two confidences. *)
Example tie_goes_to_first_text :
  option_map fused_text (fuse_readings sample_ocr_config tied_readings)
  = Some "ABC1235"%string /\
  exists conf,
    option_map fused_confidence (fuse_readings sample_ocr_config tied_readings)
    = Some conf /\ (conf == 7 / 10)%Q.
Proof.
  split; [vm_compute; reflexivity|].
  eexists. split; [vm_compute; reflexivity|]. reflexivity.
Qed.

(** ** [levenshtein_distance] against the recurrence of the edit distance *)

Lemma edit_distance_SS s1 s2 i j :
  edit_distance s1 s2 (S i) (S j)
  = Nat.min (edit_distance s1 s2 i (S j) + 1)
      (Nat.min (edit_distance s1 s2 (S i) j + 1)
         (edit_distance s1 s2 i j
          + subst_cost (nth i s1 Ascii.zero) (nth j s2 Ascii.zero))).
Proof. reflexivity. Qed.

Lemma edit_distance_i0 s1 s2 i : edit_distance s1 s2 i 0 = i.
Proof. now destruct i. Qed.

Lemma subst_cost_sym c1 c2 : subst_cost c1 c2 = subst_cost c2 c1.
Proof. unfold subst_cost. now rewrite Ascii.eqb_sym. Qed.

Lemma edit_distance_sym s1 s2 i : forall j,
  edit_distance s1 s2 i j = edit_distance s2 s1 j i.
Proof.
  induction i as [|i IHi]; intros j.
  - now rewrite edit_distance_i0.
  - induction j as [|j IHj]; [reflexivity|].
    rewrite !edit_distance_SS, IHj, !IHi, subst_cost_sym. lia.
Qed.

Lemma seq_snoc (start len : nat) : seq start (S len) = seq start len ++ [(start + len)%nat].
Proof. apply seq_S. Qed.

(** The inner loop extends the current row by one entry of the recurrence
    per character of [s2]. *)
Lemma lev_row_fold (s1 s2 : list ascii) (k : nat) (c1 : ascii) (prev : list nat)
    (suf2 : list ascii) :
  c1 = nth k s1 Ascii.zero ->
  prev = map (edit_distance s1 s2 k) (seq 0 (length s2 + 1)) ->
  forall pre2 cur,
  s2 = pre2 ++ suf2 ->
  cur = map (edit_distance s1 s2 (S k)) (seq 0 (length pre2 + 1)) ->
  fold_left
    (fun current_row '(j, c2) =>
       current_row ++
       [Nat.min (nth (j + 1) prev 0 + 1)%nat
          (Nat.min (nth j current_row 0 + 1)%nat
             (nth j prev 0 + (if Ascii.eqb c1 c2 then 0 else 1))%nat)])
    (zip (seq (length pre2) (length suf2)) suf2) cur
  = map (edit_distance s1 s2 (S k)) (seq 0 (length s2 + 1)).
Proof.
  intros Hc Hprev. induction suf2 as [|c2 suf2 IH]; intros pre2 cur Hs Hcur.
  - cbn. rewrite app_nil_r in Hs. now subst.
  - cbn [length seq zip zip_with fold_left].
    specialize (IH (pre2 ++ [c2])). rewrite length_app in IH. cbn [length] in IH.
    rewrite (Nat.add_1_r (length pre2)) in IH.
    apply IH.
    + now rewrite <- app_assoc.
    + replace (S (length pre2) + 1)%nat with (S (length pre2 + 1)) by lia.
      rewrite seq_snoc, map_app. cbn [map]. f_equal; [exact Hcur|]. f_equal.
      assert (Hlen : length s2 = (length pre2 + S (length suf2))%nat)
        by (rewrite Hs, length_app; reflexivity).
      set (j := length pre2) in *.
      assert (Hnth : forall (i m : nat), (m < length s2 + 1)%nat ->
                nth m (map (edit_distance s1 s2 i) (seq 0 (length s2 + 1))) 0%nat
                = edit_distance s1 s2 i m).
      { intros i m Hm.
        rewrite (nth_indep _ 0%nat (edit_distance s1 s2 i 0)) by
          (now rewrite length_map, length_seq).
        rewrite map_nth, seq_nth by assumption. reflexivity. }
      rewrite Hprev, !Hnth by lia.
      assert (Hcurj : nth j cur 0%nat = edit_distance s1 s2 (S k) j).
      { rewrite Hcur.
        rewrite (nth_indep _ 0%nat (edit_distance s1 s2 (S k) 0)) by
          (rewrite length_map, length_seq; lia).
        rewrite map_nth, seq_nth by lia. reflexivity. }
      rewrite Hcurj.
      replace (0 + (j + 1))%nat with (S j) by lia.
      replace (j + 1)%nat with (S j) by lia.
      rewrite edit_distance_SS. unfold subst_cost.
      assert (Hc2 : nth j s2 Ascii.zero = c2).
      { rewrite Hs, app_nth2 by (unfold j; lia).
        now replace (j - length pre2)%nat with 0%nat by (unfold j; lia). }
      now rewrite Hc2, <- Hc.
Qed.

Lemma lev_row_is_recurrence s1 s2 k :
  lev_row k (nth k s1 Ascii.zero) s2
    (map (edit_distance s1 s2 k) (seq 0 (length s2 + 1)))
  = map (edit_distance s1 s2 (S k)) (seq 0 (length s2 + 1)).
Proof.
  unfold lev_row, enumerate. cbv zeta.
  apply (lev_row_fold s1 s2 k _ _ s2 eq_refl eq_refl []); [reflexivity|].
  cbn. f_equal. lia.
Qed.

Lemma lev_rows_fold (s1 s2 : list ascii) (suf1 : list ascii) :
  forall pre1 row,
  s1 = pre1 ++ suf1 ->
  row = map (edit_distance s1 s2 (length pre1)) (seq 0 (length s2 + 1)) ->
  fold_left (fun previous_row '(i, c1) => lev_row i c1 s2 previous_row)
    (zip (seq (length pre1) (length suf1)) suf1) row
  = map (edit_distance s1 s2 (length s1)) (seq 0 (length s2 + 1)).
Proof.
  induction suf1 as [|c1 suf1 IH]; intros pre1 row Hs Hrow.
  - cbn. rewrite app_nil_r in Hs. now subst.
  - cbn [length seq zip zip_with fold_left].
    assert (Hc : nth (length pre1) s1 Ascii.zero = c1).
    { rewrite Hs, app_nth2 by lia. now rewrite Nat.sub_diag. }
    specialize (IH (pre1 ++ [c1]) (lev_row (length pre1) c1 s2 row)).
    rewrite length_app in IH. cbn [length] in IH.
    replace (length pre1 + 1)%nat with (S (length pre1)) in IH by lia.
    apply IH; [now rewrite <- app_assoc|].
    rewrite Hrow, <- Hc. apply lev_row_is_recurrence.
Qed.

Lemma lev_rows_is_recurrence (s1 s2 : list ascii) :
  lev_rows s1 s2 = edit_distance s1 s2 (length s1) (length s2).
Proof.
  unfold lev_rows. destruct (Nat.eqb_spec (length s2) 0) as [E | Hne].
  - now rewrite E, edit_distance_i0.
  - unfold enumerate.
    assert (H : seq 0 (length s2 + 1)
                = map (edit_distance s1 s2 (length (@nil ascii)))
                    (seq 0 (length s2 + 1))) by (symmetry; apply map_id).
    pose proof (lev_rows_fold s1 s2 s1 [] (seq 0 (length s2 + 1)) eq_refl H) as E.
    cbn [length] in E. rewrite E.
    rewrite last_as_nth, length_map, length_seq.
    replace (length s2 + 1 - 1)%nat with (length s2) by lia.
    rewrite (nth_indep _ 0%nat (edit_distance s1 s2 (length s1) 0)) by
      (rewrite length_map, length_seq; lia).
    rewrite map_nth, seq_nth by lia. reflexivity.
Qed.

Lemma length_chars (s : string) : length (chars s) = String.length s.
Proof. unfold chars. induction s as [|c s IH]; cbn; [reflexivity | now rewrite IH]. Qed.

Lemma levenshtein_as_recurrence (s1 s2 : string) :
  levenshtein_distance s1 s2
  = edit_distance (chars s1) (chars s2) (String.length s1) (String.length s2).
Proof.
  unfold levenshtein_distance.
  destruct (String.length s1 <? String.length s2)%nat;
    rewrite lev_rows_is_recurrence, !length_chars; [|reflexivity].
  apply edit_distance_sym.
Qed.

Lemma subst_cost_le c1 c2 : (subst_cost c1 c2 <= 1)%nat.
Proof. unfold subst_cost. destruct (Ascii.eqb c1 c2); lia. Qed.

Lemma edit_distance_bounds s1 s2 i : forall j,
  (i - j <= edit_distance s1 s2 i j)%nat /\
  (j - i <= edit_distance s1 s2 i j)%nat /\
  (edit_distance s1 s2 i j <= Nat.max i j)%nat.
Proof.
  induction i as [|i IHi]; intros j; [cbn; lia|].
  induction j as [|j IHj]; [cbn; lia|].
  rewrite edit_distance_SS.
  pose proof (IHi (S j)). pose proof (IHi j).
  pose proof (subst_cost_le (nth i s1 Ascii.zero) (nth j s2 Ascii.zero)).
  lia.
Qed.

Lemma firstn_snoc_nth {A} (d : A) (l : list A) : forall i,
  (i < length l)%nat -> firstn (S i) l = firstn i l ++ [nth i l d].
Proof.
  induction l as [|a l IH]; intros i Hi; [cbn in Hi; lia|].
  destruct i as [|i]; [reflexivity|].
  cbn [length] in Hi. cbn [firstn nth app]. f_equal.
  change (firstn (S i) l = firstn i l ++ [nth i l d]). apply IH. lia.
Qed.

Lemma edit_distance_zero s1 s2 i :
  (i <= length s1)%nat -> (i <= length s2)%nat ->
  edit_distance s1 s2 i i = 0%nat -> firstn i s1 = firstn i s2.
Proof.
  induction i as [|i IH]; intros H1 H2 Hz; [reflexivity|].
  rewrite edit_distance_SS in Hz.
  assert (Hd : edit_distance s1 s2 i i = 0%nat) by lia.
  assert (Hc : subst_cost (nth i s1 Ascii.zero) (nth i s2 Ascii.zero) = 0%nat) by lia.
  unfold subst_cost in Hc.
  destruct (Ascii.eqb_spec (nth i s1 Ascii.zero) (nth i s2 Ascii.zero)) as [E | _];
    [|discriminate].
  rewrite (firstn_snoc_nth Ascii.zero s1), (firstn_snoc_nth Ascii.zero s2) by lia.
  rewrite IH by (assumption || lia). now rewrite E.
Qed.

Lemma chars_inj s1 s2 : chars s1 = chars s2 -> s1 = s2.
Proof.
  unfold chars. intros H.
  rewrite <- (string_of_list_ascii_of_string s1),
          <- (string_of_list_ascii_of_string s2).
  now rewrite H.
Qed.

(** X1. [levenshtein_distance] computes the edit distance: its result is the
    value the recurrence of the edit distance (insertion, deletion,
    substitution, each of cost 1) gives for the two whole strings, also when
    the first string is the shorter one and the function swaps its
    arguments; so the distance is symmetric. *)
Theorem levenshtein_is_edit_distance (s1 s2 : string) :
  levenshtein_distance s1 s2
  = edit_distance (chars s1) (chars s2) (String.length s1) (String.length s2) /\
  levenshtein_distance s1 s2 = levenshtein_distance s2 s1.
Proof.
  split; [apply levenshtein_as_recurrence|].
  rewrite !levenshtein_as_recurrence. apply edit_distance_sym.
Qed.

(** X2. The distance is 0 exactly for equal strings, it is at least the
    difference of the two lengths and at most the greater length. *)
Theorem levenshtein_zero_and_bounds (s1 s2 : string) :
  (levenshtein_distance s1 s2 = 0%nat <-> s1 = s2) /\
  (String.length s1 - String.length s2 <= levenshtein_distance s1 s2)%nat /\
  (String.length s2 - String.length s1 <= levenshtein_distance s1 s2)%nat /\
  (levenshtein_distance s1 s2
   <= Nat.max (String.length s1) (String.length s2))%nat.
Proof.
  rewrite levenshtein_as_recurrence.
  pose proof (edit_distance_bounds (chars s1) (chars s2) (String.length s1)
                (String.length s2)) as (B1 & B2 & B3).
  split; [|auto]. split.
  - intros Hz.
    assert (E : String.length s1 = String.length s2) by lia.
    rewrite <- E in Hz.
    apply edit_distance_zero in Hz; [|rewrite length_chars; lia ..].
    apply chars_inj.
    rewrite <- (firstn_all (chars s1)), <- (firstn_all (chars s2)).
    now rewrite !length_chars, <- E.
  - intros <-. rewrite <- levenshtein_as_recurrence. apply levenshtein_same.
Qed.

(** ** Cleaning of OCR text *)

Lemma upper_or_digit_fixed (c : ascii) :
  is_upper_or_digit c = true ->
  negb (Ascii.eqb c " " || Ascii.eqb c "-" || Ascii.eqb c ".") = true /\
  upper c = c.
Proof.
  destruct c as [[] [] [] [] [] [] [] []]; vm_compute;
    intros H; (discriminate H || (split; reflexivity)).
Qed.

Lemma clean_plate_chars (text : string) :
  chars (_clean_plate_text text)
  = List.filter is_upper_or_digit
      (map upper
         (List.filter
            (fun c => negb (Ascii.eqb c " " || Ascii.eqb c "-" || Ascii.eqb c "."))
            (chars text))).
Proof.
  unfold _clean_plate_text, chars. rewrite list_ascii_of_string_of_list_ascii.
  rewrite (stdpp_filter_as_List _ is_upper_or_digit)
    by (intros x _; apply Is_true_true).
  rewrite (stdpp_filter_as_List _
             (fun c => negb (Ascii.eqb c " " || Ascii.eqb c "-" || Ascii.eqb c ".")))
    by (intros x _; apply Is_true_true).
  reflexivity.
Qed.

Lemma filter_all {A} (f : A -> bool) (l : list A) :
  Forall (fun x => f x = true) l -> List.filter f l = l.
Proof.
  induction 1 as [|x l Hx Hl IH]; [reflexivity|]. cbn. now rewrite Hx, IH.
Qed.

Lemma filter_length_le {A} (f : A -> bool) (l : list A) :
  (length (List.filter f l) <= length l)%nat.
Proof. induction l as [|x l IH]; cbn; [lia|]. destruct (f x); cbn; lia. Qed.

Lemma clean_plate_fixed (text : string) :
  plate_alphabet text -> _clean_plate_text text = text.
Proof.
  intros H. apply chars_inj. rewrite clean_plate_chars.
  unfold plate_alphabet in H.
  rewrite (filter_all _ (chars text)).
  - rewrite (map_ext_in upper (fun c => c)), map_id.
    + now apply filter_all.
    + intros c Hc. rewrite List.Forall_forall in H. now apply upper_or_digit_fixed, H.
  - eapply List.Forall_impl; [|exact H]. intros c Hc. now apply upper_or_digit_fixed.
Qed.

Lemma clean_plate_alphabet (text : string) : plate_alphabet (_clean_plate_text text).
Proof.
  unfold plate_alphabet. rewrite clean_plate_chars.
  apply List.Forall_forall. intros c Hc. now apply List.filter_In in Hc.
Qed.

(** X3. [_clean_plate_text] (on ASCII text) returns a string over [A-Z0-9]
    that is no longer than its argument; a string already over [A-Z0-9] is
    returned as it is, so cleaning twice is the same as cleaning once. *)
Theorem clean_plate_text_normalises (text : string) :
  plate_alphabet (_clean_plate_text text) /\
  (String.length (_clean_plate_text text) <= String.length text)%nat /\
  _clean_plate_text (_clean_plate_text text) = _clean_plate_text text /\
  (plate_alphabet text -> _clean_plate_text text = text).
Proof.
  split; [apply clean_plate_alphabet|]. split; [|split].
  - rewrite <- !length_chars, clean_plate_chars.
    etransitivity; [apply filter_length_le|]. rewrite length_map.
    apply filter_length_le.
  - apply clean_plate_fixed, clean_plate_alphabet.
  - apply clean_plate_fixed.
Qed.

Lemma clean_plate_text_normalises_witness :
  plate_alphabet "AB12C3" /\ _clean_plate_text "AB12C3" = "AB12C3"%string.
Proof.
  assert (H : plate_alphabet "AB12C3") by (repeat constructor).
  split; [exact H|].
  exact (proj2 (proj2 (proj2 (clean_plate_text_normalises "AB12C3"))) H).
Defined.

(** ** Accounting of [recognize_plate] *)

Lemma recognize_plate_admitted eng outcome tid c :
  fst (can_process eng tid c) = true ->
  let c1 := snd (can_process eng tid c) in
  let t_now := wall c1 (tick c1) in
  let eng' := fst (fst (recognize_plate eng outcome tid c)) in
  ocr_config eng' = ocr_config eng /\ is_loaded eng' = is_loaded eng /\
  active_ocr_count eng' = active_ocr_count eng /\
  last_ocr_time eng' = <[tid := t_now]> (last_ocr_time eng) /\
  total_ocr_calls eng' = total_ocr_calls eng + 1.
Proof.
  intros H. cbv zeta. unfold recognize_plate, bind.
  destruct (can_process eng tid c) as [ok c1]. cbn [fst snd] in *. subst ok.
  cbn [negb]. rewrite now_run.
  destruct outcome as [| |[|l lines]]; cbn [fst snd];
    try (cbn; repeat split; lia).
  destruct (String.length _ <? 3)%nat; cbn; repeat split; lia.
Qed.

(** X4. Every call of [recognize_plate] leaves [active_ocr_count] where it
    was (the increment is undone on every path), and it counts at most one
    call and at most one read, successful or failed.  A result is returned
    only on admission; its text is the cleaned raw text, is over [A-Z0-9]
    and has at least 3 characters, and the call is counted as successful. *)
Theorem recognize_plate_accounting (eng : OCREngine) (outcome : OcrOutcome)
    (tid : Z) (c : Clock) :
  let eng' := fst (fst (recognize_plate eng outcome tid c)) in
  let result := snd (fst (recognize_plate eng outcome tid c)) in
  active_ocr_count eng' = active_ocr_count eng /\
  ocr_config eng' = ocr_config eng /\ is_loaded eng' = is_loaded eng /\
  0 <= total_ocr_calls eng' - total_ocr_calls eng <= 1 /\
  0 <= successful_reads eng' - successful_reads eng /\
  0 <= failed_reads eng' - failed_reads eng /\
  (successful_reads eng' - successful_reads eng)
  + (failed_reads eng' - failed_reads eng)
  <= total_ocr_calls eng' - total_ocr_calls eng /\
  match result with
  | Some r =>
      fst (can_process eng tid c) = true /\
      total_ocr_calls eng' = total_ocr_calls eng + 1 /\
      successful_reads eng' = successful_reads eng + 1 /\
      res_text r = _clean_plate_text (res_raw r) /\
      plate_alphabet (res_text r) /\ (3 <= String.length (res_text r))%nat
  | None => successful_reads eng' = successful_reads eng
  end.
Proof.
  cbv zeta. unfold recognize_plate, bind.
  destruct (can_process eng tid c) as [ok c1]. cbn [fst snd].
  destruct ok; cbn [negb]; [|cbn; repeat split; lia].
  rewrite now_run.
  destruct outcome as [| |[|l lines]]; cbn [fst snd]; try (cbn; repeat split; lia).
  destruct (String.length _ <? 3)%nat eqn:E; cbn [fst snd].
  - cbn. repeat split; lia.
  - apply Nat.ltb_ge in E. cbn.
    repeat split; try lia; try exact E. apply clean_plate_alphabet.
Qed.


(** X6. The throttle is per track.  After an admitted call for a track, the
    next admission of the same track is granted exactly when at least
    [throttle_frames / 20] seconds (in microseconds:
    [throttle_frames * 50000]) have passed since the time the call
    recorded; the admission of any other track is as before the call. *)
Theorem throttle_after_admission (eng : OCREngine) (outcome : OcrOutcome)
    (tid : Z) (c c2 : Clock) :
  fst (can_process eng tid c) = true ->
  let c1 := snd (can_process eng tid c) in
  let eng' := fst (fst (recognize_plate eng outcome tid c)) in
  (fst (can_process eng' tid c2) = true <->
   throttle_frames (ocr_config eng) * 50000
   <= wall c2 (tick c2) - wall c1 (tick c1)) /\
  forall tid', tid' <> tid -> can_process eng' tid' c2 = can_process eng tid' c2.
Proof.
  intros Hok. cbv zeta.
  destruct (recognize_plate_admitted eng outcome tid c Hok)
    as (Hcfg & Hload & Hact & Hlast & _).
  set (eng' := fst (fst (recognize_plate eng outcome tid c))) in *.
  apply can_process_true_iff in Hok. destruct Hok as (Hen & Hld & Hcap & _).
  split.
  - rewrite can_process_true_iff. unfold admissible.
    rewrite Hcfg, Hload, Hact, Hlast, lookup_insert_eq.
    split.
    + intros (_ & _ & _ & [Hn | (last & [= <-] & Hle)]); [discriminate|].
      destruct (Z_lt_le_dec (wall c2 (tick c2)
                             - wall (snd (can_process eng tid c))
                                 (tick (snd (can_process eng tid c))))
                  (throttle_frames (ocr_config eng) * 50000)) as [Hlt | Hge];
        [|exact Hge].
      apply throttle_in_microseconds in Hlt. exfalso.
      exact (Qlt_not_le _ _ Hlt Hle).
    + intros Hge. repeat split; try assumption. right.
      eexists. split; [reflexivity|].
      apply Qnot_lt_le. intros Hlt. apply throttle_in_microseconds in Hlt. lia.
  - intros tid' Hne. unfold can_process.
    rewrite Hcfg, Hload, Hact, Hlast, lookup_insert_ne by congruence.
    reflexivity.
Qed.

Lemma throttle_after_admission_witness :
  fst (can_process fresh_ocr 7 second_clock) = true /\
  (fst (can_process
          (fst (fst (recognize_plate fresh_ocr RoiEmpty 7 second_clock)))
          7 (mkClock (fun _ => 400000) 0)) = true <->
   throttle_frames (ocr_config fresh_ocr) * 50000
   <= 400000 - wall (snd (can_process fresh_ocr 7 second_clock))
                 (tick (snd (can_process fresh_ocr 7 second_clock)))).
Proof.
  assert (H : fst (can_process fresh_ocr 7 second_clock) = true) by reflexivity.
  split; [exact H|].
  exact (proj1 (throttle_after_admission fresh_ocr RoiEmpty 7 second_clock
                  (mkClock (fun _ => 400000) 0) H)).
Defined.

(** ** What fusion returns *)

Lemma group_members_are_readings readings group r :
  In group (group_readings readings) -> In r group -> In r readings.
Proof.
  intros Hg Hr. apply list_elem_of_In, list_elem_of_lookup_1 in Hg as [i Hi].
  destruct (group_readings_homes readings) as (_ & _ & Hpart).
  rewrite (Hpart i group Hi) in Hr. now apply List.filter_In in Hr.
Qed.

Lemma first_max_is_max (readings : list Reading) r :
  first_max Qltb r_confidence readings r ->
  In r readings /\
  forall r', In r' readings -> (r_confidence r' <= r_confidence r)%Q.
Proof.
  intros (pre & post & -> & Hpre & Hpost). split; [apply in_elt|].
  intros r' Hr'. apply in_app_or in Hr' as [H | [<- | H]].
  - apply Qlt_le_weak, Qltb_lt. now apply Hpre.
  - apply Qle_refl.
  - apply Qltb_ge. now apply Hpost.
Qed.

Lemma largest_group_exists readings :
  readings <> [] -> exists group, largest_group readings = Some group.
Proof.
  intros Hne. unfold largest_group. apply py_max_on_some.
  intros Hnil. destruct (group_readings_spec readings) as [Hlen _].
  rewrite Hnil in Hlen. cbn in Hlen. destruct readings; [congruence | discriminate].
Qed.

Lemma fuse_cases config readings :
  readings <> [] ->
  (exists r, fuse_readings config readings = Some (BestReading r) /\
             first_max Qltb r_confidence readings r) \/
  (exists group text,
     largest_group readings = Some group /\
     fusion_min_samples config <= Z.of_nat (length group) /\
     fuse_readings config readings
     = Some (Consensus text (average_confidence (occurrences text group))
               (length group)) /\
     In text (map r_text group)).
Proof.
  intros Hne.
  assert (Hbest : exists r, highest_confidence readings = Some (BestReading r) /\
                            first_max Qltb r_confidence readings r).
  { destruct (py_max_on_some Qltb r_confidence readings Hne) as [r Hr].
    assert (H : highest_confidence readings = Some (BestReading r))
      by (unfold highest_confidence; now rewrite Hr).
    destruct (highest_confidence_first_max _ _ H) as (r' & [= <-] & Hmax).
    now exists r. }
  destruct (Z_lt_le_dec (Z.of_nat (length readings)) (fusion_min_samples config))
    as [Hfew | Hmany].
  - left. destruct Hbest as (r & Hr & Hmax). exists r. split; [|exact Hmax].
    unfold fuse_readings. destruct readings as [|r0 rs] eqn:Er; [congruence|].
    rewrite <- Er in *. apply Z.ltb_lt in Hfew. now rewrite Hfew.
  - destruct (largest_group_exists readings Hne) as [group Hg].
    destruct (Z_lt_le_dec (Z.of_nat (length group)) (fusion_min_samples config))
      as [Hsmall | Hbig].
    + left. destruct Hbest as (r & Hr & Hmax). exists r. split; [|exact Hmax].
      now rewrite (fuse_no_consensus config readings group Hmany Hg Hsmall).
    + right. destruct (fuse_consensus config readings group Hg Hbig)
        as (text & Hfuse & Hin & _).
      now exists group, text.
Qed.





(** ** The groups partition the readings *)

Lemma place_permutation r G : Permutation (concat (place r G)) (r :: concat G).
Proof.
  induction G as [|g G IH]; [reflexivity|]. cbn [place].
  assert (Hskip : Permutation (concat (g :: place r G)) (r :: concat (g :: G))).
  { cbn [concat]. etransitivity; [apply Permutation_app_head, IH|].
    symmetry. apply Permutation_middle. }
  destruct g as [|first g']; [exact Hskip|].
  destruct (levenshtein_distance _ _ <=? 2)%nat; [|exact Hskip].
  cbn [concat]. rewrite <- app_assoc. symmetry. apply Permutation_middle.
Qed.

Lemma group_readings_snoc rs r :
  group_readings (rs ++ [r]) = place r (group_readings rs).
Proof. unfold group_readings. now rewrite fold_left_app. Qed.

Lemma home_none t G :
  home t G = None ->
  forall i gi first, G !! i = Some gi -> head gi = Some first ->
    (2 < levenshtein_distance t (r_text first))%nat.
Proof.
  induction G as [|g G IH]; intros Hnone i gi first Hi Hh; [discriminate|].
  cbn [home] in Hnone.
  destruct i as [|i]; cbn in Hi.
  - injection Hi as <-. destruct g as [|f g']; [discriminate|].
    cbn in Hh. injection Hh as <-.
    destruct (Nat.leb_spec (levenshtein_distance t (r_text f)) 2); [discriminate | lia].
  - assert (Hn : home t G = None).
    { destruct g as [|f g'];
        [|destruct (levenshtein_distance _ _ <=? 2)%nat; [discriminate|]];
        destruct (home t G); (discriminate Hnone || reflexivity). }
    exact (IH Hn i gi first Hi Hh).
Qed.

Lemma home_within t G i :
  home t G = Some i ->
  exists g first, G !! i = Some g /\ head g = Some first /\
    (levenshtein_distance t (r_text first) <= 2)%nat.
Proof.
  revert i. induction G as [|g G IH]; intros i; cbn [home]; [discriminate|].
  assert (K : option_map S (home t G) = Some i ->
              exists g0 first, (g :: G) !! i = Some g0 /\ head g0 = Some first /\
                (levenshtein_distance t (r_text first) <= 2)%nat).
  { destruct (home t G) as [k|]; cbn; [|discriminate]. intros [= <-].
    destruct (IH k eq_refl) as (g0 & first & H1 & H2 & H3).
    now exists g0, first. }
  destruct g as [|f g']; [exact K|].
  destruct (Nat.leb_spec (levenshtein_distance t (r_text f)) 2) as [Hle | _];
    [|exact K].
  intros [= <-]. now exists (f :: g'), f.
Qed.

Lemma head_snoc {A} (g : list A) (x : A) : g <> [] -> head (g ++ [x]) = head g.
Proof. destruct g; [congruence | reflexivity]. Qed.

(** X8. The grouping loop of [fuse_readings] partitions the readings: the
    groups together hold every reading exactly once; no group is empty and
    every member of a group is within distance 2 of the group's first
    member; and the first member of a later group is more than 2 away from
    the first member of every earlier group. *)
Theorem grouping_partitions_readings (readings : list Reading) :
  Permutation (concat (group_readings readings)) readings /\
  (forall g, In g (group_readings readings) ->
     exists first, head g = Some first /\
       Forall (fun r => (levenshtein_distance (r_text r) (r_text first) <= 2)%nat) g) /\
  (forall (i j : nat) gi gj hi hj,
     (i < j)%nat ->
     group_readings readings !! i = Some gi ->
     group_readings readings !! j = Some gj ->
     head gi = Some hi -> head gj = Some hj ->
     (2 < levenshtein_distance (r_text hj) (r_text hi))%nat).
Proof.
  induction readings as [|r rs IH] using rev_ind.
  - split; [reflexivity|]. split; [intros g []|]. intros i j gi gj hi hj _ H.
    discriminate.
  - destruct IH as (Hperm & Hnear & Hfar).
    destruct (group_readings_homes rs) as (Hne & _ & _).
    rewrite group_readings_snoc.
    set (G := group_readings rs) in *.
    split; [|split].
    + etransitivity; [apply place_permutation|].
      etransitivity; [apply perm_skip, Hperm|]. apply Permutation_cons_append.
    + intros g Hg.
      apply list_elem_of_In, list_elem_of_lookup_1 in Hg as [j Hj].
      destruct (home (r_text r) G) as [i0|] eqn:Ehome.
      * rewrite (place_joins r G Hne i0 Ehome) in Hj.
        destruct (Nat.eqb_spec j i0) as [-> | Hneq].
        -- destruct (G !! i0) as [g0|] eqn:Eg; [|discriminate].
           cbn in Hj. injection Hj as <-.
           destruct (home_within _ _ _ Ehome) as (g1 & first & H1 & H2 & H3).
           rewrite Eg in H1. injection H1 as <-.
           destruct (Hnear g0) as (first' & Hf & Hall).
           { apply list_elem_of_In. eapply list_elem_of_lookup_2. exact Eg. }
           rewrite H2 in Hf. injection Hf as <-.
           exists first. split.
           ++ rewrite head_snoc; [assumption|]. intros ->. discriminate.
           ++ apply Forall_app. split; [assumption|]. now constructor.
        -- apply Hnear, list_elem_of_In. eapply list_elem_of_lookup_2. exact Hj.
      * rewrite (place_opens r G Hne Ehome) in Hj.
        destruct (Nat.lt_ge_cases j (length G)) as [Hlt | Hge].
        -- rewrite lookup_app_l in Hj by assumption.
           apply Hnear, list_elem_of_In. eapply list_elem_of_lookup_2. exact Hj.
        -- rewrite lookup_app_r in Hj by assumption.
           destruct (j - length G)%nat as [|d]; [|now destruct d].
           cbn in Hj. injection Hj as <-. exists r. split; [reflexivity|].
           constructor; [|constructor]. rewrite levenshtein_same. lia.
    + intros i j gi gj hi hj Hij Hi Hj Hhi Hhj.
      destruct (home (r_text r) G) as [i0|] eqn:Ehome.
      * rewrite (place_joins r G Hne i0 Ehome) in Hi, Hj.
        assert (Hold : forall k gk hk,
                  (if Nat.eqb k i0 then option_map (fun g => g ++ [r]) (G !! k)
                   else G !! k) = Some gk ->
                  head gk = Some hk ->
                  exists gk', G !! k = Some gk' /\ head gk' = Some hk).
        { intros k gk hk Hk Hh. destruct (Nat.eqb k i0).
          - destruct (G !! k) as [g0|] eqn:Eg; [|discriminate].
            cbn in Hk. injection Hk as <-. exists g0. split; [reflexivity|].
            rewrite head_snoc in Hh; [assumption|].
            rewrite List.Forall_forall in Hne. apply Hne, list_elem_of_In.
            eapply list_elem_of_lookup_2. exact Eg.
          - now exists gk. }
        destruct (Hold i gi hi Hi Hhi) as (gi' & Hi' & Hhi').
        destruct (Hold j gj hj Hj Hhj) as (gj' & Hj' & Hhj').
        exact (Hfar i j gi' gj' hi hj Hij Hi' Hj' Hhi' Hhj').
      * rewrite (place_opens r G Hne Ehome) in Hi, Hj.
        destruct (Nat.lt_ge_cases j (length G)) as [Hlt | Hge].
        -- rewrite lookup_app_l in Hi, Hj by lia.
           exact (Hfar i j gi gj hi hj Hij Hi Hj Hhi Hhj).
        -- rewrite lookup_app_r in Hj by assumption.
           destruct (j - length G)%nat as [|d] eqn:Ed; [|now destruct d].
           cbn in Hj. injection Hj as <-. cbn in Hhj. injection Hhj as <-.
           rewrite lookup_app_l in Hi by lia.
           exact (home_none _ _ Ehome i gi hi Hi Hhi).
Qed.

(** ** The entry/exit state machine, step by step *)

Ltac finish_transition :=
  cbn; rewrite ?now_run; cbn;
  repeat split;
  try reflexivity;
  try (left; reflexivity);
  try (left; repeat split; reflexivity);
  try (right; left; repeat split; reflexivity);
  try (right; right; repeat split; reflexivity);
  try (right; repeat split; reflexivity).

Lemma transition_cases eng track ny s c :
  let eng' := fst (fst (fst (transition eng track ny s c))) in
  let s' := snd (fst (fst (transition eng track ny s c))) in
  let event := snd (fst (transition eng track ny s c)) in
  ev_config eng' = ev_config eng /\ ee_camera_id eng' = ee_camera_id eng /\
  track_states eng' = track_states eng /\
  match event with
  | None =>
      eng' = eng /\
      (s' = s \/ s = OUTSIDE /\ s' = APPROACHING \/ s = INSIDE /\ s' = EXITING)
  | Some e =>
      ev_track_id e = track_id track /\ ev_camera_id e = ee_camera_id eng /\
      ev_plate_text e = plate_text track /\
      (s = APPROACHING /\ s' = INSIDE /\ ev_type e = Entry /\
       total_entries eng' = total_entries eng + 1 /\
       total_exits eng' = total_exits eng \/
       s = EXITING /\ s' = LOGGED /\ ev_type e = Exit /\
       total_entries eng' = total_entries eng /\
       total_exits eng' = total_exits eng + 1)
  end.
Proof.
  cbv zeta.
  unfold transition, confirm_entry, confirm_exit, _is_duplicate_exit,
    _create_entry_event, _create_exit_event, refresh_cache, bind.
  destruct s.
  - destruct (Qltb _ _); finish_transition.
  - rewrite now_run. destruct (Qleb _ _); [|finish_transition].
    destruct (_ && _); [finish_transition|].
    rewrite is_duplicate_run.
    destruct (plate_present (plate_text track)) as [plate|];
      [destruct (recent_plates eng !! plate); [destruct (Qltb _ _)|]|];
      finish_transition.
  - destruct (Qltb _ _); finish_transition.
  - destruct (5 <? _); [|finish_transition].
    destruct (_ && _); [finish_transition|].
    rewrite is_duplicate_run.
    destruct (plate_present (plate_text track)) as [plate|];
      [destruct (recent_plates eng !! plate); [destruct (Qltb _ _)|]|];
      finish_transition.
  - finish_transition.
Qed.

Lemma process_track_cases eng track h c :
  let eng' := fst (fst (fst (process_track eng track h c))) in
  let track' := snd (fst (fst (process_track eng track h c))) in
  let event := snd (fst (process_track eng track h c)) in
  let s := position_of eng (track_id track) in
  let s' := position_of eng' (track_id track) in
  ev_config eng' = ev_config eng /\ ee_camera_id eng' = ee_camera_id eng /\
  (forall tid', tid' <> track_id track ->
     position_of eng' tid' = position_of eng tid') /\
  track' = (if bool_decide (s' <> s) then set_vehicle_state s' track else track) /\
  match event with
  | None =>
      total_entries eng' = total_entries eng /\
      total_exits eng' = total_exits eng /\
      recent_plates eng' = recent_plates eng /\
      (s' = s \/ s = OUTSIDE /\ s' = APPROACHING \/ s = INSIDE /\ s' = EXITING)
  | Some e =>
      ev_track_id e = track_id track /\ ev_camera_id e = ee_camera_id eng /\
      ev_plate_text e = plate_text track /\
      (s = APPROACHING /\ s' = INSIDE /\ ev_type e = Entry /\
       total_entries eng' = total_entries eng + 1 /\
       total_exits eng' = total_exits eng \/
       s = EXITING /\ s' = LOGGED /\ ev_type e = Exit /\
       total_entries eng' = total_entries eng /\
       total_exits eng' = total_exits eng + 1)
  end.
Proof.
  cbv zeta. unfold process_track, bind, position_of.
  set (ny := if 0 <? h then _ else _).
  set (s := default OUTSIDE (track_states eng !! track_id track)).
  pose proof (transition_cases eng track ny s c) as T. cbv zeta in T.
  destruct (transition eng track ny s c) as [[[e1 s1] ev] c1].
  cbn [fst snd] in T. destruct T as (T1 & T2 & T3 & T4).
  destruct (bool_decide (s1 <> s)) eqn:Eb; cbn [fst snd ret].
  - apply bool_decide_eq_true in Eb.
    cbn [ev_config ee_camera_id track_states total_entries total_exits recent_plates].
    rewrite lookup_insert_eq. cbn [default].
    rewrite (bool_decide_eq_true_2 _ Eb).
    split; [assumption|]. split; [assumption|]. split.
    { intros tid' Hne. now rewrite lookup_insert_ne, T3 by congruence. }
    split; [reflexivity|].
    destruct ev as [e|]; [exact T4|].
    destruct T4 as [-> T4]. repeat split; assumption.
  - apply bool_decide_eq_false in Eb.
    assert (E : s1 = s) by (destruct (decide (s1 = s)); [assumption | contradiction]).
    subst s1. rewrite T3. fold s.
    rewrite (bool_decide_eq_false_2 (s <> s)) by (intros H; now apply H).
    split; [assumption|]. split; [assumption|]. split; [now intros|].
    split; [reflexivity|].
    destruct ev as [e|]; [exact T4|].
    destruct T4 as [-> T4]. repeat split; assumption.
Qed.

(** X9. One call of [process_track] moves the position state of the track
    it is given by at most one step along
    OUTSIDE, APPROACHING, INSIDE, EXITING, LOGGED, never backwards, and
    leaves the position of every other track alone; the track object is
    updated with the new position exactly when it changed.  An event is
    returned exactly on the steps APPROACHING to INSIDE (an entry event,
    counted in [total_entries]) and EXITING to LOGGED (an exit event,
    counted in [total_exits]); it carries the track's id and plate text and
    the engine's camera id.  Without an event, counters and deduplication
    cache are as before. *)
Theorem process_track_advances (eng : EventEngine) (track : Track) (h : Z)
    (c : Clock) :
  let eng' := fst (fst (fst (process_track eng track h c))) in
  let track' := snd (fst (fst (process_track eng track h c))) in
  let event := snd (fst (process_track eng track h c)) in
  let s := position_of eng (track_id track) in
  let s' := position_of eng' (track_id track) in
  (vehicle_rank s' = vehicle_rank s \/ vehicle_rank s' = vehicle_rank s + 1) /\
  (forall tid', tid' <> track_id track ->
     position_of eng' tid' = position_of eng tid') /\
  track' = (if bool_decide (s' <> s) then set_vehicle_state s' track else track) /\
  match event with
  | None =>
      total_entries eng' = total_entries eng /\
      total_exits eng' = total_exits eng /\
      recent_plates eng' = recent_plates eng /\
      ~ (s = APPROACHING /\ s' = INSIDE) /\ ~ (s = EXITING /\ s' = LOGGED)
  | Some e =>
      ev_track_id e = track_id track /\ ev_camera_id e = ee_camera_id eng /\
      ev_plate_text e = plate_text track /\
      (s = APPROACHING /\ s' = INSIDE /\ ev_type e = Entry /\
       total_entries eng' = total_entries eng + 1 /\
       total_exits eng' = total_exits eng \/
       s = EXITING /\ s' = LOGGED /\ ev_type e = Exit /\
       total_entries eng' = total_entries eng /\
       total_exits eng' = total_exits eng + 1)
  end.
Proof.
  cbv zeta.
  pose proof (process_track_cases eng track h c) as H. cbv zeta in H.
  destruct H as (_ & _ & Hother & Htrack & Hev).
  split; [|split; [exact Hother | split; [exact Htrack|]]].
  - destruct (snd (fst (process_track eng track h c))) as [e|].
    + destruct Hev as (_ & _ & _ & [(-> & -> & _) | (-> & -> & _)]); now right.
    + destruct Hev as (_ & _ & _ & [-> | [(-> & ->) | (-> & ->)]]);
        (now left) || (now right).
  - destruct (snd (fst (process_track eng track h c))) as [e|]; [exact Hev|].
    destruct Hev as (H1 & H2 & H3 & H4). repeat split; try assumption.
    + intros [Ha Hb]. rewrite Ha, Hb in H4.
      destruct H4 as [H | [[H _] | [H _]]]; discriminate.
    + intros [Ha Hb]. rewrite Ha, Hb in H4.
      destruct H4 as [H | [[H _] | [H _]]]; discriminate.
Qed.

Lemma process_track_advances_witness :
  position_of
    (fst (fst (fst (process_track (EventEngine_init demo_event_config 1)
                      (plated_track 1) 100 second_clock)))) 2
  = position_of (EventEngine_init demo_event_config 1) 2.
Proof.
  apply (proj1 (proj2 (process_track_advances (EventEngine_init demo_event_config 1)
                         (plated_track 1) 100 second_clock))).
  discriminate.
Defined.

(** ** Runs of the state machine: counters and positions *)

Lemma count_kind_snoc k l e :
  count_kind k (l ++ [e])
  = count_kind k l + (if decide (ev_type e = k) then 1 else 0).
Proof.
  unfold count_kind. rewrite filter_app, length_app, Nat2Z.inj_add.
  f_equal. rewrite filter_cons, filter_nil.
  now destruct (decide (ev_type e = k)).
Qed.

Lemma vehicle_rank_step s s' :
  s' = s \/ s = OUTSIDE /\ s' = APPROACHING \/ s = INSIDE /\ s' = EXITING \/
  s = APPROACHING /\ s' = INSIDE \/ s = EXITING /\ s' = LOGGED ->
  vehicle_rank s <= vehicle_rank s'.
Proof.
  intros [-> | [[-> ->] | [[-> ->] | [[-> ->] | [-> ->]]]]]; cbn; lia.
Qed.

(** X10. Along any sequence of tracks fed to, and cleanups run on, an event
    engine: [total_entries] and [total_exits] grow by exactly the numbers
    of entry and exit events emitted, every emitted event carries the
    engine's camera id, and the position state of a track never moves
    backwards. *)
Theorem event_counters_match_log (eng0 : EventEngine) (ops : list EngineOp)
    (c : Clock) :
  let eng := fst (fst (run_ops ops (eng0, []) c)) in
  let log := snd (fst (run_ops ops (eng0, []) c)) in
  total_entries eng = total_entries eng0 + count_kind Entry log /\
  total_exits eng = total_exits eng0 + count_kind Exit log /\
  Forall (fun e => ev_camera_id e = ee_camera_id eng0) log /\
  forall tid,
    vehicle_rank (position_of eng0 tid) <= vehicle_rank (position_of eng tid).
Proof.
  cbv zeta. unfold run_ops.
  apply (fold_clk_invariant run_op
           (fun st =>
              ee_camera_id (fst st) = ee_camera_id eng0 /\
              total_entries (fst st) = total_entries eng0 + count_kind Entry (snd st) /\
              total_exits (fst st) = total_exits eng0 + count_kind Exit (snd st) /\
              Forall (fun e => ev_camera_id e = ee_camera_id eng0) (snd st) /\
              forall tid, vehicle_rank (position_of eng0 tid)
                          <= vehicle_rank (position_of (fst st) tid))
           ops) with (s := (eng0, [])) (c := c).
  - intros [eng log] op c0 _ (Hcam & Hen & Hex & Hlog & Hpos). cbn [fst snd] in *.
    destruct op as [track h|]; unfold run_op, bind, ret; cbn [fst snd].
    + pose proof (process_track_cases eng track h c0) as H. cbv zeta in H.
      destruct (process_track eng track h c0) as [[[eng' track'] event] c'].
      cbn [fst snd] in *. destruct H as (_ & Hcam' & Hother & _ & Hev).
      assert (Hrank : vehicle_rank (position_of eng (track_id track))
                      <= vehicle_rank (position_of eng' (track_id track))).
      { apply vehicle_rank_step. destruct event as [e|].
        - destruct Hev as (_ & _ & _ & [(H1 & H2 & _) | (H1 & H2 & _)]); auto 6.
        - destruct Hev as (_ & _ & _ & [H | [H | H]]); auto 6. }
      assert (Hpos' : forall tid, vehicle_rank (position_of eng0 tid)
                                  <= vehicle_rank (position_of eng' tid)).
      { intros tid. destruct (decide (tid = track_id track)) as [-> | Hne].
        - specialize (Hpos (track_id track)). lia.
        - rewrite Hother by assumption. apply Hpos. }
      destruct event as [e|]; cbn [fst snd].
      * destruct Hev as (_ & Hc & _ & Hkind).
        rewrite !count_kind_snoc.
        split; [congruence|].
        assert (Hlog' : Forall (fun e0 => ev_camera_id e0 = ee_camera_id eng0)
                          (log ++ [e])).
        { apply Forall_app. split; [assumption|]. constructor; [congruence|constructor]. }
        split; [|split; [|split; [exact Hlog' | exact Hpos']]];
          destruct Hkind as [(_ & _ & Ht & He1 & He2) | (_ & _ & Ht & He1 & He2)];
          rewrite Ht;
          match goal with
          | |- context [decide (?a = ?b)] => destruct (decide (a = b)); try discriminate
          end; try congruence; lia.
      * destruct Hev as (He1 & He2 & _). repeat split; try assumption; congruence.
    + repeat split; assumption.
  - cbn [fst snd].
    assert (Hz : forall k, count_kind k [] = 0) by reflexivity.
    rewrite !Hz. repeat split; try lia. constructor.
Qed.

(** ** Guards of the emitted events *)

Lemma dwell_in_microseconds (min_dwell : Q) (t_now first : Z) :
  Qleb min_dwell (total_seconds t_now first) = true <->
  (min_dwell <= total_seconds t_now first)%Q.
Proof. unfold Qleb. apply Qle_bool_iff. Qed.

Lemma transition_guards eng track ny s c e :
  snd (fst (transition eng track ny s c)) = Some e ->
  (ev_type e = Entry /\ s = APPROACHING /\
   (min_dwell_time (ev_config eng)
    <= total_seconds (wall c (tick c)) (first_seen track))%Q /\
   (require_plate_for_entry (ev_config eng) && negb (plate_locked track) = false) /\
   fst (_is_duplicate_entry eng track (mkClock (wall c) (S (tick c)))) = false) \/
  (ev_type e = Exit /\ s = EXITING /\ 5 < time_since_update track /\
   (require_plate_for_exit (ev_config eng) && negb (plate_locked track) = false) /\
   fst (_is_duplicate_entry eng track c) = false /\
   ev_entry_time e = Some (first_seen track) /\
   ev_exit_time e = Some (ev_timestamp e) /\
   ev_duration e = Some (total_seconds (ev_timestamp e) (first_seen track))).
Proof.
  unfold transition, confirm_entry, confirm_exit, _is_duplicate_exit, bind.
  destruct s.
  - destruct (Qltb _ _); discriminate.
  - rewrite now_run.
    destruct (Qleb _ _) eqn:Ed; [|discriminate].
    destruct (_ && _) eqn:Ep; [discriminate|].
    destruct (_is_duplicate_entry eng track _) as [dup c1] eqn:Edup.
    destruct dup; [discriminate|]. cbn [negb].
    unfold _create_entry_event, bind. rewrite now_run.
    destruct (refresh_cache eng track _) as [eng1 c2]. cbn.
    intros [= <-]. left. cbn. repeat split; try assumption.
    now apply dwell_in_microseconds.
  - destruct (Qltb _ _); discriminate.
  - destruct (5 <? _) eqn:Et; [|discriminate].
    destruct (_ && _) eqn:Ep; [discriminate|].
    destruct (_is_duplicate_entry eng track c) as [dup c1] eqn:Edup.
    destruct dup; [discriminate|]. cbn [negb].
    unfold _create_exit_event, bind. rewrite now_run.
    destruct (refresh_cache eng track _) as [eng1 c2]. cbn.
    intros [= <-]. right. cbn. apply Z.ltb_lt in Et. repeat split; assumption.
  - discriminate.
Qed.

(** X11. The guards of the events.  An entry event is emitted by
    [process_track] only for a track in position APPROACHING that has been
    seen for at least [min_dwell_time] seconds, whose plate is locked if
    [require_plate_for_entry] is set, and that is not a duplicate.  An exit
    event is emitted only for a track in position EXITING that has not been
    updated for more than 5 frames, whose plate is locked if
    [require_plate_for_exit] is set, and that is not a duplicate; it has
    [entry_time = first_seen], [exit_time = timestamp] and the difference of
    the two, in seconds, as duration. *)
Theorem emitted_events_passed_their_guards (eng : EventEngine) (track : Track)
    (h : Z) (c : Clock) (e : Event) :
  snd (fst (process_track eng track h c)) = Some e ->
  (ev_type e = Entry /\ position_of eng (track_id track) = APPROACHING /\
   (min_dwell_time (ev_config eng)
    <= total_seconds (wall c (tick c)) (first_seen track))%Q /\
   (require_plate_for_entry (ev_config eng) = true -> plate_locked track = true) /\
   fst (_is_duplicate_entry eng track (mkClock (wall c) (S (tick c)))) = false) \/
  (ev_type e = Exit /\ position_of eng (track_id track) = EXITING /\
   5 < time_since_update track /\
   (require_plate_for_exit (ev_config eng) = true -> plate_locked track = true) /\
   fst (_is_duplicate_entry eng track c) = false /\
   ev_entry_time e = Some (first_seen track) /\
   ev_exit_time e = Some (ev_timestamp e) /\
   ev_duration e = Some (total_seconds (ev_timestamp e) (first_seen track))).
Proof.
  unfold process_track, bind, position_of.
  set (ny := if 0 <? h then _ else _).
  set (s := default OUTSIDE (track_states eng !! track_id track)).
  pose proof (transition_guards eng track ny s c e) as G.
  destruct (transition eng track ny s c) as [[[e1 s1] ev] c1]. cbn [fst snd] in G.
  intros Hev.
  assert (E : ev = Some e) by (destruct (bool_decide _); exact Hev).
  destruct (G E) as [(H1 & H2 & H3 & H4 & H5) | (H1 & H2 & H3 & H4 & H5 & H6)];
    [left | right]; repeat split; try assumption.
  - intros Hreq. rewrite Hreq in H4. now destruct (plate_locked track).
  - intros Hreq. rewrite Hreq in H4. now destruct (plate_locked track).
  - apply H6.
  - apply H6.
  - apply H6.
Qed.

Lemma emitted_events_passed_their_guards_witness :
  position_of
    (fst (fst (fst (process_track (EventEngine_init demo_event_config 1)
                      (plated_track 1) 100 second_clock))))
    1 = APPROACHING /\
  exists e,
    snd (fst (process_track
                (fst (fst (fst (process_track (EventEngine_init demo_event_config 1)
                                  (plated_track 1) 100 second_clock))))
                (plated_track 1) 100 second_clock)) = Some e /\
    ev_type e = Entry.
Proof.
  split; [reflexivity|].
  eexists. split; [vm_compute; reflexivity|].
  destruct (emitted_events_passed_their_guards
              (fst (fst (fst (process_track (EventEngine_init demo_event_config 1)
                                (plated_track 1) 100 second_clock))))
              (plated_track 1) 100 second_clock _ eq_refl)
    as [(H & _) | (H & _)]; [exact H | discriminate H].
Defined.

(** ** The cache cleanup *)

(** X12. [cleanup_old_entries] removes from the deduplication cache exactly
    the plates last seen more than two windows before the time it reads,
    and touches nothing else.  With a clock that does not run backwards and
    a non-negative window, no later duplicate check can tell the
    difference: the entries removed are too old to suppress anything. *)
Theorem cleanup_is_transparent (eng : EventEngine) (c c2 : Clock) (track : Track) :
  monotone (wall c) -> 0 <= dedup_window (ev_config eng) ->
  wall c2 = wall c -> (tick c <= tick c2)%nat ->
  let eng' := fst (cleanup_old_entries eng c) in
  (forall plate t,
     recent_plates eng' !! plate = Some t <->
     recent_plates eng !! plate = Some t /\
     wall c (tick c) - 2 * window_us (ev_config eng) <= t) /\
  ev_config eng' = ev_config eng /\ track_states eng' = track_states eng /\
  total_entries eng' = total_entries eng /\ total_exits eng' = total_exits eng /\
  fst (_is_duplicate_entry eng' track c2) = fst (_is_duplicate_entry eng track c2).
Proof.
  intros Hmono Hwin Hwall Htick. cbv zeta. rewrite cleanup_run. cbn [fst].
  assert (Hlook : forall plate t,
            filter (fun kv : string * Z =>
                      ~ (snd kv < wall c (tick c)
                                  - dedup_window (ev_config eng) * 2 * 1000000))
              (recent_plates eng) !! plate = Some t <->
            recent_plates eng !! plate = Some t /\
            wall c (tick c) - 2 * window_us (ev_config eng) <= t).
  { intros plate t. rewrite map_lookup_filter_Some. cbn [snd]. unfold window_us.
    split; intros [H1 H2]; (split; [assumption | lia]). }
  split; [exact Hlook|]. repeat split.
  rewrite !is_duplicate_run.
  cbn [recent_plates ev_config].
  destruct (plate_present (plate_text track)) as [plate|]; [|reflexivity].
  destruct (recent_plates eng !! plate) as [t|] eqn:Eold.
  - destruct (Z_lt_le_dec t (wall c (tick c) - 2 * window_us (ev_config eng)))
      as [Hold | Hrecent].
    + assert (Hnone : filter (fun kv : string * Z =>
                        ~ (snd kv < wall c (tick c)
                                    - dedup_window (ev_config eng) * 2 * 1000000))
                        (recent_plates eng) !! plate = None).
      { destruct (filter _ _ !! plate) as [t'|] eqn:E; [|reflexivity].
        apply Hlook in E as [E1 E2]. rewrite Eold in E1. injection E1 as <-. lia. }
      rewrite Hnone. cbn [fst]. symmetry. apply dedup_in_microseconds.
      rewrite Hwall. pose proof (Hmono _ _ Htick). unfold window_us in Hold. lia.
    + assert (Hsome : filter (fun kv : string * Z =>
                        ~ (snd kv < wall c (tick c)
                                    - dedup_window (ev_config eng) * 2 * 1000000))
                        (recent_plates eng) !! plate = Some t)
        by (apply Hlook; now split).
      now rewrite Hsome.
  - assert (Hnone : filter (fun kv : string * Z =>
                      ~ (snd kv < wall c (tick c)
                                  - dedup_window (ev_config eng) * 2 * 1000000))
                      (recent_plates eng) !! plate = None).
    { destruct (filter _ _ !! plate) as [t'|] eqn:E; [|reflexivity].
      apply Hlook in E as [E1 _]. congruence. }
    now rewrite Hnone.
Qed.

Lemma cleanup_is_transparent_witness :
  monotone (wall second_clock) /\
  fst (_is_duplicate_entry
         (fst (cleanup_old_entries (EventEngine_init demo_event_config 1) second_clock))
         (plated_track 1) second_clock)
  = fst (_is_duplicate_entry (EventEngine_init demo_event_config 1)
           (plated_track 1) second_clock).
Proof.
  split; [exact second_clock_monotone|].
  apply (cleanup_is_transparent (EventEngine_init demo_event_config 1)
           second_clock second_clock (plated_track 1) second_clock_monotone).
  - cbn. lia.
  - reflexivity.
  - lia.
Defined.

(** ** Exits share the deduplication cache *)

Lemma exit_run eng track h c :
  position_of eng (track_id track) = EXITING ->
  5 < time_since_update track ->
  require_plate_for_exit (ev_config eng) && negb (plate_locked track) = false ->
  process_track eng track h c
  = (let '(dup, c1) := _is_duplicate_entry eng track c in
     if dup then (eng, track, None, c1)
     else
       let exit_time := wall c1 (tick c1) in
       let '(eng1, c2) := refresh_cache eng track (mkClock (wall c1) (S (tick c1))) in
       (mkEventEngine (ev_config eng1) (ee_camera_id eng1)
          (<[track_id track := LOGGED]> (track_states eng1))
          (recent_plates eng1) (total_entries eng1) (total_exits eng1 + 1),
        set_vehicle_state LOGGED track,
        Some (mkEvent Exit (ee_camera_id eng) (track_id track) (vehicle_type track)
                (plate_text track) (plate_confidence track) exit_time
                (Some (first_seen track)) (Some exit_time)
                (Some (total_seconds exit_time (first_seen track)))
                (confidence track) (color track) (bbox track)),
        c2)).
Proof.
  unfold position_of. intros Hpos Htsu Hplate.
  unfold process_track. rewrite Hpos. unfold transition, bind.
  apply Z.ltb_lt in Htsu. rewrite Htsu, Hplate.
  unfold confirm_exit, _is_duplicate_exit, bind.
  destruct (_is_duplicate_entry eng track c) as [dup c1].
  destruct dup; cbn [negb]; [reflexivity|].
  unfold _create_exit_event, bind. rewrite now_run.
  destruct (refresh_cache eng track _) as [eng1 c2]. reflexivity.
Qed.

(** X13. Exit events go through the same plate cache as entry events.  For
    a track in position EXITING that has not been updated for more than 5
    frames and meets the plate requirement: if its plate text is cached
    with a time less than [dedup_window] seconds before the duplicate
    check, [process_track] emits nothing and leaves engine and track as
    they are (so the exit of a vehicle whose entry was logged less than a
    window ago waits); if the plate text is empty, not cached, or cached at
    least a window ago, the exit event is emitted and the track is LOGGED. *)
Theorem exit_waits_for_the_window (eng : EventEngine) (track : Track) (h : Z)
    (c : Clock) :
  position_of eng (track_id track) = EXITING ->
  5 < time_since_update track ->
  (require_plate_for_exit (ev_config eng) = true -> plate_locked track = true) ->
  match plate_present (plate_text track) ≫= (fun plate => recent_plates eng !! plate) with
  | Some last =>
      if wall c (tick c) - last <? window_us (ev_config eng)
      then fst (process_track eng track h c) = (eng, track, None)
      else exists e, snd (fst (process_track eng track h c)) = Some e /\
                     ev_type e = Exit /\ ev_timestamp e = wall c (S (tick c)) /\
                     position_of (fst (fst (fst (process_track eng track h c))))
                       (track_id track) = LOGGED
  | None =>
      exists e, snd (fst (process_track eng track h c)) = Some e /\
                ev_type e = Exit /\ ev_timestamp e = wall c (tick c) /\
                position_of (fst (fst (fst (process_track eng track h c))))
                  (track_id track) = LOGGED
  end.
Proof.
  intros Hpos Htsu Hreq.
  assert (Hplate : require_plate_for_exit (ev_config eng) && negb (plate_locked track)
                   = false).
  { destruct (require_plate_for_exit (ev_config eng)); [|reflexivity].
    now rewrite Hreq. }
  rewrite (exit_run eng track h c Hpos Htsu Hplate), is_duplicate_run.
  unfold refresh_cache, bind, position_of.
  destruct (plate_present (plate_text track)) as [plate|]; cbn [mbind option_bind].
  - destruct (recent_plates eng !! plate) as [last|] eqn:El.
    + destruct (Z.ltb_spec (wall c (tick c) - last) (window_us (ev_config eng)))
        as [Hlt | Hge].
      * destruct (Qltb _ _) eqn:Hq; [reflexivity|].
        apply dedup_in_microseconds in Hq. unfold window_us in Hlt. lia.
      * assert (Hq : Qltb (total_seconds (wall c (tick c)) last)
                       (inject_Z (dedup_window (ev_config eng))) = false)
          by (apply dedup_in_microseconds; unfold window_us in Hge; lia).
        rewrite Hq, now_run. cbn.
        eexists. split; [reflexivity|]. repeat split.
        now rewrite lookup_insert_eq.
    + rewrite now_run. cbn. eexists. split; [reflexivity|]. repeat split.
      now rewrite lookup_insert_eq.
  - cbn. eexists. split; [reflexivity|]. repeat split.
    now rewrite lookup_insert_eq.
Qed.

Lemma exit_waits_for_the_window_witness :
  position_of exiting_engine (track_id leaving_track) = EXITING /\
  fst (process_track exiting_engine leaving_track 100 second_clock)
  = (exiting_engine, leaving_track, None).
Proof.
  split; [reflexivity|].
  exact (exit_waits_for_the_window exiting_engine leaving_track 100 second_clock
           eq_refl eq_refl (fun _ => eq_refl)).
Defined.

(** The same exit one minute later: the event is emitted. *)
Example exit_after_the_window :
  let late := mkClock (fun n => 60000000 + Z.of_nat n) 0 in
  option_map (fun e => (ev_type e, ev_plate_text e, ev_duration e))
    (snd (fst (process_track exiting_engine leaving_track 100 late)))
  = Some (Exit, Some "ABC1234"%string, Some (total_seconds 60000001 (-5000000))).
Proof. vm_compute. reflexivity. Qed.

(** ** Symmetry of [iou] *)

Lemma py_max_sym a b : (py_max a b == py_max b a)%Q.
Proof.
  unfold py_max. destruct (Qltb a b) eqn:E1; destruct (Qltb b a) eqn:E2;
    try reflexivity.
  - apply Qltb_lt in E1, E2. lra.
  - apply Qltb_ge in E1, E2. lra.
Qed.

Lemma py_min_sym a b : (py_min a b == py_min b a)%Q.
Proof.
  unfold py_min. destruct (Qltb a b) eqn:E1; destruct (Qltb b a) eqn:E2;
    try reflexivity.
  - apply Qltb_lt in E1, E2. lra.
  - apply Qltb_ge in E1, E2. lra.
Qed.

Lemma Qltb_proper a a' b b' : (a == a')%Q -> (b == b')%Q -> Qltb a b = Qltb a' b'.
Proof.
  intros Ha Hb. destruct (Qltb a' b') eqn:E.
  - apply Qltb_lt. apply Qltb_lt in E. lra.
  - apply Qltb_ge. apply Qltb_ge in E. lra.
Qed.

Lemma intersection_area_sym a b :
  (intersection_area a b == intersection_area b a)%Q.
Proof.
  unfold intersection_area, inter_x1, inter_x2, inter_y1, inter_y2.
  now rewrite (py_min_sym (bx2 a)), (py_max_sym (bx1 a)), (py_min_sym (by2 a)),
    (py_max_sym (by1 a)).
Qed.

Lemma union_area_sym a b : (union_area a b == union_area b a)%Q.
Proof. unfold union_area. rewrite (intersection_area_sym a b). lra. Qed.

Lemma empty_overlapb_sym a b : empty_overlapb a b = empty_overlapb b a.
Proof.
  unfold empty_overlapb, inter_x1, inter_x2, inter_y1, inter_y2.
  f_equal; apply Qltb_proper; (apply py_min_sym || apply py_max_sym).
Qed.

(** X14. [iou] does not depend on the order of its arguments, and a box
    with positive width and height has IoU 1 with itself. *)
Theorem iou_symmetric_and_reflexive (a b : BBox) :
  (iou a b == iou b a)%Q /\ (well_formed a -> (iou a a == 1)%Q).
Proof.
  split.
  - rewrite !iou_unfold, (empty_overlapb_sym a b).
    destruct (empty_overlapb b a); [reflexivity|].
    rewrite (Qltb_proper 0 0 (union_area a b) (union_area b a))
      by (reflexivity || apply union_area_sym).
    destruct (Qltb 0 (union_area b a)); [|reflexivity].
    now rewrite (intersection_area_sym a b), (union_area_sym a b).
  - intros [Hx Hy].
    assert (Hmax : forall x : Q, py_max x x = x)
      by (intros x; unfold py_max; now destruct (Qltb x x)).
    assert (Hmin : forall x : Q, py_min x x = x)
      by (intros x; unfold py_min; now destruct (Qltb x x)).
    assert (Hi : intersection_area a a = box_area a).
    { unfold intersection_area, inter_x1, inter_x2, inter_y1, inter_y2, box_area.
      now rewrite !Hmax, !Hmin. }
    assert (Hpos : (0 < box_area a)%Q) by (apply box_area_pos; now split).
    rewrite iou_unfold. unfold empty_overlapb, inter_x1, inter_x2, inter_y1, inter_y2.
    rewrite !Hmax, !Hmin.
    assert (E1 : Qltb (bx2 a) (bx1 a) = false) by (apply Qltb_ge; lra).
    assert (E2 : Qltb (by2 a) (by1 a) = false) by (apply Qltb_ge; lra).
    rewrite E1, E2. cbn [orb].
    assert (Hu : (union_area a a == box_area a)%Q) by (unfold union_area; rewrite Hi; lra).
    assert (E3 : Qltb 0 (union_area a a) = true) by (apply Qltb_lt; lra).
    rewrite E3, Hi, Hu. field. lra.
Qed.

Lemma iou_symmetric_and_reflexive_witness :
  well_formed unit_box /\ (iou unit_box unit_box == 1)%Q.
Proof.
  assert (H : well_formed unit_box) by (split; reflexivity).
  split; [exact H|].
  exact (proj2 (iou_symmetric_and_reflexive unit_box unit_box) H).
Defined.

(** ** The Kalman filter as a constant-velocity model *)

Lemma qadd_correct a b : (qadd a b == a + b)%Q.
Proof. unfold qadd. apply Qred_correct. Qed.

Lemma qmul_correct a b : (qmul a b == a * b)%Q.
Proof. unfold qmul. apply Qred_correct. Qed.

Lemma kf_predict_state (kf : KalmanFilter) (x y w h vx vy vw vh : Q) :
  kf_F kf = constant_velocity_F ->
  kf_state kf = [x; y; w; h; vx; vy; vw; vh] ->
  Forall2 Qeq (kf_state (fst (kf_predict kf)))
    [x + vx; y + vy; w + vw; h + vh; vx; vy; vw; vh]%Q.
Proof.
  intros HF Hs. unfold kf_predict. cbn [fst kf_state]. rewrite HF, Hs.
  unfold constant_velocity_F.
  set (F := mat_set 3 7 1 (mat_set 2 6 1 (mat_set 1 5 1 (mat_set 0 4 1 (eye 8 8))))).
  vm_compute in F. subst F.
  cbn [mat_vec map dot zip_with foldr].
  repeat constructor; rewrite ?qadd_correct, ?qmul_correct; lra.
Qed.

Lemma get_bbox_of_state (kf : KalmanFilter) (c0 c1 c2 c3 : Q) (rest : QVec) :
  Forall2 Qeq (kf_state kf) (c0 :: c1 :: c2 :: c3 :: rest) ->
  bbox_eq (get_bbox kf)
    (mkBBox (c0 - c2 / 2) (c1 - c3 / 2) (c0 + c2 / 2) (c1 + c3 / 2)).
Proof.
  unfold get_bbox, bbox_eq. generalize (kf_state kf). intros st H.
  inversion H as [|a0 ? l0 ? E0 H0]; subst.
  inversion H0 as [|a1 ? l1 ? E1 H1]; subst.
  inversion H1 as [|a2 ? l2 ? E2 H2]; subst.
  inversion H2 as [|a3 ? l3 ? E3 H3]; subst.
  cbn [nth bx1 by1 bx2 by2].
  repeat split; rewrite ?E0, ?E1, ?E2, ?E3; reflexivity.
Qed.

(** X15. The Kalman filter is a constant-velocity model of the box.  A
    filter built from a box gives that box back and has zero velocity, and
    predicting from it returns the same box.  In general, for a filter with
    the transition matrix of the constructor, [predict] adds the velocity
    components to centre and size and keeps the velocity; neither [predict]
    nor [update] changes the matrices [F], [H], [Q], [R]. *)
Theorem kalman_is_constant_velocity (b : BBox) (kf : KalmanFilter)
    (x y w h vx vy vw vh : Q) :
  bbox_eq (get_bbox (KalmanFilter_init b)) b /\
  get_velocity (KalmanFilter_init b) = (0, 0)%Q /\
  bbox_eq (snd (kf_predict (KalmanFilter_init b))) b /\
  kf_F (KalmanFilter_init b) = constant_velocity_F /\
  (kf_F kf = constant_velocity_F ->
   kf_state kf = [x; y; w; h; vx; vy; vw; vh] ->
   Forall2 Qeq (kf_state (fst (kf_predict kf)))
     [x + vx; y + vy; w + vw; h + vh; vx; vy; vw; vh]%Q /\
   bbox_eq (snd (kf_predict kf))
     (mkBBox (x + vx - (w + vw) / 2) (y + vy - (h + vh) / 2)
        (x + vx + (w + vw) / 2) (y + vy + (h + vh) / 2))) /\
  (kf_F (fst (kf_predict kf)), kf_H (fst (kf_predict kf)),
   kf_Q (fst (kf_predict kf)), kf_R (fst (kf_predict kf)))
  = (kf_F kf, kf_H kf, kf_Q kf, kf_R kf) /\
  (kf_F (kf_update kf b), kf_H (kf_update kf b),
   kf_Q (kf_update kf b), kf_R (kf_update kf b))
  = (kf_F kf, kf_H kf, kf_Q kf, kf_R kf).
Proof.
  assert (Hinit : kf_F (KalmanFilter_init b) = constant_velocity_F) by reflexivity.
  assert (Hround : bbox_eq (get_bbox (KalmanFilter_init b)) b).
  { unfold bbox_eq, get_bbox. cbn. repeat split; field. }
  split; [exact Hround|]. split; [reflexivity|].
  assert (Hgen : forall kf0 x0 y0 w0 h0 vx0 vy0 vw0 vh0,
            kf_F kf0 = constant_velocity_F ->
            kf_state kf0 = [x0; y0; w0; h0; vx0; vy0; vw0; vh0] ->
            bbox_eq (snd (kf_predict kf0))
              (mkBBox (x0 + vx0 - (w0 + vw0) / 2) (y0 + vy0 - (h0 + vh0) / 2)
                 (x0 + vx0 + (w0 + vw0) / 2) (y0 + vy0 + (h0 + vh0) / 2))).
  { intros kf0 x0 y0 w0 h0 vx0 vy0 vw0 vh0 HF Hs.
    pose proof (kf_predict_state kf0 _ _ _ _ _ _ _ _ HF Hs) as Hst.
    apply get_bbox_of_state with (rest := [vx0; vy0; vw0; vh0]).
    exact Hst. }
  split.
  { pose proof (Hgen (KalmanFilter_init b) _ _ _ _ 0 0 0 0 Hinit eq_refl)%Q as Hp.
    destruct Hp as (P1 & P2 & P3 & P4). cbn [bx1 by1 bx2 by2] in *.
    unfold bbox_eq. rewrite P1, P2, P3, P4. repeat split; field. }
  split; [exact Hinit|]. split.
  { intros HF Hs. split; [now apply kf_predict_state | now apply Hgen]. }
  split; [reflexivity|].
  unfold kf_update. now destruct (linalg_inv _).
Qed.

Lemma kalman_is_constant_velocity_witness :
  Forall2 Qeq
    (kf_state (fst (kf_predict
                      (mkKalman [1; 2; 2; 4; 1; 0; 0; 0]%Q (eye 8 8)
                         constant_velocity_F (eye 4 8) (eye 8 8) (eye 4 4)))))
    [1 + 1; 2 + 0; 2 + 0; 4 + 0; 1; 0; 0; 0]%Q.
Proof.
  apply (proj1 (proj1 (proj2 (proj2 (proj2 (proj2
           (kalman_is_constant_velocity unit_box
              (mkKalman [1; 2; 2; 4; 1; 0; 0; 0]%Q (eye 8 8)
                 constant_velocity_F (eye 4 8) (eye 8 8) (eye 4 4))
              1 2 2 4 1 0 0 0))))) eq_refl eq_refl)).
Defined.

(** ** Allocation of track ids *)




Lemma unmatched_loop_counts l eng :
  next_track_id (fold_left handle_unmatched l eng) = next_track_id eng /\
  total_tracks (fold_left handle_unmatched l eng) = total_tracks eng.
Proof.
  apply (fold_left_invariant handle_unmatched
           (fun e => next_track_id e = next_track_id eng /\
                     total_tracks e = total_tracks eng)); [|now split].
  intros e tid _ H. exact H.
Qed.

Lemma remove_deleted_counts eng :
  next_track_id (remove_deleted eng) = next_track_id eng /\
  total_tracks (remove_deleted eng) = total_tracks eng.
Proof.
  unfold remove_deleted.
  apply (fold_left_invariant del_track
           (fun e => next_track_id e = next_track_id eng /\
                     total_tracks e = total_tracks eng)); [|now split].
  intros e tid _ H. exact H.
Qed.




(** ** A frame without detections, as [update] handles it *)

Lemma unmatched_loop_exact l :
  NoDup l -> forall eng tid, In tid l ->
  dict_get tid (tracks (fold_left handle_unmatched l eng))
  = option_map (mark_lost (tr_config eng)) (dict_get tid (tracks eng)).
Proof.
  induction l as [|a l IH]; intros Hnd eng tid Hin; [destruct Hin|].
  apply NoDup_cons in Hnd as [Hnotin Hnd]. cbn [fold_left].
  destruct (Z.eq_dec tid a) as [-> | Hne].
  - rewrite unmatched_loop_other by (now rewrite <- list_elem_of_In).
    cbn [handle_unmatched tracks]. now rewrite dict_get_alter, Z.eqb_refl.
  - destruct Hin as [E | Hin]; [congruence|].
    rewrite IH by assumption. cbn [handle_unmatched tracks tr_config].
    rewrite dict_get_alter.
    destruct (Z.eqb_spec tid a); [congruence | reflexivity].
Qed.

Lemma update_empty_run eng h c :
  update eng [] h c
  = (let eng5 := remove_deleted
                   (fold_left handle_unmatched (dict_keys (tracks (predict_all eng)))
                      (predict_all eng)) in
     let active := map fst (filter (fun p => is_active (snd p)) (tracks eng5)) in
     (mkTracker (tr_config eng5) (tr_camera_id eng5) (tracks eng5)
        (next_track_id eng5) (kalman_filters eng5) (total_tracks eng5)
        (Z.of_nat (length active)), active, c)).
Proof.
  unfold update. rewrite match_no_candidates by (now right). reflexivity.
Qed.

Lemma mark_lost_fields config t :
  age (mark_lost config t) = age t /\
  time_since_update (mark_lost config t) = time_since_update t /\
  hits (mark_lost config t) = hits t /\ bbox (mark_lost config t) = bbox t /\
  same_plate t (mark_lost config t) /\
  (state (mark_lost config t) <> DELETED <->
   time_since_update t <= max_lost_frames config /\ state t <> DELETED) /\
  (state (mark_lost config t) <> DELETED ->
   state (mark_lost config t) = if bool_decide (state t = CONFIRMED) then LOST
                                else state t).
Proof.
  unfold mark_lost.
  destruct (bool_decide (state t = CONFIRMED)) eqn:Ec; cbn [time_since_update set_state];
    destruct (Z.ltb_spec (max_lost_frames config) (time_since_update t));
    cbn; unfold same_plate; repeat split; try reflexivity; try tauto; try lia;
    try discriminate; try (intros [? ?]; lia).
  apply bool_decide_eq_true in Ec. congruence.
Qed.

Lemma update_empty_get eng h c k t' :
  tracker_wf eng ->
  dict_get k (tracks (fst (fst (update eng [] h c)))) = Some t' <->
  exists t kf,
    dict_get k (tracks eng) = Some t /\ dict_get k (kalman_filters eng) = Some kf /\
    t' = mark_lost (tr_config eng) (apply_prediction (snd (kf_predict kf)) t) /\
    state t' <> DELETED.
Proof.
  intros Hwf. rewrite update_empty_run. cbv zeta. cbn [fst tracks].
  pose proof (predict_all_wf eng Hwf) as (Hnd1 & Hk1 & _).
  set (eng1 := predict_all eng) in *.
  pose proof (unmatched_loop (dict_keys (tracks eng1)) eng1) as L4.
  cbv zeta in L4. destruct L4 as (K4 & KF4 & _ & _ & _).
  set (eng4 := fold_left handle_unmatched (dict_keys (tracks eng1)) eng1) in *.
  assert (Hnd4 : NoDup (dict_keys (tracks eng4))) by (now rewrite K4).
  assert (Hk4 : dict_keys (kalman_filters eng4) = dict_keys (tracks eng4))
    by (now rewrite KF4, K4).
  destruct (remove_deleted_spec eng4 Hnd4 Hk4) as (G5 & _).
  rewrite G5.
  destruct Hwf as (Hnd & Hk & _).
  assert (Hpred : dict_get k (tracks eng1)
                  = match dict_get k (kalman_filters eng) with
                    | Some kf => option_map (apply_prediction (snd (kf_predict kf)))
                                   (dict_get k (tracks eng))
                    | None => dict_get k (tracks eng)
                    end).
  { unfold eng1, predict_all. cbn [tracks].
    apply (predict_fold_get (fun kf => apply_prediction (snd (kf_predict kf)))).
    now rewrite Hk. }
  assert (Hget4 : dict_get k (tracks eng4)
                  = option_map (mark_lost (tr_config eng)) (dict_get k (tracks eng1))).
  { destruct (dict_get k (tracks eng1)) as [t1|] eqn:E1.
    - unfold eng4. rewrite unmatched_loop_exact; [now rewrite E1 | assumption|].
      apply dict_get_is_Some. rewrite E1. eauto.
    - cbn [option_map]. apply dict_get_None. rewrite K4. now apply dict_get_None. }
  rewrite Hget4, Hpred. split.
  - intros [Hsome Hlive].
    destruct (dict_get k (kalman_filters eng)) as [kf|] eqn:Ekf.
    + destruct (dict_get k (tracks eng)) as [t|]; [|discriminate].
      cbn in Hsome. injection Hsome as <-. now exists t, kf.
    + destruct (dict_get k (tracks eng)) as [t|] eqn:Et; [|discriminate].
      exfalso. apply dict_get_None in Ekf. apply Ekf. rewrite Hk.
      apply dict_get_is_Some. rewrite Et. eauto.
  - intros (t & kf & Et & Ekf & -> & Hlive). rewrite Ekf, Et. now split.
Qed.

(** X17. What [update] does when it is given no detection (the call
    [_process_frame] never makes).  It reads no clock and creates no track.
    Every track is counted as unmatched: a track that is kept has [age] and
    [time_since_update] incremented, its box replaced by the prediction of
    its filter, its hits and plate store untouched, and a CONFIRMED track
    becomes LOST; a track is dropped exactly when its incremented
    [time_since_update] exceeds [max_lost_frames] (or it was already marked
    DELETED). *)
Theorem update_without_detections (eng : TrackingEngine) (h : Z) (c : Clock) :
  tracker_wf eng ->
  let eng' := fst (fst (update eng [] h c)) in
  snd (update eng [] h c) = c /\
  next_track_id eng' = next_track_id eng /\
  total_tracks eng' = total_tracks eng /\
  (forall k, dict_mem k (tracks eng') = true -> dict_mem k (tracks eng) = true) /\
  forall k t, dict_get k (tracks eng) = Some t ->
    match dict_get k (tracks eng') with
    | Some t' =>
        age t' = age t + 1 /\
        time_since_update t' = time_since_update t + 1 /\
        time_since_update t' <= max_lost_frames (tr_config eng) /\
        hits t' = hits t /\ same_plate t t' /\
        state t' = (if bool_decide (state t = CONFIRMED) then LOST else state t) /\
        exists kf, dict_get k (kalman_filters eng) = Some kf /\
                   bbox t' = snd (kf_predict kf)
    | None =>
        max_lost_frames (tr_config eng) < time_since_update t + 1 \/
        state t = DELETED
    end.
Proof.
  intros Hwf. cbv zeta.
  split; [now rewrite update_empty_run|].
  split.
  { rewrite update_empty_run. cbv zeta. cbn [fst next_track_id].
    destruct (remove_deleted_counts
                (fold_left handle_unmatched (dict_keys (tracks (predict_all eng)))
                   (predict_all eng))) as [N _].
    destruct (unmatched_loop_counts (dict_keys (tracks (predict_all eng)))
                (predict_all eng)) as [N' _].
    rewrite N, N'. reflexivity. }
  split.
  { rewrite update_empty_run. cbv zeta. cbn [fst total_tracks].
    destruct (remove_deleted_counts
                (fold_left handle_unmatched (dict_keys (tracks (predict_all eng)))
                   (predict_all eng))) as [_ T].
    destruct (unmatched_loop_counts (dict_keys (tracks (predict_all eng)))
                (predict_all eng)) as [_ T'].
    rewrite T, T'. reflexivity. }
  split.
  { intros k. unfold dict_mem.
    destruct (dict_get k (tracks (fst (fst (update eng [] h c))))) as [t'|] eqn:E;
      [|discriminate].
    apply (update_empty_get eng h c k t' Hwf) in E as (t & kf & Et & _).
    now rewrite Et. }
  intros k t Et.
  destruct (dict_get k (tracks (fst (fst (update eng [] h c))))) as [t'|] eqn:E.
  - apply (update_empty_get eng h c k t' Hwf) in E as (t0 & kf & Et0 & Ekf & -> & Hlive).
    rewrite Et in Et0. injection Et0 as <-.
    set (t1 := apply_prediction (snd (kf_predict kf)) t) in *.
    destruct (mark_lost_fields (tr_config eng) t1) as (A & T & H & B & P & D & S).
    apply D in Hlive as Hlive'. destruct Hlive' as [Hle Hst].
    rewrite A, T, H, B, (S Hlive).
    repeat split; try reflexivity; try exact Hle; try apply P.
    exists kf. split; [assumption | reflexivity].
  - destruct Hwf as (Hnd & Hk & Hlt).
    assert (Hin : In k (dict_keys (kalman_filters eng))).
    { rewrite Hk. apply dict_get_is_Some. rewrite Et. eauto. }
    apply dict_get_is_Some in Hin as [kf Ekf].
    set (t1 := apply_prediction (snd (kf_predict kf)) t).
    destruct (mark_lost_fields (tr_config eng) t1) as (_ & _ & _ & _ & _ & D & _).
    destruct (decide (state (mark_lost (tr_config eng) t1) = DELETED)) as [Hd | Hl].
    + destruct (Z_lt_le_dec (max_lost_frames (tr_config eng)) (time_since_update t + 1))
        as [Hgt | Hle]; [now left|].
      right. destruct (decide (state t = DELETED)) as [|Hn]; [assumption|].
      exfalso. assert (Hlive : state (mark_lost (tr_config eng) t1) <> DELETED).
      { apply D. split; [exact Hle | exact Hn]. }
      contradiction.
    + exfalso.
      assert (Hsome : dict_get k (tracks (fst (fst (update eng [] h c))))
                      = Some (mark_lost (tr_config eng) t1)).
      { apply update_empty_get; [now repeat split|]. now exists t, kf. }
      congruence.
Qed.

Lemma update_without_detections_witness :
  tracker_wf two_track_engine /\
  snd (update two_track_engine [] 100 second_clock) = second_clock.
Proof.
  split; [exact two_track_engine_wf|].
  exact (proj1 (update_without_detections two_track_engine 100 second_clock
                  two_track_engine_wf)).
Defined.

(** ** The matching is one-to-one *)

Lemma lookup_nth_error {A} (l : list A) (i : nat) : l !! i = nth_error l i.
Proof.
  revert i. induction l as [|a l IH]; intros [|i]; try reflexivity. cbn. apply IH.
Qed.

Lemma In_zip_seq {A} (l : list A) : forall (s i : nat) (a : A),
  In (i, a) (zip (seq s (length l)) l) <->
  (s <= i)%nat /\ nth_error l (i - s) = Some a.
Proof.
  induction l as [|x l IH]; intros s i a; cbn [length seq zip zip_with].
  - split; [intros [] | intros [_ H]; now destruct (i - s)%nat].
  - cbn [In]. rewrite IH. split.
    + intros [[= <- <-] | [Hle Hn]].
      * split; [lia|]. now rewrite Nat.sub_diag.
      * split; [lia|]. now replace (i - s)%nat with (S (i - S s)) by lia.
    + intros [Hle Hn]. destruct (Nat.eq_dec i s) as [-> | Hne].
      * left. rewrite Nat.sub_diag in Hn. cbn in Hn. now injection Hn as ->.
      * right. split; [lia|].
        now replace (i - s)%nat with (S (i - S s)) in Hn by lia.
Qed.

Lemma In_enumerate {A} (l : list A) (i : nat) (a : A) :
  In (i, a) (enumerate l) <-> nth_error l i = Some a.
Proof.
  unfold enumerate. rewrite In_zip_seq, Nat.sub_0_r.
  split; [now intros [_ H] | intros H; split; [lia | assumption]].
Qed.

Lemma spec_cells_In rows cols threshold i j q :
  In (i, j, q) (spec_cells rows cols threshold) ->
  exists a b, nth_error rows i = Some a /\ nth_error cols j = Some b /\
              q = iou a b /\ (threshold < q)%Q.
Proof.
  unfold spec_cells. intros H.
  apply in_flat_map in H as ([i' a] & Hi & H).
  apply in_flat_map in H as ([j' b] & Hj & H).
  destruct (Qltb threshold (iou a b)) eqn:E; [|destruct H].
  destruct H as [[= -> -> <-] | []].
  exists a, b. apply In_enumerate in Hi, Hj. apply Qltb_lt in E. auto.
Qed.

Lemma spec_greedy_fresh cells : forall used_rows used_cols,
  List.NoDup (map fst (spec_greedy cells used_rows used_cols)) /\
  List.NoDup (map snd (spec_greedy cells used_rows used_cols)) /\
  (forall i, In i (map fst (spec_greedy cells used_rows used_cols)) ->
             ~ In i used_rows) /\
  (forall j, In j (map snd (spec_greedy cells used_rows used_cols)) ->
             ~ In j used_cols).
Proof.
  induction cells as [|[[i j] q] cells IH]; intros ur uc; cbn [spec_greedy].
  - cbn. repeat split; (constructor || tauto).
  - destruct (existsb (Nat.eqb i) ur) eqn:Ei; cbn [negb andb]; [apply IH|].
    destruct (existsb (Nat.eqb j) uc) eqn:Ej; cbn [negb andb]; [apply IH|].
    destruct (IH (i :: ur) (j :: uc)) as (N1 & N2 & F1 & F2).
    apply existsb_eqb_not_In in Ei, Ej. cbn [map fst snd].
    repeat split.
    + constructor; [|assumption]. intros H. apply (F1 i H). now left.
    + constructor; [|assumption]. intros H. apply (F2 j H). now left.
    + intros i' [<- | H]; [assumption|]. intros Hin. apply (F1 i' H). now right.
    + intros j' [<- | H]; [assumption|]. intros Hin. apply (F2 j' H). now right.
Qed.

Lemma stable_sort_In cells sorted c :
  stable_desc_sort cells sorted -> In c sorted -> In c cells.
Proof.
  intros [_ Hf] Hc.
  assert (H : In c (List.filter (same_iou (cell_iou c)) sorted)).
  { apply filter_same_In. split; [assumption | apply same_iou_refl]. }
  rewrite Hf in H. now apply filter_same_In in H.
Qed.

Lemma NoDup_map_nth (track_ids : list Z) (rows : list nat) :
  NoDup track_ids -> List.NoDup rows ->
  (forall i, In i rows -> (i < length track_ids)%nat) ->
  List.NoDup (map (fun i => nth i track_ids 0) rows).
Proof.
  intros Hids. induction 1 as [|i rows Hnotin Hnd IH]; intros Hr; cbn [map].
  - constructor.
  - constructor; [|apply IH; intros; apply Hr; now right].
    intros Hin. apply in_map_iff in Hin as (i' & E & Hi').
    apply (nth_ids_inj track_ids Hids) in E;
      [congruence | apply Hr; now right | apply Hr; now left].
Qed.

(** X18. The association step is a one-to-one matching.  No track and no
    detection occurs in two matched pairs; every matched pair joins a track
    of the tracker and a detection of the frame whose IoU is strictly above
    [iou_threshold]; and the detections and tracks returned as unmatched
    are exactly those that occur in no matched pair. *)
Theorem matching_is_one_to_one (eng : TrackingEngine) (detections : list Detection) :
  NoDup (dict_keys (tracks eng)) ->
  let matched := fst (fst (_match eng detections)) in
  let unmatched_dets := snd (fst (_match eng detections)) in
  let unmatched_tracks := snd (_match eng detections) in
  NoDup (map fst matched) /\ NoDup (map snd matched) /\
  (forall tid j, In (tid, j) matched ->
     exists track detection,
       dict_get tid (tracks eng) = Some track /\
       detections !! j = Some detection /\
       (iou_threshold (tr_config eng) < iou (bbox track) (det_bbox detection))%Q) /\
  (forall j, In j unmatched_dets <->
             (j < length detections)%nat /\ ~ In j (map snd matched)) /\
  (forall tid, In tid unmatched_tracks <->
               In tid (dict_keys (tracks eng)) /\ ~ In tid (map fst matched)).
Proof.
  intros Hnd. cbv zeta.
  destruct (match_meets_spec eng detections Hnd) as (sorted & Hsort & ->).
  cbv zeta. cbn [fst snd].
  set (track_ids := dict_keys (tracks eng)) in *.
  set (rows := map (fun p : Z * Track => bbox (snd p)) (tracks eng)) in *.
  set (cols := map det_bbox detections) in *.
  set (accepted := spec_greedy sorted [] []).
  destruct (spec_greedy_fresh sorted [] []) as (N1 & N2 & _ & _).
  fold accepted in N1, N2.
  assert (Hlen : length rows = length track_ids)
    by (unfold rows, track_ids, dict_keys; now rewrite !length_map).
  assert (Hcell : forall i j, In (i, j) accepted ->
            exists a b, nth_error rows i = Some a /\ nth_error cols j = Some b /\
                        (iou_threshold (tr_config eng) < iou a b)%Q).
  { intros i j Hin. apply spec_greedy_subset in Hin as [q Hq].
    apply (stable_sort_In _ _ _ Hsort), spec_cells_In in Hq
      as (a & b & Ha & Hb & -> & Hlt).
    now exists a, b. }
  assert (Hrange : forall i, In i (map fst accepted) -> (i < length track_ids)%nat).
  { intros i Hin. apply in_map_iff in Hin as ([i' j] & E & Hin). cbn in E. subst i'.
    destruct (Hcell i j Hin) as (a & _ & Ha & _).
    rewrite <- Hlen. apply nth_error_Some. congruence. }
  assert (Hfst : map fst (map (fun '(i, j) => (nth i track_ids 0, j)) accepted)
                 = map (fun i => nth i track_ids 0) (map fst accepted)).
  { rewrite !map_map. apply map_ext. now intros [i j]. }
  assert (Hsnd : map snd (map (fun '(i, j) => (nth i track_ids 0, j)) accepted)
                 = map snd accepted).
  { rewrite !map_map. apply map_ext. now intros [i j]. }
  rewrite Hfst, Hsnd.
  split; [apply NoDup_ListNoDup, NoDup_map_nth; assumption|].
  split; [now apply NoDup_ListNoDup|].
  split; [|split].
  - intros tid j Hin. apply in_map_iff in Hin as ([i j'] & [= <- <-] & Hin).
    destruct (Hcell i j' Hin) as (a & b & Ha & Hb & Hlt).
    unfold rows in Ha. rewrite nth_error_map in Ha.
    destruct (nth_error (tracks eng) i) as [[k t]|] eqn:Et; [|discriminate].
    cbn in Ha. injection Ha as <-.
    unfold cols in Hb. rewrite nth_error_map in Hb.
    destruct (nth_error detections j') as [d|] eqn:Ed; [|discriminate].
    cbn in Hb. injection Hb as <-.
    exists t, d. split; [|split; [now rewrite lookup_nth_error | exact Hlt]].
    assert (Hk : nth i track_ids 0 = k).
    { unfold track_ids, dict_keys.
      change 0 with (fst (0, t)). rewrite map_nth.
      now rewrite (nth_error_nth _ _ _ Et). }
    rewrite Hk. apply dict_get_In; [assumption|]. eapply nth_error_In. exact Et.
  - intros j. rewrite List.filter_In, in_seq, negb_true_iff, existsb_eqb_not_In.
    split; [intros [[_ H1] H2] | intros [H1 H2]]; (split; [lia || split; lia | assumption]).
  - intros tid. rewrite in_map_iff. split.
    + intros ([i tid'] & E & Hin). cbn in E. subst tid'.
      apply List.filter_In in Hin as [Hin Hnot].
      apply In_enumerate in Hin.
      apply negb_true_iff, existsb_eqb_not_In in Hnot.
      split; [eapply nth_error_In; exact Hin|].
      intros Hm. apply in_map_iff in Hm as (i' & E & Hi').
      assert (i' = i).
      { apply (nth_ids_inj track_ids Hnd);
          [now apply Hrange | apply nth_error_Some; congruence|].
        rewrite E. symmetry. now apply nth_error_nth. }
      subst i'. contradiction.
    + intros [Hin Hnot]. apply In_nth_error in Hin as [i Hi].
      exists (i, tid). split; [reflexivity|].
      apply List.filter_In. split; [now apply In_enumerate|].
      apply negb_true_iff, existsb_eqb_not_In. intros Hi'.
      apply Hnot, in_map_iff. exists i. split; [now apply nth_error_nth | assumption].
Qed.

Lemma matching_is_one_to_one_witness :
  NoDup (dict_keys (tracks two_track_engine)) /\
  NoDup (map fst (fst (fst (_match two_track_engine [bus_right; car_left])))).
Proof.
  assert (H : NoDup (dict_keys (tracks two_track_engine)))
    by apply two_track_engine_wf.
  split; [exact H|].
  exact (proj1 (matching_is_one_to_one two_track_engine [bus_right; car_left] H)).
Defined.

(** ** The durable writer: queue, batches and tables *)

Lemma queue_get_spec db :
  let r := queue_get db in
  write_queue db = match snd r with Some op => op :: write_queue (fst r) | None => write_queue (fst r) end
  /\ (snd r = None -> write_queue db = [])
  /\ total_writes (fst r) = total_writes db
  /\ failed_writes (fst r) = failed_writes db
  /\ db_running (fst r) = db_running db
  /\ tables (fst r) = tables db.
Proof.
  unfold queue_get. destruct db as [q r tw fw ev tr cam]; cbn.
  destruct q; cbn; repeat split; try reflexivity. discriminate.
Qed.

Lemma execute_batch_ok db batch :
  write_queue (_execute_batch db batch true) = write_queue db
  /\ db_running (_execute_batch db batch true) = db_running db
  /\ total_writes (_execute_batch db batch true) = total_writes db + Z.of_nat (length batch)
  /\ failed_writes (_execute_batch db batch true) = failed_writes db
  /\ tables (_execute_batch db batch true) = fold_left execute_op batch (tables db).
Proof.
  unfold _execute_batch, tables.
  destruct (fold_left execute_op batch _) as [[ev tr] cam]. cbn. repeat split.
Qed.

Lemma execute_batch_failed db batch :
  write_queue (_execute_batch db batch false) = write_queue db
  /\ db_running (_execute_batch db batch false) = db_running db
  /\ total_writes (_execute_batch db batch false) = total_writes db
  /\ failed_writes (_execute_batch db batch false) = failed_writes db + Z.of_nat (length batch)
  /\ tables (_execute_batch db batch false) = tables db.
Proof. unfold _execute_batch, tables. cbn. repeat split. Qed.

(** The two outcomes of one iteration of the worker: the record taken from
    the queue joins the batch, and the batch is either kept (it then holds
    fewer than 10 records) or executed and emptied. *)
Lemma worker_step_cases db w sql_ok c :
  let db1 := fst (queue_get db) in
  let batch := match snd (queue_get db) with
               | Some op => wk_batch w ++ [op] | None => wk_batch w end in
  (fst (worker_step (db, w) sql_ok c) = (db1, mkWorker batch (wk_last_commit w))
   /\ (length batch < 10)%nat)
  \/ (batch <> [] /\ exists t,
        fst (worker_step (db, w) sql_ok c) = (_execute_batch db1 batch sql_ok, mkWorker [] t)).
Proof.
  cbv zeta. unfold worker_step.
  destruct (queue_get db) as [db1 got]. cbn [fst snd].
  set (batch := match got with Some op => wk_batch w ++ [op] | None => wk_batch w end).
  destruct (10 <=? length batch)%nat eqn:E10.
  - apply Nat.leb_le in E10. right. split.
    + intros E. rewrite E in E10. cbn in E10. lia.
    + destruct batch as [|b batch']; [cbn in E10; lia|].
      unfold bind, ret. rewrite now_run. cbn. eexists. reflexivity.
  - apply Nat.leb_gt in E10.
    destruct batch as [|b batch'] eqn:Eb.
    + left. split; [|cbn; lia]. unfold bind, ret. rewrite now_run. reflexivity.
    + unfold bind, ret. rewrite now_run. cbn [fst snd].
      match goal with |- context [if ?b then _ else _] => destruct b end.
      * right. split; [discriminate|]. rewrite now_run. cbn. eexists. reflexivity.
      * left. split; [reflexivity|exact E10].
Qed.

Lemma insert_camera_keeps_key cameras camera :
  List.NoDup (map cam_id cameras) ->
  List.NoDup (map cam_id (_insert_camera cameras camera)).
Proof.
  intros Hnd. unfold _insert_camera. rewrite map_app. cbn [map].
  assert (Hsub : List.NoDup
            (map cam_id (List.filter (fun r => negb (cam_id r =? cam_id camera)) cameras))).
  { induction cameras as [|r cameras IH]; cbn; [constructor|].
    cbn in Hnd. inversion Hnd as [|? ? Hnotin Hnd']; subst.
    destruct (negb (cam_id r =? cam_id camera)); cbn; [|now apply IH].
    constructor; [|now apply IH].
    intros Hin. apply Hnotin. apply in_map_iff in Hin as (r' & E & Hr').
    apply filter_In in Hr' as [Hr' _]. apply in_map_iff. now exists r'. }
  apply NoDup_ListNoDup, NoDup_app.
  split; [apply NoDup_ListNoDup, Hsub|]. split; [|apply NoDup_singleton].
  intros x Hx Hx'. apply list_elem_of_In in Hx. apply list_elem_of_In in Hx'.
  destruct Hx' as [E|[]]. subst x.
  apply in_map_iff in Hx as (r' & E & Hr').
  apply filter_In in Hr' as [_ Hneq]. rewrite E, Z.eqb_refl in Hneq. discriminate.
Qed.

Lemma execute_op_keeps_key t op :
  List.NoDup (map cam_id (snd t)) -> List.NoDup (map cam_id (snd (execute_op t op))).
Proof.
  destruct t as [[ev tr] cam]. destruct op; cbn; auto using insert_camera_keeps_key.
Qed.

Lemma execute_ops_keep_key ops : forall t,
  List.NoDup (map cam_id (snd t)) ->
  List.NoDup (map cam_id (snd (fold_left execute_op ops t))).
Proof.
  induction ops as [|op ops IH]; intros t H; cbn; [exact H|].
  apply IH, execute_op_keeps_key, H.
Qed.

Lemma enqueue_cases db op :
  ((length (write_queue db) < write_queue_maxsize)%nat
   /\ enqueue db op =
        mkDatabase (write_queue db ++ [op]) (db_running db) (total_writes db)
          (failed_writes db) (events_table db) (tracks_table db) (cameras_table db))
  \/ ((write_queue_maxsize <= length (write_queue db))%nat /\ enqueue db op = db).
Proof.
  unfold enqueue, put_nowait.
  destruct (write_queue_maxsize <=? length (write_queue db))%nat eqn:E.
  - right. apply Nat.leb_le in E. auto.
  - left. apply Nat.leb_gt in E. auto.
Qed.

Lemma fold_execute_app ops1 ops2 t :
  fold_left execute_op (ops1 ++ ops2) t = fold_left execute_op ops2 (fold_left execute_op ops1 t).
Proof. apply fold_left_app. Qed.

Lemma fold_execute_events ops : forall t,
  fst (fst (fold_left execute_op ops t)) = fst (fst t) ++ events_of ops.
Proof.
  induction ops as [|op ops IH]; intros [[ev tr] cam]; cbn [fold_left].
  - cbn. now rewrite app_nil_r.
  - rewrite IH. destruct op; cbn; [now rewrite <- app_assoc|reflexivity|reflexivity].
Qed.

(** What one action does to the quantities the invariants speak of. *)
Lemma writer_action_step st a c :
  let st1 := fst (writer_action st a c) in
  ((length (write_queue (fst st)) <= write_queue_maxsize)%nat ->
   (length (write_queue (fst st1)) <= write_queue_maxsize)%nat)
  /\ ((length (wk_batch (snd st)) < 10)%nat -> (length (wk_batch (snd st1)) < 10)%nat)
  /\ accounted st1 =
       accounted st +
       match a with
       | Produce _ =>
           if (write_queue_maxsize <=? length (write_queue (fst st)))%nat then 0 else 1
       | Work _ => 0
       end
  /\ total_writes (fst st) <= total_writes (fst st1)
  /\ failed_writes (fst st) <= failed_writes (fst st1)
  /\ (total_writes (fst st1) = total_writes (fst st) -> tables (fst st1) = tables (fst st))
  /\ (List.NoDup (map cam_id (cameras_table (fst st))) ->
      List.NoDup (map cam_id (cameras_table (fst st1))))
  /\ (length (write_queue (fst st1)) <=
      length (write_queue (fst st)) + match a with Produce _ => 1 | Work _ => 0 end)%nat
  /\ (a <> Work false ->
      match a with
      | Produce op =>
          (length (write_queue (fst st)) < write_queue_maxsize)%nat ->
          settled st1 = execute_op (settled st) op
      | Work _ => settled st1 = settled st
      end).
Proof.
  destruct st as [db w]. destruct a as [op|sql_ok]; cbv zeta.
  - cbn [writer_action ret fst snd]. unfold accounted, settled, pending. cbn [fst snd].
    destruct (enqueue_cases db op) as [[Hroom E]|[Hfull E]]; rewrite E.
    + cbn [write_queue total_writes failed_writes tables events_table tracks_table cameras_table].
      rewrite (proj2 (Nat.leb_gt _ _) Hroom).
      rewrite !length_app. cbn [length].
      repeat split; try lia; try tauto.
      intros _ _. rewrite app_assoc, fold_execute_app. reflexivity.
    + rewrite (proj2 (Nat.leb_le _ _) Hfull).
      repeat split; try lia; try tauto.
  - cbn [writer_action].
    pose proof (queue_get_spec db) as Hq. cbv zeta in Hq.
    destruct Hq as (Hqueue & Hnone & Htw & Hfw & _ & Htab).
    pose proof (worker_step_cases db w sql_ok c) as Hstep. cbv zeta in Hstep.
    destruct (queue_get db) as [db1 got]. cbn [fst snd] in *.
    set (batch := match got with Some op => wk_batch w ++ [op] | None => wk_batch w end) in *.
    assert (Hpend : batch ++ write_queue db1 = wk_batch w ++ write_queue db).
    { subst batch. rewrite Hqueue. destruct got; [now rewrite <- app_assoc|reflexivity]. }
    assert (Hlen : (length (write_queue db1) <= length (write_queue db))%nat).
    { rewrite Hqueue. destruct got; cbn; lia. }
    unfold accounted, settled, pending.
    destruct Hstep as [[E Hlt]|(Hne & t & E)]; rewrite E; cbn [fst snd wk_batch].
    + rewrite Hpend, Htw, Hfw, Htab. unfold tables in Htab.
      injection Htab as _ _ Hcam. rewrite Hcam.
      repeat split; try lia; try tauto.
    + destruct sql_ok.
      * destruct (execute_batch_ok db1 batch) as (Eq & _ & Etw & Efw & Etab).
        rewrite Eq, Etw, Efw, Etab, Htw, Hfw, Htab.
        assert (Hpos : (0 < length batch)%nat) by (destruct batch; [contradiction|cbn; lia]).
        apply (f_equal (@length _)) in Hpend as Hl. rewrite !length_app in Hl.
        cbn [app]. rewrite ?length_app.
        repeat split; try (cbn; lia).
        -- intros Hnd. apply (f_equal snd) in Etab. unfold tables in Etab at 1.
           cbn [snd] in Etab. rewrite Etab. apply execute_ops_keep_key.
           rewrite Htab. exact Hnd.
        -- intros _. rewrite <- Hpend, fold_execute_app. reflexivity.
      * destruct (execute_batch_failed db1 batch) as (Eq & _ & Etw & Efw & Etab).
        rewrite Eq, Etw, Efw, Etab, Htw, Hfw, Htab.
        apply (f_equal (@length _)) in Hpend as Hl. rewrite !length_app in Hl.
        cbn [app]. rewrite ?length_app.
        assert (Ecam : cameras_table (_execute_batch db1 batch false) = cameras_table db1)
          by reflexivity.
        unfold tables in Htab. injection Htab as _ _ Hcam. rewrite Ecam, Hcam.
        repeat split; try (cbn; lia); try tauto.
Qed.

Lemma run_writer_cons a actions st c :
  run_writer (a :: actions) st c =
  run_writer actions (fst (writer_action st a c)) (snd (writer_action st a c)).
Proof.
  unfold run_writer. cbn [fold_clk]. unfold bind.
  destruct (writer_action st a c) as [st1 c1]. reflexivity.
Qed.

Lemma writer_run_invariants actions : forall st c,
  (length (write_queue (fst st)) <= write_queue_maxsize)%nat ->
  (length (wk_batch (snd st)) < 10)%nat ->
  let st' := fst (run_writer actions st c) in
  (length (write_queue (fst st')) <= write_queue_maxsize)%nat
  /\ (length (wk_batch (snd st')) < 10)%nat
  /\ accounted st <= accounted st' <= accounted st + Z.of_nat (length (produced actions))
  /\ ((length (write_queue (fst st)) + length (produced actions) <= write_queue_maxsize)%nat ->
      accounted st' = accounted st + Z.of_nat (length (produced actions)))
  /\ total_writes (fst st) <= total_writes (fst st')
  /\ failed_writes (fst st) <= failed_writes (fst st')
  /\ (total_writes (fst st') = total_writes (fst st) -> tables (fst st') = tables (fst st))
  /\ (List.NoDup (map cam_id (cameras_table (fst st))) ->
      List.NoDup (map cam_id (cameras_table (fst st')))).
Proof.
  induction actions as [|a actions IH]; intros st c Hq Hb; cbv zeta.
  - cbn. repeat split; try lia; try tauto.
  - rewrite run_writer_cons.
    pose proof (writer_action_step st a c) as Hstep. cbv zeta in Hstep.
    destruct (writer_action st a c) as [st1 c1]. cbn [fst snd] in *.
    destruct Hstep as (Hq1 & Hb1 & Hacc & Htw & Hfw & Htab & Hkey & Hlen & _).
    specialize (IH st1 c1 (Hq1 Hq) (Hb1 Hb)). cbv zeta in IH.
    destruct IH as (Hq' & Hb' & Hacc' & Hroom' & Htw' & Hfw' & Htab' & Hkey').
    assert (Hprod : length (produced (a :: actions)) =
                    (match a with Produce _ => 1 | Work _ => 0 end
                     + length (produced actions))%nat).
    { unfold produced. cbn [flat_map]. rewrite length_app. now destruct a. }
    rewrite Hprod.
    assert (Hbit : 0 <= match a with
                        | Produce _ =>
                            if (write_queue_maxsize <=? length (write_queue (fst st)))%nat
                            then 0 else 1
                        | Work _ => 0
                        end <= Z.of_nat (match a with Produce _ => 1 | Work _ => 0 end)).
    { destruct a; [destruct (_ <=? _)%nat|]; cbn; lia. }
    repeat split; try assumption; try lia.
    + intros Hroom. rewrite Hroom' by lia. rewrite Hacc.
      destruct a; [|cbn; lia].
      rewrite (proj2 (Nat.leb_gt _ _)) by (cbn in Hroom; lia). lia.
    + intros E. rewrite Htab' by lia. apply Htab. lia.
    + intros Hnd. auto.
Qed.

(** X19. Every record the write queue takes is accounted for: through any
    interleaving of producers and worker iterations, with batches failing
    or not, the queue holds at most 1000 records, the batch fewer than 10,
    and written + failed + pending records grow by one per accepted record
    (by exactly the number of produced records while the queue has room).
    Batches that fail leave the tables as they were, the cameras table keeps
    one row per id, and the final flush executes the batch, not the queue. *)
Theorem writer_accounts_for_every_record actions st c :
  (length (write_queue (fst st)) <= write_queue_maxsize)%nat ->
  (length (wk_batch (snd st)) < 10)%nat ->
  let st' := fst (run_writer actions st c) in
  (length (write_queue (fst st')) <= write_queue_maxsize)%nat
  /\ (length (wk_batch (snd st')) < 10)%nat
  /\ accounted st <= accounted st' <= accounted st + Z.of_nat (length (produced actions))
  /\ ((length (write_queue (fst st)) + length (produced actions) <= write_queue_maxsize)%nat ->
      accounted st' = accounted st + Z.of_nat (length (produced actions)))
  /\ total_writes (fst st) <= total_writes (fst st')
  /\ failed_writes (fst st) <= failed_writes (fst st')
  /\ (total_writes (fst st') = total_writes (fst st) -> tables (fst st') = tables (fst st))
  /\ (List.NoDup (map cam_id (cameras_table (fst st))) ->
      List.NoDup (map cam_id (cameras_table (fst st'))))
  /\ (forall sql_ok,
        let db'' := fst (worker_flush st' sql_ok) in
        write_queue db'' = write_queue (fst st')
        /\ total_writes db'' + failed_writes db'' + Z.of_nat (length (write_queue db''))
           = accounted st').
Proof.
  intros Hq Hb. cbv zeta.
  pose proof (writer_run_invariants actions st c Hq Hb) as H. cbv zeta in H.
  destruct H as (H1 & H2 & H3 & H4 & H5 & H6 & H7 & H8).
  repeat split; try assumption; try lia.
  - unfold worker_flush. destruct (run_writer actions st c).1 as [db' w'].
    cbn [fst snd]. destruct (wk_batch w'); [reflexivity|].
    destruct sql_ok; [apply execute_batch_ok|apply execute_batch_failed].
  - unfold worker_flush, accounted, pending.
    destruct (run_writer actions st c).1 as [db' w']. cbn [fst snd].
    destruct (wk_batch w') as [|b batch] eqn:Eb; cbn [fst app]; [lia|].
    destruct sql_ok.
    + destruct (execute_batch_ok db' (b :: batch)) as (Eq & _ & Etw & Efw & _).
      rewrite Eq, Etw, Efw. cbn [length]. rewrite length_app. lia.
    + destruct (execute_batch_failed db' (b :: batch)) as (Eq & _ & Etw & Efw & _).
      rewrite Eq, Etw, Efw. cbn [length]. rewrite length_app. lia.
Qed.

Lemma writer_accounts_for_every_record_witness :
  (length (write_queue (fst fresh_writer)) <= write_queue_maxsize)%nat
  /\ (length (wk_batch (snd fresh_writer)) < 10)%nat
  /\ accounted (fst (run_writer writer_history fresh_writer second_clock)) =
     accounted fresh_writer + Z.of_nat (length (produced writer_history)).
Proof.
  assert (Hq : (length (write_queue (fst fresh_writer)) <= write_queue_maxsize)%nat)
    by (vm_compute; lia).
  assert (Hb : (length (wk_batch (snd fresh_writer)) < 10)%nat) by (vm_compute; lia).
  split; [exact Hq|]. split; [exact Hb|].
  apply (writer_accounts_for_every_record writer_history fresh_writer second_clock Hq Hb).
  vm_compute. lia.
Defined.

(** One action with no failure: the records executed by it are the first
    of the pending ones, in their order. *)
Lemma writer_action_prefix st a c :
  a <> Work false ->
  (length (write_queue (fst st)) + length (produced [a]) <= write_queue_maxsize)%nat ->
  let st1 := fst (writer_action st a c) in
  (length (write_queue (fst st1)) <= length (write_queue (fst st)) + length (produced [a]))%nat
  /\ exists done,
       pending st ++ produced [a] = done ++ pending st1
       /\ tables (fst st1) = fold_left execute_op done (tables (fst st)).
Proof.
  destruct st as [db w]. intros Hok Hroom. cbv zeta.
  destruct a as [op|sql_ok]; cbn [produced flat_map app length fst snd] in *.
  - cbn [writer_action ret fst snd]. unfold pending. cbn [fst snd].
    destruct (enqueue_cases db op) as [[_ E]|[Hfull _]]; [|lia].
    rewrite E. cbn [write_queue]. rewrite length_app. cbn [length].
    split; [lia|]. exists []. split; [cbn [app]; now rewrite <- app_assoc|reflexivity].
  - destruct sql_ok; [|contradiction]. cbn [writer_action].
    pose proof (queue_get_spec db) as Hq. cbv zeta in Hq.
    destruct Hq as (Hqueue & _ & _ & _ & _ & Htab).
    pose proof (worker_step_cases db w true c) as Hstep. cbv zeta in Hstep.
    destruct (queue_get db) as [db1 got]. cbn [fst snd] in *.
    set (batch := match got with Some op => wk_batch w ++ [op] | None => wk_batch w end) in *.
    assert (Hpend : batch ++ write_queue db1 = wk_batch w ++ write_queue db).
    { subst batch. rewrite Hqueue. destruct got; [now rewrite <- app_assoc|reflexivity]. }
    assert (Hlen : (length (write_queue db1) <= length (write_queue db))%nat).
    { rewrite Hqueue. destruct got; cbn; lia. }
    unfold pending.
    destruct Hstep as [[E _]|(_ & t & E)]; rewrite E; cbn [fst snd wk_batch].
    + split; [lia|]. exists []. rewrite app_nil_r. cbn [app fold_left].
      split; [symmetry; exact Hpend|exact Htab].
    + destruct (execute_batch_ok db1 batch) as (Eq & _ & _ & _ & Etab).
      rewrite Eq, Etab, Htab. split; [lia|].
      exists batch. rewrite app_nil_r. cbn [app]. split; [symmetry; exact Hpend|reflexivity].
Qed.

Lemma produced_cons a actions : produced (a :: actions) = produced [a] ++ produced actions.
Proof. unfold produced. cbn [flat_map]. now rewrite app_nil_r. Qed.

Lemma writer_run_prefix actions : forall st c,
  sql_always_ok actions ->
  (length (write_queue (fst st)) + length (produced actions) <= write_queue_maxsize)%nat ->
  let st' := fst (run_writer actions st c) in
  exists done,
    pending st ++ produced actions = done ++ pending st'
    /\ tables (fst st') = fold_left execute_op done (tables (fst st)).
Proof.
  induction actions as [|a actions IH]; intros st c Hok Hroom; cbv zeta.
  - exists []. cbn. now rewrite app_nil_r.
  - rewrite run_writer_cons. rewrite produced_cons, length_app in Hroom.
    apply Forall_cons in Hok as [Ha Hok].
    pose proof (writer_action_prefix st a c Ha ltac:(lia)) as Hstep. cbv zeta in Hstep.
    destruct (writer_action st a c) as [st1 c1]. cbn [fst snd] in *.
    destruct Hstep as (Hlen & d & Ed & Etab).
    destruct (IH st1 c1 Hok ltac:(lia)) as (d' & Ed' & Etab').
    exists (d ++ d'). rewrite produced_cons, app_assoc, Ed, <- !app_assoc, Ed'.
    split; [reflexivity|]. rewrite Etab', Etab, fold_execute_app. reflexivity.
Qed.

(** X20. The writer is first-in, first-out: while no batch fails and the
    queue has room for what is produced, the records executed so far are
    an initial part of the pending and produced records in the order of
    production, and the rest is still pending in that order.  So the tables,
    once the pending records are executed, are those obtained by executing
    every record in the order of production, and when nothing is pending the
    events table holds the events in the order they were inserted. *)
Theorem writer_commits_in_production_order actions st c :
  sql_always_ok actions ->
  (length (write_queue (fst st)) + length (produced actions) <= write_queue_maxsize)%nat ->
  let st' := fst (run_writer actions st c) in
  (exists done,
     pending st ++ produced actions = done ++ pending st'
     /\ tables (fst st') = fold_left execute_op done (tables (fst st)))
  /\ settled st' = fold_left execute_op (produced actions) (settled st)
  /\ (pending st' = [] ->
      events_table (fst st') =
      events_table (fst st) ++ events_of (pending st) ++ events_of (produced actions)).
Proof.
  intros Hok Hroom. cbv zeta.
  destruct (writer_run_prefix actions st c Hok Hroom) as (d & Ed & Etab).
  split; [now exists d|]. split.
  - unfold settled. rewrite Etab, <- !fold_execute_app, <- Ed. reflexivity.
  - intros Hnil. rewrite Hnil, app_nil_r in Ed. subst d.
    apply (f_equal (fun t => fst (fst t))) in Etab.
    rewrite fold_execute_app, !fold_execute_events in Etab. cbn [tables fst] in Etab.
    rewrite Etab. now rewrite app_assoc.
Qed.

Lemma writer_commits_in_production_order_witness :
  sql_always_ok writer_history
  /\ (length (write_queue (fst fresh_writer)) + length (produced writer_history)
      <= write_queue_maxsize)%nat
  /\ settled (fst (run_writer writer_history fresh_writer second_clock)) =
     fold_left execute_op (produced writer_history) (settled fresh_writer).
Proof.
  assert (Hok : sql_always_ok writer_history)
    by (unfold sql_always_ok, writer_history; repeat constructor; discriminate).
  assert (Hroom : (length (write_queue (fst fresh_writer)) + length (produced writer_history)
                   <= write_queue_maxsize)%nat) by (vm_compute; lia).
  split; [exact Hok|]. split; [exact Hroom|].
  apply (writer_commits_in_production_order writer_history fresh_writer second_clock Hok Hroom).
Defined.

(** ** The pipeline: construction *)

Lemma fold_left_snoc {A B} (f : A -> B -> A) l x a :
  fold_left f (l ++ [x]) a = f (fold_left f l a) x.
Proof. now rewrite fold_left_app. Qed.

Lemma enabled_camera_snoc cameras camera cam :
  enabled_camera (cameras ++ [camera]) cam =
  enabled_camera cameras cam || (cc_enabled camera && (cc_id camera =? cam)).
Proof. unfold enabled_camera. rewrite existsb_app. cbn. now rewrite orb_false_r. Qed.

Lemma take_snoc_room {A} (l : list A) x n :
  (length (take n l) < n)%nat -> take n (l ++ [x]) = take n l ++ [x].
Proof.
  intros H. rewrite length_take in H.
  assert (Hl : (length l < n)%nat) by lia.
  rewrite take_app_ge by lia. rewrite (take_ge l) by lia.
  f_equal. apply take_ge. cbn. lia.
Qed.

Lemma take_snoc_full {A} (l : list A) x n :
  (n <= length (take n l))%nat -> take n (l ++ [x]) = take n l.
Proof.
  intros H. rewrite length_take in H. apply take_app_le. lia.
Qed.

Lemma pipeline_init_spec (tracking : TrackingConfig)
    (events : EventConfig) (ocr : OCRConfig) (loaded : bool)
    (cameras : list CameraConfig) :
  let p := ANPRPipeline_init tracking events ocr loaded cameras in
  (forall cam,
     trackers p !! cam =
       (if enabled_camera cameras cam then Some (TrackingEngine_init tracking cam) else None)
     /\ event_engines p !! cam =
       (if enabled_camera cameras cam then Some (EventEngine_init events cam) else None)
     /\ ocr_engines p !! cam =
       (if enabled_camera cameras cam then Some (OCREngine_init ocr loaded) else None))
  /\ write_queue (database p) =
     take write_queue_maxsize
       (map (fun camera => insert_camera_op (camera_row camera))
          (List.filter cc_enabled cameras))
  /\ tables (database p) = ([], [], [])
  /\ total_writes (database p) = 0 /\ failed_writes (database p) = 0
  /\ pl_ocr_config p = ocr /\ total_frames p = 0 /\ processed_frames p = 0.
Proof.
  cbv zeta. unfold ANPRPipeline_init.
  induction cameras as [|camera cameras IH] using rev_ind.
  - cbn. repeat split; try apply lookup_empty.
  - rewrite fold_left_snoc.
    destruct IH as (Heng & Hq & Htab & Htw & Hfw & Hcfg & Htf & Hpf).
    set (p := fold_left _ cameras _) in *.
    rewrite List.filter_app, map_app. cbn [List.filter].
    destruct (cc_enabled camera) eqn:Een; cbn [map].
    + cbn [trackers event_engines ocr_engines database pl_ocr_config total_frames
             processed_frames].
      split; [|split; [|split; [|split; [|split]]]].
      * intros cam. rewrite enabled_camera_snoc, Een. cbn [andb].
        destruct (Heng cam) as (Ht & He & Ho).
        destruct (Z.eqb_spec (cc_id camera) cam) as [->|Hne].
        -- rewrite orb_true_r, !lookup_insert_eq. repeat split.
        -- rewrite orb_false_r, !lookup_insert_ne by assumption. repeat split; assumption.
      * unfold insert_camera.
        destruct (enqueue_cases (database p) (insert_camera_op
                    (mkCameraRow (cc_id camera) (cc_name camera) (cc_source camera) "active")))
          as [[Hroom E]|[Hfull E]]; rewrite E; cbn [write_queue].
        -- rewrite Hq in Hroom |- *. now rewrite take_snoc_room.
        -- rewrite Hq in Hfull |- *. now rewrite take_snoc_full.
      * unfold insert_camera.
        destruct (enqueue_cases (database p) (insert_camera_op
                    (mkCameraRow (cc_id camera) (cc_name camera) (cc_source camera) "active")))
          as [[_ E]|[_ E]]; rewrite E; exact Htab.
      * unfold insert_camera.
        destruct (enqueue_cases (database p) (insert_camera_op
                    (mkCameraRow (cc_id camera) (cc_name camera) (cc_source camera) "active")))
          as [[_ E]|[_ E]]; rewrite E; exact Htw.
      * unfold insert_camera.
        destruct (enqueue_cases (database p) (insert_camera_op
                    (mkCameraRow (cc_id camera) (cc_name camera) (cc_source camera) "active")))
          as [[_ E]|[_ E]]; rewrite E; exact Hfw.
      * repeat split; assumption.
    + rewrite app_nil_r. repeat split; try assumption.
      all: intros; rewrite enabled_camera_snoc, Een; cbn [andb]; rewrite orb_false_r;
        apply Heng.
Qed.


Example pipeline_for_demo_cameras :
  let p := ANPRPipeline_init demo_tracking_config demo_event_config sample_ocr_config true
             demo_cameras in
  map fst (map_to_list (trackers p)) = [1] /\
  write_queue (database p) =
    [insert_camera_op (mkCameraRow 1 "gate" "0" "active");
     insert_camera_op (mkCameraRow 1 "gate-b" "2" "active")].
Proof. vm_compute. repeat split. Qed.

(** ** The pipeline: one frame *)

Lemma insert_present_dom {V} (m : gmap Z V) k v v' :
  m !! k = Some v -> dom (<[k := v']> m) = dom m.
Proof. intros H. apply dom_insert_lookup_L. eauto. Qed.

Lemma ocr_stage_engines p cam ocr_of tracker active c :
  let engines := snd (fst (ocr_stage p cam ocr_of tracker active c)) in
  dom engines = dom (ocr_engines p)
  /\ forall cam', cam' <> cam -> engines !! cam' = ocr_engines p !! cam'.
Proof.
  cbv zeta. unfold ocr_stage.
  destruct (ocr_engines p !! cam) as [oe|] eqn:E; [|cbn; auto].
  unfold bind. destruct (fold_clk _ active (tracker, oe) c) as [[tracker' oe'] c'].
  cbn [ret fst snd]. split; [eapply insert_present_dom; exact E|].
  intros cam' Hne. now rewrite lookup_insert_ne.
Qed.

Lemma event_stage_engines p cam h tracker active c :
  let engines := snd (fst (fst (event_stage p cam h tracker active c))) in
  dom engines = dom (event_engines p)
  /\ forall cam', cam' <> cam -> engines !! cam' = event_engines p !! cam'.
Proof.
  cbv zeta. unfold event_stage.
  destruct (event_engines p !! cam) as [ee|] eqn:E; [|cbn; auto].
  unfold bind.
  destruct (fold_clk _ active (tracker, ee, database p) c) as [[[tracker' ee'] db'] c'].
  cbn [ret fst snd]. split; [eapply insert_present_dom; exact E|].
  intros cam' Hne. now rewrite lookup_insert_ne.
Qed.

Lemma process_frame_engines p cam detections h ocr_of c :
  let p' := fst (_process_frame p cam detections h ocr_of c) in
  pl_ocr_config p' = pl_ocr_config p
  /\ total_frames p' = total_frames p
  /\ processed_frames p' = processed_frames p
  /\ dom (trackers p') = dom (trackers p)
  /\ dom (event_engines p') = dom (event_engines p)
  /\ dom (ocr_engines p') = dom (ocr_engines p)
  /\ (forall cam', cam' <> cam ->
        trackers p' !! cam' = trackers p !! cam'
        /\ event_engines p' !! cam' = event_engines p !! cam'
        /\ ocr_engines p' !! cam' = ocr_engines p !! cam')
  /\ (trackers p !! cam = None -> _process_frame p cam detections h ocr_of c = (p, c)).
Proof.
  cbv zeta. unfold _process_frame.
  destruct detections as [|d ds]; [cbn; repeat split; auto|].
  destruct (trackers p !! cam) as [tracker|] eqn:Et; [|cbn; repeat split; auto].
  unfold bind.
  destruct (update tracker (d :: ds) h c) as [[tracker1 active] c1].
  pose proof (ocr_stage_engines p cam ocr_of tracker1 active c1) as Ho. cbv zeta in Ho.
  destruct (ocr_stage p cam ocr_of tracker1 active c1) as [[tracker2 oes] c2].
  pose proof (event_stage_engines p cam h tracker2 active c2) as He. cbv zeta in He.
  destruct (event_stage p cam h tracker2 active c2) as [[[tracker3 ees] db] c3].
  cbn [ret fst snd trackers event_engines ocr_engines pl_ocr_config total_frames
         processed_frames] in *.
  destruct Ho as [Ho1 Ho2]. destruct He as [He1 He2].
  repeat split; try assumption.
  - eapply insert_present_dom; exact Et.
  - now rewrite lookup_insert_ne.
  - now apply He2.
  - now apply Ho2.
  - discriminate.
Qed.

Lemma cleanup_engines p c :
  let p' := fst (_periodic_cleanup p c) in
  pl_ocr_config p' = pl_ocr_config p
  /\ trackers p' = trackers p
  /\ ocr_engines p' = ocr_engines p
  /\ database p' = database p
  /\ total_frames p' = total_frames p
  /\ processed_frames p' = processed_frames p
  /\ dom (event_engines p') = dom (event_engines p).
Proof.
  cbv zeta. unfold _periodic_cleanup, bind.
  pose proof (fold_clk_invariant
    (fun (acc : gmap Z EventEngine) (kv : Z * EventEngine) =>
       do eng <- cleanup_old_entries (snd kv); ret (<[fst kv := eng]> acc))
    (fun acc => dom acc = dom (event_engines p))
    (map_to_list (event_engines p))) as Hinv.
  assert (Hstep : forall (acc : gmap Z EventEngine) (kv : Z * EventEngine) c',
             In kv (map_to_list (event_engines p)) ->
             dom acc = dom (event_engines p) ->
             dom (fst ((do eng <- cleanup_old_entries (snd kv);
                        ret (<[fst kv := eng]> acc)) c')) = dom (event_engines p)).
  { intros acc [k e] c' Hin Hacc. unfold bind.
    destruct (cleanup_old_entries (snd (k, e)) c') as [e' c'']. cbn [ret fst snd].
    rewrite dom_insert_L, Hacc.
    apply list_elem_of_In, elem_of_map_to_list in Hin.
    apply (elem_of_dom_2 (D := gset Z)) in Hin.
    apply subseteq_union_1_L, singleton_subseteq_l, Hin. }
  specialize (Hinv Hstep (event_engines p) c eq_refl).
  destruct (fold_clk _ (map_to_list (event_engines p)) (event_engines p) c) as [engines c'].
  cbn [ret fst snd] in *. repeat split. exact Hinv.
Qed.

Lemma processing_step_engines p cam detections h ocr_of c :
  let p' := fst (processing_step p cam detections h ocr_of c) in
  total_frames p' = total_frames p + 1
  /\ processed_frames p' = processed_frames p + 1
  /\ pl_ocr_config p' = pl_ocr_config p
  /\ dom (trackers p') = dom (trackers p)
  /\ dom (event_engines p') = dom (event_engines p)
  /\ dom (ocr_engines p') = dom (ocr_engines p)
  /\ (forall cam', cam' <> cam ->
        trackers p' !! cam' = trackers p !! cam'
        /\ ocr_engines p' !! cam' = ocr_engines p !! cam'
        /\ ((processed_frames p + 1) mod 1000 <> 0 ->
            event_engines p' !! cam' = event_engines p !! cam'))
  /\ (trackers p !! cam = None ->
        trackers p' = trackers p /\ ocr_engines p' = ocr_engines p
        /\ database p' = database p
        /\ ((processed_frames p + 1) mod 1000 <> 0 ->
            processing_step p cam detections h ocr_of c = (count_frame p, c))).
Proof.
  cbv zeta.
  set (p0 := mkPipeline (pl_ocr_config p) (trackers p) (event_engines p) (ocr_engines p)
               (database p) (total_frames p + 1) (processed_frames p)).
  pose proof (process_frame_engines p0 cam detections h ocr_of c) as Hf. cbv zeta in Hf.
  assert (Estep : processing_step p cam detections h ocr_of c =
            let p1 := fst (_process_frame p0 cam detections h ocr_of c) in
            let p2 := mkPipeline (pl_ocr_config p1) (trackers p1) (event_engines p1)
                        (ocr_engines p1) (database p1) (total_frames p1)
                        (processed_frames p1 + 1) in
            (if processed_frames p2 mod 1000 =? 0 then _periodic_cleanup p2 else ret p2)
              (snd (_process_frame p0 cam detections h ocr_of c))).
  { unfold processing_step, bind. fold p0.
    destruct (_process_frame p0 cam detections h ocr_of c). reflexivity. }
  rewrite Estep. clear Estep. cbv zeta.
  destruct (_process_frame p0 cam detections h ocr_of c) as [p1 c1].
  cbn [fst snd] in *.
  destruct Hf as (Hcfg & Htf & Hpf & Hdt & Hde & Hdo & Hother & Hnone).
  cbn [p0 pl_ocr_config trackers event_engines ocr_engines database total_frames
         processed_frames] in *.
  set (p2 := mkPipeline (pl_ocr_config p1) (trackers p1) (event_engines p1)
               (ocr_engines p1) (database p1) (total_frames p1)
               (processed_frames p1 + 1)).
  rewrite Hpf.
  assert (Hn : trackers p !! cam = None -> p1 = p0 /\ c1 = c).
  { intros Hx. specialize (Hnone Hx). now inversion Hnone. }
  clear Hnone.
  destruct (Z.eqb_spec ((processed_frames p + 1) mod 1000) 0) as [Hz|Hnz].
  - pose proof (cleanup_engines p2 c1) as Hc. cbv zeta in Hc.
    destruct (_periodic_cleanup p2 c1) as [p3 c3]. cbn [fst snd] in *.
    destruct Hc as (Ccfg & Ct & Co & Cdb & Ctf & Cpf & Cde).
    cbn [p2 pl_ocr_config trackers event_engines ocr_engines database total_frames
           processed_frames] in *.
    repeat split; intros; try lia; try congruence;
      rewrite ?Ct, ?Co, ?Cdb;
      first [ now apply Hother
            | destruct (Hn ltac:(assumption)) as [-> ->]; reflexivity ].
  - cbn [ret fst snd p2 pl_ocr_config trackers event_engines ocr_engines database
           total_frames processed_frames].
    repeat split; intros; try lia; try congruence;
      first [ now apply Hother
            | destruct (Hn ltac:(assumption)) as [-> ->]; reflexivity ].
Qed.

(** X22. A frame is counted once in [total_frames] and once in
    [processed_frames], and it concerns its own camera only: the engines of
    every other camera are as before (their event engines apart when the
    periodic cleanup is due), and no engine is created or removed.  A frame
    of a camera without tracker changes nothing but the two counters, and
    reads no clock unless the cleanup is due. *)
Theorem frame_concerns_its_camera_only (p : Pipeline) (cam : Z)
    (detections : list Detection) (h : Z) (ocr_of : Z -> OcrOutcome) (c : Clock) :
  let p' := fst (processing_step p cam detections h ocr_of c) in
  total_frames p' = total_frames p + 1
  /\ processed_frames p' = processed_frames p + 1
  /\ pl_ocr_config p' = pl_ocr_config p
  /\ dom (trackers p') = dom (trackers p)
  /\ dom (event_engines p') = dom (event_engines p)
  /\ dom (ocr_engines p') = dom (ocr_engines p)
  /\ (forall cam', cam' <> cam ->
        trackers p' !! cam' = trackers p !! cam'
        /\ ocr_engines p' !! cam' = ocr_engines p !! cam'
        /\ ((processed_frames p + 1) mod 1000 <> 0 ->
            event_engines p' !! cam' = event_engines p !! cam'))
  /\ (trackers p !! cam = None ->
        trackers p' = trackers p /\ ocr_engines p' = ocr_engines p
        /\ database p' = database p
        /\ ((processed_frames p + 1) mod 1000 <> 0 ->
            processing_step p cam detections h ocr_of c = (count_frame p, c))).
Proof. apply processing_step_engines. Qed.

Lemma frame_concerns_its_camera_only_witness :
  trackers demo_pipeline !! f_camera stray_frame = None
  /\ (processed_frames demo_pipeline + 1) mod 1000 <> 0
  /\ processing_step demo_pipeline (f_camera stray_frame) (f_detections stray_frame)
       (f_height stray_frame) (f_ocr stray_frame) second_clock
     = (count_frame demo_pipeline, second_clock).
Proof.
  assert (Hnone : trackers demo_pipeline !! f_camera stray_frame = None) by reflexivity.
  assert (Hnz : (processed_frames demo_pipeline + 1) mod 1000 <> 0) by (vm_compute; discriminate).
  split; [exact Hnone|]. split; [exact Hnz|].
  apply (frame_concerns_its_camera_only demo_pipeline (f_camera stray_frame)
           (f_detections stray_frame) (f_height stray_frame) (f_ocr stray_frame)
           second_clock); assumption.
Defined.

Lemma run_frames_cons p f frames c :
  run_frames p (f :: frames) c =
  run_frames (fst (processing_step p (f_camera f) (f_detections f) (f_height f) (f_ocr f) c))
    frames
    (snd (processing_step p (f_camera f) (f_detections f) (f_height f) (f_ocr f) c)).
Proof.
  unfold run_frames. cbn [fold_clk]. unfold bind.
  destruct (processing_step _ _ _ _ _ c). reflexivity.
Qed.

(** ** The pipeline: a run of frames *)

Lemma run_frames_engines frames : forall p c,
  let p' := fst (run_frames p frames c) in
  total_frames p' = total_frames p + Z.of_nat (length frames)
  /\ processed_frames p' = processed_frames p + Z.of_nat (length frames)
  /\ pl_ocr_config p' = pl_ocr_config p
  /\ dom (trackers p') = dom (trackers p)
  /\ dom (event_engines p') = dom (event_engines p)
  /\ dom (ocr_engines p') = dom (ocr_engines p)
  /\ (forall cam, Forall (fun f => f_camera f <> cam) frames ->
        trackers p' !! cam = trackers p !! cam
        /\ ocr_engines p' !! cam = ocr_engines p !! cam)
  /\ (Forall (fun f => trackers p !! f_camera f = None) frames ->
        trackers p' = trackers p /\ ocr_engines p' = ocr_engines p
        /\ database p' = database p).
Proof.
  induction frames as [|f frames IH]; intros p c; cbv zeta.
  - cbn. repeat split; lia.
  - rewrite run_frames_cons.
    pose proof (processing_step_engines p (f_camera f) (f_detections f) (f_height f)
                  (f_ocr f) c) as Hs. cbv zeta in Hs.
    destruct (processing_step p (f_camera f) (f_detections f) (f_height f) (f_ocr f) c)
      as [p1 c1]. cbn [fst snd] in *.
    destruct Hs as (Stf & Spf & Scfg & Sdt & Sde & Sdo & Sother & Snone).
    specialize (IH p1 c1). cbv zeta in IH.
    destruct IH as (Itf & Ipf & Icfg & Idt & Ide & Ido & Iother & Inone).
    cbn [length]. repeat split; try congruence; try lia.
    + apply Forall_cons in H as [Hf Hrest].
      destruct (Iother cam Hrest) as [-> _]. now apply Sother.
    + apply Forall_cons in H as [Hf Hrest].
      destruct (Iother cam Hrest) as [_ ->]. now apply Sother.
    + apply Forall_cons in H as [Hf Hrest]. destruct (Snone Hf) as (E1 & E2 & E3 & _).
      rewrite <- E1 in Hrest. destruct (Inone Hrest) as (-> & _). exact E1.
    + apply Forall_cons in H as [Hf Hrest]. destruct (Snone Hf) as (E1 & E2 & E3 & _).
      rewrite <- E1 in Hrest. destruct (Inone Hrest) as (_ & -> & _). exact E2.
    + apply Forall_cons in H as [Hf Hrest]. destruct (Snone Hf) as (E1 & E2 & E3 & _).
      rewrite <- E1 in Hrest. destruct (Inone Hrest) as (_ & _ & ->). exact E3.
Qed.

(** X23. Over any run of the processing loop the two frame counters grow by
    the number of frames taken from the frame queue, the OCR configuration
    stays, and the cameras that have a tracker, an event engine and an OCR
    engine are those the pipeline was built with.  A camera that receives
    no frame keeps its tracker and its OCR engine as they are, and frames of
    cameras without tracker leave trackers, OCR engines and the writer
    untouched. *)
Theorem run_counts_frames_and_keeps_cameras (p : Pipeline) (frames : list Frame)
    (c : Clock) :
  let p' := fst (run_frames p frames c) in
  total_frames p' = total_frames p + Z.of_nat (length frames)
  /\ processed_frames p' = processed_frames p + Z.of_nat (length frames)
  /\ pl_ocr_config p' = pl_ocr_config p
  /\ dom (trackers p') = dom (trackers p)
  /\ dom (event_engines p') = dom (event_engines p)
  /\ dom (ocr_engines p') = dom (ocr_engines p)
  /\ (forall cam, Forall (fun f => f_camera f <> cam) frames ->
        trackers p' !! cam = trackers p !! cam
        /\ ocr_engines p' !! cam = ocr_engines p !! cam)
  /\ (Forall (fun f => trackers p !! f_camera f = None) frames ->
        trackers p' = trackers p /\ ocr_engines p' = ocr_engines p
        /\ database p' = database p).
Proof. apply run_frames_engines. Qed.

Lemma run_counts_frames_and_keeps_cameras_witness :
  Forall (fun f => trackers demo_pipeline !! f_camera f = None) [stray_frame; stray_frame]
  /\ database (fst (run_frames demo_pipeline [stray_frame; stray_frame] second_clock))
     = database demo_pipeline.
Proof.
  assert (H : Forall (fun f => trackers demo_pipeline !! f_camera f = None)
                [stray_frame; stray_frame]) by (repeat constructor).
  split; [exact H|].
  apply (run_counts_frames_and_keeps_cameras demo_pipeline [stray_frame; stray_frame]
           second_clock), H.
Defined.

(** ** The pipeline: events are handed to the writer *)








(** ** The pipeline: the OCR step of a track *)

Lemma fused_text_in_readings config readings f :
  fuse_readings config readings = Some f -> In (fused_text f) (map r_text readings).
Proof.
  intros Hf. destruct readings as [|r0 rs] eqn:Er; [discriminate|].
  rewrite <- Er in *. assert (Hne : readings <> []) by (rewrite Er; discriminate).
  destruct (fuse_cases config readings Hne)
    as [(r & Hr & Hmax) | (group & text & Hg & _ & Hcons & Hin)].
  - rewrite Hr in Hf. injection Hf as <-.
    destruct (first_max_is_max _ _ Hmax) as [Hin _]. cbn. now apply in_map.
  - rewrite Hcons in Hf. injection Hf as <-. cbn.
    apply in_map_iff in Hin as (r & <- & Hr). apply in_map.
    destruct (largest_group_spec _ _ Hg) as (_ & Hgin & _).
    now apply (group_members_are_readings readings group).
Qed.

Lemma fuse_some config readings :
  readings <> [] -> exists f, fuse_readings config readings = Some f.
Proof.
  intros Hne.
  destruct (fuse_cases config readings Hne) as [(r & Hr & _) | (g & t & _ & _ & Hf & _)];
    eauto.
Qed.

Lemma recognize_plate_result eng outcome tid c r :
  snd (fst (recognize_plate eng outcome tid c)) = Some r ->
  let eng' := fst (fst (recognize_plate eng outcome tid c)) in
  successful_reads eng' = successful_reads eng + 1
  /\ total_ocr_calls eng' = total_ocr_calls eng + 1
  /\ plate_alphabet (res_text r) /\ (3 <= String.length (res_text r))%nat.
Proof.
  cbv zeta. unfold recognize_plate, bind.
  destruct (can_process eng tid c) as [ok c1].
  destruct ok; cbn [negb]; [|cbn; discriminate].
  rewrite now_run.
  destruct outcome as [| |[|l lines]]; cbn [fst snd]; try (cbn; discriminate).
  destruct (String.length _ <? 3)%nat eqn:E; cbn [fst snd]; [cbn; discriminate|].
  apply Nat.ltb_ge in E. cbn. intros [= <-]. cbn.
  repeat split; try lia; try exact E. apply clean_plate_alphabet.
Qed.

Lemma recognize_plate_no_result eng outcome tid c :
  snd (fst (recognize_plate eng outcome tid c)) = None ->
  successful_reads (fst (fst (recognize_plate eng outcome tid c))) = successful_reads eng.
Proof.
  unfold recognize_plate, bind.
  destruct (can_process eng tid c) as [ok c1].
  destruct ok; cbn [negb]; [|cbn; reflexivity].
  rewrite now_run.
  destruct outcome as [| |[|l lines]]; cbn [fst snd]; try (cbn; reflexivity).
  destruct (String.length _ <? 3)%nat eqn:E; cbn [fst snd]; cbn; [reflexivity|discriminate].
Qed.

Lemma try_finalize_locks config t :
  plate_locked t = false -> plate_readings t <> [] ->
  let t' := try_finalize config t in
  plate_readings t' = plate_readings t
  /\ (plate_locked t' = true <->
      fusion_min_samples config <= Z.of_nat (length (plate_readings t)))
  /\ (plate_locked t' = true ->
      exists text, plate_text t' = Some text /\ In text (map r_text (plate_readings t)))
  /\ (plate_locked t' = false -> t' = t)
  /\ track_id t' = track_id t /\ state t' = state t
  /\ vehicle_state t' = vehicle_state t /\ bbox t' = bbox t.
Proof.
  intros Hun Hne. cbv zeta. unfold try_finalize.
  destruct (Z.leb_spec (fusion_min_samples config) (Z.of_nat (length (plate_readings t))))
    as [Hle|Hlt].
  - destruct (fuse_some config (plate_readings t) Hne) as [f Hf]. rewrite Hf.
    cbn [finalize_plate plate_readings plate_locked plate_text track_id state
           vehicle_state bbox].
    repeat split; try tauto; try discriminate.
    intros _. exists (fused_text f). split; [reflexivity|].
    now apply (fused_text_in_readings config).
  - repeat split; try tauto; try congruence; try lia.
Qed.

(** X25. The OCR step of a frame stores at most one reading per track, and
    only for a CONFIRMED track whose plate is not locked.  A stored reading
    goes to the end of the track's readings, counts as a successful read of
    the engine, and its text is over [A-Z0-9] with at least 3 characters.
    The plate is locked by that step exactly when the track then holds
    [fusion_min_samples] readings, with the text of one of them; otherwise
    the step only extends the readings.  Without a stored reading the track
    is as before. *)
Theorem ocr_step_stores_one_reading (config : OCRConfig) (eng : OCREngine)
    (t : Track) (outcome : OcrOutcome) (c : Clock) :
  let eng' := fst (fst (ocr_track config eng t outcome c)) in
  let t' := snd (fst (ocr_track config eng t outcome c)) in
  (t' = t /\ successful_reads eng' = successful_reads eng)
  \/ (state t = CONFIRMED /\ plate_locked t = false
      /\ successful_reads eng' = successful_reads eng + 1
      /\ exists r,
           plate_readings t' = plate_readings t ++ [r]
           /\ plate_alphabet (r_text r) /\ (3 <= String.length (r_text r))%nat
           /\ (plate_locked t' = true <->
               fusion_min_samples config <= Z.of_nat (length (plate_readings t')))
           /\ (plate_locked t' = true ->
               exists text, plate_text t' = Some text
                            /\ In text (map r_text (plate_readings t')))
           /\ (plate_locked t' = false ->
               t' = set_plate_readings (plate_readings t ++ [r]) t)
           /\ track_id t' = track_id t /\ state t' = state t
           /\ vehicle_state t' = vehicle_state t /\ bbox t' = bbox t).
Proof.
  cbv zeta. unfold ocr_track.
  destruct (bool_decide (state t = CONFIRMED) && negb (plate_locked t)) eqn:G;
    [|now left].
  apply andb_true_iff in G as [Hst Hun].
  apply bool_decide_eq_true in Hst. apply negb_true_iff in Hun.
  unfold bind.
  destruct (can_process eng (track_id t) c) as [[|] c1]; [|now left].
  pose proof (recognize_plate_result eng outcome (track_id t) c1) as Hres.
  pose proof (recognize_plate_no_result eng outcome (track_id t) c1) as Hno.
  destruct (recognize_plate eng outcome (track_id t) c1) as [[eng' [r|]] c2];
    cbn [fst snd] in *; [|left; split; [reflexivity|now apply Hno]].
  destruct (Hres r eq_refl) as (Hsucc & _ & Halpha & Hlen). clear Hres Hno.
  rewrite add_plate_reading_unlocked by assumption. cbn [ret fst snd].
  right. split; [exact Hst|]. split; [exact Hun|]. split; [exact Hsucc|].
  set (r' := mkReading (res_text r) (res_confidence r) (wall c2 (tick c2))).
  set (t1 := set_plate_readings (plate_readings t ++ [r']) t).
  exists r'.
  assert (Hne : plate_readings t1 <> []) by (cbn; now destruct (plate_readings t)).
  destruct (try_finalize_locks config t1 Hun Hne) as (E & L & X & U & I1 & I2 & I3 & I4).
  rewrite E. change (plate_readings t1) with (plate_readings t ++ [r']).
  change (plate_readings t1) with (plate_readings t ++ [r']) in L, X.
  repeat split; try assumption; try tauto.
Qed.

Lemma ocr_step_stores_one_reading_witness :
  plate_locked (snd (fst (ocr_track sample_ocr_config fresh_ocr undecided_track
                            plate_outcome second_clock))) = true
  /\ exists text,
       plate_text (snd (fst (ocr_track sample_ocr_config fresh_ocr undecided_track
                               plate_outcome second_clock))) = Some text
       /\ In text (map r_text
                     (plate_readings
                        (snd (fst (ocr_track sample_ocr_config fresh_ocr undecided_track
                                     plate_outcome second_clock))))).
Proof.
  assert (Hl : plate_locked (snd (fst (ocr_track sample_ocr_config fresh_ocr
                                         undecided_track plate_outcome second_clock)))
               = true) by (vm_compute; reflexivity).
  split; [exact Hl|].
  destruct (ocr_step_stores_one_reading sample_ocr_config fresh_ocr undecided_track
              plate_outcome second_clock) as [[E _]|(_ & _ & _ & r & _ & _ & _ & _ & X & _)].
  - rewrite E in Hl. discriminate Hl.
  - exact (X Hl).
Defined.

(** ** Camera streams: the capture loop *)

Lemma frame_put_nowait_cases maxsize q item :
  (frame_put_nowait maxsize q item = None /\ 0 < maxsize <= Z.of_nat (length q))
  \/ (frame_put_nowait maxsize q item = Some (q ++ [item])
      /\ (0 < maxsize -> Z.of_nat (length q) < maxsize)).
Proof.
  unfold frame_put_nowait.
  destruct (Z.ltb_spec 0 maxsize), (Z.leb_spec maxsize (Z.of_nat (length q))); cbn;
    [left|right|right|right]; split; auto; lia.
Qed.

(** What one iteration of the capture loop does. *)
Lemma capture_step_cases maxsize s q dev c :
  let s' := fst (fst (fst (capture_step maxsize (s, q) dev c))) in
  let q' := snd (fst (fst (capture_step maxsize (s, q) dev c))) in
  let log := snd (fst (capture_step maxsize (s, q) dev c)) in
  cs_camera_id s' = cs_camera_id s /\ cs_fps s' = cs_fps s
  /\ cs_has_callback s' = cs_has_callback s
  /\ emitted log =
       (if cs_has_callback s && xorb (is_connected s) (is_connected s')
        then [if is_connected s' then CAMERA_CONNECTED (cs_camera_id s)
              else CAMERA_DISCONNECTED (cs_camera_id s)]
        else [])
  /\ match captured log with
     | Some frame =>
         is_connected s = true /\ is_connected s' = true
         /\ dev_read dev = GotFrame frame
         /\ reconnect_attempts s' = reconnect_attempts s
         /\ match pushed log with
            | Some item =>
                item = mkFrameData (cs_camera_id s) frame (wall c (tick c)) (frame_count s)
                /\ q' = q ++ [item] /\ (0 < maxsize -> Z.of_nat (length q) < maxsize)
                /\ frame_count s' = frame_count s + 1
                /\ dropped_frames s' = dropped_frames s
                /\ last_frame_time s' = Some (wall c (S (tick c)))
            | None =>
                q' = q /\ 0 < maxsize <= Z.of_nat (length q)
                /\ frame_count s' = frame_count s
                /\ dropped_frames s' = dropped_frames s + 1
                /\ last_frame_time s' = last_frame_time s
            end
     | None =>
         pushed log = None /\ q' = q
         /\ frame_count s' = frame_count s /\ dropped_frames s' = dropped_frames s
         /\ last_frame_time s' = last_frame_time s
         /\ snd (capture_step maxsize (s, q) dev c) = c
         /\ (is_connected s = true -> is_connected s' = false)
     end.
Proof.
  cbv zeta. unfold capture_step.
  destruct s as [id fps cb conn fc dr lft ra].
  destruct conn; cbn [negb is_connected].
  - destruct (dev_read dev) as [frame| |] eqn:Er.
    + unfold bind. rewrite now_run.
      destruct (frame_put_nowait_cases maxsize q
                  (mkFrameData id frame (wall c (tick c)) fc)) as [[E Hfull]|[E Hroom]];
        cbn [cs_camera_id frame_count]; rewrite E.
      * cbn. rewrite andb_false_r. repeat split; try lia.
      * rewrite now_run. cbn. rewrite andb_false_r. repeat split; try lia.
    + cbn. destruct cb; cbn; repeat split; discriminate.
    + cbn. destruct cb; cbn; repeat split; discriminate.
  - destruct (dev_opens dev); cbn; destruct cb; cbn; repeat split; discriminate.
Qed.



Lemma emitted_events_snoc logs log :
  emitted_events (logs ++ [log]) = emitted_events logs ++ emitted log.
Proof. unfold emitted_events. rewrite flat_map_app. cbn. now rewrite app_nil_r. Qed.

Lemma waits_snoc logs log :
  waits (logs ++ [log])
  = waits logs ++ match waited log with Some w => [w] | None => [] end.
Proof. unfold waits. rewrite omap_app. cbn. now destruct (waited log). Qed.

Ltac split_ands := repeat match goal with |- _ /\ _ => split end.





Example gate_history_run :
  let st := fst (run_bus 1 gate_history (gate_stream, [], []) second_clock) in
  (frame_count (fst (fst st)), dropped_frames (fst (fst st)),
   reconnect_attempts (fst (fst st)), is_connected (fst (fst st))) = (2, 1, 0, false)
  /\ map fd_frame_id (pushed_frames (snd st)) = [0; 1]
  /\ map fd_frame (pushed_frames (snd st)) = [100; 102]
  /\ captured_frames (snd st) = [100; 101; 102]
  /\ emitted_events (snd st) = [CAMERA_CONNECTED 1; CAMERA_DISCONNECTED 1]
  /\ firstn 3 (waits (snd st)) = [inject_Z 1; inject_Z 2; inject_Z 4].
Proof. vm_compute. repeat split. Qed.

(** ** Camera streams: reconnection *)

Lemma failed_connect_step maxsize s q dev c :
  is_connected s = false -> dev_opens dev = false ->
  capture_step maxsize (s, q) dev c
  = (set_reconnect_attempts (reconnect_attempts s + 1) s, q,
     mkCaptureLog None None []
       (Some (inject_Z (Z.min (2 ^ reconnect_attempts s) max_reconnect_delay))), c).
Proof.
  intros Hc Ho. destruct s as [id fps cb conn fc dr lft ra]. cbn in Hc. subst conn.
  unfold capture_step. rewrite Ho. reflexivity.
Qed.

Lemma successful_connect_step maxsize s q dev c :
  is_connected s = false -> dev_opens dev = true ->
  capture_step maxsize (s, q) dev c
  = (set_reconnect_attempts 0 (set_connected true s), q,
     mkCaptureLog None None
       (if cs_has_callback s then [CAMERA_CONNECTED (cs_camera_id s)] else []) None, c).
Proof.
  intros Hc Ho. destruct s as [id fps cb conn fc dr lft ra]. cbn in Hc. subst conn.
  unfold capture_step. rewrite Ho. reflexivity.
Qed.

Lemma backoff_cons n k :
  backoff n (S k) = inject_Z (Z.min (2 ^ n) max_reconnect_delay) :: backoff (n + 1) k.
Proof.
  unfold backoff. cbn [seq map]. rewrite Z.add_0_r. f_equal.
  rewrite <- seq_shift, map_map. apply map_ext. intros i. do 3 f_equal. lia.
Qed.

Lemma failed_connects_run maxsize devs : forall s q logs c,
  is_connected s = false -> Forall (fun d => dev_opens d = false) devs ->
  exists new,
    run_bus maxsize (map Capture devs) (s, q, logs) c
    = (set_reconnect_attempts (reconnect_attempts s + Z.of_nat (length devs)) s, q,
       logs ++ new, c)
    /\ waits new = backoff (reconnect_attempts s) (length devs)
    /\ emitted_events new = [] /\ pushed_frames new = [] /\ captured_frames new = [].
Proof.
  induction devs as [|dev devs IH]; intros s q logs c Hc Hf.
  - exists []. cbn. rewrite app_nil_r, Z.add_0_r.
    destruct s; repeat split.
  - apply Forall_cons in Hf as [Hd Hf].
    set (s1 := set_reconnect_attempts (reconnect_attempts s + 1) s).
    set (log := mkCaptureLog None None []
                  (Some (inject_Z (Z.min (2 ^ reconnect_attempts s) max_reconnect_delay)))).
    destruct (IH s1 q (logs ++ [log]) c Hc Hf) as (new & Erun & Ew & Ee & Ep & Ec).
    exists (log :: new). split.
    + unfold run_bus in *. cbn [map fold_clk bus_action]. unfold bind at 1.
      unfold bind at 1. rewrite (failed_connect_step maxsize s q dev c Hc Hd).
      cbn [ret]. fold s1 log. rewrite Erun. f_equal. f_equal; [|now rewrite <- app_assoc].
      f_equal. subst s1. cbn [length]. rewrite Nat2Z.inj_succ.
      destruct s. unfold set_reconnect_attempts.
      cbn [cs_camera_id cs_fps cs_has_callback is_connected frame_count dropped_frames
             last_frame_time reconnect_attempts].
      f_equal. lia.
    + cbn [length]. rewrite backoff_cons.
      change (reconnect_attempts s1) with (reconnect_attempts s + 1) in Ew.
      repeat split.
      * unfold waits in *. cbn. now rewrite Ew.
      * unfold emitted_events in *. cbn. exact Ee.
      * unfold pushed_frames in *. cbn. exact Ep.
      * unfold captured_frames in *. cbn. exact Ec.
Qed.

Lemma backoff_bounds n k :
  0 <= n -> Forall (fun w => (1 <= w <= 60)%Q) (backoff n k).
Proof.
  intros Hn. unfold backoff. apply Forall_forall. intros w Hw.
  apply list_elem_of_In, in_map_iff in Hw as (i & <- & _).
  assert (Hp : 1 <= 2 ^ (n + Z.of_nat i)).
  { pose proof (Z.pow_pos_nonneg 2 (n + Z.of_nat i)). lia. }
  unfold max_reconnect_delay. split.
  - change 1%Q with (inject_Z 1). rewrite <- Zle_Qle. lia.
  - change 60%Q with (inject_Z 60). rewrite <- Zle_Qle. lia.
Qed.

Lemma backoff_lookup n k i :
  (i < k)%nat ->
  backoff n k !! i = Some (inject_Z (Z.min (2 ^ (n + Z.of_nat i)) max_reconnect_delay)).
Proof.
  intros Hi. unfold backoff. rewrite list_lookup_fmap.
  rewrite lookup_seq_lt by lia. reflexivity.
Qed.

(** X27. Reconnection backs off exponentially up to a minute: a stream that
    is not connected and meets [k] failed connection attempts in a row waits
    [min(2^n, 60)], [min(2^(n+1), 60)], ... seconds after them, [n] being
    its [reconnect_attempts] before; each wait is between 1 and 60 seconds
    and from the attempt numbered 6 on it is 60.  The attempts are counted,
    nothing is put on the queue, no event is emitted and no clock is read.
    A successful attempt sets [reconnect_attempts] back to 0 and does not
    wait. *)
Theorem reconnect_backs_off_up_to_a_minute (maxsize : Z) (s : CameraStream)
    (q : list FrameData) (devs : list Device) (c : Clock) :
  is_connected s = false -> 0 <= reconnect_attempts s ->
  Forall (fun d => dev_opens d = false) devs ->
  let r := run_bus maxsize (map Capture devs) (s, q, []) c in
  let s' := fst (fst (fst r)) in
  let logs := snd (fst r) in
  waits logs = backoff (reconnect_attempts s) (length devs)
  /\ Forall (fun w => (1 <= w <= 60)%Q) (waits logs)
  /\ (forall i, (i < length devs)%nat ->
        waits logs !! i
        = Some (if reconnect_attempts s + Z.of_nat i <? 6
                then inject_Z (2 ^ (reconnect_attempts s + Z.of_nat i)) else 60%Q))
  /\ reconnect_attempts s' = reconnect_attempts s + Z.of_nat (length devs)
  /\ is_connected s' = false
  /\ frame_count s' = frame_count s /\ dropped_frames s' = dropped_frames s
  /\ snd (fst (fst r)) = q /\ pushed_frames logs = [] /\ emitted_events logs = []
  /\ snd r = c
  /\ (forall dev,
        dev_opens dev = true ->
        let r1 := capture_step maxsize (s', q) dev c in
        reconnect_attempts (fst (fst (fst r1))) = 0
        /\ is_connected (fst (fst (fst r1))) = true
        /\ waited (snd (fst r1)) = None).
Proof.
  intros Hc Hn Hf. cbv zeta.
  destruct (failed_connects_run maxsize devs s q [] c Hc Hf) as (new & Erun & Ew & Ee & Ep & Ec).
  rewrite Erun. cbn [fst snd app]. rewrite Ew.
  split_ands; try assumption; try reflexivity.
  - now apply backoff_bounds.
  - intros i Hi. rewrite backoff_lookup by exact Hi. f_equal.
    unfold max_reconnect_delay.
    destruct (Z.ltb_spec (reconnect_attempts s + Z.of_nat i) 6) as [Hlt|Hge].
    + f_equal. apply Z.min_l.
      assert (H5 : 2 ^ (reconnect_attempts s + Z.of_nat i) <= 2 ^ 5)
        by (apply Z.pow_le_mono_r; lia).
      change (2 ^ 5) with 32 in H5. lia.
    + change 60%Q with (inject_Z 60). f_equal. apply Z.min_r.
      assert (H6 : 2 ^ 6 <= 2 ^ (reconnect_attempts s + Z.of_nat i))
        by (apply Z.pow_le_mono_r; lia).
      change (2 ^ 6) with 64 in H6. lia.
  - intros dev Ho.
    rewrite successful_connect_step by (try assumption; destruct s; exact Hc).
    repeat split.
Qed.

Lemma reconnect_backs_off_up_to_a_minute_witness :
  is_connected gate_stream = false /\ 0 <= reconnect_attempts gate_stream
  /\ Forall (fun d => dev_opens d = false) (repeat (mkDevice false NoFrame) 8)
  /\ waits (snd (fst (run_bus 1 (map Capture (repeat (mkDevice false NoFrame) 8))
                        (gate_stream, [], []) second_clock)))
     = backoff (reconnect_attempts gate_stream) 8.
Proof.
  assert (H1 : is_connected gate_stream = false) by reflexivity.
  assert (H2 : 0 <= reconnect_attempts gate_stream) by (cbn; lia).
  assert (H3 : Forall (fun d => dev_opens d = false) (repeat (mkDevice false NoFrame) 8))
    by (repeat constructor).
  split; [exact H1|]. split; [exact H2|]. split; [exact H3|].
  exact (proj1 (reconnect_backs_off_up_to_a_minute 1 gate_stream [] _ second_clock
                  H1 H2 H3)).
Defined.

Example backoff_sequence :
  backoff 0 8 = map inject_Z [1; 2; 4; 8; 16; 32; 60; 60].
Proof. reflexivity. Qed.

(** ** Camera streams: connection events *)

Lemma connection_events_invariant maxsize id fps cb (q0 : list FrameData) actions c :
  let st := fst (run_bus maxsize actions (CameraStream_init id fps cb, q0, []) c) in
  cs_camera_id (fst (fst st)) = id /\ cs_has_callback (fst (fst st)) = cb
  /\ if cb then
       exists n, emitted_events (snd st) = alternating id n
                 /\ is_connected (fst (fst st)) = Nat.odd n
     else emitted_events (snd st) = [].
Proof.
  cbv zeta. unfold run_bus.
  apply (fold_clk_invariant (bus_action maxsize)
    (fun st =>
       cs_camera_id (fst (fst st)) = id /\ cs_has_callback (fst (fst st)) = cb
       /\ if cb then
            exists n, emitted_events (snd st) = alternating id n
                      /\ is_connected (fst (fst st)) = Nat.odd n
          else emitted_events (snd st) = [])).
  - intros [[s q] logs] a c' _ (Hid & Hcb & Hev). cbn [fst snd] in *.
    destruct a as [dev|]; cbn [bus_action]; [|cbn [ret fst snd]; auto].
    unfold bind.
    pose proof (capture_step_cases maxsize s q dev c') as Hs. cbv zeta in Hs.
    destruct (capture_step maxsize (s, q) dev c') as [[[s' q'] log] c''].
    cbn [ret fst snd] in *.
    destruct Hs as (Sid & _ & Scb & Hem & _).
    split; [congruence|]. split; [congruence|].
    rewrite emitted_events_snoc, Hem, Hcb, Hid.
    destruct cb; cbn [andb]; [|now rewrite app_nil_r].
    destruct Hev as (n & Hn & Hconn).
    destruct (xorb (is_connected s) (is_connected s')) eqn:Ex.
    + exists (S n). cbn [alternating]. rewrite Hn. split.
      * f_equal. f_equal. rewrite Hconn in Ex.
        rewrite <- Nat.negb_odd.
        destruct (Nat.odd n), (is_connected s'); cbn in *; congruence.
      * rewrite Nat.odd_succ, <- Nat.negb_odd. rewrite Hconn in Ex.
        destruct (Nat.odd n), (is_connected s'); cbn in *; congruence.
    + exists n. rewrite app_nil_r. split; [exact Hn|].
      rewrite <- Hconn. destruct (is_connected s), (is_connected s'); cbn in *; congruence.
  - cbn. repeat split. destruct cb; [exists 0%nat; split; reflexivity | reflexivity].
Qed.

(** X28. The connection events of a stream alternate: the events handed to
    the callback since the construction of the stream are CAMERA_CONNECTED,
    CAMERA_DISCONNECTED, CAMERA_CONNECTED, ... for the stream's camera id,
    and the stream is connected exactly when their number is odd; so every
    disconnection event follows a connection event, and a failed connection
    attempt emits nothing.  A stream without callback emits no event. *)
Theorem connection_events_alternate (maxsize id fps : Z) (cb : bool)
    (q0 : list FrameData) (actions : list BusAction) (c : Clock) :
  let st := fst (run_bus maxsize actions (CameraStream_init id fps cb, q0, []) c) in
  (cb = true ->
   exists n, emitted_events (snd st) = alternating id n
             /\ is_connected (fst (fst st)) = Nat.odd n)
  /\ (cb = false -> emitted_events (snd st) = []).
Proof.
  cbv zeta.
  destruct (connection_events_invariant maxsize id fps cb q0 actions c) as (_ & _ & H).
  split; intros ->; exact H.
Qed.

Lemma connection_events_alternate_witness :
  exists n,
    emitted_events (snd (fst (run_bus 1 gate_history (gate_stream, [], []) second_clock)))
    = alternating 1 n
    /\ is_connected (fst (fst (fst (run_bus 1 gate_history (gate_stream, [], [])
                                      second_clock)))) = Nat.odd n.
Proof.
  exact (proj1 (connection_events_alternate 1 1 20 true [] gate_history second_clock)
           eq_refl).
Defined.

(** ** The camera manager and the pipeline *)

Lemma find_snoc {A} (f : A -> bool) l x :
  find f (l ++ [x])
  = match find f l with Some y => Some y | None => if f x then Some x else None end.
Proof.
  induction l as [|a l IH]; cbn; [reflexivity|]. destruct (f a); [reflexivity|exact IH].
Qed.

Lemma find_existsb {A} (f : A -> bool) l : is_Some (find f l) <-> existsb f l = true.
Proof.
  induction l as [|a l IH]; cbn.
  - split; [intros [x Hx]; discriminate|discriminate].
  - destruct (f a); cbn; [split; eauto|exact IH].
Qed.

Lemma start_cameras_snoc configs config :
  start_cameras (configs ++ [config]) = fst (add_camera (start_cameras configs) config).
Proof. unfold start_cameras. now rewrite fold_left_app. Qed.

Lemma start_cameras_lookup configs cam :
  start_cameras configs !! cam = first_enabled configs cam.
Proof.
  revert cam. induction configs as [|config configs IH] using rev_ind; intros cam.
  - reflexivity.
  - rewrite start_cameras_snoc. unfold first_enabled. rewrite find_snoc.
    fold (first_enabled configs cam). rewrite <- IH.
    unfold add_camera.
    destruct (start_cameras configs !! cc_id config) as [old|] eqn:Eold.
    + cbn [fst]. destruct (start_cameras configs !! cam) eqn:Ecam; [reflexivity|].
      destruct (Z.eqb_spec (cc_id config) cam) as [E|_]; [congruence|].
      now rewrite andb_false_r.
    + destruct (cc_enabled config); cbn [negb fst andb].
      * destruct (Z.eqb_spec (cc_id config) cam) as [E|Hne].
        -- subst cam. now rewrite lookup_insert_eq, Eold.
        -- rewrite lookup_insert_ne by assumption.
           now destruct (start_cameras configs !! cam).
      * now destruct (start_cameras configs !! cam).
Qed.

Lemma first_enabled_spec configs cam config :
  first_enabled configs cam = Some config ->
  cc_id config = cam /\ cc_enabled config = true /\ In config configs.
Proof.
  intros H. apply find_some in H as [Hin Hf].
  apply andb_true_iff in Hf as [He Hid]. apply Z.eqb_eq in Hid. auto.
Qed.

(** X29. Starting the pipeline gives every camera that has engines a
    stream, and no other: after the loop of [start] the manager holds a
    stream exactly for the ids for which [__init__] created a tracker, an
    event engine and an OCR engine, so a frame put on the queue by a started
    stream always finds its tracker.  For an id that the configuration
    lists more than once the stream is that of the first enabled entry;
    [add_camera] refuses (and changes nothing for) an id it already holds
    and a disabled camera. *)
Theorem started_cameras_have_engines (tracking : TrackingConfig)
    (events : EventConfig) (ocr : OCRConfig) (loaded : bool)
    (configs : list CameraConfig) :
  let cameras := start_cameras configs in
  let p := ANPRPipeline_init tracking events ocr loaded configs in
  (forall cam, cameras !! cam = first_enabled configs cam)
  /\ (forall cam config, cameras !! cam = Some config ->
        cc_id config = cam /\ cc_enabled config = true /\ In config configs)
  /\ dom cameras = dom (trackers p)
  /\ dom cameras = dom (event_engines p)
  /\ dom cameras = dom (ocr_engines p)
  /\ (forall cam config, cameras !! cam = Some config ->
        trackers p !! cam = Some (TrackingEngine_init tracking cam))
  /\ (forall (m : gmap Z CameraConfig) config,
        (snd (add_camera m config) = true <->
         m !! cc_id config = None /\ cc_enabled config = true)
        /\ (snd (add_camera m config) = false -> fst (add_camera m config) = m)
        /\ (snd (add_camera m config) = true ->
            fst (add_camera m config) = <[cc_id config := config]> m)).
Proof.
  cbv zeta.
  destruct (pipeline_init_spec tracking events ocr loaded configs) as (Heng & _).
  cbv zeta in Heng.
  assert (Hsome : forall cam,
            is_Some (start_cameras configs !! cam) <-> enabled_camera configs cam = true).
  { intros cam. rewrite start_cameras_lookup. apply find_existsb. }
  split_ands.
  - apply start_cameras_lookup.
  - intros cam config H. rewrite start_cameras_lookup in H.
    now apply first_enabled_spec.
  - apply set_eq. intros cam. rewrite !elem_of_dom, Hsome.
    destruct (Heng cam) as (-> & _). destruct (enabled_camera configs cam);
      split; intros H; try done; try (now destruct H).
  - apply set_eq. intros cam. rewrite !elem_of_dom, Hsome.
    destruct (Heng cam) as (_ & -> & _). destruct (enabled_camera configs cam);
      split; intros H; try done; try (now destruct H).
  - apply set_eq. intros cam. rewrite !elem_of_dom, Hsome.
    destruct (Heng cam) as (_ & _ & ->). destruct (enabled_camera configs cam);
      split; intros H; try done; try (now destruct H).
  - intros cam config H. destruct (Heng cam) as (-> & _).
    assert (He : enabled_camera configs cam = true) by (apply Hsome; eauto).
    now rewrite He.
  - intros m config. unfold add_camera.
    destruct (m !! cc_id config).
    { cbn. split; [split; [discriminate|intros [? _]; discriminate]|].
      split; [reflexivity|discriminate]. }
    destruct (cc_enabled config); cbn.
    + split; [tauto|]. split; [discriminate|reflexivity].
    + split; [split; [discriminate|intros [_ ?]; discriminate]|].
      split; [reflexivity|discriminate].
Qed.

Lemma started_cameras_have_engines_witness :
  start_cameras demo_cameras !! 1 = Some (mkCameraConfig 1 "gate" "0" true)
  /\ trackers (ANPRPipeline_init demo_tracking_config demo_event_config sample_ocr_config
                 true demo_cameras) !! 1
     = Some (TrackingEngine_init demo_tracking_config 1).
Proof.
  assert (H : start_cameras demo_cameras !! 1 = Some (mkCameraConfig 1 "gate" "0" true))
    by reflexivity.
  split; [exact H|].
  apply (started_cameras_have_engines demo_tracking_config demo_event_config
           sample_ocr_config true demo_cameras) with (config := mkCameraConfig 1 "gate" "0" true).
  exact H.
Defined.

(** ** Camera registration: the last entry wins *)

Lemma find_app_list {A} (f : A -> bool) l1 l2 :
  find f (l1 ++ l2) = match find f l1 with Some y => Some y | None => find f l2 end.
Proof.
  induction l1 as [|a l1 IH]; cbn; [reflexivity|]. destruct (f a); [reflexivity|exact IH].
Qed.

Lemma find_filter {A} (f g : A -> bool) l :
  find f (List.filter g l) = find (fun x => g x && f x) l.
Proof.
  induction l as [|a l IH]; cbn; [reflexivity|].
  destruct (g a); cbn; [destruct (f a); [reflexivity|exact IH]|exact IH].
Qed.

Lemma find_map {A B} (f : B -> bool) (g : A -> B) l :
  find f (map g l) = option_map g (find (fun x => f (g x)) l).
Proof.
  induction l as [|a l IH]; cbn; [reflexivity|]. destruct (f (g a)); [reflexivity|exact IH].
Qed.

Lemma find_none_all {A} (f : A -> bool) l :
  (forall x, In x l -> f x = false) -> find f l = None.
Proof.
  induction l as [|a l IH]; intros H; cbn; [reflexivity|].
  rewrite (H a (or_introl eq_refl)). apply IH. intros x Hx. apply H. now right.
Qed.

Lemma insert_camera_lookup cameras camera id :
  camera_by_id (_insert_camera cameras camera) id
  = if cam_id camera =? id then Some camera else camera_by_id cameras id.
Proof.
  unfold camera_by_id, _insert_camera. rewrite find_app_list, find_filter. cbn [find].
  destruct (Z.eqb_spec (cam_id camera) id) as [E|Hne].
  - rewrite find_none_all; [reflexivity|]. intros r _. subst id.
    destruct (Z.eqb_spec (cam_id r) (cam_id camera)); reflexivity.
  - assert (E : find (fun x => negb (cam_id x =? cam_id camera) && (cam_id x =? id)) cameras
               = find (fun r => cam_id r =? id) cameras).
    { induction cameras as [|r l IH]; cbn; [reflexivity|].
      destruct (Z.eqb_spec (cam_id r) id) as [E1|_].
      - destruct (Z.eqb_spec (cam_id r) (cam_id camera)); [congruence|reflexivity].
      - rewrite andb_false_r. exact IH. }
    rewrite E. destruct (find (fun r => cam_id r =? id) cameras); reflexivity.
Qed.

Lemma fold_insert_camera_lookup rows : forall t id,
  camera_by_id (fold_left _insert_camera rows t) id
  = match find (fun r => cam_id r =? id) (rev rows) with
    | Some r => Some r
    | None => camera_by_id t id
    end.
Proof.
  induction rows as [|r rows IH] using rev_ind; intros t id; [reflexivity|].
  rewrite fold_left_snoc, rev_app_distr. cbn [rev app find].
  rewrite insert_camera_lookup, IH. now destruct (cam_id r =? id).
Qed.

Lemma fold_execute_cameras rows : forall t,
  fold_left execute_op (map insert_camera_op rows) t
  = (fst (fst t), snd (fst t), fold_left _insert_camera rows (snd t)).
Proof.
  induction rows as [|r rows IH]; intros [[ev tr] cam]; cbn [map fold_left]; [reflexivity|].
  rewrite IH. reflexivity.
Qed.

Lemma filter_rev_list {A} (f : A -> bool) l :
  List.filter f (rev l) = rev (List.filter f l).
Proof.
  induction l as [|a l IH]; cbn; [reflexivity|].
  rewrite List.filter_app, IH. cbn. destruct (f a); [reflexivity|now rewrite app_nil_r].
Qed.

(** X30. Camera registration is insert-or-replace, and the last entry
    wins: executing [_insert_camera] leaves exactly one row with the
    camera's id, the new one, and every other row as it was.  So once the
    writer has executed the records queued by [ANPRPipeline.__init__] (at
    most 1000 enabled cameras), the cameras table has at most one row per
    id, and the row of an id is that of the last enabled entry of the
    configuration with this id; the events and tracks tables are empty. *)
Theorem camera_registration_last_entry_wins (tracking : TrackingConfig)
    (events : EventConfig) (ocr : OCRConfig) (loaded : bool)
    (configs : list CameraConfig) (t0 : Z) :
  (length (List.filter cc_enabled configs) <= write_queue_maxsize)%nat ->
  let p := ANPRPipeline_init tracking events ocr loaded configs in
  let t := settled (database p, mkWorker [] t0) in
  fst (fst t) = [] /\ snd (fst t) = []
  /\ List.NoDup (map cam_id (snd t))
  /\ (forall cam,
        camera_by_id (snd t) cam = option_map camera_row (last_enabled configs cam))
  /\ (forall cameras camera id,
        camera_by_id (_insert_camera cameras camera) id
        = if cam_id camera =? id then Some camera else camera_by_id cameras id).
Proof.
  intros Hlen. cbv zeta.
  destruct (pipeline_init_spec tracking events ocr loaded configs)
    as (_ & Hq & Htab & _). cbv zeta in Hq, Htab.
  unfold settled, pending. cbn [fst snd wk_batch app]. rewrite Hq, Htab.
  rewrite take_ge by (rewrite length_map; exact Hlen).
  rewrite <- (map_map camera_row insert_camera_op), fold_execute_cameras. cbn [fst snd].
  split_ands; try reflexivity.
  - pose proof (execute_ops_keep_key
                  (map insert_camera_op (map camera_row (List.filter cc_enabled configs)))
                  ([], [], []) ltac:(constructor)) as Hk.
    rewrite fold_execute_cameras in Hk. exact Hk.
  - intros cam. rewrite fold_insert_camera_lookup.
    unfold last_enabled, first_enabled.
    rewrite <- map_rev, <- filter_rev_list, find_map, find_filter.
    cbn [camera_row cam_id].
    now destruct (find _ (rev configs)).
  - apply insert_camera_lookup.
Qed.

Lemma camera_registration_last_entry_wins_witness :
  (length (List.filter cc_enabled demo_cameras) <= write_queue_maxsize)%nat
  /\ camera_by_id
       (snd (settled (database (ANPRPipeline_init demo_tracking_config demo_event_config
                                  sample_ocr_config true demo_cameras),
                      mkWorker [] 0))) 1
     = option_map camera_row (last_enabled demo_cameras 1).
Proof.
  assert (H : (length (List.filter cc_enabled demo_cameras) <= write_queue_maxsize)%nat)
    by (vm_compute; lia).
  split; [exact H|].
  apply (camera_registration_last_entry_wins demo_tracking_config demo_event_config
           sample_ocr_config true demo_cameras 0 H).
Defined.

Example first_stream_last_row :
  option_map cc_name (start_cameras demo_cameras !! 1) = Some "gate"%string
  /\ option_map cam_name
       (camera_by_id
          (snd (settled (database (ANPRPipeline_init demo_tracking_config demo_event_config
                                     sample_ocr_config true demo_cameras),
                         mkWorker [] 0))) 1)
     = Some "gate-b"%string.
Proof. vm_compute. split; reflexivity. Qed.
